(** * Schema-aware query resolution pipeline: a shallow embedding

    The development follows the JavaScript sources of the dashboard backend:

    - [Parser]          the upload parser (isValidDate, isCurrency, inferDataType);
    - [OpenAI]          src/utils/openai.js (fixSqlQuery, fixQueryLogic,
                        QUERY_PATTERNS, validateAndAdaptSchema, detectQueryType,
                        validateSqlQuery, the post-processing of generateSQL,
                        formatQueryResults);
    - [QueryController] the query controller (validateSqlQuery,
                        safeExecuteQuery, the table selection of processQuery);
    - [Host]            the calls of the upload path to the store, the parser
                        and the file system, as a log of events;
    - [Db]              src/utils/db.js (query, tableExists, createTable);
    - [UploadController] the upload controller (uploadFile, dropTable,
                        insertData).

    Conventions of the embedding.

    - A JavaScript string is a list of characters ([str]); the characters are
      ASCII: [toLowerCase] maps A-Z to a-z and whitespace is the ASCII part of
      the ECMAScript WhiteSpace and LineTerminator classes.
    - Regular expressions are values of [JS.re], run by a backtracking matcher
      that follows the ECMAScript priorities (greedy and lazy stars, ordered
      alternation, look-ahead, word boundary, capture groups).
    - A thrown exception is the [Throw] case of [JS.completion], with the
      message of the error; try/catch is a match on it.
    - Calls to the database are recorded in an explicit log. *)

From Stdlib Require Import Ascii String List ZArith Lia Bool Arith Sorted.
Import ListNotations.

Open Scope string_scope.
Open Scope list_scope.
Open Scope nat_scope.

(* ================================================================== *)
(** * JavaScript strings, numbers and regular expressions              *)
(* ================================================================== *)

Module JS.

Definition str := list ascii.

Definition lit (s : string) : str := list_ascii_of_string s.
Coercion lit : string >-> str.

(** concatenation of two texts, either of which may be written as a literal *)
Notation "a +++ b" := (@app ascii (a : str) (b : str))
  (at level 60, right associativity, only parsing).

Definition code (c : ascii) : nat := nat_of_ascii c.

Definition chr (s : string) : ascii :=
  match s with
  | String c _ => c
  | EmptyString => zero
  end.

Definition inRange (lo hi : nat) (c : ascii) : bool :=
  (lo <=? code c) && (code c <=? hi).

Definition isUpper : ascii -> bool := inRange 65 90.
Definition isLowerAlpha : ascii -> bool := inRange 97 122.
Definition isDigit : ascii -> bool := inRange 48 57.

(** [\w]: letters, digits and underscore. *)
Definition isWord (c : ascii) : bool :=
  isUpper c || isLowerAlpha c || isDigit c || (code c =? 95).

(** [\s] and the characters removed by [trim] (ASCII part). *)
Definition isSpace (c : ascii) : bool :=
  inRange 9 13 c || (code c =? 32).

(** The characters [.] does not match. *)
Definition isLineTerminator (c : ascii) : bool :=
  (code c =? 10) || (code c =? 13).

Definition lowerChar (c : ascii) : ascii :=
  if isUpper c then ascii_of_nat (code c + 32) else c.

Definition toLowerCase (s : str) : str := map lowerChar s.

Definition ceq (a b : ascii) : bool := Ascii.eqb a b.

Fixpoint streq (a b : str) : bool :=
  match a, b with
  | [], [] => true
  | x :: a', y :: b' => ceq x y && streq a' b'
  | _, _ => false
  end.

Fixpoint startsWith (s p : str) : bool :=
  match p, s with
  | [], _ => true
  | x :: p', y :: s' => ceq x y && startsWith s' p'
  | _ :: _, [] => false
  end.

(** [s.includes(p)] *)
Fixpoint includes (s p : str) : bool :=
  startsWith s p ||
  match s with
  | [] => false
  | _ :: s' => includes s' p
  end.

Fixpoint trimStart (s : str) : str :=
  match s with
  | c :: s' => if isSpace c then trimStart s' else s
  | [] => []
  end.

Definition trimEnd (s : str) : str := rev (trimStart (rev s)).

Definition trim (s : str) : str := trimEnd (trimStart s).

(** [s.split(sep)[0]] for a one-character separator. *)
Fixpoint splitHead (sep : ascii) (s : str) : str :=
  match s with
  | [] => []
  | c :: s' => if ceq c sep then [] else c :: splitHead sep s'
  end.

Fixpoint join (sep : str) (l : list str) : str :=
  match l with
  | [] => []
  | [x] => x
  | x :: l' => x ++ sep ++ join sep l'
  end.

(** try/catch: a computation completes normally or throws. *)
Inductive completion (A : Type) : Type :=
| Normal (a : A)
| Throw (message : str).
Arguments Normal {A} a.
Arguments Throw {A} message.

Definition bind {A B} (c : completion A) (f : A -> completion B) : completion B :=
  match c with
  | Normal a => f a
  | Throw m => Throw m
  end.

Notation "x <- c ;; k" := (bind c (fun x => k))
  (at level 61, c at next level, right associativity).

Fixpoint forEachM {A S} (f : S -> A -> completion S) (l : list A) (s : S) : completion S :=
  match l with
  | [] => Normal s
  | a :: l' => s' <- f s a ;; forEachM f l' s'
  end.

(** ** Regular expressions *)

Inductive re : Type :=
| Eps
| Cls (p : ascii -> bool)      (* one character of a class *)
| Seq (a b : re)
| Alt (a b : re)               (* a|b, a first *)
| Star (a : re)                (* a*  greedy *)
| StarLazy (a : re)            (* a*? *)
| Grp (i : nat) (a : re)       (* capture group number i *)
| Bos                          (* ^ *)
| Eos                          (* $ *)
| WordB                        (* \b *)
| NotAhead (a : re).           (* (?!a) *)

Definition Plus (a : re) : re := Seq a (Star a).
Definition Opt (a : re) : re := Alt a Eps.
Definition Ch (c : string) : re := Cls (ceq (chr c)).
(** one character under the [i] flag *)
Definition Chi (c : ascii) : re := Cls (fun x => ceq (lowerChar x) (lowerChar c)).
Definition NotCh (c : string) : re := Cls (fun x => negb (ceq x (chr c))).
Definition AnyOf (s : string) : re := Cls (fun x => existsb (ceq x) (lit s)).
Definition Dot : re := Cls (fun x => negb (isLineTerminator x)).
Definition Any : re := Cls (fun _ => true).       (* [\s\S] *)
Definition Sp : re := Cls isSpace.                (* \s *)
Definition Dg : re := Cls isDigit.                (* \d *)

Fixpoint seqs (l : list re) : re :=
  match l with
  | [] => Eps
  | [a] => a
  | a :: l' => Seq a (seqs l')
  end.

Fixpoint alts (l : list re) : re :=
  match l with
  | [] => NotAhead Eps
  | [a] => a
  | a :: l' => Alt a (alts l')
  end.

(** a literal word, case-sensitive and under the [i] flag *)
Definition Lit (s : str) : re := seqs (map (fun c => Cls (ceq c)) s).
Definition Liti (s : str) : re := seqs (map Chi s).

(** [a{3}] *)
Definition Rep3 (a : re) : re := Seq a (Seq a a).

Record mstate : Type := {
  left : str;                   (* the input before the position, reversed *)
  rest : str;                   (* the input from the position on *)
  caps : list (nat * str)       (* captures, most recent first *)
}.

Definition prevIsWord (st : mstate) : bool :=
  match left st with c :: _ => isWord c | [] => false end.
Definition nextIsWord (st : mstate) : bool :=
  match rest st with c :: _ => isWord c | [] => false end.

Definition consumed (st st' : mstate) : str :=
  firstn (length (rest st) - length (rest st')) (rest st).

Definition orElse {A} (a b : option A) : option A :=
  match a with Some _ => a | None => b end.

(** The iterations of a star: [n] bounds their number, and an iteration
    that consumes no input is given up, as RepeatMatcher does.  The greedy
    star tries one more iteration before the continuation, the lazy star
    the continuation first. *)
Fixpoint greedyLoop (body : mstate -> (mstate -> option mstate) -> option mstate)
  (k : mstate -> option mstate) (n : nat) (st : mstate) {struct n} : option mstate :=
  match n with
  | 0 => k st
  | S n' =>
      orElse
        (body st (fun st' =>
           if length (rest st') <? length (rest st) then greedyLoop body k n' st' else None))
        (k st)
  end.

Fixpoint lazyLoop (body : mstate -> (mstate -> option mstate) -> option mstate)
  (k : mstate -> option mstate) (n : nat) (st : mstate) {struct n} : option mstate :=
  match n with
  | 0 => k st
  | S n' =>
      orElse (k st)
        (body st (fun st' =>
           if length (rest st') <? length (rest st) then lazyLoop body k n' st' else None))
  end.

(** The matcher, in continuation-passing style: [run r st k] tries the ways
    [r] can match at [st] in priority order and gives the first one the
    continuation accepts. *)
Fixpoint run (r : re) (st : mstate) (k : mstate -> option mstate) {struct r}
  : option mstate :=
  match r with
  | Eps => k st
  | Cls p =>
      match rest st with
      | c :: t => if p c then k {| left := c :: left st; rest := t; caps := caps st |}
                  else None
      | [] => None
      end
  | Seq a b => run a st (fun st' => run b st' k)
  | Alt a b => orElse (run a st k) (run b st k)
  | Star a => greedyLoop (run a) k (length (rest st)) st
  | StarLazy a => lazyLoop (run a) k (length (rest st)) st
  | Grp i a =>
      run a st (fun st' =>
         k {| left := left st'; rest := rest st';
              caps := (i, consumed st st') :: caps st' |})
  | Bos => match left st with [] => k st | _ => None end
  | Eos => match rest st with [] => k st | _ => None end
  | WordB => if xorb (prevIsWord st) (nextIsWord st) then k st else None
  | NotAhead a =>
      match run a st Some with
      | Some _ => None
      | None => k st
      end
  end.

(** A match of [r] starting exactly at the position ([left], [rest]). *)
Definition matchAt (r : re) (left rest : str) : option mstate :=
  run r {| left := left; rest := rest; caps := [] |} Some.

(** What a replacement sees of one match. *)
Record minfo : Type := {
  matched : str;
  groups : list (nat * str);
  pre : str;        (* the input before the match *)
  post : str        (* the input after the match *)
}.

Fixpoint group (i : nat) (g : list (nat * str)) : str :=
  match g with
  | [] => []
  | (j, s) :: g' => if i =? j then s else group i g'
  end.

Definition info (left rest : str) (st' : mstate) : minfo :=
  {| matched := firstn (length rest - length (JS.rest st')) rest;
     groups := caps st';
     pre := rev left;
     post := JS.rest st' |}.

(** The leftmost match at or after the position. *)
Fixpoint searchFrom (r : re) (left rest : str) {struct rest} : option minfo :=
  match matchAt r left rest with
  | Some st' => Some (info left rest st')
  | None =>
      match rest with
      | [] => None
      | c :: t => searchFrom r (c :: left) t
      end
  end.

(** [r.test(s)], [s.match(r)] without the g flag *)
Definition search (r : re) (s : str) : option minfo := searchFrom r [] s.
Definition test (r : re) (s : str) : bool :=
  match search r s with Some _ => true | None => false end.

(** [s.replace(r, f)] without the g flag *)
Definition replaceFirst (r : re) (f : minfo -> str) (s : str) : str :=
  match search r s with
  | Some m => pre m ++ f m ++ post m
  | None => s
  end.

(** [s.replace(r, f)] with the g flag: after a match the scan resumes at its
    end, and one character further when the match is empty. *)
Fixpoint replaceLoop (fuel : nat) (r : re) (f : minfo -> str) (left rest : str)
  {struct fuel} : str :=
  match fuel with
  | 0 => rest
  | S fuel' =>
      let step :=
        match rest with
        | [] => []
        | c :: t => c :: replaceLoop fuel' r f (c :: left) t
        end in
      match matchAt r left rest with
      | Some st' =>
          match length rest - length (JS.rest st') with
          | 0 => f (info left rest st') ++ step
          | S _ => f (info left rest st')
                   ++ replaceLoop fuel' r f (JS.left st') (JS.rest st')
          end
      | None => step
      end
  end.

Definition replaceAll (r : re) (f : minfo -> str) (s : str) : str :=
  replaceLoop (S (length s)) r f [] s.

(** [s.match(r)] with the g flag: the matched substrings, in order. *)
Fixpoint matchLoop (fuel : nat) (r : re) (left rest : str) {struct fuel} : list str :=
  match fuel with
  | 0 => []
  | S fuel' =>
      let step :=
        match rest with
        | [] => []
        | c :: t => matchLoop fuel' r (c :: left) t
        end in
      match matchAt r left rest with
      | Some st' =>
          match length rest - length (JS.rest st') with
          | 0 => [] :: step
          | S _ => matched (info left rest st')
                   :: matchLoop fuel' r (JS.left st') (JS.rest st')
          end
      | None => step
      end
  end.

Definition matchAll (r : re) (s : str) : list str :=
  matchLoop (S (length s)) r [] s.

(** *** Replacement strings (GetSubstitution)

    [ngroups] is the number of capture groups of the pattern: [$n] is a
    reference only when group n exists, and is copied literally otherwise. *)

Definition digitVal (c : ascii) : nat := code c - 48.

Fixpoint substitute (fuel : nat) (ngroups : nat) (t : str) (m : minfo) {struct fuel} : str :=
  match fuel with
  | 0 => t
  | S fuel' =>
      match t with
      | [] => []
      | c :: t1 =>
          if negb (code c =? 36) then c :: substitute fuel' ngroups t1 m
          else
            match t1 with
            | [] => [c]
            | d :: t2 =>
                if code d =? 36 then c :: substitute fuel' ngroups t2 m           (* $$ *)
                else if code d =? 38 then matched m ++ substitute fuel' ngroups t2 m   (* $& *)
                else if code d =? 96 then pre m ++ substitute fuel' ngroups t2 m       (* $` *)
                else if code d =? 39 then post m ++ substitute fuel' ngroups t2 m      (* $' *)
                else if isDigit d then
                  let one := digitVal d in
                  let two :=
                    match t2 with
                    | e :: _ => if isDigit e then Some (10 * one + digitVal e) else None
                    | [] => None
                    end in
                  match two with
                  | Some n2 =>
                      if (1 <=? n2) && (n2 <=? ngroups)
                      then group n2 (groups m) ++ substitute fuel' ngroups (tl t2) m
                      else if (1 <=? one) && (one <=? ngroups)
                      then group one (groups m) ++ substitute fuel' ngroups t2 m
                      else c :: substitute fuel' ngroups t1 m
                  | None =>
                      if (1 <=? one) && (one <=? ngroups)
                      then group one (groups m) ++ substitute fuel' ngroups t2 m
                      else c :: substitute fuel' ngroups t1 m
                  end
                else c :: substitute fuel' ngroups t1 m
            end
      end
  end.

(** a replacement given as a string *)
Definition subst (ngroups : nat) (t : str) : minfo -> str :=
  substitute (S (length t)) ngroups t.

(** ** [Number(s)] on strings

    StringToNumber: the text is trimmed; the empty text is 0; otherwise it
    must be a StrNumericLiteral (a signed decimal literal with optional
    fraction and exponent, [Infinity], or an unsigned binary, octal or
    hexadecimal integer literal).  The result keeps the exact decimal value;
    the rounding to a double is done where it matters ([numberIsInteger]). *)

Inductive number : Type :=
| NaN
| Infinite (negative : bool)
| Decimal (negative : bool) (mantissa : Z) (exponent : Z).   (* mantissa * 10^exponent *)

Fixpoint takeWhile (p : ascii -> bool) (s : str) : str :=
  match s with
  | c :: s' => if p c then c :: takeWhile p s' else []
  | [] => []
  end.

Fixpoint dropWhile (p : ascii -> bool) (s : str) : str :=
  match s with
  | c :: s' => if p c then dropWhile p s' else s
  | [] => []
  end.

Definition isEmpty (s : str) : bool :=
  match s with [] => true | _ => false end.

Definition hexVal (c : ascii) : option Z :=
  if isDigit c then Some (Z.of_nat (code c - 48))
  else if inRange 97 102 c then Some (Z.of_nat (code c - 87))
  else if inRange 65 70 c then Some (Z.of_nat (code c - 55))
  else None.

(** the value of a digit sequence in a base; [None] when a character is not
    a digit of the base *)
Fixpoint digitsValue (base : Z) (acc : Z) (s : str) : option Z :=
  match s with
  | [] => Some acc
  | c :: s' =>
      match hexVal c with
      | Some d => if (d <? base)%Z then digitsValue base (base * acc + d) s' else None
      | None => None
      end
  end.

Definition decimalValue (s : str) : Z :=
  match digitsValue 10 0 s with Some v => v | None => 0%Z end.

Definition parseNonDecimal (base : Z) (s : str) : number :=
  if isEmpty s then NaN
  else match digitsValue base 0 s with
       | Some v => Decimal false v 0
       | None => NaN
       end.

(** ExponentPart, after the [e]: an optional sign and at least one digit,
    up to the end of the text *)
Definition parseExponent (s : str) : option Z :=
  let '(neg, ds) :=
    match s with
    | c :: t => if code c =? 45 then (true, t)
                else if code c =? 43 then (false, t) else (false, s)
    | [] => (false, s)
    end in
  if isEmpty ds || negb (forallb isDigit ds) then None
  else Some (if neg then (- decimalValue ds)%Z else decimalValue ds).

Definition parseUnsignedDecimal (neg : bool) (s : str) : number :=
  if streq s "Infinity" then Infinite neg
  else
    let ip := takeWhile isDigit s in
    let r1 := dropWhile isDigit s in
    let '(fp, r2) :=
      match r1 with
      | c :: t => if code c =? 46 then (takeWhile isDigit t, dropWhile isDigit t)
                  else ([], r1)
      | [] => ([], r1)
      end in
    if isEmpty ip && isEmpty fp then NaN
    else
      let mant := decimalValue (ip ++ fp) in
      let scale := Z.of_nat (length fp) in
      match r2 with
      | [] => Decimal neg mant (- scale)
      | c :: t =>
          if (code c =? 101) || (code c =? 69) then
            match parseExponent t with
            | Some e => Decimal neg mant (e - scale)
            | None => NaN
            end
          else NaN
      end.

Definition Number (s : str) : number :=
  match trim s with
  | [] => Decimal false 0 0
  | c :: t =>
      if code c =? 45 then parseUnsignedDecimal true t
      else if code c =? 43 then parseUnsignedDecimal false t
      else
        match t with
        | x :: u =>
            if code c =? 48 then
              if (code x =? 120) || (code x =? 88) then parseNonDecimal 16 u
              else if (code x =? 111) || (code x =? 79) then parseNonDecimal 8 u
              else if (code x =? 98) || (code x =? 66) then parseNonDecimal 2 u
              else parseUnsignedDecimal false (c :: t)
            else parseUnsignedDecimal false (c :: t)
        | [] => parseUnsignedDecimal false (c :: t)
        end
  end.

Definition isNaN (n : number) : bool :=
  match n with NaN => true | _ => false end.

(** floor (log2 (a / b)) for positive [a] and [b] *)
Definition floorLog2 (a b : Z) : Z :=
  let k := (Z.log2 a - Z.log2 b)%Z in
  let reaches := if (0 <=? k)%Z then (b * 2 ^ k <=? a)%Z else (b <=? a * 2 ^ (- k))%Z in
  if reaches then k else (k - 1)%Z.

(** a / b rounded to the nearest integer, ties to even *)
Definition roundHalfEven (a b : Z) : Z :=
  let q := (a / b)%Z in
  let r := (a mod b)%Z in
  if (2 * r <? b)%Z then q
  else if (b <? 2 * r)%Z then (q + 1)%Z
  else if Z.even q then q else (q + 1)%Z.

(** Is the double nearest to a / b (a >= 0, b > 0) finite and integral?  The
    double is m * 2^e, with e the exponent of the unit in the last place
    (53 bits of precision, least normal exponent -1022). *)
Definition doubleIsInteger (a b : Z) : bool :=
  if (a =? 0)%Z then true
  else
    let e := (Z.max (floorLog2 a b) (-1022) - 52)%Z in
    if (0 <=? e)%Z
    then (roundHalfEven a (b * 2 ^ e) * 2 ^ e <? 2 ^ 1024)%Z
    else (roundHalfEven (a * 2 ^ (- e)) b mod 2 ^ (- e) =? 0)%Z.

(** [Number.isInteger(n)] *)
Definition numberIsInteger (n : number) : bool :=
  match n with
  | NaN => false
  | Infinite _ => false
  | Decimal _ m e =>
      if (0 <=? e)%Z then doubleIsInteger (m * 10 ^ e) 1
      else doubleIsInteger m (10 ^ (- e))
  end.

(** ** Small helpers of the embedding *)

(** method chaining: [s |> f |> g] is [s.f().g()] *)
Definition pipe {A B : Type} (x : A) (f : A -> B) : B := f x.
Notation "x |> f" := (pipe x f) (at level 50, left associativity, only parsing).

(** the double quote character, and a text between double quotes *)
Definition dq : ascii := ascii_of_nat 34.
Definition quoted (s : str) : str := dq :: s ++ [dq].

Definition DQ : re := Cls (ceq dq).                              (* a double quote *)
Definition NotDQ : re := Cls (fun x => negb (ceq x dq)).         (* any other character *)
Definition AnyQuote : re := Cls (fun x => ceq x dq || (code x =? 39)).   (* a double or single quote *)

(** the number of capture groups of a pattern *)
Fixpoint ngroups (r : re) : nat :=
  match r with
  | Seq a b | Alt a b => Nat.max (ngroups a) (ngroups b)
  | Star a | StarLazy a | NotAhead a => ngroups a
  | Grp i a => Nat.max i (ngroups a)
  | _ => 0
  end.

(** truthiness of a value that is a string, [undefined] or [null] *)
Definition truthy (v : option str) : bool :=
  match v with
  | Some (_ :: _) => true
  | _ => false
  end.

(** [a || b] on such values *)
Definition orElseStr (a b : option str) : option str :=
  if truthy a then a else b.

(** *** Objects used as maps

    An object keeps its own string keys in insertion order; assigning to an
    existing key keeps the key's place.  [Object.entries] lists the keys that
    are array indices first, in increasing order, then the other keys.

    The objects are made by an object literal, so they inherit from
    Object.prototype.  The key [__proto__] is the accessor they inherit: the
    assignment [obj['__proto__'] = v] of a string or a number (the values the
    program stores) is ignored; it makes no own key, and [Object.entries]
    does not list it. *)
Definition object (V : Type) : Type := list (str * V).

Definition protoKey : str := "__proto__".

(** the assignment to an own key *)
Fixpoint setOwnKey {V} (k : str) (v : V) (o : object V) : object V :=
  match o with
  | [] => [(k, v)]
  | (k', v') :: o' => if streq k k' then (k, v) :: o' else (k', v') :: setOwnKey k v o'
  end.

(** [obj[k] = v] *)
Definition setKey {V} (k : str) (v : V) (o : object V) : object V :=
  if streq k protoKey then o else setOwnKey k v o.

Fixpoint getKey {V} (k : str) (o : object V) : option V :=
  match o with
  | [] => None
  | (k', v') :: o' => if streq k k' then Some v' else getKey k o'
  end.

(** a canonical numeric string below 2^32 - 1 *)
Definition arrayIndex (k : str) : option Z :=
  match k with
  | [] => None
  | c :: t =>
      if forallb isDigit k && implb (code c =? 48) (isEmpty t)
      then let v := decimalValue k in
           if (v <? 4294967295)%Z then Some v else None
      else None
  end.

Fixpoint insertIndexed {V} (i : Z) (e : str * V) (l : list (Z * (str * V)))
  : list (Z * (str * V)) :=
  match l with
  | [] => [(i, e)]
  | (j, e') :: l' => if (i <? j)%Z then (i, e) :: l else (j, e') :: insertIndexed i e l'
  end.

Fixpoint indexedEntries {V} (o : object V) : list (Z * (str * V)) :=
  match o with
  | [] => []
  | (k, v) :: o' =>
      match arrayIndex k with
      | Some i => insertIndexed i (k, v) (indexedEntries o')
      | None => indexedEntries o'
      end
  end.

Definition entries {V} (o : object V) : list (str * V) :=
  map snd (indexedEntries o)
  ++ filter (fun e => match arrayIndex (fst e) with Some _ => false | None => true end) o.

(** ** Values of result rows *)

Inductive jsval : Type :=
| JNull
| JUndefined
| JBool (b : bool)
| JNumber (n : number)
| JString (s : str).

(** [Number(v)] *)
Definition toNumber (v : jsval) : number :=
  match v with
  | JNull => Decimal false 0 0
  | JUndefined => NaN
  | JBool b => Decimal false (if b then 1 else 0) 0
  | JNumber n => n
  | JString s => Number s
  end.

(** A row: the columns in the order [Object.keys] lists them. *)
Definition row : Type := object jsval.

(** [row[key]]: the value of an own key, [undefined] for a key the row does
    not have.  The members that every object inherits from Object.prototype
    (constructor, __proto__, toString and the like) are left out of account:
    the keys read are the column names of the row. *)
Definition field (r : row) (key : str) : jsval :=
  match getKey key r with
  | Some v => v
  | None => JUndefined
  end.

(** ** Pattern texts

    The constructor [new RegExp(source, 'gi')] on a fragment of the pattern
    grammar: characters that are not syntax characters (matched without
    regard to case), the escapes [\b] and [\s], the quantifiers [*] and [+]
    after a character or [\s], and negative look-ahead groups.  A text
    outside the fragment is not interpreted: the answer for it is a [Throw],
    which is what the constructor does for some of them only, so this
    function is to be applied to texts of the fragment. *)

Definition syntaxCharacter (c : ascii) : bool :=
  existsb (ceq c) (lit "^$\.*+?()[]{}|").

Definition quantified (atom : re) (s : str) : re * str :=
  match s with
  | c :: t =>
      if code c =? 42 then (Star atom, t)
      else if code c =? 43 then (Plus atom, t)
      else (atom, s)
  | [] => (atom, s)
  end.

(** a sequence of terms, up to the end of the text or a closing parenthesis *)
Fixpoint parseTerms (fuel : nat) (s : str) {struct fuel} : option (re * str) :=
  match fuel with
  | 0 => None
  | S fuel' =>
      let continue (a : re) (t : str) :=
        match parseTerms fuel' t with
        | Some (r, t') => Some (Seq a r, t')
        | None => None
        end in
      match s with
      | [] => Some (Eps, [])
      | c :: t =>
          if code c =? 41 then Some (Eps, s)
          else if code c =? 92 then
            match t with
            | d :: u =>
                if code d =? 98 then continue WordB u
                else if code d =? 115 then let '(a, u') := quantified Sp u in continue a u'
                else None
            | [] => None
            end
          else if code c =? 40 then
            match t with
            | q :: e :: u =>
                if (code q =? 63) && (code e =? 33) then
                  match parseTerms fuel' u with
                  | Some (a, close :: u') =>
                      if code close =? 41 then continue (NotAhead a) u' else None
                  | _ => None
                  end
                else None
            | _ => None
            end
          else if syntaxCharacter c then None
          else let '(a, t') := quantified (Chi c) t in continue a t'
      end
  end.

Definition compileFragment (source : str) : completion re :=
  match parseTerms (S (length source)) source with
  | Some (r, []) => Normal r
  | _ => Throw "Invalid regular expression"
  end.

(** ** [parseInt(s, 10)] on strings

    Leading white space is skipped, then an optional sign; the value is that
    of the longest run of decimal digits that follows, and [NaN] when there
    is none.  The result is a double: the integer is rounded to the nearest
    double, ties to even, and is infinite beyond the largest double.  (The
    host converts the whole run of digits; the standard also allows an
    implementation to replace the digits after the twentieth by zeros.) *)

(** the double nearest to a natural number, [None] when it is infinite:
    integers up to 2^53 are doubles; above, the unit in the last place is
    2^e with e = floor(log2 z) - 52 *)
Definition nearestDouble (z : Z) : option Z :=
  let e := (Z.log2 z - 52)%Z in
  if (e <=? 0)%Z then Some z
  else
    let rounded := (roundHalfEven z (2 ^ e) * 2 ^ e)%Z in
    if (rounded <? 2 ^ 1024)%Z then Some rounded else None.

Definition parseInt10 (s : str) : number :=
  let s := trimStart s in
  let '(neg, s) :=
    match s with
    | c :: t => if code c =? 45 then (true, t)
                else if code c =? 43 then (false, t) else (false, s)
    | [] => (false, s)
    end in
  let z := takeWhile isDigit s in
  if isEmpty z then NaN
  else match nearestDouble (decimalValue z) with
       | Some v => Decimal neg v 0
       | None => Infinite neg
       end.

(** the decimal text of a natural number, as a template literal prints it *)
Fixpoint decimalDigits (fuel n : nat) (acc : str) : str :=
  match fuel with
  | 0 => acc
  | S fuel' =>
      let acc' := ascii_of_nat (48 + n mod 10) :: acc in
      if n / 10 =? 0 then acc' else decimalDigits fuel' (n / 10) acc'
  end.

Definition natToString (n : nat) : str := decimalDigits (S n) n [].

(** does the double nearest to the value equal zero: the value is zero or at
    most half the least positive double, 2^-1075 *)
Definition numberIsZero (n : number) : bool :=
  match n with
  | Decimal _ m e =>
      (m =? 0)%Z || ((e <? 0)%Z && (Z.abs m * 2 ^ 1075 <=? 10 ^ (- e))%Z)
  | _ => false
  end.

(** truthiness of a value *)
Definition truthyVal (v : jsval) : bool :=
  match v with
  | JNull | JUndefined => false
  | JBool b => b
  | JNumber n => negb (isNaN n || numberIsZero n)
  | JString s => negb (isEmpty s)
  end.

(** a line feed, and the indentation of a template literal *)
Definition nl : str := [ascii_of_nat 10].
Definition indent (n : nat) : str := repeat (ascii_of_nat 32) n.

End JS.

(* ================================================================== *)
(** * The upload parser: type inference                                *)
(* ================================================================== *)

Module Parser.
Import JS.

(** A cell of a parsed row.  The CSV reader yields strings; a missing cell
    is [null] or [undefined]. *)
Inductive value : Type :=
| Null
| Undefined
| Str (s : str).

Inductive dataType : Type := TEXT | INTEGER | NUMERIC | DATE.

(** [/^-?\d+(\.\d+)?$/] *)
Definition plainNumberRe : re :=
  seqs [Bos; Opt (Ch "-"); Plus Dg; Opt (Grp 1 (Seq (Ch ".") (Plus Dg))); Eos].

(** [/^-?\d+(,\d{3})*(\.\d+)?$/] *)
Definition groupedNumberRe : re :=
  seqs [Bos; Opt (Ch "-"); Plus Dg; Star (Grp 1 (Seq (Ch ",") (Rep3 Dg)));
        Opt (Grp 2 (Seq (Ch ".") (Plus Dg))); Eos].

Section WithDate.

(** [!isNaN(new Date(s).getTime())]: whether the host's date parser accepts
    the text.  The accepted formats are the host's own. *)
Variable dateParses : str -> bool.

Definition isValidDate (value : str) : bool :=
  (* Skip short values that are likely not dates *)
  if length value <? 6 then false
  (* Check if it's a number (like "9") - not a date *)
  else if negb (isNaN (Number value)) && (length value <? 4) then false
  (* If it looks like a currency or numeric value, it's not a date *)
  else if includes value "$" || (test plainNumberRe value && negb (includes value "/"))
  then false
  (* Try to parse as date *)
  else dateParses value.

Definition isCurrency (value : str) : bool :=
  includes value "$" ||
  test groupedNumberRe value ||
  (test plainNumberRe value && includes value ".").

Definition validValue (v : value) : option str :=
  match v with
  | Str (c :: s) => Some (c :: s)
  | _ => None
  end.

(** [values.filter(v => v !== null && v !== undefined && v !== '')] *)
Fixpoint validValues (values : list value) : list str :=
  match values with
  | [] => []
  | v :: values' =>
      match validValue v with
      | Some s => s :: validValues values'
      | None => validValues values'
      end
  end.

Definition count (p : str -> bool) (l : list str) : nat := length (filter p l).

Definition likelyNumericColumn (lowerColName : str) : bool :=
  includes lowerColName "price" ||
  includes lowerColName "cost" ||
  includes lowerColName "total" ||
  includes lowerColName "amount" ||
  includes lowerColName "sum" ||
  includes lowerColName "qty" ||
  includes lowerColName "quantity".

Definition dateHint (lowerColName : str) : bool :=
  includes lowerColName "date" ||
  includes lowerColName "time" ||
  includes lowerColName "day" ||
  includes lowerColName "month" ||
  includes lowerColName "year".

Definition looksNumeric (v : str) : bool := isCurrency v || negb (isNaN (Number v)).

(** The quotients [count / length >= 0.7] and [count / length > 0.9] are
    compared exactly.  An array has fewer than 2^32 elements; a quotient of
    two such counts that differs from 7/10 differs from it by at least
    1/(10 * 2^32), far more than the rounding of the quotient and of the
    constant, so the rounded values compare as the exact ones do; the
    second test is reached with [count = length] only, where the quotient
    is 1. *)
Definition inferDataType (values : list value) (columnName : str) : dataType :=
  (* Filter out null and undefined values *)
  let valid := validValues values in
  if length valid =? 0 then TEXT
  else
    let lowerColName := toLowerCase columnName in
    (* If column name suggests money, check if values look like currency *)
    let currencyCount := count looksNumeric valid in
    if likelyNumericColumn lowerColName
       && ((0 <? currencyCount) && (7 * length valid <=? 10 * currencyCount))
    then NUMERIC
    else
      (* Check if all values can be parsed as dates *)
      let possibleDateCount := count isValidDate valid in
      let asDate :=
        if (possibleDateCount =? length valid) && (0 <? possibleDateCount) then
          if dateHint lowerColName then Some DATE
          else if 9 * length valid <? 10 * possibleDateCount then Some DATE
          else None
        else None in
      match asDate with
      | Some t => t
      | None =>
          (* Check if all values can be parsed as numbers *)
          let possibleNumberCount := count (fun v => negb (isNaN (Number v))) valid in
          if possibleNumberCount =? length valid then
            let integerCount := count (fun v => numberIsInteger (Number v)) valid in
            if integerCount =? length valid then INTEGER else NUMERIC
          else TEXT
      end.

End WithDate.

End Parser.

(* ================================================================== *)
(** * src/utils/openai.js                                              *)
(* ================================================================== *)

Module OpenAI.
Import JS.

(** A column description.  The catalog gives [column_name] and [data_type],
    the upload parser and the normalised schema give [name] and [type]; a
    field that is absent is [None]. *)
Record column : Type := {
  name : option str;
  column_name : option str;
  type : option str;
  data_type : option str
}.

(** [/\s+/g], [/\s*,\s*/g], [/\s*\(\s*/g], [/\s*\)\s*/g] *)
Definition spacesRe : re := Plus Sp.
Definition commaRe : re := seqs [Star Sp; Ch ","; Star Sp].
Definition openParenRe : re := seqs [Star Sp; Ch "("; Star Sp].
Definition closeParenRe : re := seqs [Star Sp; Ch ")"; Star Sp].

(** In the comments on patterns, Q stands for the double quote character.
    [/FROM\s+Q[^Q]+Q/gi] and [new RegExp(`FROM\\s+Q[^Q]+Q\\s*$`, 'i')] *)
Definition fromClauseRe : re := seqs [Liti "FROM"; Plus Sp; DQ; Plus NotDQ; DQ].
Definition lastFromClauseRe : re :=
  seqs [Liti "FROM"; Plus Sp; DQ; Plus NotDQ; DQ; Star Sp; Eos].

(** two quoted texts separated by optional spaces; the groups 1 and 2 are
    the texts between the quotes (flag g) *)
Definition brokenAliasRe : re :=
  seqs [DQ; Grp 1 (Star NotDQ); DQ; Star Sp; DQ; Grp 2 (Star NotDQ); DQ].

(** Ensure proper spacing around SQL keywords *)
Definition spacing (sql : str) : str :=
  sql
  |> replaceAll spacesRe (subst 0 " ")
  |> replaceAll commaRe (subst 0 ", ")
  |> replaceAll openParenRe (subst 0 "(")
  |> replaceAll closeParenRe (subst 0 ")").

(** the pattern texts given to the RegExp constructor *)
Definition columnPatternSource (lower : str) : str :=
  "\b" +++ lower +++ "\b(?!\s*" +++ [dq] +++ ")".
Definition tablePatternSource (tableName : str) : str :=
  "\bfrom\s+" +++ tableName +++ "\b".

Section WithRegExp.

(** [new RegExp(source, 'gi')] for a pattern text built at run time: the
    compiled pattern, or the SyntaxError the constructor throws.  The
    pattern grammar is the host's. *)
Variable RegExp : str -> completion re.

(** [column.name || column.column_name]; [undefined] when both are absent *)
Definition colNameOf (c : column) : option str := orElseStr (name c) (column_name c).

Definition buildColumnMap (tableSchema : list column) : completion (object str) :=
  forEachM (fun columnMap column =>
              match colNameOf column with
              | Some colName => Normal (setKey (toLowerCase colName) colName columnMap)
              | None => Throw "Cannot read properties of undefined (reading 'toLowerCase')"
              end) tableSchema [].

(** Replace unquoted column names with properly quoted ones *)
Definition quoteColumn (fixedSql : str) (entry : str * str) : completion str :=
  let '(lower, proper) := entry in
  regex <- RegExp (columnPatternSource lower) ;;
  Normal (replaceAll regex (subst (ngroups regex) (quoted proper)) fixedSql).

(** Ensure table name is properly quoted *)
Definition quoteTable (fixedSql : str) (tableName : str) : completion str :=
  regex <- RegExp (tablePatternSource tableName) ;;
  Normal (replaceAll regex (subst (ngroups regex) ("FROM " +++ quoted tableName)) fixedSql).

(** the body of the try block *)
Definition fixSqlQueryBody (sql : str) (tableSchema : option (list column))
  (tableName : option str) : completion str :=
  (* First, ensure proper spacing around SQL keywords *)
  let fixedSql := spacing sql in
  (* Fix column names if schema is provided *)
  fixedSql <-
    match tableSchema with
    | Some cols =>
        columnMap <- buildColumnMap cols ;;
        forEachM quoteColumn (entries columnMap) fixedSql
    | None => Normal fixedSql
    end ;;
  fixedSql <-
    match tableName with
    | Some (c :: t) => quoteTable fixedSql (c :: t)
    | _ => Normal fixedSql
    end ;;
  (* Remove duplicate FROM clauses *)
  let fromClauses := matchAll fromClauseRe fixedSql in
  let fixedSql :=
    if 1 <? length fromClauses
    then replaceFirst lastFromClauseRe (subst 0 []) fixedSql
    else fixedSql in
  (* Fix broken quotes in aliases *)
  let fixedSql :=
    replaceAll brokenAliasRe (subst 2 (quoted "$1_$2")) fixedSql in
  Normal (trim (spacing fixedSql)).

(** Fix SQL query issues including column names and aliases: on any
    exception the catch block returns the input *)
Definition fixSqlQuery (sql : str) (tableSchema : option (list column))
  (tableName : option str) : str :=
  match fixSqlQueryBody sql tableSchema tableName with
  | Normal fixedSql => fixedSql
  | Throw _ => sql
  end.

End WithRegExp.

(** ** fixQueryLogic: special patterns for business analytics queries *)

(** the text a template literal gives for a value that may be [undefined] *)
Definition interpolate (v : option str) : str :=
  match v with
  | Some s => s
  | None => "undefined"
  end.

(** [v.toLowerCase()], a TypeError when [v] is [undefined] *)
Definition lowerOf (v : option str) : completion str :=
  match v with
  | Some s => Normal (toLowerCase s)
  | None => Throw "Cannot read properties of undefined (reading 'toLowerCase')"
  end.

(** [a || b] where [b] may throw and is evaluated only when [a] is false *)
Definition orM (a : bool) (b : completion bool) : completion bool :=
  if a then Normal true else b.

Definition andM (a : bool) (b : completion bool) : completion bool :=
  if a then b else Normal false.

(** [l.find(p)] for a predicate that may throw *)
Fixpoint findM {A} (p : A -> completion bool) (l : list A) : completion (option A) :=
  match l with
  | [] => Normal None
  | a :: l' => b <- p a ;; if b then Normal (Some a) else findM p l'
  end.

(** a found element that may itself be [undefined] *)
Definition flatten (v : option (option str)) : option str :=
  match v with
  | Some x => x
  | None => None
  end.

Record columnKinds : Type := {
  dateColumns : list (option str);
  numericColumns : list (option str);
  categoryColumns : list (option str)
}.

Definition classifyColumn (k : columnKinds) (col : column) : completion columnKinds :=
  let colName := orElseStr (name col) (column_name col) in
  let colType := toLowerCase (interpolate (orElseStr (orElseStr (type col) (data_type col)) (Some []))) in
  (* Identify date columns *)
  isDate <- orM (includes colType "date" || includes colType "time")
              (n <- lowerOf colName ;; Normal (includes n "date" || includes n "day")) ;;
  let k := if isDate
           then {| dateColumns := dateColumns k ++ [colName];
                   numericColumns := numericColumns k;
                   categoryColumns := categoryColumns k |}
           else k in
  (* Identify numeric columns *)
  isNumeric <- orM (includes colType "int" || includes colType "numeric"
                    || includes colType "decimal" || includes colType "float"
                    || includes colType "double")
                 (n <- lowerOf colName ;;
                  Normal (includes n "price" || includes n "total"
                          || includes n "quantity" || includes n "amount")) ;;
  let k := if isNumeric
           then {| dateColumns := dateColumns k;
                   numericColumns := numericColumns k ++ [colName];
                   categoryColumns := categoryColumns k |}
           else k in
  (* Identify category columns *)
  isCategory <- andM (includes colType "char" || includes colType "text")
                  (n <- lowerOf colName ;;
                   Normal (includes n "category" || includes n "type"
                           || includes n "status" || includes n "region")) ;;
  Normal (if isCategory
          then {| dateColumns := dateColumns k;
                  numericColumns := numericColumns k;
                  categoryColumns := categoryColumns k ++ [colName] |}
          else k).

(** [/where\s+[Qq]?category[Qq]?\s+(?:=|ilike)\s+[Qq]camera[Qq]/i], with [Qq]
    a double or single quote *)
Definition cameraRe : re :=
  seqs [Liti "where"; Plus Sp; Opt AnyQuote; Liti "category"; Opt AnyQuote; Plus Sp;
        Alt (Ch "=") (Liti "ilike"); Plus Sp; AnyQuote; Liti "camera"; AnyQuote].

(** [/GROUP BY\s+[Qq]?month[Qq]?/i], [/select.*month/i], [/SELECT\s+/i] *)
Definition groupByMonthRe : re :=
  seqs [Liti "GROUP BY"; Plus Sp; Opt AnyQuote; Liti "month"; Opt AnyQuote].
Definition selectMonthRe : re := seqs [Liti "select"; Star Dot; Liti "month"].
Definition selectRe : re := seqs [Liti "SELECT"; Plus Sp].

(** [\d+(?:\.\d+)?] *)
Definition amountRe : re := Seq (Plus Dg) (Opt (Seq (Ch ".") (Plus Dg))).

(** [/[Qq]?\$(\d+(?:\.\d+)?)[Qq]?/g] and [/(>=|<=|>|<|=)\s*(\d+(?:\.\d+)?)/g] *)
Definition dollarRe : re := seqs [Opt AnyQuote; Ch "$"; Grp 1 amountRe; Opt AnyQuote].
Definition comparisonRe : re :=
  seqs [Grp 1 (alts [Lit ">="; Lit "<="; Ch ">"; Ch "<"; Ch "="]); Star Sp; Grp 2 amountRe].

Definition monthWords : list str :=
  ["month" : str; "january" : str; "february" : str; "march" : str; "april" : str;
   "may" : str; "june" : str; "july" : str; "august" : str; "september" : str;
   "october" : str; "november" : str; "december" : str].

Definition fixQueryLogic (sqlQuery : str) (tableSchema : option (list column))
  (tableName : option str) : completion str :=
  let fixedQuery := sqlQuery in
  (* Only process schema if it exists *)
  kinds <- match tableSchema with
           | Some cols =>
               forEachM classifyColumn cols
                 {| dateColumns := []; numericColumns := []; categoryColumns := [] |}
           | None =>
               Normal {| dateColumns := []; numericColumns := []; categoryColumns := [] |}
           end ;;
  (* Fix 1: Looking for camera-related items but using Category *)
  let fixedQuery :=
    if includes (toLowerCase sqlQuery) "camera" && test cameraRe sqlQuery
    then replaceFirst cameraRe (subst 0 ("WHERE " +++ quoted "Product" +++ " ILIKE '%camera%'"))
           fixedQuery
    else fixedQuery in
  (* Fix 2: Enhance date filters for month/quarter queries *)
  let fixedQuery :=
    if existsb (includes (toLowerCase fixedQuery)) monthWords then
      match dateColumns kinds with
      | dateCol :: _ =>
          if negb (includes (toLowerCase fixedQuery) "extract(month from")
             && negb (includes (toLowerCase fixedQuery) "to_char")
             && negb (includes (toLowerCase fixedQuery) "date_trunc")
          then
            if includes (toLowerCase fixedQuery) "group by" then
              let fixedQuery :=
                replaceFirst groupByMonthRe
                  (subst 0 ("GROUP BY TO_CHAR(" +++ quoted (interpolate dateCol) +++ ", 'Month')"))
                  fixedQuery in
              if negb (includes (toLowerCase fixedQuery) "to_char")
                 && negb (test selectMonthRe fixedQuery)
              then replaceFirst selectRe
                     (subst 0 ("SELECT TO_CHAR(" +++ quoted (interpolate dateCol)
                               +++ ", 'Month') AS " +++ quoted "Month" +++ ", "))
                     fixedQuery
              else fixedQuery
            else fixedQuery
          else fixedQuery
      | [] => fixedQuery
      end
    else fixedQuery in
  (* Fix 3: Detect and fix dollar amount filters *)
  fixedQuery <-
    (if includes (toLowerCase fixedQuery) "$" && (0 <? length (numericColumns kinds)) then
       found <- findM (fun col => n <- lowerOf col ;;
                                  Normal (includes n "price" || includes n "total"
                                          || includes n "amount"))
                  (numericColumns kinds) ;;
       let amountCol := orElseStr (flatten found) (flatten (hd_error (numericColumns kinds))) in
       Normal
         (fixedQuery
          |> replaceAll dollarRe (fun m => group 1 (groups m))
          |> replaceAll comparisonRe
               (fun m => if negb (includes (matched m) [dq])
                         then group 1 (groups m) +++ " " +++ quoted (interpolate amountCol)
                              +++ " " +++ group 2 (groups m)
                         else matched m))
     else Normal fixedQuery) ;;
  (* Fix 4: Improve 'highest' or 'most' queries *)
  if (includes (toLowerCase fixedQuery) "highest"
      || includes (toLowerCase fixedQuery) "most"
      || includes (toLowerCase fixedQuery) "top"
      || includes (toLowerCase fixedQuery) "maximum")
     && negb (includes (toLowerCase fixedQuery) "limit")
  then
    if negb (includes (toLowerCase fixedQuery) "order by") then
      found <- findM (fun col =>
                        orM (includes fixedQuery (quoted (interpolate col)))
                          (n <- lowerOf col ;; Normal (includes (toLowerCase fixedQuery) n)))
                 (numericColumns kinds) ;;
      let numCol := orElseStr (flatten found) (flatten (hd_error (numericColumns kinds))) in
      if truthy numCol
      then Normal (fixedQuery +++ " ORDER BY " +++ quoted (interpolate numCol) +++ " DESC LIMIT 1")
      else Normal fixedQuery
    else if negb (includes (toLowerCase fixedQuery) "limit")
    then Normal (fixedQuery +++ " LIMIT 1")
    else Normal fixedQuery
  else Normal fixedQuery.

(** ** Query intents *)

Inductive queryType : Type :=
| aggregation | comparison | trending | ranking | distribution | temporal | general.

Definition queryTypeEqb (a b : queryType) : bool :=
  match a, b with
  | aggregation, aggregation | comparison, comparison | trending, trending
  | ranking, ranking | distribution, distribution | temporal, temporal
  | general, general => true
  | _, _ => false
  end.

Record config : Type := {
  patterns : re;
  keywords : list str;
  sqlHints : list str;
  requiresGroupBy : bool;
  requiredColumnTypes : option (list str)
}.

(** [/(w1|w2|...)/i] *)
Definition words (l : list str) : re := Grp 1 (alts (map Liti l)).

(** Dynamic query pattern configuration *)
Definition aggregationConfig : config :=
  {| patterns := words ["count" : str; "sum" : str; "average" : str; "mean" : str;
                        "total" : str; "aggregate" : str];
     keywords := ["total" : str; "sum" : str; "average" : str; "count" : str; "mean" : str];
     sqlHints := ["COUNT(*)" : str; "SUM()" : str; "AVG()" : str; "GROUP BY" : str];
     requiresGroupBy := true;
     requiredColumnTypes := Some ["numeric" : str] |}.

Definition comparisonConfig : config :=
  {| patterns := words ["compare" : str; "difference" : str; "versus" : str; "vs" : str;
                        "against" : str; "between" : str];
     keywords := ["compare" : str; "difference" : str; "versus" : str; "vs" : str;
                  "against" : str; "between" : str];
     sqlHints := ["CASE WHEN" : str; "WITH" : str; "UNION" : str];
     requiresGroupBy := false;
     requiredColumnTypes := Some ["numeric" : str; "date" : str] |}.

Definition trendingConfig : config :=
  {| patterns := words ["trend" : str; "over time" : str; "growth" : str; "decline" : str;
                        "increase" : str; "decrease" : str];
     keywords := ["trend" : str; "growth" : str; "decline" : str; "increase" : str;
                  "decrease" : str];
     sqlHints := ["ORDER BY" : str; "DATE_TRUNC" : str; "EXTRACT" : str];
     requiresGroupBy := true;
     requiredColumnTypes := Some ["date" : str; "numeric" : str] |}.

Definition rankingConfig : config :=
  {| patterns := words ["top" : str; "bottom" : str; "highest" : str; "lowest" : str;
                        "best" : str; "worst" : str; "most" : str; "least" : str;
                        "ranking" : str];
     keywords := ["top" : str; "bottom" : str; "highest" : str; "lowest" : str;
                  "best" : str; "worst" : str];
     sqlHints := ["ORDER BY" : str; "LIMIT" : str; "RANK() OVER" : str];
     requiresGroupBy := false;
     requiredColumnTypes := Some ["numeric" : str] |}.

Definition distributionConfig : config :=
  {| patterns := words ["distribution" : str; "breakdown" : str; "percentage" : str;
                        "ratio" : str; "share" : str];
     keywords := ["distribution" : str; "breakdown" : str; "percentage" : str;
                  "ratio" : str];
     sqlHints := ["PERCENT_RANK" : str; "NTILE" : str; "WIDTH_BUCKET" : str];
     requiresGroupBy := true;
     requiredColumnTypes := Some ["numeric" : str] |}.

Definition temporalConfig : config :=
  {| patterns := words ["daily" : str; "weekly" : str; "monthly" : str; "yearly" : str;
                        "quarter" : str; "year" : str; "month" : str; "day" : str;
                        "date" : str];
     keywords := ["daily" : str; "weekly" : str; "monthly" : str; "yearly" : str];
     sqlHints := ["DATE_TRUNC" : str; "EXTRACT" : str; "TO_CHAR" : str];
     requiresGroupBy := true;
     requiredColumnTypes := Some ["date" : str] |}.

(** the entries of the object, in the order of its keys *)
Definition QUERY_PATTERNS : list (queryType * config) :=
  [ (aggregation, aggregationConfig);
    (comparison, comparisonConfig);
    (trending, trendingConfig);
    (ranking, rankingConfig);
    (distribution, distributionConfig);
    (temporal, temporalConfig) ].

(** [QUERY_PATTERNS[type]] *)
Fixpoint patternOf (t : queryType) (l : list (queryType * config)) : option config :=
  match l with
  | [] => None
  | (t', c) :: l' => if queryTypeEqb t t' then Some c else patternOf t l'
  end.

(** ** Dynamic schema validation and adaptation *)

Record validatedSchema : Type := {
  schema : list column;               (* the normalised columns *)
  columnGroups : object (list column)
}.

Definition normalize (col : column) : column :=
  {| name := orElseStr (orElseStr (column_name col) (name col)) (Some []);
     column_name := None;
     type := orElseStr (orElseStr (data_type col) (type col)) (Some (lit "text"));
     data_type := None |}.

Definition typeIncludes (fragment : str) (col : column) : bool :=
  includes (toLowerCase (interpolate (type col))) fragment.

(** [schema] is [None] when the argument is not an array *)
Definition validateAndAdaptSchema (schema : option (list column)) : completion validatedSchema :=
  match schema with
  | None => Throw "Schema must be an array of column definitions"
  | Some cols =>
      (* Normalize schema structure *)
      let normalizedSchema := map normalize cols in
      (* Validate each column *)
      _ <- forEachM (fun (_ : unit) col =>
                       if negb (truthy (name col)) then Throw "Column name is required"
                       else if negb (truthy (type col)) then Throw "Column type is required"
                       else Normal tt) normalizedSchema tt ;;
      (* Group columns by type for dynamic query generation *)
      Normal
        {| schema := normalizedSchema;
           columnGroups :=
             [ ("date" : str,
                filter (fun col => typeIncludes "date" col || typeIncludes "time" col)
                  normalizedSchema);
               ("numeric" : str,
                filter (fun col =>
                          existsb (fun t => typeIncludes t col)
                            ["int" : str; "numeric" : str; "decimal" : str; "float" : str;
                             "double" : str]) normalizedSchema);
               ("text" : str,
                filter (fun col =>
                          existsb (fun t => typeIncludes t col)
                            ["char" : str; "text" : str; "varchar" : str]) normalizedSchema);
               ("boolean" : str,
                filter (fun col => typeIncludes "bool" col) normalizedSchema) ] |}
  end.

(** [columnGroups[type]?.length > 0] *)
Definition hasColumnType (v : validatedSchema) (t : str) : bool :=
  match getKey t (columnGroups v) with
  | Some l => 0 <? length l
  | None => false
  end.

(** ** Enhanced query type detection with schema awareness *)

(** [types.add(type)] on a set kept in insertion order *)
Definition addType (t : queryType) (types : list queryType) : list queryType :=
  if existsb (queryTypeEqb t) types then types else types ++ [t].

Definition detectStep (queryLower : str) (v : validatedSchema)
  (types : list queryType) (entry : queryType * config) : list queryType :=
  let '(type, config) := entry in
  match requiredColumnTypes config with
  | None => addType type types          (* Skip if no required column types defined *)
  | Some required =>
      (* Check if schema has required column types *)
      let hasRequiredColumns := forallb (hasColumnType v) required in
      if negb hasRequiredColumns then types
      else
        (* Check direct patterns *)
        let types := if test (patterns config) queryLower then addType type types else types in
        (* Check keywords *)
        let types := if existsb (includes queryLower) (keywords config)
                     then addType type types else types in
        (* Context-based detection *)
        let types := if queryTypeEqb type temporal && hasColumnType v "date"
                     then addType type types else types in
        if (queryTypeEqb type aggregation || queryTypeEqb type ranking)
           && hasColumnType v "numeric"
        then if includes queryLower "total" || includes queryLower "most"
             then addType type types else types
        else types
  end.

Definition detectQueryType (query : str) (schema : option (list column))
  : completion (list queryType) :=
  let queryLower := toLowerCase query in
  validatedSchema <- validateAndAdaptSchema schema ;;
  let types := fold_left (detectStep queryLower validatedSchema) QUERY_PATTERNS [] in
  (* If no specific types detected, return general type *)
  Normal (if 0 <? length types then types else [general]).

(** ** Dynamic SQL template generation based on query type *)

(** [null] when no hint was collected *)
Definition getSqlTemplate (queryTypes : list queryType) : option (list str) :=
  let templates :=
    fold_left (fun templates type =>
                 match patternOf type QUERY_PATTERNS with
                 | Some config => templates ++ sqlHints config
                 | None => templates
                 end) queryTypes [] in
  if 0 <? length templates then Some templates else None.

(** ** Validate generated SQL query *)

(** [/;\s*drop\s+table/i], [/;\s*delete\s+from/i], [/;\s*truncate\s+table/i] *)
Definition dropTableRe : re := seqs [Ch ";"; Star Sp; Liti "drop"; Plus Sp; Liti "table"].
Definition deleteFromRe : re := seqs [Ch ";"; Star Sp; Liti "delete"; Plus Sp; Liti "from"].
Definition truncateTableRe : re :=
  seqs [Ch ";"; Star Sp; Liti "truncate"; Plus Sp; Liti "table"].

Definition countChar (c : ascii) (s : str) : nat := length (filter (ceq c) s).

Definition validateSqlQuery (query : str) : list str :=
  let errors := [] in
  (* Check basic SQL structure *)
  let errors := if negb (includes (toLowerCase query) "select")
                then errors ++ ["Missing SELECT statement" : str] else errors in
  let errors := if negb (includes (toLowerCase query) "from")
                then errors ++ ["Missing FROM clause" : str] else errors in
  (* Check for common SQL injection patterns *)
  let errors := if test dropTableRe query
                then errors ++ ["Potential harmful query detected" : str] else errors in
  let errors := if test deleteFromRe query
                then errors ++ ["Potential harmful query detected" : str] else errors in
  let errors := if test truncateTableRe query
                then errors ++ ["Potential harmful query detected" : str] else errors in
  (* Check balanced quotes and parentheses *)
  let errors := if negb (countChar dq query mod 2 =? 0)
                then errors ++ ["Unbalanced quotes" : str] else errors in
  let openParens := countChar (chr "(") query in
  let closeParens := countChar (chr ")") query in
  if negb (openParens =? closeParens)
  then errors ++ ["Unbalanced parentheses" : str] else errors.

(** ** Helper function to extract non-aggregated columns *)

(** [/SELECT(.*?)FROM/i] *)
Definition selectClauseRe : re := seqs [Liti "SELECT"; Grp 1 (StarLazy Dot); Liti "FROM"].

Definition extractNonAggregatedColumns (query : str) (schema : list column) : list str :=
  let aggregateFunctions := ["COUNT" : str; "SUM" : str; "AVG" : str; "MAX" : str; "MIN" : str] in
  let selectClause :=
    match search selectClauseRe query with
    | Some m => group 1 (groups m)
    | None => []
    end in
  filter (fun colName =>
            includes selectClause colName
            && negb (existsb (fun fn => includes selectClause (fn +++ "(" +++ colName +++ ")"))
                       aggregateFunctions))
    (map (fun col => quoted (interpolate (name col))) schema).

(** ** generateSQL, from the reply of the language model on

    [content] is [data.choices[0].message.content]. *)

(** the fence markers and the reasoning block *)
Definition fenceRe : re := Alt (Lit "```sql") (Lit "```").
Definition thinkRe : re := seqs [Lit "<think>"; StarLazy Any; Lit "</think>"].

(** Clean the SQL query: the reply without its fence markers and reasoning
    block, then its part before the first semicolon *)
Definition denoise (content : str) : str :=
  content
  |> trim
  |> replaceAll fenceRe (subst 0 [])
  |> replaceAll thinkRe (subst 0 [])
  |> trim.

Definition stripNoise (content : str) : str :=
  denoise content |> splitHead (chr ";").

(** the errors of the first validation, which are logged as warnings *)
Definition validationWarnings (content : str) : list str :=
  validateSqlQuery (stripNoise content).

(** Ensure required clauses based on query type and schema *)
Definition completeGroupBy (schema : list column) (fixedQuery : str) (type : queryType) : str :=
  match patternOf type QUERY_PATTERNS with
  | Some pattern =>
      if requiresGroupBy pattern && negb (includes (toLowerCase fixedQuery) "group by") then
        let nonAggregatedColumns := extractNonAggregatedColumns fixedQuery schema in
        if 0 <? length nonAggregatedColumns
        then fixedQuery +++ " GROUP BY " +++ join ", " nonAggregatedColumns
        else fixedQuery
      else fixedQuery
  | None => fixedQuery
  end.

Section Generate.

Variable RegExp : str -> completion re.

Definition generateSQL (query : str) (tableSchema : option (list column))
  (tableName : str) (content : str) : completion str :=
  (* Validate and adapt schema *)
  validatedSchema <- validateAndAdaptSchema tableSchema ;;
  (* Detect query type *)
  queryTypes <- detectQueryType query (Some (schema validatedSchema)) ;;
  (* Clean and validate the SQL query; the errors found here are only logged *)
  let sqlQuery := stripNoise content in
  let validationErrors := validateSqlQuery sqlQuery in
  (* Apply fixes based on query type and schema *)
  let fixedQuery := fixSqlQuery RegExp sqlQuery (Some (schema validatedSchema)) (Some tableName) in
  (* Apply logical fixes with query type context *)
  fixedQuery <- fixQueryLogic fixedQuery (Some (schema validatedSchema)) (Some tableName) ;;
  let fixedQuery := fold_left (completeGroupBy (schema validatedSchema)) queryTypes fixedQuery in
  (* Final validation *)
  let finalValidationErrors := validateSqlQuery fixedQuery in
  if 0 <? length finalValidationErrors
  then Throw ("Invalid SQL generated: " +++ join ", " finalValidationErrors)
  else Normal fixedQuery.

End Generate.

(** ** formatQueryResults: the chart inference *)

Inductive chartType : Type := bar | line | pie.

Record chart : Type := {
  ctype : chartType;
  labelColumn : str;
  valueColumn : str;
  labels : list jsval;
  data : list number
}.

Definition chartData (query : str) (rows : list row) : option chart :=
  match rows with
  | [] => None
  | first :: _ =>
      if (0 <? length rows) && (length rows <=? 50) then
        let keys := map fst first in
        (* Check if we have 2 columns that can be used for charts *)
        if 2 <=? length keys then
          let possibleNumericColumns :=
            filter (fun key => negb (isNaN (toNumber (field first key)))) keys in
          match possibleNumericColumns with
          | valueColumn :: _ =>
              let labelColumn :=
                interpolate
                  (orElseStr (find (fun key => negb (streq key valueColumn)) keys)
                     (hd_error keys)) in
              (* Determine chart type based on query and data *)
              let chartType :=
                if includes (toLowerCase labelColumn) "month"
                   || includes (toLowerCase labelColumn) "date"
                   || includes (toLowerCase labelColumn) "day"
                   || includes (toLowerCase labelColumn) "time"
                then line
                else if 10 <? length rows then bar
                else if (length rows <=? 8)
                        && (includes (toLowerCase query) "breakdown"
                            || includes (toLowerCase query) "distribution")
                then pie
                else bar in
              Some {| ctype := chartType;
                      labelColumn := labelColumn;
                      valueColumn := valueColumn;
                      labels := map (fun row => field row labelColumn) rows;
                      data := map (fun row => toNumber (field row valueColumn)) rows |}
          | [] => None
          end
        else None
      else None
  end.

End OpenAI.

(* ================================================================== *)
(** * The query controller                                             *)
(* ================================================================== *)

Module QueryController.
Import JS.

(** ** Validate SQL query against specific rules *)

Inductive validation : Type :=
| Valid
| Invalid (message : str).

Definition dangerousKeywords : list str :=
  ["insert" : str; "update" : str; "delete" : str; "drop" : str; "alter" : str;
   "create" : str; "truncate" : str; "exec" : str; "execute" : str; "union" : str;
   "--" : str].

Definition validateSqlQuery (sqlQuery : str) : validation :=
  (* Check if the query is SELECT only *)
  if negb (startsWith (toLowerCase (trim sqlQuery)) "select") then
    Invalid "Only SELECT queries are allowed"
  else
    (* Check for SQL injection attempts *)
    let hasInjectionAttempt :=
      existsb (fun keyword => includes (toLowerCase sqlQuery) keyword) dangerousKeywords in
    if hasInjectionAttempt then
      Invalid "Query contains disallowed SQL keywords"
    (* Check for basic syntax issues *)
    else if includes sqlQuery ("_FROM" +++ [dq]) || includes sqlQuery ([dq] +++ "FROM") then
      Invalid "Query contains syntax error with FROM clause"
    (* Verify complete query structure *)
    else if negb (includes (toLowerCase sqlQuery) "from") then
      Invalid "Query is missing FROM clause"
    else Valid.

(** ** Execute SQL query safely with additional checks *)

(** a quote, an underscore, group 1 = as few characters of a line as
    possible, a quote (flag g); and [/;+$/] *)
Definition underscoreQuoteRe : re := seqs [DQ; Ch "_"; Grp 1 (StarLazy Dot); DQ].
Definition trailingSemicolonsRe : re := Seq (Plus (Ch ";")) Eos.

(** the statement as it stands before validation *)
Definition prepare (sqlQuery : str) : str :=
  (* Additional syntax check for common errors *)
  let sqlQuery :=
    if includes sqlQuery ([dq] +++ "_")
    then replaceAll underscoreQuoteRe (subst 1 (quoted "$1")) sqlQuery
    else sqlQuery in
  (* Remove any trailing semicolons to avoid multi-statement execution *)
  replaceFirst trailingSemicolonsRe (subst 0 []) (trim sqlQuery).

(** The outcome: the statements handed to [pool.query], and the rows or the
    exception.  The catch block logs and throws the exception again. *)
Record execution : Type := {
  executed : list str;
  outcome : completion (list row)
}.

Section WithPool.

(** [pool.query(text)]: the rows, or the error of the store *)
Variable poolQuery : str -> completion (list row).

Definition safeExecuteQuery (sqlQuery : str) : execution :=
  let sqlQuery := prepare sqlQuery in
  (* Validation *)
  match validateSqlQuery sqlQuery with
  | Invalid message =>
      {| executed := []; outcome := Throw ("Invalid SQL query: " +++ message) |}
  | Valid =>
      (* Execute the query *)
      {| executed := [sqlQuery]; outcome := poolQuery sqlQuery |}
  end.

End WithPool.

(** ** Process natural language query: the choice of the table *)

(** The reads of the store made while a table is chosen. *)
Inductive dbCall : Type :=
| ListTables                                   (* the catalog of data tables *)
| SampleData (table : str) (limit : nat)       (* getSampleData(table, limit) *)
| ListColumns (table : str).                   (* the column names of a table *)

(** The store as the selection sees it.  [tables] is the answer to the
    catalog query, which already leaves out the tables migrations,
    saved_queries, analysis_sessions and uploaded_files. *)
Record store : Type := {
  tables : completion (list str);
  sampleData : str -> nat -> completion (list row);
  columnNames : str -> completion (list str)
}.

(** a computation that reads the store: the result and the reads made *)
Definition io (A : Type) : Type := list dbCall -> completion A * list dbCall.

Definition ret {A} (a : A) : io A := fun log => (Normal a, log).

Definition bindIO {A B} (c : io A) (f : A -> io B) : io B :=
  fun log =>
    match c log with
    | (Normal a, log') => f a log'
    | (Throw m, log') => (Throw m, log')
    end.

Notation "x <~ c ;; k" := (bindIO c (fun x => k))
  (at level 61, c at next level, right associativity).

Definition call {A} (what : dbCall) (answer : completion A) : io A :=
  fun log => (answer, log ++ [what]).

(** try/catch around a read: the exception is logged and dropped *)
Definition attempt {A} (c : io A) (default : A) : io A :=
  fun log =>
    match c log with
    | (Normal a, log') => (Normal a, log')
    | (Throw _, log') => (Normal default, log')
    end.

Fixpoint forEachIO {A S} (f : S -> A -> io S) (l : list A) (s : S) : io S :=
  match l with
  | [] => ret s
  | a :: l' => s' <~ f s a ;; forEachIO f l' s'
  end.

(** what processQuery does next *)
Inductive decision : Type :=
| BadRequest (message : str)                       (* status 400 *)
| NotFound (message : str)                         (* status 404 *)
| ProcessWithTable (userQueryText tableName : str).

Record request : Type := {
  query : option str;
  userQuery : option str;
  tableName : option str
}.

Definition businessKeywords : list str :=
  ["product" : str; "sale" : str; "order" : str; "customer" : str; "price" : str;
   "quantity" : str; "inventory" : str; "item" : str].

(** [table.replace(/_/g, ' ').split(' ')] *)
Fixpoint splitOn (p : ascii -> bool) (s : str) : list str :=
  match s with
  | [] => [[]]
  | c :: s' =>
      if p c then [] :: splitOn p s'
      else match splitOn p s' with
           | w :: ws => (c :: w) :: ws
           | [] => [[c]]
           end
  end.

Definition tableWords (table : str) : list str :=
  splitOn (fun c => ceq c (chr "_") || ceq c (chr " ")) table.

Definition stringValues (r : row) : list str :=
  flat_map (fun e => match snd e with JString s => [s] | _ => [] end) r.

Section WithStore.

Variable db : store.

(** Simple relevance scoring - check if query contains table name or
    column names *)
Definition scoreTable (userQueryText : str) (relevanceScores : object nat) (table : str)
  : io (object nat) :=
  let queryLower := toLowerCase userQueryText in
  let score := 0 in
  (* Table name match *)
  let score :=
    fold_left (fun score word =>
                 if (3 <? length word) && includes queryLower (toLowerCase word)
                 then score + 10 else score) (tableWords table) score in
  (* Get sample data to understand table content *)
  score <~ attempt
             (sample <~ call (SampleData table 1) (sampleData db table 1) ;;
              match sample with
              | first :: _ =>
                  ret (fold_left (fun score val =>
                                    if truthy (Some val) && (3 <? length val)
                                       && includes queryLower (toLowerCase val)
                                    then score + 15 else score) (stringValues first) score)
              | [] => ret score
              end) score ;;
  (* Get columns for this table to check for column matches *)
  schemaResult <~ call (ListColumns table) (columnNames db table) ;;
  let score :=
    fold_left (fun score column_name =>
                 let score := if includes queryLower (toLowerCase column_name)
                              then score + 5 else score in
                 fold_left (fun score keyword =>
                              if includes (toLowerCase column_name) keyword
                              then score + 3 else score) businessKeywords score)
      schemaResult score in
  ret (setKey table score relevanceScores).

(** [entries.sort((a, b) => b[1] - a[1])]: decreasing scores, equal scores in
    their former order *)
Fixpoint insertByScore (e : str * nat) (l : list (str * nat)) : list (str * nat) :=
  match l with
  | [] => [e]
  | e' :: l' => if snd e' <=? snd e then e :: l else e' :: insertByScore e l'
  end.

Definition sortByScore (l : list (str * nat)) : list (str * nat) :=
  fold_right insertByScore [] l.

Definition businessLike (lowerTableName : str) : bool :=
  includes lowerTableName "sales" ||
  includes lowerTableName "order" ||
  includes lowerTableName "product" ||
  includes lowerTableName "customer" ||
  includes lowerTableName "inventory" ||
  includes lowerTableName "business".

Definition processQuery (req : request) : io decision :=
  (* Accept either query or userQuery *)
  match orElseStr (query req) (userQuery req) with
  | Some (c :: t) =>
      let userQueryText := c :: t in
      match tableName req with
      | Some (c' :: t') =>
          (* If tableName is provided, use it directly *)
          ret (ProcessWithTable userQueryText (c' :: t'))
      | _ =>
          (* Get all available tables, excluding system tables *)
          tableNames <~ call ListTables (tables db) ;;
          match tableNames with
          | [] => ret (NotFound
                         "No data tables available in the database. Please upload data first.")
          (* If there's only one table, use it *)
          | [autoSelectedTable] => ret (ProcessWithTable userQueryText autoSelectedTable)
          | defaultTable :: _ =>
              (* Try to find the most relevant table for the query *)
              relevanceScores <~ forEachIO (scoreTable userQueryText) tableNames [] ;;
              (* Sort tables by relevance score *)
              let sortedTables := sortByScore (entries relevanceScores) in
              match sortedTables with
              | (bestTable, S _) :: _ => ret (ProcessWithTable userQueryText bestTable)
              | _ =>
                  (* prioritize tables with business-like names *)
                  match find (fun tableName => businessLike (toLowerCase tableName)) tableNames with
                  | Some tableName => ret (ProcessWithTable userQueryText tableName)
                  (* If still no match, use the first table as default *)
                  | None => ret (ProcessWithTable userQueryText defaultTable)
                  end
              end
          end
      end
  | _ => ret (BadRequest "Query is required")
  end.

End WithStore.

(** ** processWithTable: generation and execution

    The steps between the reply of the language model and the store: the
    schema read from the catalog and the reply [content] are given; the SQL
    is generated, then executed by [safeExecuteQuery].  An exception of
    either step ends the request with an error response. *)

Section Pipeline.

Variable RegExp : str -> completion re.
Variable poolQuery : str -> completion (list row).

Definition processWithTable (userQueryText tableName : str)
  (tableSchema : list OpenAI.column) (content : str) : execution :=
  (* Generate SQL from natural language *)
  match OpenAI.generateSQL RegExp userQueryText (Some tableSchema) tableName content with
  | Normal sqlQuery =>
      (* Execute the generated SQL *)
      safeExecuteQuery poolQuery sqlQuery
  | Throw message => {| executed := []; outcome := Throw message |}
  end.

End Pipeline.

End QueryController.

(* ================================================================== *)
(** * The store, the file system and the parser, as the upload sees them *)
(* ================================================================== *)

Module Host.
Import JS.

(** a column as the upload parser describes it, and a parsed file *)
Record parsedColumn : Type := {
  name : str;
  type : str
}.

Record parsed : Type := {
  data : list row;
  columns : list parsedColumn
}.

(** The calls that leave the program.  [params] are the values given with a
    statement, none when the call gives none. *)
Inductive event : Type :=
| Query (text : str) (params : list jsval)          (* pool.query(text, params) *)
| Connect                                           (* pool.connect() *)
| ClientQuery (text : str) (params : list jsval)    (* client.query(text, params) *)
| Release                                           (* client.release() *)
| Unlink (path : str)                               (* fs.unlinkSync(path) *)
| ParseFile (path : str).                           (* parseFile(path) *)

(** The answers of the outside.  An answer may depend on all the calls made
    before it.  [client.release()] has no answer and does not throw. *)
Record world : Type := {
  poolQuery : list event -> str -> list jsval -> completion (list row);
  poolConnect : list event -> completion unit;
  clientQuery : list event -> str -> list jsval -> completion unit;
  unlinkSync : list event -> str -> completion unit;
  parseFile : list event -> str -> completion parsed
}.

(** a computation that makes such calls: its completion and the calls made *)
Definition io (A : Type) : Type := list event -> completion A * list event.

Definition ret {A} (a : A) : io A := fun log => (Normal a, log).

Definition throw {A} (message : str) : io A := fun log => (Throw message, log).

Definition bindIO {A B} (c : io A) (f : A -> io B) : io B :=
  fun log =>
    match c log with
    | (Normal a, log') => f a log'
    | (Throw m, log') => (Throw m, log')
    end.

Notation "x <~ c ;; k" := (bindIO c (fun x => k))
  (at level 61, c at next level, right associativity).

(** a call: it is recorded, and answered from the calls made before it *)
Definition perform {A} (e : event) (answer : list event -> completion A) : io A :=
  fun log => (answer log, log ++ [e]).

(** try { c } catch (error) { h(error.message) } *)
Definition tryCatch {A} (c : io A) (h : str -> io A) : io A :=
  fun log =>
    match c log with
    | (Normal a, log') => (Normal a, log')
    | (Throw m, log') => h m log'
    end.

End Host.

(* ================================================================== *)
(** * utils/db.js                                                      *)
(* ================================================================== *)

Module Db.
Import JS Host.

Section WithWorld.

Variable w : world.

(** Query function: the error is logged and thrown again *)
Definition query (text : str) (params : list jsval) : io (list row) :=
  perform (Query text params) (fun log => poolQuery w log text params).

Definition tableExistsQuery : str :=
  nl +++ indent 12 +++ "SELECT EXISTS (" +++
  nl +++ indent 16 +++ "SELECT FROM information_schema.tables" +++
  nl +++ indent 16 +++ "WHERE table_schema = 'public'" +++
  nl +++ indent 16 +++ "AND table_name = $1" +++
  nl +++ indent 12 +++ ")" +++
  nl +++ indent 8.

(** Check if a table exists: [result.rows[0].exists] *)
Definition tableExists (tableName : str) : io jsval :=
  result <~ query tableExistsQuery [JString tableName] ;;
  match result with
  | first :: _ => ret (field first "exists")
  | [] => throw "Cannot read properties of undefined (reading 'exists')"
  end.

(** [/[^\w\s]/g] *)
Definition unsafeCharRe : re := Cls (fun c => negb (isWord c || isSpace c)).

(** Sanitize column names to ensure they're valid PostgreSQL identifiers *)
Definition sanitize (col : parsedColumn) : parsedColumn :=
  {| name := replaceAll unsafeCharRe (subst 0 "_") (name col);
     type := type col |}.

Definition columnDefinition (col : parsedColumn) : str :=
  (* Add quotes to column names to handle spaces and special characters *)
  let columnName := quoted (name col) in
  (* Handle specific numeric types more explicitly *)
  let columnType :=
    if streq (type col) "NUMERIC"
       && (includes (toLowerCase (name col)) "price"
           || includes (toLowerCase (name col)) "cost"
           || includes (toLowerCase (name col)) "total"
           || includes (toLowerCase (name col)) "amount")
    then lit "NUMERIC(15,2)"
    else type col in
  columnName +++ " " +++ columnType.

Definition createTableQuery (tableName columnDefinitions : str) : str :=
  nl +++ indent 12 +++ "CREATE TABLE " +++ tableName +++ " (" +++
  nl +++ indent 16 +++ columnDefinitions +++
  nl +++ indent 12 +++ ")" +++
  nl +++ indent 8.

(** Create table: [true], or [false] when a step throws *)
Definition createTable (tableName : str) (columns : list parsedColumn) : io bool :=
  tryCatch
    ((* First check if the table already exists to avoid duplicate logs *)
     exists_ <~ tableExists tableName ;;
     let sanitizedColumns := map sanitize columns in
     let columnDefinitions := join ", " (map columnDefinition sanitizedColumns) in
     _ <~ query (createTableQuery tableName columnDefinitions) [] ;;
     ret true)
    (fun _ => ret false).

End WithWorld.

End Db.

(* ================================================================== *)
(** * The upload controller                                            *)
(* ================================================================== *)

Module UploadController.
Import JS Host.

(** [/[^a-z0-9_]/g] and [/[$,]/g] *)
Definition notNameCharRe : re :=
  Cls (fun c => negb (isLowerAlpha c || isDigit c || (code c =? 95))).
Definition currencyCharRe : re := Cls (fun c => (code c =? 36) || (code c =? 44)).

(** If no table name provided, use the file name without extension *)
Definition defaultTableName (originalname : str) : str :=
  originalname
  |> splitHead (chr ".")
  |> toLowerCase
  |> replaceAll notNameCharRe (subst 0 "_").

(** Handle value conversion based on column type *)
Definition convertValue (col : parsedColumn) (value : jsval) : jsval :=
  match value with
  | JUndefined | JNull => JNull
  | JString [] => JNull
  | JString s =>
      if streq (type col) "NUMERIC"
      then (* Clean up currency formatting *)
           JString (replaceAll currencyCharRe (subst 0 []) s)
      else if streq (type col) "INTEGER"
      then (* Convert to integer *)
           JNumber (parseInt10 s)
      else value
  | _ => value
  end.

Definition insertQuery (tableName columnNames : str) (placeholders : list str) : str :=
  nl +++ indent 24 +++ "INSERT INTO " +++ tableName +++ " (" +++ columnNames +++ ")" +++
  nl +++ indent 24 +++ "VALUES (" +++ join ", " placeholders +++ ")" +++
  nl +++ indent 20.

(** the counters [insertCount] and [errorCount] *)
Definition counts : Type := (nat * nat)%type.

Section WithWorld.

Variable w : world.

(** Drop an existing table *)
Definition dropTable (tableName : str) : io bool :=
  _ <~ Db.query w ("DROP TABLE IF EXISTS " +++ tableName) [] ;;
  ret true.

(** One record: the statement is built and executed; an exception is logged
    and counted, and the next record is taken. *)
Definition insertRecord (tableName : str) (columns : list parsedColumn)
  (columnNames : str) (c : counts) (record : row) : list event -> counts * list event :=
  fun log =>
    let '(insertCount, errorCount) := c in
    (* Generate placeholders and values for the query *)
    let placeholders := map (fun paramIndex => "$" +++ natToString paramIndex)
                          (seq 1 (length columns)) in
    let values := map (fun col => convertValue col (field record (name col))) columns in
    match perform (ClientQuery (insertQuery tableName columnNames placeholders) values)
            (fun log => clientQuery w log
                          (insertQuery tableName columnNames placeholders) values) log with
    | (Normal _, log') => ((insertCount + 1, errorCount), log')
    | (Throw _, log') => ((insertCount, errorCount + 1), log')
    end.

Fixpoint insertRecords (tableName : str) (columns : list parsedColumn)
  (columnNames : str) (batch : list row) (c : counts) (log : list event)
  : counts * list event :=
  match batch with
  | [] => (c, log)
  | record :: batch' =>
      let '(c', log') := insertRecord tableName columns columnNames c record log in
      insertRecords tableName columns columnNames batch' c' log'
  end.

(** Process in batches of 100 records: [for (i = 0; i < data.length; i += 100)];
    [fuel] bounds the number of batches *)
Fixpoint insertBatches (fuel : nat) (tableName : str) (columns : list parsedColumn)
  (data : list row) (i : nat) (c : counts) (log : list event) : counts * list event :=
  match fuel with
  | 0 => (c, log)
  | S fuel' =>
      if i <? length data then
        let batch := firstn 100 (skipn i data) in
        (* Generate column names for the query *)
        let columnNames := join ", " (map (fun col => quoted (name col)) columns) in
        let '(c', log') := insertRecords tableName columns columnNames batch c log in
        insertBatches fuel' tableName columns data (i + 100) c' log'
      else (c, log)
  end.

(** Insert data into the table.  The connection is taken before the try
    block; the catch block rolls back and returns the counters as they are;
    the finally block releases the client. *)
Definition insertData (tableName : str) (columns : list parsedColumn) (data : list row)
  : io counts :=
  fun log =>
    match perform Connect (poolConnect w) log with
    | (Throw m, log0) => (Throw m, log0)
    | (Normal _, log0) =>
        let finally (r : completion counts * list event) :=
          (fst r, snd r ++ [Release]) in
        let rollback (c : counts) (log : list event) :=
          match perform (ClientQuery "ROLLBACK" []) (fun l => clientQuery w l "ROLLBACK" []) log with
          | (Normal _, log') => (Normal c, log')
          | (Throw m, log') => (Throw m, log')
          end in
        finally
          match perform (ClientQuery "BEGIN" []) (fun l => clientQuery w l "BEGIN" []) log0 with
          | (Throw _, log1) => rollback (0, 0) log1
          | (Normal _, log1) =>
              let '(c, log2) :=
                insertBatches (length data) tableName columns data 0 (0, 0) log1 in
              match perform (ClientQuery "COMMIT" [])
                      (fun l => clientQuery w l "COMMIT" []) log2 with
              | (Normal _, log3) => (Normal c, log3)
              | (Throw _, log3) => rollback c log3
              end
          end
    end.

(** ** Handle file upload *)

Record uploadedFile : Type := {
  originalname : str;
  path : str
}.

Record uploadRequest : Type := {
  file : option uploadedFile;        (* req.file *)
  tableName : option str;            (* req.body.tableName *)
  overwrite : jsval                  (* req.body.overwrite *)
}.

Inductive response : Type :=
| Failure (status : nat) (error : str)
| TableExists (error : str) (tableName : str)                      (* status 409 *)
| Uploaded (message : str) (tableName : str) (rowCount errorCount : nat)
    (columns : list parsedColumn).                                  (* status 200 *)

(** [req.body.overwrite === 'true' || req.body.overwrite === true] *)
Definition overwriteRequested (v : jsval) : bool :=
  match v with
  | JString s => streq s "true"
  | JBool b => b
  | _ => false
  end.

Definition unlink (path : str) : io unit :=
  perform (Unlink path) (fun log => unlinkSync w log path).

Definition uploadFile (req : uploadRequest) : io response :=
  tryCatch
    (match file req with
     | None => ret (Failure 400 "No file uploaded")
     | Some f =>
         let filePath := path f in
         (* If no table name provided, use the file name without extension *)
         let tableName :=
           if truthy (tableName req) then match tableName req with Some t => t | None => [] end
           else defaultTableName (originalname f) in
         (* Check if table already exists and handle overwrite option *)
         let overwrite := overwriteRequested (overwrite req) in
         exists_ <~ Db.tableExists w tableName ;;
         if truthyVal exists_ && negb overwrite then
           _ <~ unlink filePath ;;
           ret (TableExists ("Table '" +++ tableName
                             +++ "' already exists. Set 'overwrite=true' to replace it.")
                  tableName)
         else
           _ <~ (if truthyVal exists_ && overwrite
                 then (* Drop the existing table if overwrite is requested *)
                      dropTable tableName
                 else ret true) ;;
           (* Parse file to get data and inferred schema *)
           p <~ perform (ParseFile filePath) (fun log => parseFile w log filePath) ;;
           if length (data p) =? 0 then
             _ <~ unlink filePath ;;
             ret (Failure 400 "File is empty or could not be parsed")
           else
             (* Create table in PostgreSQL *)
             tableCreated <~ Db.createTable w tableName (columns p) ;;
             if negb tableCreated then
               _ <~ unlink filePath ;;
               ret (Failure 500 "Failed to create table in database")
             else
               (* Insert data into the table *)
               c <~ insertData tableName (columns p) (data p) ;;
               let '(insertCount, errorCount) := c in
               (* Clean up uploaded file *)
               _ <~ unlink filePath ;;
               ret (Uploaded
                      ("File uploaded and processed. Created table '" +++ tableName
                       +++ "' with " +++ natToString insertCount
                       +++ " rows inserted and " +++ natToString errorCount
                       +++ " rows skipped due to errors.")
                      tableName insertCount errorCount
                      (map (fun col => {| name := name col; type := type col |}) (columns p)))
     end)
    (fun error =>
       (* Clean up uploaded file if it exists *)
       _ <~ match file req with
            | Some f => if negb (isEmpty (path f)) then unlink (path f) else ret tt
            | None => ret tt
            end ;;
       ret (Failure 500 error)).

End WithWorld.

End UploadController.

(* ================================================================== *)
(** * The notions used to state the properties                         *)
(* ================================================================== *)

Module Vocabulary.
Import JS.

(** ** The matches of a pattern, declaratively *)

Inductive iter {A : Type} (R : A -> A -> Prop) : A -> A -> Prop :=
| iter_stop (x : A) : iter R x x
| iter_more (x y z : A) : R x y -> iter R y z -> iter R x z.

Definition shorter (R : mstate -> mstate -> Prop) (x y : mstate) : Prop :=
  R x y /\ length (rest y) < length (rest x).

Fixpoint matches (r : re) (st st' : mstate) {struct r} : Prop :=
  match r with
  | Eps => st' = st
  | Cls p =>
      exists c t, rest st = c :: t /\ p c = true
                  /\ st' = {| left := c :: left st; rest := t; caps := caps st |}
  | Seq a b => exists m, matches a st m /\ matches b m st'
  | Alt a b => matches a st st' \/ matches b st st'
  | Star a => iter (shorter (matches a)) st st'
  | StarLazy a => iter (shorter (matches a)) st st'
  | Grp i a =>
      exists m, matches a st m
                /\ st' = {| left := left m; rest := rest m;
                            caps := (i, consumed st m) :: caps m |}
  | Bos => left st = [] /\ st' = st
  | Eos => rest st = [] /\ st' = st
  | WordB => xorb (prevIsWord st) (nextIsWord st) = true /\ st' = st
  | NotAhead a => (forall m, ~ matches a st m) /\ st' = st
  end.

Definition accepts (k : mstate -> option mstate) (st : mstate) : Prop :=
  exists x, k st = Some x.

Definition bodySound (body : mstate -> (mstate -> option mstate) -> option mstate)
  (R : mstate -> mstate -> Prop) : Prop :=
  forall st k x, body st k = Some x -> exists st', R st st' /\ k st' = Some x.

Definition bodyComplete (body : mstate -> (mstate -> option mstate) -> option mstate)
  (R : mstate -> mstate -> Prop) : Prop :=
  forall st k st', R st st' -> accepts k st' -> exists x, body st k = Some x.

Definition at_ (l r : str) (cs : list (nat * str)) : mstate :=
  {| left := l; rest := r; caps := cs |}.

(** a match moves the position forward over a part of the input *)
Definition advances (st st' : mstate) : Prop :=
  exists pre, rest st = pre ++ rest st' /\ left st' = rev pre ++ left st.

(** the global replacement from a position on *)
Definition scan (r : re) (f : minfo -> str) (l s : str) : str :=
  replaceLoop (S (length s)) r f l s.

(** [erases P s t]: [t] is [s] without some of its characters, each of which
    satisfies [P] *)
Inductive erases (P : ascii -> bool) : str -> str -> Prop :=
| erases_nil : erases P [] []
| erases_keep (c : ascii) (s t : str) : erases P s t -> erases P (c :: s) (c :: t)
| erases_drop (c : ascii) (s t : str) : P c = true -> erases P s t -> erases P (c :: s) t.

(** a name made of letters, digits and underscores *)
Definition identifier (n : str) : bool := negb (isEmpty n) && forallb isWord n.

(** a name made of word characters and white space: the names that the
    sanitizing of createTable leaves as they are *)
Definition plainChar (c : ascii) : bool := isWord c || isSpace c.
Definition plainName (n : str) : bool := negb (isEmpty n) && forallb plainChar n.

(** the characters of a name, one after the other, then [k] *)
Definition literal (n : str) (k : re) : re := fold_right (fun c r => Seq (Chi c) r) k n.

(** what the constructor makes of [columnPatternSource n] for an identifier *)
Definition quoteAhead : re := Seq (Star Sp) (Seq (Chi dq) Eps).
Definition columnRe (n : str) : re :=
  Seq WordB (literal n (Seq WordB (Seq (NotAhead quoteAhead) Eps))).

(** spaces, possibly none, then a double quote *)
Definition spacesThenQuote (s : str) : Prop :=
  exists ws t, s = ws ++ dq :: t /\ forallb isSpace ws = true.

Definition headIsWord (s : str) : bool :=
  match s with c :: _ => isWord c | [] => false end.

(** an occurrence [w] of the column name [lower] at the position ([l], [s])
    that the column pattern matches: a whole word, not followed by spaces
    and a double quote *)
Definition hits (lower l s w r : str) : Prop :=
  s = w ++ r /\ map lowerChar w = lower /\ headIsWord l = false
  /\ headIsWord r = false /\ ~ spacesThenQuote r.

(** the word boundary test between the text before a position ([l],
    reversed) and the text from the position on *)
Definition boundary (l s : str) : bool := xorb (headIsWord l) (headIsWord s).

(** an occurrence [w] of a name [lower] at the position ([l], [s]) that the
    column pattern matches, for any name: boundaries at both ends, and not
    followed by spaces and a double quote *)
Definition occurs (lower l s w r : str) : Prop :=
  s = w ++ r /\ map lowerChar w = lower /\ boundary l s = true
  /\ boundary (rev w) r = true /\ ~ spacesThenQuote r.

(** the column-quoting replacement, from a position on *)
Definition sc (lower proper l s : str) : str :=
  scan (columnRe lower) (fun _ => quoted proper) l s.

(** what the constructor makes of [tablePatternSource n] for an identifier *)
Definition tableRe (n : str) : re :=
  Seq WordB (literal "from" (Seq (Plus Sp) (literal n (Seq WordB Eps)))).

(** an occurrence at the position ([l], [s]) that the table pattern matches:
    the word from ([w]), spaces ([ws]) and the table name ([u]) as a whole
    word, in any case of the letters *)
Definition fromHits (n l s w ws u r : str) : Prop :=
  s = w ++ ws ++ u ++ r /\ map lowerChar w = lit "from"
  /\ ws <> [] /\ forallb isSpace ws = true
  /\ map lowerChar u = toLowerCase n
  /\ headIsWord l = false /\ headIsWord r = false.

(** an occurrence at the position ([l], [s]) that the table pattern matches,
    for any name *)
Definition fromOccurs (n l s w ws u r : str) : Prop :=
  s = w ++ ws ++ u ++ r /\ map lowerChar w = lit "from"
  /\ ws <> [] /\ forallb isSpace ws = true
  /\ map lowerChar u = toLowerCase n
  /\ boundary l s = true /\ boundary (rev u) r = true.

(** the text the table-quoting replacement inserts *)
Definition fromClause (n : str) : str := "FROM " +++ quoted n.

(** the table-quoting replacement, from a position on *)
Definition tc (n l s : str) : str :=
  scan (tableRe n) (fun _ => fromClause n) l s.

Definition unquantified (s : str) : bool :=
  match s with
  | c :: _ => negb (code c =? 42) && negb (code c =? 43)
  | [] => true
  end.

(** the characters [prepare] may remove *)
Definition removable (c : ascii) : bool :=
  (code c =? 95) || isSpace c || (code c =? 59).

(** *** the strings the statements are about *)

Definition digitString (s : str) : bool := negb (isEmpty s) && forallb isDigit s.

(** an optional minus sign and digits *)
Definition integerString (s : str) : bool :=
  match s with
  | c :: t => if code c =? 45 then digitString t else digitString s
  | [] => false
  end.

(** an optional minus sign, digits, and optionally a point and digits *)
Definition unsignedDecimalString (s : str) : bool :=
  digitString (takeWhile isDigit s)
  && match dropWhile isDigit s with
     | [] => true
     | c :: t => (code c =? 46) && digitString t
     end.

Definition decimalString (s : str) : bool :=
  match s with
  | c :: t => if code c =? 45 then unsignedDecimalString t else unsignedDecimalString s
  | [] => false
  end.

Definition signText (neg : bool) : str := if neg then [chr "-"] else [].

Definition fractionText (fp : option str) : str :=
  match fp with
  | Some ds => chr "." :: ds
  | None => []
  end.

Definition fractionDigits (fp : option str) : str :=
  match fp with Some ds => ds | None => [] end.

Definition fractionOk (fp : option str) : Prop :=
  match fp with Some ds => digitString ds = true | None => True end.

(** a column of strings that all satisfy [P] *)
Definition strings (P : str -> Prop) (values : list Parser.value) : Prop :=
  Forall (fun v => exists s, v = Parser.Str s /\ P s) values.

(** a statement refused by the validation *)
Definition rejected (v : QueryController.validation) : Prop :=
  exists message, v = QueryController.Invalid message.

(** *** charts and intents *)

Import OpenAI.

Definition numericIn (r : row) (key : str) : bool := negb (isNaN (toNumber (field r key))).

(** the condition under which an entry of QUERY_PATTERNS adds its intent *)
Definition fires (queryLower : str) (v : validatedSchema) (type : queryType) (c : config) : bool :=
  match requiredColumnTypes c with
  | None => true
  | Some required =>
      forallb (hasColumnType v) required
      && (test (patterns c) queryLower
          || existsb (includes queryLower) (keywords c)
          || (queryTypeEqb type temporal && hasColumnType v "date")
          || ((queryTypeEqb type aggregation || queryTypeEqb type ranking)
              && hasColumnType v "numeric"
              && (includes queryLower "total" || includes queryLower "most")))
  end.

(** the condition of [detectStep], as a proposition *)
Definition adds (q : str) (v : validatedSchema) (t : queryType) (c : config) : Prop :=
  match requiredColumnTypes c with
  | None => True
  | Some required =>
      forallb (hasColumnType v) required = true
      /\ (test (patterns c) q = true
          \/ existsb (includes q) (keywords c) = true
          \/ (t = temporal /\ hasColumnType v "date" = true)
          \/ ((t = aggregation \/ t = ranking)
              /\ hasColumnType v "numeric" = true
              /\ (includes q "total" = true \/ includes q "most" = true)))
  end.

(** a text without a double quote *)
Definition quoteFree (s : str) : bool := forallb (fun c => negb (ceq c dq)) s.

End Vocabulary.

(** Inputs used by the examples: the catalog description of a table
    sales(category text, revenue numeric), a column without a name, a store
    that answers every statement with no rows, two date parsers (one accepts
    nothing, one everything), a reply made of two statements, a schema with
    one date column, result rows whose first column is numeric in the first
    row only, a schema whose column is named a_b, and a catalog with one
    data table. *)
Module Examples.
Import JS.

Definition salesSchema : list OpenAI.column :=
  [ {| OpenAI.name := None; OpenAI.column_name := Some (lit "category");
       OpenAI.type := None; OpenAI.data_type := Some (lit "text") |};
    {| OpenAI.name := None; OpenAI.column_name := Some (lit "revenue");
       OpenAI.type := None; OpenAI.data_type := Some (lit "numeric") |} ].

Definition namelessColumn : OpenAI.column :=
  {| OpenAI.name := None; OpenAI.column_name := None;
     OpenAI.type := Some (lit "text"); OpenAI.data_type := None |}.

Definition emptyPool (statement : str) : completion (list row) := Normal [].

Definition noDates (text : str) : bool := false.

Definition everyDate (text : str) : bool := true.

Definition twoStatements : str := "SELECT category FROM sales; DROP TABLE sales".

Definition datedSchema : option (list OpenAI.column) :=
  Some [ {| OpenAI.name := None; OpenAI.column_name := Some (lit "created");
            OpenAI.type := None; OpenAI.data_type := Some (lit "date") |} ].

Definition mixedRows : list row :=
  [ [ (lit "code", JString "1"); (lit "amount", JString "10"); (lit "label", JString "a") ];
    [ (lit "code", JString "n/a"); (lit "amount", JString "20"); (lit "label", JString "b") ] ].

Definition joinedNameSchema : option (list OpenAI.column) :=
  Some [ {| OpenAI.name := None; OpenAI.column_name := Some (lit "a_b");
            OpenAI.type := None; OpenAI.data_type := Some (lit "text") |} ].

Definition oneTableStore : QueryController.store :=
  {| QueryController.tables := Normal [lit "sales"];
     QueryController.sampleData := fun _ _ => Normal [];
     QueryController.columnNames := fun _ => Normal [] |}.

Definition totalRevenue : QueryController.request :=
  {| QueryController.query := Some (lit "What is the total revenue?");
     QueryController.userQuery := None;
     QueryController.tableName := None |}.

End Examples.

(* ================================================================== *)
(** * Further notions                                                  *)
(* ================================================================== *)

Module Notions.
Import JS.

(** the name-hint rule of inferDataType fires: the name suggests money or a
    quantity and at least 70% of the non-blank values look numeric *)
Definition numericByName (values : list Parser.value) (columnName : str) : Prop :=
  Parser.likelyNumericColumn (toLowerCase columnName) = true
  /\ 7 * length (Parser.validValues values)
     <= 10 * Parser.count Parser.looksNumeric (Parser.validValues values).

(** a cell without content *)
Definition blank (v : Parser.value) : Prop :=
  v = Parser.Null \/ v = Parser.Undefined \/ v = Parser.Str [].

(** a column description that carries a name *)
Definition named (col : OpenAI.column) : bool :=
  truthy (OpenAI.column_name col) || truthy (OpenAI.name col).

(** the GROUP BY clause that generateSQL appends to a statement *)
Definition groupByClause (schema : list OpenAI.column) (fixedQuery : str) : str :=
  " GROUP BY " +++ join ", " (OpenAI.extractNonAggregatedColumns fixedQuery schema).

Definition endsWithSemicolon (s : str) : bool :=
  match rev s with
  | c :: _ => ceq c (chr ";")
  | [] => false
  end.

(** a computation of the query controller only adds to the record of its
    reads *)
Definition extends {A} (c : QueryController.io A) : Prop :=
  forall log, exists new, snd (c log) = log ++ new.

(** the errors of the first validation that are about balance *)
Definition balanceError (e : str) : Prop :=
  e = lit "Unbalanced quotes" \/ e = lit "Unbalanced parentheses".

(** the characters of a derived table name, of a sanitized column name,
    and the characters removed from a NUMERIC value *)
Definition nameChar (c : ascii) : bool := isLowerAlpha c || isDigit c || (code c =? 95).
Definition safeChar (c : ascii) : bool := isWord c || isSpace c.
Definition currencyChar (c : ascii) : bool := (code c =? 36) || (code c =? 44).

(** a computation of the upload path adds calls that all satisfy [P] *)
Definition emits {A} (P : Host.event -> Prop) (c : Host.io A) : Prop :=
  forall log, exists new, snd (c log) = log ++ new /\ Forall P new.

Definition isDrop (e : Host.event) : bool :=
  match e with
  | Host.Query text _ | Host.ClientQuery text _ => startsWith text "DROP TABLE"
  | _ => false
  end.

Definition isUnlink (e : Host.event) : bool :=
  match e with
  | Host.Unlink _ => true
  | _ => false
  end.

(** a call on the client of the transaction, or taking and releasing it *)
Definition onClient (e : Host.event) : bool :=
  match e with
  | Host.Connect | Host.ClientQuery _ _ | Host.Release => true
  | _ => false
  end.

(** the statement executed for one record *)
Definition insertEvent (tableName : str) (columns : list Host.parsedColumn) (record : row)
  : Host.event :=
  Host.ClientQuery
    (UploadController.insertQuery tableName
       (join ", " (map (fun col => quoted (Host.name col)) columns))
       (map (fun paramIndex => "$" +++ natToString paramIndex) (seq 1 (length columns))))
    (map (fun col => UploadController.convertValue col (field record (Host.name col))) columns).

(** the answer of the client to a statement of the transaction, at a point
    of the history *)
Definition clientAnswer (w : Host.world) (log : list Host.event) (e : Host.event)
  : completion unit :=
  match e with
  | Host.ClientQuery text params => Host.clientQuery w log text params
  | _ => Normal tt
  end.

(** the numbers of records inserted and refused, when the INSERT statements
    of the records are executed one after the other from a point of the
    history on *)
Fixpoint tally (w : Host.world) (tableName : str) (columns : list Host.parsedColumn)
  (data : list row) (log : list Host.event) : nat * nat :=
  match data with
  | [] => (0, 0)
  | record :: data' =>
      let e := insertEvent tableName columns record in
      let '(inserted, refused) := tally w tableName columns data' (log ++ [e]) in
      match clientAnswer w log e with
      | Normal _ => (S inserted, refused)
      | Throw _ => (inserted, S refused)
      end
  end.

(** the calls of insertData up to BEGIN, and up to the last INSERT *)
Definition begun (log : list Host.event) : list Host.event :=
  log ++ [Host.Connect; Host.ClientQuery "BEGIN" []].

Definition inserted (tableName : str) (columns : list Host.parsedColumn) (data : list row)
  (log : list Host.event) : list Host.event :=
  begun log ++ map (insertEvent tableName columns) data.

(** the statement that creates the table *)
Definition createStatement (tableName : str) (columns : list Host.parsedColumn) : str :=
  Db.createTableQuery tableName
    (join ", " (map Db.columnDefinition (map Db.sanitize columns))).

(** a computation of the upload path that ends in one of two ways: normally,
    its last call being the removal of the file at [path] and no other
    removal before; or by an exception, without any removal *)
Definition tidy {A} (path : str) (c : Host.io A) : Prop :=
  forall log,
    (exists r pre, c log = (Normal r, log ++ pre ++ [Host.Unlink path])
                   /\ Forall (fun e => isUnlink e = false) pre)
    \/ (exists m pre, c log = (Throw m, log ++ pre)
                      /\ Forall (fun e => isUnlink e = false) pre).

(** a text that holds none of the keywords validateSqlQuery of the controller
    refuses, and neither of the two broken forms of FROM *)
Definition harmless (s : str) : Prop :=
  existsb (fun keyword => includes (toLowerCase s) keyword)
          QueryController.dangerousKeywords = false
  /\ includes s ("_FROM" +++ [dq]) = false
  /\ includes s ([dq] +++ "FROM") = false.

End Notions.

(* ================================================================== *)
(** * Further sample data                                              *)
(* ================================================================== *)

Module Samples.
Import JS.

Definition blankColumn : list Parser.value :=
  [Parser.Null; Parser.Str []; Parser.Undefined].

Definition openParenthesis : str := "SELECT (a FROM t".

Definition twoTableStore : QueryController.store :=
  {| QueryController.tables := Normal [lit "customers"; lit "sales"];
     QueryController.sampleData := fun _ _ => Normal [];
     QueryController.columnNames :=
       fun table => Normal (if streq table "sales" then [lit "revenue"] else [lit "email"]) |}.

Definition priceColumn : Host.parsedColumn :=
  {| Host.name := "price"; Host.type := "NUMERIC" |}.

Definition countColumn : Host.parsedColumn :=
  {| Host.name := "count"; Host.type := "INTEGER" |}.

Definition oneRecord : row := [ (lit "price", JString "$1,200.50"); (lit "count", JString "3") ].

(** a host in which every call succeeds: the table is new, the file has one
    record *)
Definition calmWorld : Host.world :=
  {| Host.poolQuery := fun _ _ _ => Normal [ [ (lit "exists", JBool false) ] ];
     Host.poolConnect := fun _ => Normal tt;
     Host.clientQuery := fun _ _ _ => Normal tt;
     Host.unlinkSync := fun _ _ => Normal tt;
     Host.parseFile := fun _ _ =>
       Normal {| Host.data := [oneRecord]; Host.columns := [priceColumn; countColumn] |} |}.

Definition salesUpload : UploadController.uploadRequest :=
  {| UploadController.file :=
       Some {| UploadController.originalname := "Sales 2024.csv";
               UploadController.path := "uploads/file-1.csv" |};
     UploadController.tableName := None;
     UploadController.overwrite := JUndefined |}.

End Samples.

Module JSFacts.
Import JS Vocabulary.

Lemma ceq_eq (a b : ascii) : ceq a b = true <-> a = b.
Proof. unfold ceq. apply Ascii.eqb_eq. Qed.

Lemma ceq_refl (a : ascii) : ceq a a = true.
Proof. apply ceq_eq. reflexivity. Qed.

Lemma startsWith_app (p s : str) : startsWith (p ++ s) p = true.
Proof.
  induction p as [|c p IH]; simpl.
  - destruct s; reflexivity.
  - rewrite ceq_refl, IH. reflexivity.
Qed.

Lemma startsWith_prefix (s p : str) :
  startsWith s p = true -> exists t, s = p ++ t.
Proof.
  revert s. induction p as [|c p IH]; intros s H.
  - exists s. reflexivity.
  - destruct s as [|d s]; simpl in H; [discriminate|].
    apply andb_true_iff in H. destruct H as [Hc Hs].
    apply ceq_eq in Hc. subst d.
    destruct (IH _ Hs) as [t ->]. exists t. reflexivity.
Qed.

Lemma includes_here (s p : str) : startsWith s p = true -> includes s p = true.
Proof. intros H. destruct s; simpl in *; rewrite H; reflexivity. Qed.

Lemma includes_cons (c : ascii) (s p : str) :
  includes s p = true -> includes (c :: s) p = true.
Proof. intros H. simpl. rewrite H. apply orb_true_r. Qed.

Lemma includes_app (a p b : str) : includes (a ++ p ++ b) p = true.
Proof.
  induction a as [|c a IH]; simpl.
  - apply includes_here, startsWith_app.
  - change (includes (c :: a ++ p ++ b) p = true). apply includes_cons, IH.
Qed.

Lemma includes_eq (s p : str) :
  includes s p = startsWith s p || match s with [] => false | _ :: s' => includes s' p end.
Proof. destruct s; reflexivity. Qed.

Lemma includes_split (s p : str) :
  includes s p = true -> exists a b, s = a ++ p ++ b.
Proof.
  induction s as [|c s IH]; rewrite includes_eq; intros H;
    apply orb_true_iff in H; destruct H as [H|H].
  - destruct (startsWith_prefix _ _ H) as [t Ht]. exists [], t. exact Ht.
  - discriminate.
  - destruct (startsWith_prefix _ _ H) as [t Ht]. exists [], t. exact Ht.
  - destruct (IH H) as (a & b & ->). exists (c :: a), b. reflexivity.
Qed.

Lemma Normal_inj' {A} (a b : A) : Normal a = Normal b -> a = b.
Proof. intros H. injection H as H. exact H. Qed.

Lemma toLowerCase_app (a b : str) : toLowerCase (a ++ b) = toLowerCase a ++ toLowerCase b.
Proof. apply map_app. Qed.

Lemma orElse_Some {A} (a b : option A) (x : A) :
  orElse a b = Some x -> a = Some x \/ (a = None /\ b = Some x).
Proof. destruct a; simpl; intros H; [left|right]; auto. Qed.

Lemma greedyLoop_sound body R k :
  bodySound body R ->
  forall n st x, greedyLoop body k n st = Some x ->
  exists st', iter (shorter R) st st' /\ k st' = Some x.
Proof.
  intros Hb. induction n as [|n IH]; intros st x H; simpl in H.
  - exists st. split; [constructor|exact H].
  - apply orElse_Some in H. destruct H as [H|[_ H]].
    + apply Hb in H. destruct H as (m & Hm & H).
      destruct (length (rest m) <? length (rest st)) eqn:E; [|discriminate].
      apply Nat.ltb_lt in E. apply IH in H. destruct H as (st' & Hi & Hk).
      exists st'. split; [|exact Hk].
      eapply iter_more; [split; eassumption|exact Hi].
    + exists st. split; [constructor|exact H].
Qed.

Lemma lazyLoop_sound body R k :
  bodySound body R ->
  forall n st x, lazyLoop body k n st = Some x ->
  exists st', iter (shorter R) st st' /\ k st' = Some x.
Proof.
  intros Hb. induction n as [|n IH]; intros st x H; simpl in H.
  - exists st. split; [constructor|exact H].
  - apply orElse_Some in H. destruct H as [H|[_ H]].
    + exists st. split; [constructor|exact H].
    + apply Hb in H. destruct H as (m & Hm & H).
      destruct (length (rest m) <? length (rest st)) eqn:E; [|discriminate].
      apply Nat.ltb_lt in E. apply IH in H. destruct H as (st' & Hi & Hk).
      exists st'. split; [|exact Hk].
      eapply iter_more; [split; eassumption|exact Hi].
Qed.

Lemma accepts_orElse_l {A} (a b : option A) : (exists x, a = Some x) -> exists x, orElse a b = Some x.
Proof. intros [x ->]. exists x. reflexivity. Qed.

Lemma accepts_orElse_r {A} (a b : option A) : (exists x, b = Some x) -> exists x, orElse a b = Some x.
Proof. intros [x ->]. destruct a as [y|]; [exists y|exists x]; reflexivity. Qed.

Lemma greedyLoop_complete body R k :
  bodyComplete body R ->
  forall st st', iter (shorter R) st st' -> accepts k st' ->
  forall n, length (rest st) <= n -> exists x, greedyLoop body k n st = Some x.
Proof.
  intros Hb st st' Hi Hk. induction Hi as [st|st m st' [Hm Hlt] Hi IH]; intros n Hn.
  - destruct n; simpl; [exact Hk|]. apply accepts_orElse_r. exact Hk.
  - destruct n as [|n]; [lia|]. simpl. apply accepts_orElse_l.
    apply (Hb st _ m Hm). unfold accepts.
    apply Nat.ltb_lt in Hlt as E. rewrite E. apply IH; [exact Hk|lia].
Qed.

Lemma lazyLoop_complete body R k :
  bodyComplete body R ->
  forall st st', iter (shorter R) st st' -> accepts k st' ->
  forall n, length (rest st) <= n -> exists x, lazyLoop body k n st = Some x.
Proof.
  intros Hb st st' Hi Hk. induction Hi as [st|st m st' [Hm Hlt] Hi IH]; intros n Hn.
  - destruct n; simpl; [exact Hk|]. apply accepts_orElse_l. exact Hk.
  - destruct n as [|n]; [lia|]. simpl. apply accepts_orElse_r.
    apply (Hb st _ m Hm). unfold accepts.
    apply Nat.ltb_lt in Hlt as E. rewrite E. apply IH; [exact Hk|lia].
Qed.

Lemma run_correct (r : re) : bodySound (run r) (matches r) /\ bodyComplete (run r) (matches r).
Proof.
  induction r as [|p|a [IHas IHac] b [IHbs IHbc]|a [IHas IHac] b [IHbs IHbc]
                 |a [IHas IHac]|a [IHas IHac]|i a [IHas IHac]| | | |a [IHas IHac]];
    split; unfold bodySound, bodyComplete, accepts; simpl.
  - intros st k x H. exists st. auto.
  - intros st k st' -> H. exact H.
  - intros st k x H. destruct (rest st) as [|c t] eqn:E; [discriminate|].
    destruct (p c) eqn:Ep; [|discriminate]. eexists. split; [|exact H].
    exists c, t. auto.
  - intros st k st' (c & t & E & Ep & ->) H. rewrite E, Ep. exact H.
  - intros st k x H. apply IHas in H. destruct H as (m & Hm & H).
    apply IHbs in H. destruct H as (st' & H' & H). exists st'. split; [exists m; auto|exact H].
  - intros st k st' (m & Hm & H') H. apply (IHac st _ m Hm). apply (IHbc m _ st' H' H).
  - intros st k x H. apply orElse_Some in H. destruct H as [H|[_ H]].
    + apply IHas in H. destruct H as (st' & H' & H). exists st'. auto.
    + apply IHbs in H. destruct H as (st' & H' & H). exists st'. auto.
  - intros st k st' [H'|H'] H.
    + apply accepts_orElse_l. apply (IHac st _ st' H' H).
    + apply accepts_orElse_r. apply (IHbc st _ st' H' H).
  - intros st k x H. eapply greedyLoop_sound; eassumption.
  - intros st k st' H' H. eapply greedyLoop_complete; eauto.
  - intros st k x H. eapply lazyLoop_sound; eassumption.
  - intros st k st' H' H. eapply lazyLoop_complete; eauto.
  - intros st k x H. apply IHas in H. destruct H as (m & Hm & H).
    eexists. split; [exists m; split; [exact Hm|reflexivity]|exact H].
  - intros st k st' (m & Hm & ->) H. apply (IHac st _ m Hm). exact H.
  - intros st k x H. destruct (left st) eqn:E; [|discriminate]. exists st. auto.
  - intros st k st' [E ->] H. rewrite E. exact H.
  - intros st k x H. destruct (rest st) eqn:E; [|discriminate]. exists st. auto.
  - intros st k st' [E ->] H. rewrite E. exact H.
  - intros st k x H. destruct (xorb _ _) eqn:E; [|discriminate]. exists st. auto.
  - intros st k st' [E ->] H. rewrite E. exact H.
  - intros st k x H. destruct (run a st Some) as [y|] eqn:E; [discriminate|].
    exists st. split; [|exact H]. split; [|reflexivity].
    intros m Hm. destruct (IHac st Some m Hm) as [y Hy]; [exists m; reflexivity|].
    unfold accepts in Hy. congruence.
  - intros st k st' [Hn ->] H. destruct (run a st Some) as [y|] eqn:E; [|exact H].
    apply IHas in E. destruct E as (m & Hm & _). elim (Hn m Hm).
Qed.

End JSFacts.

Module ControllerFacts.
Import JS Vocabulary JSFacts QueryController.

Lemma validateSqlQuery_rejects (sql keyword : str) :
  In keyword dangerousKeywords ->
  includes (toLowerCase sql) keyword = true ->
  rejected (validateSqlQuery sql).
Proof.
  intros Hk Hi. unfold validateSqlQuery, rejected.
  destruct (negb (startsWith (toLowerCase (trim sql)) "select")); [eexists; reflexivity|].
  assert (E : existsb (fun k => includes (toLowerCase sql) k) dangerousKeywords = true).
  { apply existsb_exists. exists keyword. split; assumption. }
  rewrite E. eexists; reflexivity.
Qed.

Lemma validateSqlQuery_valid (sql keyword : str) :
  validateSqlQuery sql = Valid ->
  In keyword dangerousKeywords ->
  includes (toLowerCase sql) keyword = false.
Proof.
  intros Hv Hk. destruct (includes (toLowerCase sql) keyword) eqn:E; [|reflexivity].
  destruct (validateSqlQuery_rejects sql keyword Hk E) as [m Hm]. congruence.
Qed.

Lemma safeExecuteQuery_executed poolQuery (sqlQuery q : str) :
  In q (executed (safeExecuteQuery poolQuery sqlQuery)) ->
  q = prepare sqlQuery /\ validateSqlQuery q = Valid.
Proof.
  unfold safeExecuteQuery. destruct (validateSqlQuery (prepare sqlQuery)) eqn:E; simpl.
  - intros [<-|[]]. split; [reflexivity|exact E].
  - intros [].
Qed.

Lemma safeExecuteQuery_rejects poolQuery (sqlQuery keyword : str) :
  In keyword dangerousKeywords ->
  includes (toLowerCase (prepare sqlQuery)) keyword = true ->
  executed (safeExecuteQuery poolQuery sqlQuery) = []
  /\ exists message, outcome (safeExecuteQuery poolQuery sqlQuery) = Throw message.
Proof.
  intros Hk Hi. unfold safeExecuteQuery.
  destruct (validateSqlQuery_rejects _ _ Hk Hi) as [m ->]. simpl.
  split; [reflexivity|eexists; reflexivity].
Qed.

Lemma processWithTable_executed RegExp poolQuery userQueryText tableName tableSchema content q keyword :
  In q (executed (processWithTable RegExp poolQuery userQueryText tableName tableSchema content)) ->
  In keyword dangerousKeywords ->
  includes (toLowerCase q) keyword = false.
Proof.
  unfold processWithTable.
  destruct (OpenAI.generateSQL _ _ _ _ _) as [sql|m]; simpl; [|intros []].
  intros Hq Hk. apply safeExecuteQuery_executed in Hq. destruct Hq as [_ Hv].
  eapply validateSqlQuery_valid; eassumption.
Qed.

(** the single table case of processQuery *)
Lemma processQuery_single_table db req (userQueryText table : str) log :
  orElseStr (query req) (userQuery req) = Some userQueryText ->
  userQueryText <> [] ->
  truthy (tableName req) = false ->
  tables db = Normal [table] ->
  processQuery db req log = (Normal (ProcessWithTable userQueryText table), log ++ [ListTables]).
Proof.
  intros Hq Hne Ht Hs. unfold processQuery. rewrite Hq.
  destruct userQueryText as [|c t]; [congruence|].
  destruct (tableName req) as [[|c' t']|]; try discriminate;
    unfold bindIO, call; rewrite Hs; reflexivity.
Qed.

End ControllerFacts.

Module OpenAIFacts.
Import JS Vocabulary JSFacts OpenAI.

(** *** the chart *)

Lemma filter_head {A} (p : A -> bool) (l : list A) (x : A) (tl : list A) :
  filter p l = x :: tl ->
  exists before after, l = before ++ x :: after
                       /\ Forall (fun a => p a = false) before /\ p x = true.
Proof.
  induction l as [|a l IH]; simpl; [discriminate|].
  destruct (p a) eqn:E; intros H.
  - injection H as -> _. exists [], l. auto.
  - destruct (IH H) as (b & af & -> & Hb & Hx).
    exists (a :: b), af. auto.
Qed.

Lemma chartData_attempted (query : str) (rows : list row) (ch : chart) :
  chartData query rows = Some ch ->
  0 < length rows /\ length rows <= 50 /\
  exists first others,
    rows = first :: others /\ 2 <= length first /\
    exists before after,
      map fst first = before ++ valueColumn ch :: after
      /\ Forall (fun key => numericIn first key = false) before
      /\ numericIn first (valueColumn ch) = true
      /\ labelColumn ch =
           interpolate (orElseStr (find (fun key => negb (streq key (valueColumn ch))) (map fst first))
                          (hd_error (map fst first))).
Proof.
  unfold chartData. destruct rows as [|first others]; [discriminate|].
  destruct ((0 <? length (first :: others)) && (length (first :: others) <=? 50)) eqn:E1; [|discriminate].
  apply andb_true_iff in E1. destruct E1 as [E0 E50].
  apply Nat.ltb_lt in E0. apply Nat.leb_le in E50.
  destruct (2 <=? length (map fst first)) eqn:E2; [|discriminate].
  apply Nat.leb_le in E2. rewrite length_map in E2.
  destruct (filter _ (map fst first)) as [|v tl] eqn:Ef; [discriminate|].
  intros H. injection H as <-. simpl valueColumn. simpl labelColumn.
  split; [exact E0|]. split; [exact E50|].
  exists first, others. split; [reflexivity|]. split; [exact E2|].
  apply filter_head in Ef. destruct Ef as (b & af & Hk & Hb & Hv).
  exists b, af. split; [exact Hk|]. split; [|split; [exact Hv|reflexivity]].
  eapply Forall_impl; [|exact Hb]. intros a Ha. unfold numericIn. exact Ha.
Qed.

(** *** the intents *)

Lemma queryTypeEqb_eq (a b : queryType) : queryTypeEqb a b = true <-> a = b.
Proof. destruct a, b; simpl; split; intros H; try reflexivity; try discriminate. Qed.

Lemma In_addType (t u : queryType) (types : list queryType) :
  In t (addType u types) <-> t = u \/ In t types.
Proof.
  unfold addType. destruct (existsb (queryTypeEqb u) types) eqn:E.
  - apply existsb_exists in E. destruct E as (x & Hx & Hux). apply queryTypeEqb_eq in Hux. subst x.
    split; [auto|]. intros [->|H]; assumption.
  - rewrite in_app_iff. simpl. split; [intros [H|[H|[]]]; auto|intros [H|H]; auto].
Qed.

Lemma In_detectStep q v types type c t :
  In t (detectStep q v types (type, c)) <-> In t types \/ (t = type /\ fires q v type c = true).
Proof.
  unfold detectStep, fires. destruct (requiredColumnTypes c) as [required|].
  - cbv beta iota delta [negb andb orb].
    repeat match goal with
           | |- context [if ?b then _ else _] =>
               lazymatch b with
               | (if _ then _ else _) => fail
               | _ => destruct b
               end
           end;
      repeat rewrite In_addType; intuition congruence.
  - rewrite In_addType. intuition congruence.
Qed.

Lemma In_detect_fold q v (l : list (queryType * config)) (types : list queryType) t :
  In t (fold_left (detectStep q v) l types)
  <-> In t types \/ exists c, In (t, c) l /\ fires q v t c = true.
Proof.
  revert types. induction l as [|[type c] l IH]; intros types; cbn [fold_left].
  - split; [auto|]. intros [H|(c & [] & _)]. exact H.
  - rewrite IH, In_detectStep. cbn [In]. split.
    + intros [[H|[-> H]]|(c' & Hin & H)]; [auto| |]; right; eauto.
    + intros [H|(c' & [Heq|Hin] & H)]; [auto| |right; eauto].
      injection Heq as -> ->. left. right. auto.
Qed.

Lemma In_QUERY_PATTERNS t c :
  In (t, c) QUERY_PATTERNS <-> patternOf t QUERY_PATTERNS = Some c.
Proof.
  unfold QUERY_PATTERNS. cbn [In patternOf]. split.
  - intros H. repeat (destruct H as [H|H]; [injection H as <- <-; reflexivity|]). destruct H.
  - destruct t; cbn [queryTypeEqb]; intros H; try discriminate; injection H as <-; auto 10.
Qed.

Lemma detectQueryType_spec query schema types t :
  detectQueryType query schema = Normal types ->
  t <> general ->
  (In t types <->
   exists v c, validateAndAdaptSchema schema = Normal v
               /\ patternOf t QUERY_PATTERNS = Some c
               /\ fires (toLowerCase query) v t c = true).
Proof.
  unfold detectQueryType. destruct (validateAndAdaptSchema schema) as [v|m]; cbn [bind]; [|discriminate].
  intros H Hg. apply Normal_inj' in H. subst types.
  set (found := fold_left (detectStep (toLowerCase query) v) QUERY_PATTERNS []).
  assert (Hf : In t found <-> exists c, patternOf t QUERY_PATTERNS = Some c
                                         /\ fires (toLowerCase query) v t c = true).
  { unfold found. rewrite In_detect_fold. split.
    - intros [[]|(c & Hin & Hc)]. exists c. split; [|exact Hc].
      apply In_QUERY_PATTERNS, Hin.
    - intros (c & Hp & Hc). right. exists c. split; [|exact Hc].
      apply In_QUERY_PATTERNS, Hp. }
  destruct (0 <? length found) eqn:E.
  - rewrite Hf. split.
    + intros (c & Hp & Hc). exists v, c. auto.
    + intros (v' & c & Hv & Hp & Hc). injection Hv as <-. eauto.
  - apply Nat.ltb_ge in E. destruct found as [|x found'] eqn:Efound; [|cbn [length] in E; lia].
    split.
    + intros [H|[]]. congruence.
    + intros (v' & c & Hv & Hp & Hc). injection Hv as <-.
      exfalso. apply (proj2 Hf). eauto.
Qed.

End OpenAIFacts.

Module MoreFacts.
Import JS Vocabulary JSFacts OpenAI.

Lemma splitHead_free (sep : ascii) (s : str) : ~ In sep (splitHead sep s).
Proof.
  induction s as [|c s IH]; simpl; [tauto|].
  destruct (ceq c sep) eqn:E; simpl; [tauto|].
  intros [H|H]; [|exact (IH H)]. subst c. rewrite ceq_refl in E. discriminate.
Qed.

Lemma splitHead_first (sep : ascii) (first more : str) :
  ~ In sep first -> splitHead sep (first ++ sep :: more) = first.
Proof.
  induction first as [|c first IH]; simpl; intros H.
  - rewrite ceq_refl. reflexivity.
  - destruct (ceq c sep) eqn:E.
    + apply ceq_eq in E. tauto.
    + f_equal. apply IH. tauto.
Qed.

Lemma splitHead_whole (sep : ascii) (s : str) :
  ~ In sep s -> splitHead sep s = s.
Proof.
  induction s as [|c s IH]; simpl; intros H; [reflexivity|].
  destruct (ceq c sep) eqn:E.
  - apply ceq_eq in E. tauto.
  - f_equal. apply IH. tauto.
Qed.

Lemma generateSQL_first_statement RegExp query tableSchema tableName content content' :
  stripNoise content = stripNoise content' ->
  generateSQL RegExp query tableSchema tableName content
  = generateSQL RegExp query tableSchema tableName content'.
Proof. intros H. unfold generateSQL. rewrite H. reflexivity. Qed.

(** *** fixSqlQuery *)

Lemma forEachM_throw {A S} (f : S -> A -> completion S) (l1 l2 : list A) (a : A) (s : S) :
  (forall s', exists m, f s' a = Throw m) ->
  (forall s' b, In b l1 -> exists s'', f s' b = Normal s'') ->
  exists m, forEachM f (l1 ++ a :: l2) s = Throw m.
Proof.
  intros Ha. revert s. induction l1 as [|b l1 IH]; intros s Hl; simpl.
  - destruct (Ha s) as [m ->]. exists m. reflexivity.
  - destruct (Hl s b (or_introl eq_refl)) as [s'' ->]. simpl.
    apply IH. intros s' b' Hb. apply Hl. right. exact Hb.
Qed.

Lemma buildColumnMap_nameless (cols : list column) (col : column) :
  In col cols -> colNameOf col = None ->
  exists m, buildColumnMap cols = Throw m.
Proof.
  intros Hin Hn. unfold buildColumnMap. generalize (@nil (str * str)).
  induction cols as [|c cols IH]; intros acc; [destruct Hin|].
  simpl. destruct Hin as [->|Hin].
  - rewrite Hn. eexists. reflexivity.
  - destruct (colNameOf c); simpl; [apply IH, Hin|eexists; reflexivity].
Qed.

Lemma fixSqlQuery_nameless RegExp sql (cols : list column) tableName (col : column) :
  In col cols -> colNameOf col = None ->
  fixSqlQuery RegExp sql (Some cols) tableName = sql.
Proof.
  intros Hin Hn. unfold fixSqlQuery, fixSqlQueryBody.
  destruct (buildColumnMap_nameless cols col Hin Hn) as [m ->]. reflexivity.
Qed.

End MoreFacts.

Module ParserFacts.
Import JS Vocabulary JSFacts Parser.

Lemma inferDataType_hinted dateParses (values : list value) (columnName : str) :
  likelyNumericColumn (toLowerCase columnName) = true ->
  validValues values <> [] ->
  7 * length (validValues values) <= 10 * count (looksNumeric) (validValues values) ->
  inferDataType dateParses values columnName = NUMERIC.
Proof.
  intros Hh Hne Hr. unfold inferDataType.
  destruct (validValues values) as [|v l] eqn:E; [congruence|].
  cbn [length Nat.eqb]. rewrite Hh.
  assert (Hpos : 0 < count looksNumeric (v :: l)) by (cbn [length] in Hr; lia).
  apply Nat.ltb_lt in Hpos. rewrite Hpos.
  apply Nat.leb_le in Hr. cbn [length] in Hr. rewrite Hr. reflexivity.
Qed.

Lemma likelyNumeric_price (lower : str) :
  includes lower "price" = true -> likelyNumericColumn lower = true.
Proof. intros H. unfold likelyNumericColumn. rewrite H. reflexivity. Qed.

End ParserFacts.

Module NumberFacts.
Import JS Vocabulary JSFacts.

(** *** digit sequences *)

Lemma isDigit_hexVal (c : ascii) :
  isDigit c = true -> exists d, hexVal c = Some d /\ (0 <= d < 10)%Z.
Proof.
  intros H. unfold hexVal. rewrite H. eexists. split; [reflexivity|].
  unfold isDigit, inRange in H. apply andb_true_iff in H. destruct H as [H1 H2].
  apply Nat.leb_le in H1, H2. lia.
Qed.

Lemma digitsValue_digits (ds : str) :
  forallb isDigit ds = true ->
  forall acc, (0 <= acc)%Z ->
  exists v, digitsValue 10 acc ds = Some v
            /\ (acc * 10 ^ Z.of_nat (length ds) <= v < (acc + 1) * 10 ^ Z.of_nat (length ds))%Z.
Proof.
  induction ds as [|c ds IH]; intros H acc Hacc.
  - exists acc. split; [reflexivity|]. cbn [length]. change (10 ^ Z.of_nat 0)%Z with 1%Z. lia.
  - cbn [forallb] in H. apply andb_true_iff in H. destruct H as [Hc Hds].
    destruct (isDigit_hexVal c Hc) as (d & Hd & Hr).
    cbn [digitsValue]. rewrite Hd.
    assert (E : (d <? 10)%Z = true) by (apply Z.ltb_lt; lia). rewrite E.
    destruct (IH Hds (10 * acc + d)%Z ltac:(lia)) as (v & Hv & Hb).
    exists v. split; [exact Hv|].
    replace (Z.of_nat (length (c :: ds))) with (Z.succ (Z.of_nat (length ds)))
      by (cbn [length]; lia).
    rewrite Z.pow_succ_r by lia.
    assert (0 < 10 ^ Z.of_nat (length ds))%Z by (apply Z.pow_pos_nonneg; lia).
    nia.
Qed.

Lemma decimalValue_bound (ds : str) :
  forallb isDigit ds = true ->
  (0 <= decimalValue ds < 10 ^ Z.of_nat (length ds))%Z.
Proof.
  intros H. unfold decimalValue.
  destruct (digitsValue_digits ds H 0%Z ltac:(lia)) as (v & -> & Hb). lia.
Qed.

(** *** integers convert to integral doubles unless they overflow *)

Lemma roundHalfEven_unit (a : Z) : roundHalfEven a 1 = a.
Proof.
  unfold roundHalfEven. rewrite Z.mod_1_r, Z.div_1_r. reflexivity.
Qed.

Lemma roundHalfEven_le (a b : Z) : (0 < b)%Z -> (roundHalfEven a b <= a / b + 1)%Z.
Proof.
  intros Hb. unfold roundHalfEven.
  destruct (2 * (a mod b) <? b)%Z; [lia|].
  destruct (b <? 2 * (a mod b))%Z; [lia|].
  destruct (Z.even (a / b)); lia.
Qed.

Lemma floorLog2_unit (m : Z) : (0 < m)%Z -> floorLog2 m 1 = Z.log2 m.
Proof.
  intros Hm. unfold floorLog2. change (Z.log2 1) with 0%Z. rewrite Z.sub_0_r.
  assert (H0 : (0 <= Z.log2 m)%Z) by apply Z.log2_nonneg.
  apply Z.leb_le in H0 as E. rewrite E.
  assert (E2 : (1 * 2 ^ Z.log2 m <=? m)%Z = true).
  { apply Z.leb_le. rewrite Z.mul_1_l. apply Z.log2_spec. exact Hm. }
  rewrite E2. reflexivity.
Qed.

Lemma doubleIsInteger_integer (m : Z) :
  (0 <= m < 10 ^ 308)%Z -> doubleIsInteger m 1 = true.
Proof.
  intros [H0 Hm]. unfold doubleIsInteger.
  destruct (m =? 0)%Z eqn:E0; [reflexivity|]. apply Z.eqb_neq in E0.
  assert (Hpos : (0 < m)%Z) by lia.
  rewrite (floorLog2_unit m Hpos).
  assert (Hl0 : (0 <= Z.log2 m)%Z) by apply Z.log2_nonneg.
  rewrite Z.max_l by lia.
  set (e := (Z.log2 m - 52)%Z).
  destruct (0 <=? e)%Z eqn:Ee.
  - apply Z.leb_le in Ee. apply Z.ltb_lt. rewrite Z.mul_1_l.
    assert (Hpe : (0 < 2 ^ e)%Z) by (apply Z.pow_pos_nonneg; lia).
    pose proof (roundHalfEven_le m (2 ^ e) Hpe) as Hr.
    assert (Hlog : (Z.log2 m < 1024)%Z).
    { apply Z.log2_lt_pow2; [exact Hpos|].
      eapply Z.lt_trans; [exact Hm|]. vm_compute. reflexivity. }
    assert (Hq : (m / 2 ^ e < 2 ^ 53)%Z).
    { apply Z.div_lt_upper_bound; [exact Hpe|].
      rewrite <- Z.pow_add_r by lia.
      replace (e + 53)%Z with (Z.succ (Z.log2 m)) by (unfold e; lia).
      apply Z.log2_spec. exact Hpos. }
    destruct (Z.eq_dec e 971) as [E971|N971].
    + rewrite E971 in *.
      assert (Hq2 : (m / 2 ^ 971 <= 10 ^ 308 / 2 ^ 971)%Z).
      { apply Z.div_le_mono; [vm_compute; reflexivity|lia]. }
      assert (Hc : ((10 ^ 308 / 2 ^ 971 + 1) * 2 ^ 971 < 2 ^ 1024)%Z) by (vm_compute; reflexivity).
      eapply Z.le_lt_trans; [|exact Hc].
      apply Z.mul_le_mono_nonneg_r; [lia|]. lia.
    + assert (He : (e <= 970)%Z) by (unfold e in *; lia).
      apply Z.le_lt_trans with (2 ^ 53 * 2 ^ e)%Z.
      * apply Z.mul_le_mono_nonneg_r; lia.
      * rewrite <- Z.pow_add_r by lia.
        apply Z.pow_lt_mono_r; lia.
  - apply Z.leb_gt in Ee. rewrite roundHalfEven_unit.
    apply Z.eqb_eq. apply Z.mod_mul.
    apply Z.pow_nonzero; lia.
Qed.

Lemma takeWhile_all p (s : str) : forallb p s = true -> takeWhile p s = s.
Proof.
  induction s as [|c s IH]; simpl; [reflexivity|]. intros H.
  apply andb_true_iff in H. destruct H as [-> H]. f_equal. apply IH, H.
Qed.

Lemma dropWhile_all p (s : str) : forallb p s = true -> dropWhile p s = [].
Proof.
  induction s as [|c s IH]; simpl; [reflexivity|]. intros H.
  apply andb_true_iff in H. destruct H as [-> H]. apply IH, H.
Qed.

Lemma takeWhile_dropWhile p (s : str) : takeWhile p s ++ dropWhile p s = s.
Proof.
  induction s as [|c s IH]; simpl; [reflexivity|].
  destruct (p c); simpl; [f_equal; exact IH|reflexivity].
Qed.

Lemma takeWhile_forallb p (s : str) : forallb p (takeWhile p s) = true.
Proof.
  induction s as [|c s IH]; simpl; [reflexivity|].
  destruct (p c) eqn:E; simpl; [rewrite E; exact IH|reflexivity].
Qed.

Lemma digitString_unsignedDecimal (s : str) :
  digitString s = true -> unsignedDecimalString s = true.
Proof.
  intros H. unfold unsignedDecimalString.
  unfold digitString in H. apply andb_true_iff in H. destruct H as [Hne Hd].
  rewrite (takeWhile_all _ _ Hd), (dropWhile_all _ _ Hd).
  unfold digitString. rewrite Hne, Hd. reflexivity.
Qed.

Lemma integerString_decimal (s : str) : integerString s = true -> decimalString s = true.
Proof.
  unfold integerString, decimalString. destruct s as [|c t]; [auto|].
  destruct (code c =? 45); apply digitString_unsignedDecimal.
Qed.

End NumberFacts.

Module DecimalFacts.
Import JS Vocabulary JSFacts NumberFacts.

Lemma digit_code (c : ascii) : isDigit c = true -> 48 <= code c <= 57.
Proof.
  unfold isDigit, inRange. intros H. apply andb_true_iff in H.
  destruct H as [H1 H2]. apply Nat.leb_le in H1, H2. lia.
Qed.

Lemma code_eqb_false (c : ascii) (n : nat) : code c <> n -> (code c =? n) = false.
Proof. intros H. apply Nat.eqb_neq. exact H. Qed.

Lemma digit_not_space (c : ascii) : isDigit c = true -> isSpace c = false.
Proof.
  intros H. apply digit_code in H. unfold isSpace, inRange.
  apply orb_false_iff. split.
  - apply andb_false_iff. right. apply Nat.leb_gt. lia.
  - apply Nat.eqb_neq. lia.
Qed.

Lemma digitString_inv (s : str) :
  digitString s = true -> exists c t, s = c :: t /\ isDigit c = true /\ forallb isDigit t = true.
Proof.
  unfold digitString. destruct s as [|c t]; [discriminate|]. simpl.
  intros H. apply andb_true_iff in H. destruct H as [Hc Ht]. eauto.
Qed.

Lemma digitString_forallb (s : str) : digitString s = true -> forallb isDigit s = true.
Proof. unfold digitString. intros H. apply andb_true_iff in H. tauto. Qed.

Lemma unsignedDecimal_split (s : str) :
  unsignedDecimalString s = true ->
  exists ip fp, s = ip ++ fractionText fp /\ digitString ip = true /\ fractionOk fp.
Proof.
  unfold unsignedDecimalString. intros H. apply andb_true_iff in H. destruct H as [Hip Hr].
  destruct (dropWhile isDigit s) as [|c t] eqn:E.
  - exists (takeWhile isDigit s), None. simpl. rewrite app_nil_r.
    pose proof (takeWhile_dropWhile isDigit s) as Hs. rewrite E, app_nil_r in Hs.
    rewrite Hs in *. auto.
  - apply andb_true_iff in Hr. destruct Hr as [Hc Ht].
    exists (takeWhile isDigit s), (Some t). simpl. split; [|auto].
    pose proof (takeWhile_dropWhile isDigit s) as Hs. rewrite E in Hs.
    apply Nat.eqb_eq in Hc.
    assert (c = chr "."). { rewrite <- (ascii_nat_embedding c). unfold code in Hc. rewrite Hc. reflexivity. }
    subst c. symmetry. exact Hs.
Qed.

Lemma decimalString_split (s : str) :
  decimalString s = true ->
  exists neg ip fp,
    s = signText neg ++ ip ++ fractionText fp /\ digitString ip = true /\ fractionOk fp.
Proof.
  unfold decimalString. destruct s as [|c t]; [discriminate|].
  destruct (code c =? 45) eqn:E; intros H.
  - apply unsignedDecimal_split in H. destruct H as (ip & fp & -> & Hip & Hfp).
    exists true, ip, fp. split; [|auto]. simpl. f_equal.
    apply Nat.eqb_eq in E. rewrite <- (ascii_nat_embedding c). unfold code in E. rewrite E. reflexivity.
  - apply unsignedDecimal_split in H. destruct H as (ip & fp & Hs & Hip & Hfp).
    exists false, ip, fp. auto.
Qed.

Lemma integerString_split (s : str) :
  integerString s = true ->
  exists neg ip, s = signText neg ++ ip /\ digitString ip = true.
Proof.
  unfold integerString. destruct s as [|c t]; [discriminate|].
  destruct (code c =? 45) eqn:E; intros H.
  - exists true, t. split; [|exact H]. simpl. f_equal.
    apply Nat.eqb_eq in E. rewrite <- (ascii_nat_embedding c). unfold code in E. rewrite E. reflexivity.
  - exists false, (c :: t). auto.
Qed.

(** *** trimming leaves them unchanged *)

Lemma trimStart_nonspace (c : ascii) (t : str) : isSpace c = false -> trimStart (c :: t) = c :: t.
Proof. intros H. simpl. rewrite H. reflexivity. Qed.

Lemma trim_unchanged (s : str) (c d : ascii) (t u : str) :
  s = c :: t -> rev s = d :: u -> isSpace c = false -> isSpace d = false -> trim s = s.
Proof.
  intros Hs Hr Hc Hd. unfold trim, trimEnd.
  rewrite Hs at 1. rewrite (trimStart_nonspace c t Hc). rewrite <- Hs, Hr.
  rewrite (trimStart_nonspace d u Hd), <- Hr. apply rev_involutive.
Qed.

Lemma minus_not_space : isSpace (chr "-") = false.
Proof. reflexivity. Qed.

Lemma rev_last_digit (a b : str) :
  digitString b = true -> exists d u, rev (a ++ b) = d :: u /\ isDigit d = true.
Proof.
  intros H. apply digitString_forallb in H as Hall. apply digitString_inv in H.
  destruct H as (c & t & -> & Hc & Ht).
  destruct (rev (c :: t)) as [|d u] eqn:E.
  - apply (f_equal (@length ascii)) in E. rewrite length_rev in E. discriminate.
  - exists d, (u ++ rev a). rewrite rev_app_distr, E. split; [reflexivity|].
    assert (Hin : In d (c :: t)). { apply in_rev. rewrite E. left. reflexivity. }
    rewrite forallb_forall in Hall. apply Hall, Hin.
Qed.

Lemma decimal_trim (neg : bool) (ip : str) (fp : option str) :
  digitString ip = true -> fractionOk fp ->
  trim (signText neg ++ ip ++ fractionText fp) = signText neg ++ ip ++ fractionText fp.
Proof.
  intros Hip Hfp.
  assert (Hlast : exists d u, rev (signText neg ++ ip ++ fractionText fp) = d :: u /\ isDigit d = true).
  { destruct fp as [ds|]; simpl fractionText.
    - match goal with
      | |- context [rev ?x] =>
          replace x with ((signText neg ++ ip ++ [chr "."]) ++ ds)
            by (repeat rewrite <- app_assoc; reflexivity)
      end.
      exact (rev_last_digit (signText neg ++ ip ++ [chr "."]) ds Hfp).
    - rewrite app_nil_r. exact (rev_last_digit (signText neg) ip Hip). }
  destruct Hlast as (d & u & Hr & Hd).
  apply digitString_inv in Hip. destruct Hip as (c & t & -> & Hc & Ht).
  destruct neg; simpl signText.
  - eapply trim_unchanged; [reflexivity|exact Hr|reflexivity|apply digit_not_space, Hd].
  - eapply trim_unchanged; [reflexivity|exact Hr|apply digit_not_space, Hc|apply digit_not_space, Hd].
Qed.

(** *** their conversion to a number *)

Lemma takeWhile_app_stop (p : ascii -> bool) (a b : str) :
  forallb p a = true -> (match b with c :: _ => p c = false | [] => True end) ->
  takeWhile p (a ++ b) = a /\ dropWhile p (a ++ b) = b.
Proof.
  intros Ha Hb. induction a as [|x a IH]; simpl in *.
  - destruct b as [|c b]; simpl; [auto|]. rewrite Hb. auto.
  - apply andb_true_iff in Ha. destruct Ha as [-> Ha].
    destruct (IH Ha) as [-> ->]. auto.
Qed.

Lemma fractionText_stop (fp : option str) :
  match fractionText fp with c :: _ => isDigit c = false | [] => True end.
Proof. destruct fp; simpl; auto. Qed.

Lemma streq_head_differs (c d : ascii) (t u : str) : ceq c d = false -> streq (c :: t) (d :: u) = false.
Proof. intros H. simpl. rewrite H. reflexivity. Qed.

Lemma digit_not (c : ascii) (n : nat) : isDigit c = true -> (n < 48 \/ 57 < n) -> (code c =? n) = false.
Proof. intros H Hn. apply digit_code in H. apply Nat.eqb_neq. lia. Qed.

Lemma digit_ceq_false (c d : ascii) : isDigit c = true -> isDigit d = false -> ceq c d = false.
Proof.
  intros Hc Hd. destruct (ceq c d) eqn:E; [|reflexivity].
  apply ceq_eq in E. subst. congruence.
Qed.

Lemma parseUnsignedDecimal_decimal (neg : bool) (ip : str) (fp : option str) :
  digitString ip = true -> fractionOk fp ->
  parseUnsignedDecimal neg (ip ++ fractionText fp)
  = Decimal neg (decimalValue (ip ++ fractionDigits fp)) (- Z.of_nat (length (fractionDigits fp))).
Proof.
  intros Hip Hfp. unfold parseUnsignedDecimal.
  pose proof (digitString_forallb _ Hip) as Hall.
  destruct (takeWhile_app_stop isDigit ip (fractionText fp) Hall (fractionText_stop fp)) as [Ht Hd].
  rewrite Ht, Hd.
  assert (Hinf : streq (ip ++ fractionText fp) "Infinity" = false).
  { apply digitString_inv in Hip. destruct Hip as (c & t & -> & Hc & _).
    apply streq_head_differs. apply digit_ceq_false; [exact Hc|reflexivity]. }
  rewrite Hinf.
  assert (Hne : isEmpty ip = false).
  { apply digitString_inv in Hip. destruct Hip as (c & t & -> & _). reflexivity. }
  destruct fp as [ds|]; simpl fractionText; simpl fractionDigits.
  - change (code (chr ".") =? 46) with true. cbv iota.
    pose proof (digitString_forallb _ Hfp) as Hds.
    rewrite (takeWhile_all _ _ Hds), (dropWhile_all _ _ Hds).
    rewrite Hne. reflexivity.
  - rewrite Hne. reflexivity.
Qed.

Lemma Number_decimal (neg : bool) (ip : str) (fp : option str) :
  digitString ip = true -> fractionOk fp ->
  Number (signText neg ++ ip ++ fractionText fp)
  = Decimal neg (decimalValue (ip ++ fractionDigits fp)) (- Z.of_nat (length (fractionDigits fp))).
Proof.
  intros Hip Hfp. unfold Number. rewrite (decimal_trim neg ip fp Hip Hfp).
  destruct neg; simpl signText.
  - change (code (chr "-") =? 45) with true. cbv iota.
    apply parseUnsignedDecimal_decimal; assumption.
  - rewrite <- (parseUnsignedDecimal_decimal false ip fp Hip Hfp).
    pose proof Hip as Hip'.
    apply digitString_inv in Hip. destruct Hip as (c & t & -> & Hc & Ht).
    cbn [app].
    rewrite (digit_not c 45 Hc), (digit_not c 43 Hc) by lia.
    destruct (t ++ fractionText fp) as [|x u] eqn:E; [reflexivity|].
    destruct (code c =? 48); [|reflexivity].
    assert (Hx : isDigit x = true \/ code x = 46).
    { destruct t as [|y t']; simpl in E.
      - destruct fp as [ds|]; simpl in E; [|discriminate]. injection E as <- _. right. reflexivity.
      - injection E as <- _. simpl in Ht. apply andb_true_iff in Ht. tauto. }
    assert (Hcases : forall n, (n < 46 \/ 57 < n) -> (code x =? n) = false).
    { intros n Hn. apply Nat.eqb_neq. destruct Hx as [Hx|Hx]; [apply digit_code in Hx|]; lia. }
    rewrite (Hcases 120), (Hcases 88), (Hcases 111), (Hcases 79), (Hcases 98), (Hcases 66) by lia.
    reflexivity.
Qed.

Lemma Number_decimalString (s : str) : decimalString s = true -> isNaN (Number s) = false.
Proof.
  intros H. apply decimalString_split in H. destruct H as (neg & ip & fp & -> & Hip & Hfp).
  rewrite Number_decimal by assumption. reflexivity.
Qed.

Lemma Number_integerString (s : str) :
  integerString s = true -> length s <= 308 -> numberIsInteger (Number s) = true.
Proof.
  intros H Hlen. apply integerString_split in H. destruct H as (neg & ip & -> & Hip).
  pose proof (Number_decimal neg ip None Hip I) as HN. simpl fractionText in HN.
  simpl fractionDigits in HN. rewrite !app_nil_r in HN. rewrite HN.
  cbn [numberIsInteger length Z.of_nat Z.opp]. change (0 <=? 0)%Z with true. cbv iota.
  change (10 ^ 0)%Z with 1%Z. rewrite Z.mul_1_r.
  apply doubleIsInteger_integer.
  pose proof (decimalValue_bound ip (digitString_forallb _ Hip)) as [H0 H1].
  split; [exact H0|]. eapply Z.lt_le_trans; [exact H1|].
  apply Z.pow_le_mono_r; [lia|]. rewrite length_app in Hlen. lia.
Qed.

End DecimalFacts.

Module MatchFacts.
Import JS Vocabulary JSFacts.

Lemma run_sound (r : re) : bodySound (run r) (matches r).
Proof. exact (proj1 (run_correct r)). Qed.

Lemma run_complete (r : re) : bodyComplete (run r) (matches r).
Proof. exact (proj2 (run_correct r)). Qed.

Lemma matches_cls (p : ascii -> bool) (c : ascii) l t cs :
  p c = true -> matches (Cls p) (at_ l (c :: t) cs) (at_ (c :: l) t cs).
Proof. intros H. simpl. exists c, t. auto. Qed.

Lemma matches_star_cls (p : ascii -> bool) (ds : str) :
  forallb p ds = true ->
  forall l t cs, matches (Star (Cls p)) (at_ l (ds ++ t) cs) (at_ (rev ds ++ l) t cs).
Proof.
  induction ds as [|c ds IH]; intros H l t cs.
  - apply iter_stop.
  - cbn [forallb] in H. apply andb_true_iff in H. destruct H as [Hc Hds].
    cbn [matches]. eapply iter_more.
    + split; [apply (matches_cls p c l (ds ++ t) cs Hc)|]. simpl. lia.
    + cbn [rev]. rewrite <- app_assoc. apply (IH Hds (c :: l) t cs).
Qed.

Lemma matches_plus_cls (p : ascii -> bool) (c : ascii) (ds : str) :
  p c = true -> forallb p ds = true ->
  forall l t cs, matches (Plus (Cls p)) (at_ l ((c :: ds) ++ t) cs) (at_ (rev (c :: ds) ++ l) t cs).
Proof.
  intros Hc Hds l t cs. unfold Plus. cbn [matches].
  exists (at_ (c :: l) (ds ++ t) cs). split.
  - exists c, (ds ++ t). auto.
  - cbn [rev]. rewrite <- app_assoc. apply (matches_star_cls p ds Hds (c :: l) t cs).
Qed.

Lemma searchFrom_here (r : re) (l s : str) (st' : mstate) :
  matchAt r l s = Some st' -> searchFrom r l s = Some (info l s st').
Proof. intros H. destruct s; simpl; rewrite H; reflexivity. Qed.

Lemma test_here (r : re) (s : str) :
  (exists st', matches r (at_ [] s []) st') -> test r s = true.
Proof.
  intros [st' H]. unfold test, search.
  destruct (run_complete r (at_ [] s []) Some st' H) as [x Hx]; [exists st'; reflexivity|].
  rewrite (searchFrom_here r [] s x Hx). reflexivity.
Qed.

End MatchFacts.

Module InferFacts.
Import JS Vocabulary JSFacts NumberFacts DecimalFacts MatchFacts Parser.

Lemma matches_digits (c : ascii) (t : str) :
  digitString (c :: t) = true ->
  forall l u cs, matches (Plus Dg) (at_ l ((c :: t) ++ u) cs) (at_ (rev (c :: t) ++ l) u cs).
Proof.
  intros H l u cs. unfold digitString in H. cbn [isEmpty negb andb forallb] in H.
  apply andb_true_iff in H. destruct H as [Hc Ht].
  apply matches_plus_cls; assumption.
Qed.

Lemma plainNumberRe_decimal (s : str) : decimalString s = true -> test plainNumberRe s = true.
Proof.
  intros H. apply decimalString_split in H. destruct H as (neg & ip & fp & -> & Hip & Hfp).
  apply test_here. unfold plainNumberRe. cbn [seqs].
  pose proof Hip as Hip'. apply digitString_inv in Hip'. destruct Hip' as (c & t & -> & _ & _).
  set (l1 := if neg then [chr "-"] else []).
  (* the state after the sign and the digits *)
  assert (Hhead : matches (Seq Bos (Seq (Opt (Ch "-")) (Plus Dg)))
                    (at_ [] (signText neg ++ (c :: t) ++ fractionText fp) [])
                    (at_ (rev (c :: t) ++ l1) (fractionText fp) [])).
  { cbn [matches].
    exists (at_ [] (signText neg ++ (c :: t) ++ fractionText fp) []). split; [split; reflexivity|].
    exists (at_ l1 ((c :: t) ++ fractionText fp) []). split.
    - destruct neg; simpl signText; unfold l1.
      + left. exists (chr "-"), ((c :: t) ++ fractionText fp). auto.
      + right. reflexivity.
    - apply (matches_digits c t Hip). }
  destruct fp as [ds|]; simpl fractionText in *.
  - pose proof Hfp as Hds. apply digitString_inv in Hds. destruct Hds as (d & u & -> & _ & _).
    eexists. cbn [matches] in *.
    destruct Hhead as (m0 & Hm0 & m1 & Hm1 & Hm2).
    exists m0. split; [exact Hm0|]. exists m1. split; [exact Hm1|].
    eexists. split; [exact Hm2|].
    eexists. split.
    + left. eexists. split; [|reflexivity].
      exists (at_ (chr "." :: rev (c :: t) ++ l1) ((d :: u) ++ []) []). split.
      * exists (chr "."), (d :: u). rewrite app_nil_r. auto.
      * apply (matches_digits d u Hfp).
    + split; reflexivity.
  - eexists. cbn [matches] in *.
    destruct Hhead as (m0 & Hm0 & m1 & Hm1 & Hm2).
    exists m0. split; [exact Hm0|]. exists m1. split; [exact Hm1|].
    eexists. split; [exact Hm2|].
    eexists. split; [right; reflexivity|]. split; reflexivity.
Qed.

Lemma decimal_chars (s : str) (c : ascii) :
  decimalString s = true -> In c s -> isDigit c = true \/ code c = 45 \/ code c = 46.
Proof.
  intros H Hin. apply decimalString_split in H. destruct H as (neg & ip & fp & -> & Hip & Hfp).
  rewrite !in_app_iff in Hin. destruct Hin as [Hin|[Hin|Hin]].
  - destruct neg; simpl in Hin; [|tauto]. destruct Hin as [<-|[]]. auto.
  - left. apply digitString_forallb in Hip. rewrite forallb_forall in Hip. auto.
  - destruct fp as [ds|]; simpl in Hin; [|tauto]. destruct Hin as [<-|Hin]; [auto|].
    left. apply digitString_forallb in Hfp. rewrite forallb_forall in Hfp. auto.
Qed.

Lemma decimal_no_slash (s : str) : decimalString s = true -> includes s "/" = false.
Proof.
  intros H. destruct (includes s "/") eqn:E; [|reflexivity].
  apply includes_split in E. destruct E as (a & b & Hs).
  assert (Hin : In (chr "/") s). { rewrite Hs. apply in_or_app. right. left. reflexivity. }
  destruct (decimal_chars s _ H Hin) as [Hd|[Hd|Hd]]; discriminate.
Qed.

Section WithDate.
Variable dateParses : str -> bool.

Lemma isValidDate_decimal (s : str) : decimalString s = true -> isValidDate dateParses s = false.
Proof.
  intros H. unfold isValidDate.
  destruct (length s <? 6) eqn:E6; [reflexivity|].
  apply Nat.ltb_ge in E6.
  assert (E4 : (length s <? 4) = false) by (apply Nat.ltb_ge; lia).
  rewrite E4, andb_false_r.
  rewrite (plainNumberRe_decimal s H), (decimal_no_slash s H).
  rewrite orb_true_r. reflexivity.
Qed.

(** *** counting *)

Lemma count_all (p : str -> bool) (l : list str) :
  Forall (fun s => p s = true) l -> count p l = length l.
Proof.
  unfold count. induction 1 as [|s l Hs _ IH]; simpl; [reflexivity|].
  rewrite Hs. simpl. f_equal. exact IH.
Qed.

Lemma count_none (p : str -> bool) (l : list str) :
  Forall (fun s => p s = false) l -> count p l = 0.
Proof.
  unfold count. induction 1 as [|s l Hs _ IH]; simpl; [reflexivity|].
  rewrite Hs. exact IH.
Qed.

Lemma count_le (p : str -> bool) (l : list str) : count p l <= length l.
Proof. unfold count. apply filter_length_le. Qed.

Lemma count_some_not (p : str -> bool) (l : list str) :
  Exists (fun s => p s = false) l -> count p l < length l.
Proof.
  unfold count. induction 1 as [s l Hs|s l _ IH]; simpl.
  - rewrite Hs. pose proof (filter_length_le p l). lia.
  - destruct (p s); simpl; lia.
Qed.

Lemma validValues_strings (P : str -> Prop) (values : list value) :
  (forall s, P s -> s <> []) ->
  strings P values ->
  Forall P (validValues values) /\ length (validValues values) = length values.
Proof.
  intros Hne. induction 1 as [|v values (s & -> & Hs) _ [IH1 IH2]]; simpl; [auto|].
  destruct s as [|c t]; [elim (Hne [] Hs); reflexivity|].
  simpl. split; [constructor; assumption|]. f_equal. exact IH2.
Qed.

Lemma decimalString_nonempty (s : str) : decimalString s = true -> s <> [].
Proof. destruct s; [discriminate|discriminate]. Qed.

(** the branches of inferDataType on a column of decimal strings *)
Lemma inferDataType_decimals (values : list value) (columnName : str) :
  values <> [] ->
  strings (fun s => decimalString s = true) values ->
  inferDataType dateParses values columnName =
    if likelyNumericColumn (toLowerCase columnName) then NUMERIC
    else if count (fun v => numberIsInteger (Number v)) (validValues values)
            =? length (validValues values)
         then INTEGER else NUMERIC.
Proof.
  intros Hne Hall.
  destruct (validValues_strings _ values decimalString_nonempty Hall) as [Hv Hlen].
  unfold inferDataType.
  set (valid := validValues values) in *.
  assert (Hpos : 0 < length valid) by (rewrite Hlen; destruct values; [congruence|simpl; lia]).
  assert (E0 : (length valid =? 0) = false) by (apply Nat.eqb_neq; lia).
  rewrite E0.
  assert (Hnum : count (fun v => negb (isNaN (Number v))) valid = length valid).
  { apply count_all. eapply Forall_impl; [|exact Hv].
    intros s Hs. cbv beta. rewrite (Number_decimalString s Hs). reflexivity. }
  assert (Hlooks : count looksNumeric valid = length valid).
  { apply count_all. eapply Forall_impl; [|exact Hv].
    intros s Hs. unfold looksNumeric. rewrite (Number_decimalString s Hs). apply orb_true_r. }
  assert (Hdate : count (isValidDate dateParses) valid = 0).
  { apply count_none. eapply Forall_impl; [|exact Hv].
    intros s Hs. apply isValidDate_decimal, Hs. }
  rewrite Hlooks, Hdate, Hnum.
  destruct (likelyNumericColumn (toLowerCase columnName)).
  - apply Nat.ltb_lt in Hpos as E1. rewrite E1.
    assert (E2 : (7 * length valid <=? 10 * length valid) = true) by (apply Nat.leb_le; lia).
    rewrite E2. reflexivity.
  - cbn [andb].
    assert (E3 : (0 =? length valid) = false) by (apply Nat.eqb_neq; lia).
    rewrite E3. cbn [andb]. rewrite Nat.eqb_refl. reflexivity.
Qed.

End WithDate.

End InferFacts.

Import JS Vocabulary JSFacts.

Module IntentFacts.
Import OpenAI OpenAIFacts.

Lemma fires_adds q v t c : fires q v t c = true <-> adds q v t c.
Proof.
  unfold fires, adds. destruct (requiredColumnTypes c) as [required|]; [|tauto].
  rewrite !andb_true_iff, !orb_true_iff, !andb_true_iff, !orb_true_iff, !queryTypeEqb_eq.
  tauto.
Qed.

Lemma detectQueryType_adds query schema types t :
  detectQueryType query schema = Normal types ->
  t <> general ->
  (In t types <->
   exists v c, validateAndAdaptSchema schema = Normal v
               /\ patternOf t QUERY_PATTERNS = Some c
               /\ adds (toLowerCase query) v t c).
Proof.
  intros H Ht. rewrite (detectQueryType_spec query schema types t H Ht).
  split; intros (v & c & Hv & Hc & Hf); exists v, c; (split; [exact Hv|]); (split; [exact Hc|]);
    apply fires_adds; exact Hf.
Qed.

(** temporal needs no word of the question *)
Lemma temporal_whenever_dated query schema v types :
  validateAndAdaptSchema schema = Normal v ->
  detectQueryType query schema = Normal types ->
  (In temporal types <-> hasColumnType v "date" = true).
Proof.
  intros Hv H. rewrite (detectQueryType_adds query schema types temporal H) by discriminate.
  split.
  - intros (v' & c & Hv' & Hc & Ha). rewrite Hv in Hv'. apply Normal_inj' in Hv'. subst v'.
    unfold QUERY_PATTERNS in Hc. cbn [patternOf queryTypeEqb] in Hc.
    assert (c = temporalConfig) by congruence. subst c.
    unfold adds in Ha. change (requiredColumnTypes temporalConfig) with (Some [lit "date"]) in Ha.
    destruct Ha as [Ha _]. cbn [forallb] in Ha. rewrite andb_true_r in Ha. exact Ha.
  - intros Hd. exists v, temporalConfig. split; [exact Hv|]. split; [reflexivity|].
    unfold adds. change (requiredColumnTypes temporalConfig) with (Some [lit "date"]).
    split; [cbn [forallb]; rewrite Hd; reflexivity|]. right. right. left. auto.
Qed.

End IntentFacts.

Module ScanFacts.
Import JS Vocabulary JSFacts MatchFacts.

Lemma advances_refl (st : mstate) : advances st st.
Proof. exists []. auto. Qed.

Lemma advances_trans (a b c : mstate) : advances a b -> advances b c -> advances a c.
Proof.
  intros (p & Hp1 & Hp2) (q & Hq1 & Hq2). exists (p ++ q).
  rewrite Hp1, Hq1, Hq2, Hp2, rev_app_distr, !app_assoc. auto.
Qed.

Lemma iter_advances (R : mstate -> mstate -> Prop) :
  (forall x y, R x y -> advances x y) ->
  forall x y, iter (shorter R) x y -> advances x y.
Proof.
  intros HR x y H. induction H as [x|x y z [Hxy _] _ IH].
  - apply advances_refl.
  - eapply advances_trans; [apply HR, Hxy|exact IH].
Qed.

Lemma matches_advances (r : re) : forall st st', matches r st st' -> advances st st'.
Proof.
  induction r as [|p|a IHa b IHb|a IHa b IHb|a IHa|a IHa|i a IHa| | | |a IHa];
    intros st st'; cbn [matches].
  - intros ->. apply advances_refl.
  - intros (c & t & E & _ & ->). exists [c]. simpl. auto.
  - intros (m & Ha & Hb). eapply advances_trans; eauto.
  - intros [H|H]; auto.
  - apply iter_advances, IHa.
  - apply iter_advances, IHa.
  - intros (m & Ha & ->). destruct (IHa _ _ Ha) as (pre & H1 & H2). exists pre. auto.
  - intros [_ ->]. apply advances_refl.
  - intros [_ ->]. apply advances_refl.
  - intros [_ ->]. apply advances_refl.
  - intros [_ ->]. apply advances_refl.
Qed.

Lemma matchAt_matches (r : re) (l s : str) (st' : mstate) :
  matchAt r l s = Some st' -> matches r (at_ l s []) st'.
Proof.
  unfold matchAt. intros H. apply (run_sound r) in H.
  destruct H as (x & Hx & E). injection E as <-. exact Hx.
Qed.

Lemma matchAt_suffix (r : re) (l s : str) (st' : mstate) :
  matchAt r l s = Some st' ->
  exists pre, s = pre ++ rest st' /\ left st' = rev pre ++ l.
Proof. intros H. apply matchAt_matches, matches_advances in H. exact H. Qed.

(** the fuel of the global replacement does not matter once it exceeds the
    length of the input *)
Lemma replaceLoop_fuel (r : re) (f : minfo -> str) :
  forall fuel fuel' l s, length s < fuel -> length s < fuel' ->
  replaceLoop fuel r f l s = replaceLoop fuel' r f l s.
Proof.
  induction fuel as [|fuel IH]; intros fuel' l s H H'; [lia|].
  destruct fuel' as [|fuel']; [lia|]. cbn [replaceLoop].
  assert (Hstep : match s with [] => [] | c :: t => c :: replaceLoop fuel r f (c :: l) t end
                  = match s with [] => [] | c :: t => c :: replaceLoop fuel' r f (c :: l) t end).
  { destruct s as [|c t]; [reflexivity|]. f_equal. apply IH; simpl in *; lia. }
  rewrite Hstep. destruct (matchAt r l s) as [st'|] eqn:E; [|reflexivity].
  destruct (matchAt_suffix r l s st' E) as (pre & Hs & _).
  destruct (length s - length (rest st')) eqn:En; [reflexivity|].
  f_equal. apply IH.
  - rewrite Hs, length_app in *. lia.
  - rewrite Hs, length_app in *. lia.
Qed.

Lemma replaceAll_scan (r : re) (f : minfo -> str) (s : str) : replaceAll r f s = scan r f [] s.
Proof. reflexivity. Qed.

Lemma scan_nil (r : re) (f : minfo -> str) (l : str) :
  matchAt r l [] = None -> scan r f l [] = [].
Proof. intros H. unfold scan. cbn [length replaceLoop]. rewrite H. reflexivity. Qed.

Lemma scan_miss (r : re) (f : minfo -> str) (l : str) (c : ascii) (t : str) :
  matchAt r l (c :: t) = None -> scan r f l (c :: t) = c :: scan r f (c :: l) t.
Proof. intros H. unfold scan at 1. cbn [length replaceLoop]. rewrite H. reflexivity. Qed.

Lemma scan_hit (r : re) (f : minfo -> str) (l w u : str) (cs : list (nat * str)) :
  w <> [] ->
  matchAt r l (w ++ u) = Some (at_ (rev w ++ l) u cs) ->
  scan r f l (w ++ u) = f (info l (w ++ u) (at_ (rev w ++ l) u cs)) ++ scan r f (rev w ++ l) u.
Proof.
  intros Hw H. unfold scan at 1. cbn [replaceLoop]. rewrite H. cbn [rest left at_].
  rewrite length_app.
  destruct w as [|c w]; [congruence|]. cbn [length].
  replace (S (length w) + length u - length u) with (S (length w)) by lia.
  f_equal. unfold scan. apply replaceLoop_fuel; lia.
Qed.

Lemma scan_ext (r : re) (f g : minfo -> str) :
  (forall m, f m = g m) -> forall l s, scan r f l s = scan r g l s.
Proof.
  intros H l s. unfold scan. generalize (S (length s)) as fuel. intros fuel. revert l s.
  induction fuel as [|fuel IH]; intros l s; [reflexivity|]. cbn [replaceLoop].
  assert (Hstep : match s with [] => [] | c :: t => c :: replaceLoop fuel r f (c :: l) t end
                  = match s with [] => [] | c :: t => c :: replaceLoop fuel r g (c :: l) t end).
  { destruct s as [|c t]; [reflexivity|]. f_equal. apply IH. }
  rewrite Hstep. destruct (matchAt r l s) as [st'|]; [|reflexivity].
  rewrite H. destruct (length s - length (rest st')); [reflexivity|]. f_equal. apply IH.
Qed.

(** a replacement text without a dollar sign is inserted as it is *)
Lemma substitute_plain (groupCount : nat) (m : minfo) :
  forall t fuel, length t < fuel -> forallb (fun c => negb (code c =? 36)) t = true ->
  substitute fuel groupCount t m = t.
Proof.
  induction t as [|c t IH]; intros fuel Hf Hp.
  - destruct fuel; reflexivity.
  - destruct fuel as [|fuel]; [simpl in Hf; lia|].
    cbn [forallb] in Hp. apply andb_true_iff in Hp. destruct Hp as [Hc Ht].
    cbn [substitute]. rewrite Hc. f_equal. apply IH; [simpl in Hf; lia|exact Ht].
Qed.

Lemma subst_plain (groupCount : nat) (t : str) (m : minfo) :
  forallb (fun c => negb (code c =? 36)) t = true -> subst groupCount t m = t.
Proof. intros H. unfold subst. apply substitute_plain; [lia|exact H]. Qed.

End ScanFacts.

Module ColumnFacts.
Import JS Vocabulary JSFacts MatchFacts ScanFacts.

(** *** characters *)

Ltac each_char c :=
  destruct c as [b0 b1 b2 b3 b4 b5 b6 b7];
  destruct b0, b1, b2, b3, b4, b5, b6, b7; reflexivity.

Lemma isWord_lowerChar (c : ascii) : isWord (lowerChar c) = isWord c.
Proof. each_char c. Qed.

Lemma lowerChar_idem (c : ascii) : lowerChar (lowerChar c) = lowerChar c.
Proof. each_char c. Qed.

Lemma Chi_dq (c : ascii) : ceq (lowerChar c) (lowerChar dq) = ceq c dq.
Proof. each_char c. Qed.

Lemma space_not_word (c : ascii) : isSpace c && isWord c = false.
Proof. each_char c. Qed.

Lemma word_not_dollar (c : ascii) : implb (isWord c) (negb (code c =? 36)) = true.
Proof. each_char c. Qed.

Lemma toLowerCase_idem (s : str) : toLowerCase (toLowerCase s) = toLowerCase s.
Proof. unfold toLowerCase. rewrite map_map. apply map_ext, lowerChar_idem. Qed.

Lemma words_lower (w n : str) :
  map lowerChar w = n -> forallb isWord n = true -> forallb isWord w = true.
Proof.
  intros <- H. rewrite forallb_forall in *. intros c Hc.
  rewrite <- isWord_lowerChar. apply H. apply in_map, Hc.
Qed.

(** *** the matches of the column pattern *)

Lemma at_eta (st : mstate) : at_ (left st) (rest st) (caps st) = st.
Proof. destruct st; reflexivity. Qed.

Lemma matches_literal (n : str) (k : re) :
  forall st st',
    matches (literal n k) st st' <->
    exists w r, rest st = w ++ r /\ map lowerChar w = map lowerChar n
                /\ matches k (at_ (rev w ++ left st) r (caps st)) st'.
Proof.
  induction n as [|c n IH]; intros st st'; cbn [literal fold_right].
  - split.
    + intros H. exists [], (rest st). cbn [rev app map]. rewrite at_eta. auto.
    + intros (w & r & Hs & Hw & H). destruct w; [|discriminate].
      cbn [rev app] in *. rewrite <- Hs, at_eta in H. exact H.
  - fold (literal n k). cbn [matches]. split.
    + intros (m & (x & t & Hs & Hx & ->) & H). apply IH in H.
      destruct H as (w & r & Hs' & Hw & H). cbn [rest left caps] in *.
      exists (x :: w), r. split; [rewrite Hs, Hs'; reflexivity|].
      split.
      * cbn [map]. apply ceq_eq in Hx. rewrite Hx, Hw. reflexivity.
      * cbn [rev]. rewrite <- app_assoc. exact H.
    + intros (w & r & Hs & Hw & H). destruct w as [|x w]; [discriminate|].
      cbn [map] in Hw. injection Hw as Hx Hw.
      exists (at_ (x :: left st) (w ++ r) (caps st)). split.
      * exists x, (w ++ r). split; [exact Hs|]. split; [|reflexivity].
        apply ceq_eq. exact Hx.
      * apply IH. exists w, r. cbn [rest left caps at_]. split; [reflexivity|].
        split; [exact Hw|]. cbn [rev] in H. rewrite <- app_assoc in H. exact H.
Qed.

Lemma iter_spaces (st st' : mstate) :
  iter (shorter (matches Sp)) st st' ->
  exists ws, rest st = ws ++ rest st' /\ forallb isSpace ws = true.
Proof.
  induction 1 as [x|x y z [(c & t & Hs & Hc & ->) _] _ (ws & Hw & Hall)].
  - exists []. auto.
  - exists (c :: ws). cbn [rest] in Hw. rewrite Hs, Hw. cbn [forallb]. rewrite Hc, Hall. auto.
Qed.

Lemma quoteAhead_spec (st : mstate) :
  (exists st', matches quoteAhead st st') <-> spacesThenQuote (rest st).
Proof.
  unfold quoteAhead. split.
  - intros (st' & m & Hstar & m' & (c & t & Hs & Hc & ->) & _).
    cbn [matches] in Hstar. apply iter_spaces in Hstar. destruct Hstar as (ws & Hw & Hall).
    unfold Chi in Hc. rewrite Chi_dq in Hc. apply ceq_eq in Hc. subst c.
    exists ws, t. rewrite Hw, Hs. auto.
  - intros (ws & t & Hs & Hall). destruct st as [l r cs]. cbn [rest] in Hs. subst r.
    eexists. cbn [matches]. exists (at_ (rev ws ++ l) (dq :: t) cs). split.
    + apply (matches_star_cls isSpace ws Hall l (dq :: t) cs).
    + eexists. split; [|reflexivity]. exists dq, t. split; [reflexivity|].
      split; [|reflexivity]. apply ceq_refl.
Qed.

Section Column.

Variable lower : str.
Hypothesis identifier_lower : identifier lower = true.
Hypothesis lower_is_lower : toLowerCase lower = lower.

Local Abbreviation hits := (Vocabulary.hits lower).

Lemma lower_words : forallb isWord lower = true.
Proof.
  pose proof identifier_lower as H. unfold identifier in H. apply andb_true_iff in H. tauto.
Qed.

Lemma lower_nonempty : lower <> [].
Proof.
  pose proof identifier_lower as H. unfold identifier in H. apply andb_true_iff in H.
  destruct H as [H _]. intros E. rewrite E in H. discriminate.
Qed.

Lemma hit_word (w : str) :
  map lowerChar w = lower ->
  forallb isWord w = true /\ w <> [] /\ headIsWord w = true /\ headIsWord (rev w) = true.
Proof.
  intros Hw. pose proof (words_lower w lower Hw lower_words) as Hall.
  assert (Hne : w <> []).
  { intros ->. apply lower_nonempty. symmetry. exact Hw. }
  split; [exact Hall|]. split; [exact Hne|].
  rewrite forallb_forall in Hall. split.
  - destruct w as [|c w]; [congruence|]. apply Hall. left. reflexivity.
  - destruct (rev w) as [|c u] eqn:E.
    + apply (f_equal (@rev ascii)) in E. rewrite rev_involutive in E. simpl in E. congruence.
    + apply Hall. apply in_rev. rewrite E. left. reflexivity.
Qed.

Lemma matches_columnRe (l s : str) (st' : mstate) :
  matches (columnRe lower) (at_ l s []) st' <->
  exists w r, hits l s w r /\ st' = at_ (rev w ++ l) r [].
Proof.
  unfold columnRe. cbn [matches]. split.
  - intros (m & [Hb ->] & H). apply matches_literal in H.
    destruct H as (w & r & Hs & Hw & H). cbn [rest left caps at_] in *.
    change (map lowerChar lower) with (toLowerCase lower) in Hw. rewrite lower_is_lower in Hw.
    destruct (hit_word w Hw) as (Hall & Hne & Hhead & Hlast).
    destruct H as (m1 & [Hb1 ->] & m2 & [Hn ->] & ->).
    exists w, r. split; [|reflexivity].
    unfold prevIsWord, nextIsWord in *. cbn [left rest at_] in *.
    fold (headIsWord l) in Hb. fold (headIsWord s) in Hb.
    fold (headIsWord (rev w ++ l)) in Hb1. fold (headIsWord r) in Hb1.
    assert (Hs1 : headIsWord s = true).
    { rewrite Hs. destruct w; [congruence|]. exact Hhead. }
    assert (Hl1 : headIsWord (rev w ++ l) = true).
    { destruct (rev w); [discriminate|]. exact Hlast. }
    rewrite Hs1 in Hb. rewrite Hl1 in Hb1.
    split; [exact Hs|]. split; [exact Hw|].
    split; [destruct (headIsWord l); [discriminate|reflexivity]|].
    split; [destruct (headIsWord r); [discriminate|reflexivity]|].
    intros Hq. apply (quoteAhead_spec (at_ (rev w ++ l) r [])) in Hq.
    destruct Hq as (x & Hx). exact (Hn x Hx).
  - intros (w & r & (Hs & Hw & Hl & Hr & Hq) & ->).
    destruct (hit_word w Hw) as (Hall & Hne & Hhead & Hlast).
    exists (at_ l s []). split.
    + split; [|reflexivity]. unfold prevIsWord, nextIsWord. cbn [left rest at_].
      fold (headIsWord l). fold (headIsWord s). rewrite Hl.
      rewrite Hs. destruct w; [congruence|]. cbn [app headIsWord]. simpl in Hhead.
      rewrite Hhead. reflexivity.
    + apply matches_literal. exists w, r. cbn [rest left caps at_].
      split; [exact Hs|].
      split; [change (map lowerChar lower) with (toLowerCase lower); rewrite lower_is_lower; exact Hw|].
      exists (at_ (rev w ++ l) r []). split.
      * split; [|reflexivity]. unfold prevIsWord, nextIsWord. cbn [left rest at_].
        fold (headIsWord (rev w ++ l)). fold (headIsWord r). rewrite Hr.
        destruct (rev w); [discriminate|]. cbn [app headIsWord]. simpl in Hlast.
        rewrite Hlast. reflexivity.
      * exists (at_ (rev w ++ l) r []). split; [|reflexivity]. split; [|reflexivity].
        intros x Hx. apply Hq. apply (quoteAhead_spec (at_ (rev w ++ l) r [])).
        exists x. exact Hx.
Qed.

Lemma hits_unique (l s w r w' r' : str) : hits l s w r -> hits l s w' r' -> w = w' /\ r = r'.
Proof.
  intros (Hs & Hw & _) (Hs' & Hw' & _).
  assert (Hlen : length w = length w').
  { rewrite <- (length_map lowerChar w), <- (length_map lowerChar w'), Hw, Hw'. reflexivity. }
  rewrite Hs in Hs'. apply app_eq_app in Hs'.
  destruct Hs' as (x & [[H1 H2]|[H1 H2]]).
  - assert (x = []). { apply (f_equal (@length ascii)) in H1. rewrite length_app in H1.
                       destruct x; [reflexivity|simpl in H1; lia]. }
    subst x. rewrite app_nil_r in H1. simpl in H2. auto.
  - assert (x = []). { apply (f_equal (@length ascii)) in H1. rewrite length_app in H1.
                       destruct x; [reflexivity|simpl in H1; lia]. }
    subst x. rewrite app_nil_r in H1. simpl in H2. auto.
Qed.

Lemma matchAt_hit (l s : str) (st' : mstate) :
  matchAt (columnRe lower) l s = Some st' ->
  exists w r, hits l s w r /\ st' = at_ (rev w ++ l) r [].
Proof. intros H. apply matchAt_matches in H. apply matches_columnRe, H. Qed.

Lemma hit_matchAt (l s w r : str) :
  hits l s w r -> matchAt (columnRe lower) l s = Some (at_ (rev w ++ l) r []).
Proof.
  intros H.
  assert (Hm : matches (columnRe lower) (at_ l s []) (at_ (rev w ++ l) r [])).
  { apply matches_columnRe. exists w, r. auto. }
  destruct (run_complete (columnRe lower) (at_ l s []) Some _ Hm) as [x Hx];
    [eexists; reflexivity|].
  change (matchAt (columnRe lower) l s = Some x) in Hx. rewrite Hx.
  destruct (matchAt_hit l s x Hx) as (w' & r' & H' & ->).
  destruct (hits_unique l s w r w' r' H H') as [<- <-]. reflexivity.
Qed.

Lemma miss (l s : str) :
  (forall w r, ~ hits l s w r) -> matchAt (columnRe lower) l s = None.
Proof.
  intros H. destruct (matchAt (columnRe lower) l s) as [st'|] eqn:E; [|reflexivity].
  destruct (matchAt_hit l s st' E) as (w & r & Hh & _). elim (H w r Hh).
Qed.

End Column.

End ColumnFacts.

Module StableFacts.
Import JS Vocabulary JSFacts MatchFacts ScanFacts ColumnFacts.

Lemma nonempty_cons (s : str) : s <> [] -> exists c t, s = c :: t.
Proof. destruct s as [|c t]; [congruence|eauto]. Qed.

Section Column.

Variables lower proper : str.
Hypothesis identifier_lower : identifier lower = true.
Hypothesis lower_of_proper : toLowerCase proper = lower.

Lemma lower_is_lower : toLowerCase lower = lower.
Proof. rewrite <- lower_of_proper. apply toLowerCase_idem. Qed.

Local Abbreviation sc := (Vocabulary.sc lower proper).

Let name_is_word := hit_word lower identifier_lower.
Let no_hit := miss lower identifier_lower lower_is_lower.
Let hit_is_found := hit_matchAt lower identifier_lower lower_is_lower.
Let found_is_hit := matchAt_hit lower identifier_lower lower_is_lower.

Lemma sc_nil (l : str) : sc l [] = [].
Proof.
  apply scan_nil. apply no_hit. intros w r (Hs & Hw & _).
  destruct (name_is_word w Hw) as (_ & Hne & _). destruct w; [congruence|discriminate].
Qed.

Lemma sc_skip (l : str) (c : ascii) (t : str) :
  isWord c = false -> sc l (c :: t) = c :: sc (c :: l) t.
Proof.
  intros Hc. apply scan_miss. apply no_hit. intros w r (Hs & Hw & _).
  destruct (name_is_word w Hw) as (_ & Hne & Hhead & _).
  destruct w as [|x w]; [congruence|]. injection Hs as <- _. simpl in Hhead. congruence.
Qed.

Lemma sc_inside (l : str) (c : ascii) (t : str) :
  headIsWord l = true -> sc l (c :: t) = c :: sc (c :: l) t.
Proof.
  intros Hl. apply scan_miss. apply no_hit. intros w r (_ & _ & Hl' & _). congruence.
Qed.

Lemma sc_word (w : str) :
  forallb isWord w = true ->
  forall l u, headIsWord l = true -> sc l (w ++ u) = w ++ sc (rev w ++ l) u.
Proof.
  induction w as [|x w IH]; intros Hw l u Hl; [reflexivity|].
  cbn [forallb] in Hw. apply andb_true_iff in Hw. destruct Hw as [Hx Hw].
  cbn [app]. rewrite (sc_inside l x (w ++ u) Hl). f_equal.
  rewrite (IH Hw (x :: l) u Hx). cbn [rev]. rewrite <- app_assoc. reflexivity.
Qed.

Lemma sc_spaces (ws : str) :
  forallb isSpace ws = true ->
  forall l t, sc l (ws ++ dq :: t) = ws ++ dq :: sc (dq :: rev ws ++ l) t.
Proof.
  induction ws as [|x ws IH]; intros Hws l t.
  - cbn [app rev]. apply sc_skip. reflexivity.
  - cbn [forallb] in Hws. apply andb_true_iff in Hws. destruct Hws as [Hx Hws].
    cbn [app]. rewrite sc_skip.
    + f_equal. rewrite (IH Hws (x :: l) t). cbn [rev]. rewrite <- app_assoc. reflexivity.
    + pose proof (space_not_word x) as H. rewrite Hx in H. exact H.
Qed.

Lemma sc_hit (l s w r : str) :
  hits lower l s w r -> sc l s = quoted proper ++ sc (rev w ++ l) r.
Proof.
  intros H. pose proof (hit_is_found l s w r H) as Hm.
  destruct H as (Hs & Hw & _). destruct (name_is_word w Hw) as (_ & Hne & _).
  subst s. unfold Vocabulary.sc. rewrite (scan_hit _ _ l w r [] Hne Hm). reflexivity.
Qed.

Lemma sc_copy (w : str) :
  forallb isWord w = true ->
  forall l t o, sc l t = w ++ o -> exists t', t = w ++ t' /\ o = sc (rev w ++ l) t'.
Proof.
  induction w as [|x w IH]; intros Hw l t o H.
  - exists t. auto.
  - cbn [forallb] in Hw. apply andb_true_iff in Hw. destruct Hw as [Hx Hw].
    destruct t as [|c t]; [rewrite sc_nil in H; discriminate|].
    destruct (matchAt (columnRe lower) l (c :: t)) as [st'|] eqn:E.
    + destruct (found_is_hit l (c :: t) st' E) as (w0 & r0 & Hh & _).
      rewrite (sc_hit l (c :: t) w0 r0 Hh) in H. unfold quoted in H. cbn [app] in H.
      injection H as Hq _. subst x. discriminate.
    + unfold Vocabulary.sc in H. rewrite (scan_miss _ _ l c t E) in H. cbn [app] in H.
      injection H as -> H. fold (sc (x :: l) t) in H.
      destruct (IH Hw (x :: l) t o H) as (t' & -> & ->).
      exists t'. cbn [rev]. rewrite <- app_assoc. auto.
Qed.

Lemma proper_words : forallb isWord proper = true.
Proof.
  apply (words_lower proper lower lower_of_proper).
  pose proof identifier_lower as H. unfold identifier in H. apply andb_true_iff in H. tauto.
Qed.

(** the text inserted by a first pass is left alone by a second one *)
Lemma sc_quoted (l o : str) :
  sc l (quoted proper ++ o) = quoted proper ++ sc (dq :: rev proper ++ dq :: l) o.
Proof.
  unfold quoted. cbn [app]. rewrite sc_skip by reflexivity. f_equal.
  destruct (name_is_word proper lower_of_proper) as (Hall & Hne & Hhead & Hlast).
  assert (Hmiss : matchAt (columnRe lower) (dq :: l) (proper ++ dq :: o) = None).
  { apply no_hit. intros w r (Hs & Hw & _ & _ & Hq).
    assert (Hlen : length w = length proper).
    { rewrite <- (length_map lowerChar w), Hw, <- lower_of_proper. unfold toLowerCase.
      rewrite length_map. reflexivity. }
    apply app_eq_app in Hs. destruct Hs as (x & [[H1 H2]|[H1 H2]]).
    - assert (x = []). { apply (f_equal (@length ascii)) in H1. rewrite length_app in H1.
                         destruct x; [reflexivity|simpl in H1; lia]. }
      subst x. apply Hq. exists [], o. split; [simpl in H2; exact H2|reflexivity].
    - assert (x = []). { apply (f_equal (@length ascii)) in H1. rewrite length_app in H1.
                         destruct x; [reflexivity|simpl in H1; lia]. }
      subst x. apply Hq. exists [], o. split; [simpl in H2; symmetry; exact H2|reflexivity]. }
  rewrite <- !app_assoc. cbn [app].
  assert (Hsplit : exists p0 ps, proper = p0 :: ps).
  { apply nonempty_cons, Hne. }
  destruct Hsplit as (p0 & ps & Ep).
  set (f := Vocabulary.sc lower proper) in *.
  rewrite Ep in Hmiss, Hall, Hlast |- *. subst f.
  cbn [app] in *.
  unfold Vocabulary.sc at 1. rewrite (scan_miss _ _ (dq :: l) p0 (ps ++ dq :: o) Hmiss).
  fold (sc (p0 :: dq :: l) (ps ++ dq :: o)). f_equal.
  cbn [forallb] in Hall. apply andb_true_iff in Hall. destruct Hall as [Hp0 Hps].
  rewrite (sc_word ps Hps (p0 :: dq :: l) (dq :: o) Hp0). f_equal.
  rewrite sc_skip by reflexivity. f_equal. cbn [rev]. rewrite <- app_assoc. reflexivity.
Qed.

Lemma headIsWord_sc (l t : str) : headIsWord l = true -> headIsWord (sc l t) = headIsWord t.
Proof.
  intros Hl. destruct t as [|c t]; [rewrite sc_nil; reflexivity|].
  rewrite (sc_inside l c t Hl). reflexivity.
Qed.

(** a second pass finds no match where the first found none *)
Lemma second_pass_miss (l l' : str) (c : ascii) (t : str) :
  headIsWord l = headIsWord l' ->
  matchAt (columnRe lower) l (c :: t) = None ->
  matchAt (columnRe lower) l' (c :: sc (c :: l) t) = None.
Proof.
  intros Hll Hnone. apply no_hit. intros w r' (Hs & Hw & Hl' & Hr' & Hq).
  destruct (name_is_word w Hw) as (Hall & Hne & Hhead & Hlast).
  destruct w as [|x w']; [congruence|]. cbn [app] in Hs. injection Hs as <- Ho.
  cbn [forallb] in Hall. apply andb_true_iff in Hall. destruct Hall as [Hc Hw'].
  destruct (sc_copy w' Hw' (c :: l) t r' Ho) as (t' & -> & ->).
  assert (Hprev : headIsWord (rev w' ++ c :: l) = true).
  { replace (rev w' ++ c :: l) with (rev (c :: w') ++ l)
      by (cbn [rev]; rewrite <- app_assoc; reflexivity).
    destruct (rev (c :: w')); [discriminate|]. exact Hlast. }
  assert (Hit : hits lower l (c :: w' ++ t') (c :: w') t').
  { split; [reflexivity|]. split; [exact Hw|]. split; [congruence|].
    split; [rewrite <- (headIsWord_sc _ t' Hprev); exact Hr'|].
    intros (ws & t'' & -> & Hws). apply Hq.
    rewrite (sc_spaces ws Hws). eexists ws, _. split; [reflexivity|exact Hws]. }
  rewrite (hit_is_found _ _ _ _ Hit) in Hnone. discriminate.
Qed.

Lemma sc_stable :
  forall n s, length s <= n ->
  forall l l', headIsWord l = headIsWord l' \/ headIsWord s = false ->
  sc l' (sc l s) = sc l s.
Proof.
  induction n as [|n IH]; intros s Hn l l' Hc.
  - destruct s; [|simpl in Hn; lia]. rewrite !sc_nil. reflexivity.
  - destruct s as [|c t]; [rewrite !sc_nil; reflexivity|].
    destruct (isWord c) eqn:Ec.
    + destruct Hc as [Hc|Hc]; [|simpl in Hc; congruence].
      destruct (matchAt (columnRe lower) l (c :: t)) as [st'|] eqn:E.
      * destruct (found_is_hit l (c :: t) st' E) as (w & r & Hh & _).
        rewrite (sc_hit l (c :: t) w r Hh). rewrite sc_quoted. f_equal.
        destruct Hh as (Hs & Hw & _ & Hr & _).
        destruct (name_is_word w Hw) as (_ & Hne & _).
        apply IH; [|right; exact Hr].
        apply (f_equal (@length ascii)) in Hs. rewrite length_app in Hs.
        destruct w; [congruence|]. simpl in *. lia.
      * pose proof (second_pass_miss l l' c t Hc E) as E'.
        unfold Vocabulary.sc at 2 3. rewrite (scan_miss _ _ l c t E). fold (sc (c :: l) t).
        unfold Vocabulary.sc at 1. rewrite (scan_miss _ _ l' c _ E'). fold (sc (c :: l') (sc (c :: l) t)).
        f_equal. apply IH; [simpl in Hn; lia|]. left. reflexivity.
    + rewrite (sc_skip l c t Ec). rewrite (sc_skip l' c _ Ec). f_equal.
      apply IH; [simpl in Hn; lia|]. left. reflexivity.
Qed.

End Column.

End StableFacts.

Module QuoteFacts.
Import JS Vocabulary JSFacts MatchFacts ScanFacts ColumnFacts StableFacts OpenAI.

Lemma ngroups_literal (n : str) (k : re) : ngroups (literal n k) = ngroups k.
Proof. induction n as [|c n IH]; [reflexivity|]. cbn [literal fold_right ngroups]. exact IH. Qed.

Lemma ngroups_columnRe (n : str) : ngroups (columnRe n) = 0.
Proof. unfold columnRe. cbn [ngroups]. rewrite ngroups_literal. reflexivity. Qed.

Lemma quoted_plain (proper : str) :
  forallb isWord proper = true ->
  forallb (fun c => negb (code c =? 36)) (quoted proper) = true.
Proof.
  intros H. unfold quoted. cbn [forallb]. rewrite forallb_app. cbn [forallb].
  rewrite andb_true_r. change (negb (code dq =? 36)) with true. cbn [andb].
  rewrite forallb_forall in *. intros c Hc. specialize (H c Hc).
  pose proof (word_not_dollar c) as Hd. rewrite H in Hd. exact Hd.
Qed.

Lemma quoteColumn_scan RegExp (lower proper sql : str) :
  identifier lower = true -> toLowerCase proper = lower ->
  RegExp (columnPatternSource lower) = Normal (columnRe lower) ->
  quoteColumn RegExp sql (lower, proper) = Normal (sc lower proper [] sql).
Proof.
  intros Hid Hlow Hre. unfold quoteColumn. rewrite Hre. cbn [bind].
  rewrite ngroups_columnRe, replaceAll_scan. unfold sc. f_equal.
  apply scan_ext. intros m. apply subst_plain. apply quoted_plain.
  apply (proper_words lower proper Hid Hlow).
Qed.

Lemma quoteColumn_stable RegExp (lower proper sql once : str) :
  identifier lower = true -> toLowerCase proper = lower ->
  RegExp (columnPatternSource lower) = Normal (columnRe lower) ->
  quoteColumn RegExp sql (lower, proper) = Normal once ->
  quoteColumn RegExp once (lower, proper) = Normal once.
Proof.
  intros Hid Hlow Hre Honce.
  rewrite (quoteColumn_scan RegExp lower proper sql Hid Hlow Hre) in Honce.
  apply Normal_inj' in Honce. subst once.
  rewrite (quoteColumn_scan RegExp lower proper _ Hid Hlow Hre). f_equal.
  apply (sc_stable lower proper Hid Hlow (length sql) sql (le_n _) [] []).
  left. reflexivity.
Qed.

End QuoteFacts.

Module EraseFacts.
Import JS Vocabulary JSFacts MatchFacts ScanFacts ColumnFacts.

Lemma erases_refl P (s : str) : erases P s s.
Proof. induction s; constructor; assumption. Qed.

Lemma erases_app P (s t s' t' : str) :
  erases P s t -> erases P s' t' -> erases P (s ++ s') (t ++ t').
Proof. induction 1; intros H'; cbn [app]; try constructor; auto. Qed.

Lemma erases_trans P (a b c : str) : erases P a b -> erases P b c -> erases P a c.
Proof.
  intros H. revert c. induction H as [|x s t H IH|x s t Hx H IH]; intros c Hc.
  - exact Hc.
  - inversion Hc; subst; [apply erases_keep|apply erases_drop]; auto.
  - apply erases_drop; auto.
Qed.

Lemma erases_weaken (P Q : ascii -> bool) (s t : str) :
  (forall c, P c = true -> Q c = true) -> erases P s t -> erases Q s t.
Proof. intros HPQ. induction 1; constructor; auto. Qed.

Lemma erases_all P (s : str) : forallb P s = true -> erases P s [].
Proof.
  induction s as [|c s IH]; cbn [forallb]; intros H; [constructor|].
  apply andb_true_iff in H. destruct H. apply erases_drop; auto.
Qed.

Lemma erases_rev P (s t : str) : erases P s t -> erases P (rev s) (rev t).
Proof.
  induction 1 as [|c s t H IH|c s t Hc H IH]; cbn [rev].
  - constructor.
  - apply erases_app; [exact IH|apply erases_refl].
  - rewrite <- (app_nil_r (rev t)). apply erases_app; [exact IH|].
    apply erases_drop; [exact Hc|constructor].
Qed.

Lemma erases_map P (s t : str) :
  (forall c, P c = true -> P (lowerChar c) = true) ->
  erases P s t -> erases P (toLowerCase s) (toLowerCase t).
Proof. intros HP. induction 1; cbn [toLowerCase map]; constructor; auto. Qed.

Lemma erases_app_inv P (a b t : str) :
  erases P (a ++ b) t -> exists ta tb, t = ta ++ tb /\ erases P a ta /\ erases P b tb.
Proof.
  revert t. induction a as [|c a IH]; intros t H.
  - exists [], t. split; [reflexivity|]. split; [constructor|exact H].
  - cbn [app] in H. inversion H as [|c' s' t' H'|c' s' t' Hc H']; subst.
    + destruct (IH _ H') as (ta & tb & -> & Ha & Hb).
      exists (c :: ta), tb. split; [reflexivity|]. split; [constructor; exact Ha|exact Hb].
    + destruct (IH _ H') as (ta & tb & -> & Ha & Hb).
      exists ta, tb. split; [reflexivity|]. split; [apply erases_drop; assumption|exact Hb].
Qed.

Lemma erases_fixed P (k t : str) :
  forallb (fun c => negb (P c)) k = true -> erases P k t -> t = k.
Proof.
  intros Hk H. induction H as [|c s t H IH|c s t Hc H IH]; cbn [forallb] in Hk.
  - reflexivity.
  - apply andb_true_iff in Hk. destruct Hk as [_ Hk]. f_equal. auto.
  - apply andb_true_iff in Hk. destruct Hk as [Hn _]. rewrite Hc in Hn. discriminate.
Qed.

Lemma erases_includes P (s t k : str) :
  forallb (fun c => negb (P c)) k = true ->
  erases P s t -> includes s k = true -> includes t k = true.
Proof.
  intros Hk H Hi. apply includes_split in Hi. destruct Hi as (a & b & ->).
  apply erases_app_inv in H. destruct H as (ta & t1 & -> & Ha & H).
  apply erases_app_inv in H. destruct H as (tk & tb & -> & Hkk & Hb).
  rewrite (erases_fixed P k tk Hk Hkk). apply includes_app.
Qed.

(** *** the global replacement erases what each replacement erases *)

Lemma info_matched (r : re) (l s : str) (st' : mstate) :
  matchAt r l s = Some st' ->
  s = matched (info l s st') ++ rest st'
  /\ length s - length (rest st') = length (matched (info l s st')).
Proof.
  intros H. destruct (matchAt_suffix r l s st' H) as (pre & Hs & _).
  unfold info. cbn [matched].
  assert (E : length s - length (rest st') = length pre)
    by (rewrite Hs at 1; rewrite length_app; lia).
  rewrite E.
  assert (Hfirst : firstn (length pre) s = pre).
  { rewrite Hs, firstn_app, firstn_all, Nat.sub_diag. cbn [firstn]. apply app_nil_r. }
  rewrite Hfirst. auto.
Qed.

Lemma replaceLoop_erases P (r : re) (f : minfo -> str) :
  (forall l s st', matchAt r l s = Some st' ->
                   erases P (matched (info l s st')) (f (info l s st'))) ->
  forall fuel l s, erases P s (replaceLoop fuel r f l s).
Proof.
  intros Hf. induction fuel as [|fuel IH]; intros l s; [apply erases_refl|].
  cbn [replaceLoop].
  assert (Hstep : erases P s match s with [] => [] | c :: t => c :: replaceLoop fuel r f (c :: l) t end).
  { destruct s; constructor. apply IH. }
  destruct (matchAt r l s) as [st'|] eqn:E; [|exact Hstep].
  pose proof (Hf l s st' E) as He. destruct (info_matched r l s st' E) as [Hs Hn].
  rewrite Hn. destruct (matched (info l s st')) as [|c m] eqn:Em; cbn [length].
  - inversion He. cbn [app]. exact Hstep.
  - rewrite Hs at 1. apply erases_app; [exact He|apply IH].
Qed.

Lemma replaceAll_erases P (r : re) (f : minfo -> str) (s : str) :
  (forall l s st', matchAt r l s = Some st' ->
                   erases P (matched (info l s st')) (f (info l s st'))) ->
  erases P s (replaceAll r f s).
Proof. intros Hf. apply replaceLoop_erases, Hf. Qed.

Lemma searchFrom_found (r : re) :
  forall s l m, searchFrom r l s = Some m ->
  exists l0 s0 st', m = info l0 s0 st' /\ matchAt r l0 s0 = Some st'
                    /\ rev l ++ s = rev l0 ++ s0.
Proof.
  induction s as [|c s IH]; intros l m H; cbn [searchFrom] in H.
  - destruct (matchAt r l []) as [st'|] eqn:E; [|discriminate].
    injection H as <-. exists l, [], st'. auto.
  - destruct (matchAt r l (c :: s)) as [st'|] eqn:E.
    + injection H as <-. exists l, (c :: s), st'. auto.
    + destruct (IH _ _ H) as (l0 & s0 & st' & Hm & Hr & Hs).
      exists l0, s0, st'. split; [exact Hm|]. split; [exact Hr|].
      rewrite <- Hs. cbn [rev]. rewrite <- app_assoc. reflexivity.
Qed.

Lemma replaceFirst_erases P (r : re) (f : minfo -> str) (s : str) :
  (forall l s st', matchAt r l s = Some st' ->
                   erases P (matched (info l s st')) (f (info l s st'))) ->
  erases P s (replaceFirst r f s).
Proof.
  intros Hf. unfold replaceFirst, search.
  destruct (searchFrom r [] s) as [m|] eqn:E; [|apply erases_refl].
  destruct (searchFrom_found r s [] m E) as (l0 & s0 & st' & -> & Hm & Hs).
  cbn [rev app] in Hs. rewrite Hs.
  destruct (info_matched r l0 s0 st' Hm) as [Hs0 _].
  rewrite Hs0 at 1. unfold info at 1 4. cbn [pre post].
  apply erases_app; [apply erases_refl|].
  apply erases_app; [apply Hf, Hm|apply erases_refl].
Qed.

(** *** trim *)

Lemma trimStart_erases (s : str) : erases isSpace s (trimStart s).
Proof.
  induction s as [|c s IH]; cbn [trimStart]; [constructor|].
  destruct (isSpace c) eqn:E; [apply erases_drop; assumption|apply erases_refl].
Qed.

Lemma trim_erases (s : str) : erases isSpace s (trim s).
Proof.
  unfold trim, trimEnd. eapply erases_trans; [apply trimStart_erases|].
  rewrite <- (rev_involutive (trimStart s)) at 1. apply erases_rev, trimStart_erases.
Qed.

End EraseFacts.

Module PrepareFacts.
Import JS Vocabulary JSFacts MatchFacts ScanFacts ColumnFacts EraseFacts QueryController ControllerFacts.

Lemma removable_lower (c : ascii) : implb (removable c) (removable (lowerChar c)) = true.
Proof. each_char c. Qed.

Lemma iter_cls (p : ascii -> bool) (st st' : mstate) :
  iter (shorter (matches (Cls p))) st st' ->
  exists ws, rest st = ws ++ rest st' /\ forallb p ws = true.
Proof.
  induction 1 as [x|x y z [(c & t & Hs & Hc & ->) _] _ (ws & Hw & Hall)].
  - exists []. auto.
  - exists (c :: ws). cbn [rest] in Hw. rewrite Hs, Hw. cbn [forallb]. rewrite Hc, Hall. auto.
Qed.

Lemma subst_group1 (m : minfo) :
  subst 1 (quoted "$1") m = dq :: group 1 (groups m) ++ [dq].
Proof. reflexivity. Qed.

Lemma subst_empty (m : minfo) : subst 0 [] m = [].
Proof. reflexivity. Qed.

Lemma groups_info (l s : str) (st : mstate) : groups (info l s st) = caps st.
Proof. reflexivity. Qed.

Lemma consumed_prefix (a b : mstate) (g : str) :
  rest a = g ++ rest b -> consumed a b = g.
Proof.
  intros H. unfold consumed. rewrite H at 2. rewrite H at 1. rewrite length_app.
  replace (length g + length (rest b) - length (rest b)) with (length g) by lia.
  rewrite firstn_app, firstn_all, Nat.sub_diag. cbn [firstn]. apply app_nil_r.
Qed.

Lemma underscore_erased (l s : str) (st' : mstate) :
  matchAt underscoreQuoteRe l s = Some st' ->
  erases removable (matched (info l s st'))
    (subst 1 (quoted "$1") (info l s st')).
Proof.
  intros H. destruct (info_matched _ l s st' H) as [Hs _].
  apply matchAt_matches in H. unfold underscoreQuoteRe in H. cbn [seqs] in H.
  cbn [matches] in H.
  destruct H as (m1 & (c1 & t1 & Hs1 & Hc1 & ->) & m2 & (c2 & t2 & Hs2 & Hc2 & ->)
                 & m4 & (m3 & Hstar & ->) & (c4 & t4 & Hs4 & Hc4 & ->)).
  cbn [rest left caps at_] in *.
  assert (Hadv : advances {| left := c2 :: c1 :: l; rest := t2; caps := [] |} m3).
  { apply (matches_advances (StarLazy Dot)). exact Hstar. }
  destruct Hadv as (g & Hg & _). cbn [rest] in Hg.
  pose proof (consumed_prefix (at_ (c2 :: c1 :: l) t2 []) m3 g Hg) as Hcons.
  unfold at_ in Hcons. rewrite Hcons in Hs |- *.
  rewrite subst_group1, groups_info. cbn [caps group Nat.eqb].
  apply ceq_eq in Hc1, Hc2, Hc4. subst c1 c2 c4.
  cbn [rest] in Hs.
  assert (Hm : matched (info l s {| left := dq :: left m3; rest := t4;
                                    caps := (1, g) :: caps m3 |})
               = dq :: chr "_" :: g ++ [dq]).
  { apply (app_inv_tail t4). etransitivity; [symmetry; exact Hs|].
    rewrite Hs1, Hs2, Hg, Hs4. cbn [app]. rewrite <- app_assoc. reflexivity. }
  match goal with
  | |- erases _ ?m _ => replace m with (dq :: chr "_" :: g ++ [dq]) by (symmetry; exact Hm)
  end.
  apply erases_keep. apply erases_drop; [reflexivity|]. apply erases_refl.
Qed.

Lemma semicolons_erased (l s : str) (st' : mstate) :
  matchAt trailingSemicolonsRe l s = Some st' ->
  erases removable (matched (info l s st')) (subst 0 [] (info l s st')).
Proof.
  intros H. destruct (info_matched _ l s st' H) as [Hs _].
  apply matchAt_matches in H. unfold trailingSemicolonsRe, Plus in H. cbn [matches] in H.
  destruct H as (m2 & (m1 & (c & t & Hs1 & Hc & ->) & Hstar) & Hend & ->).
  apply iter_cls in Hstar. destruct Hstar as (ws & Hw & Hall). cbn [rest at_] in *.
  rewrite Hend, app_nil_r in Hs, Hw. rewrite subst_empty, <- Hs, Hs1, Hw.
  apply erases_all. cbn [forallb]. apply ceq_eq in Hc. subst c.
  change (removable (chr ";")) with true. cbn [andb].
  rewrite forallb_forall in *. intros x Hx. specialize (Hall x Hx).
  apply ceq_eq in Hall. subst x. reflexivity.
Qed.

Lemma prepare_erases (sqlQuery : str) : erases removable sqlQuery (prepare sqlQuery).
Proof.
  unfold prepare.
  eapply erases_trans; [|apply replaceFirst_erases, semicolons_erased].
  eapply erases_trans;
    [|eapply erases_weaken; [|apply trim_erases]; intros c Hc; unfold removable; rewrite Hc;
      destruct (code c =? 95); reflexivity].
  destruct (includes sqlQuery _); [|apply erases_refl].
  apply replaceAll_erases, underscore_erased.
Qed.

Lemma keywords_kept :
  forallb (fun k => forallb (fun c => negb (removable c)) k) dangerousKeywords = true.
Proof. vm_compute. reflexivity. Qed.

Lemma prepare_keeps_keyword (sqlQuery keyword : str) :
  In keyword dangerousKeywords ->
  includes (toLowerCase sqlQuery) keyword = true ->
  includes (toLowerCase (prepare sqlQuery)) keyword = true.
Proof.
  intros Hk Hi. pose proof keywords_kept as Hall. rewrite forallb_forall in Hall.
  apply (erases_includes removable (toLowerCase sqlQuery) _ keyword (Hall keyword Hk)); [|exact Hi].
  apply erases_map; [|apply prepare_erases].
  intros c Hc. pose proof (removable_lower c) as H. rewrite Hc in H. exact H.
Qed.

Lemma safeExecuteQuery_rejects_keyword poolQuery (sqlQuery keyword : str) :
  In keyword dangerousKeywords ->
  includes (toLowerCase sqlQuery) keyword = true ->
  executed (safeExecuteQuery poolQuery sqlQuery) = []
  /\ exists message, outcome (safeExecuteQuery poolQuery sqlQuery) = Throw message.
Proof.
  intros Hk Hi. apply (safeExecuteQuery_rejects poolQuery sqlQuery keyword Hk).
  apply prepare_keeps_keyword; assumption.
Qed.

End PrepareFacts.

Module CompileFacts.
Import JS Vocabulary JSFacts ColumnFacts OpenAI.

(** a word character is an ordinary character of a pattern text *)
Lemma word_ordinary (c : ascii) :
  implb (isWord c)
    (negb (code c =? 41) && negb (code c =? 92) && negb (code c =? 40)
     && negb (syntaxCharacter c) && negb (code c =? 42) && negb (code c =? 43)) = true.
Proof. each_char c. Qed.

Lemma quantified_none (a : re) (s : str) : unquantified s = true -> quantified a s = (a, s).
Proof.
  unfold unquantified, quantified. destruct s as [|c t]; [reflexivity|].
  intros H. apply andb_true_iff in H. destruct H as [H1 H2].
  apply negb_true_iff in H1, H2. rewrite H1, H2. reflexivity.
Qed.

Lemma parseTerms_literal (n : str) :
  forallb isWord n = true ->
  forall fuel tail r rest',
    unquantified tail = true ->
    parseTerms fuel tail = Some (r, rest') ->
    parseTerms (length n + fuel) (n ++ tail) = Some (literal n r, rest').
Proof.
  induction n as [|c n IH]; intros Hn fuel tail r rest' Hq Ht; [exact Ht|].
  cbn [forallb] in Hn. apply andb_true_iff in Hn. destruct Hn as [Hc Hn].
  pose proof (word_ordinary c) as Ho. rewrite Hc in Ho. cbn [implb] in Ho.
  repeat (apply andb_true_iff in Ho; destruct Ho as [Ho ?]).
  repeat match goal with H : negb _ = true |- _ => apply negb_true_iff in H end.
  cbn [length Nat.add app parseTerms].
  rewrite Ho, H3, H2, H1.
  assert (Hnext : unquantified (n ++ tail) = true).
  { destruct n as [|d n']; [exact Hq|]. cbn [forallb] in Hn.
    apply andb_true_iff in Hn. destruct Hn as [Hd _].
    pose proof (word_ordinary d) as Hod. rewrite Hd in Hod. cbn [implb] in Hod.
    repeat (apply andb_true_iff in Hod; destruct Hod as [Hod ?]).
    cbn [app unquantified]. apply andb_true_iff. auto. }
  rewrite (quantified_none (Chi c) (n ++ tail) Hnext).
  rewrite (IH Hn fuel tail r rest' Hq Ht). reflexivity.
Qed.

Lemma compileFragment_column (n : str) :
  identifier n = true -> compileFragment (columnPatternSource n) = Normal (columnRe n).
Proof.
  intros Hid. unfold identifier in Hid. apply andb_true_iff in Hid. destruct Hid as [_ Hn].
  unfold compileFragment, columnPatternSource.
  set (tail := lit "\b(?!\s*" ++ [dq] ++ lit ")").
  change (parseTerms (S (length (lit "\b" ++ n ++ tail))) (lit "\b" ++ n ++ tail))
    with (match parseTerms (length (lit "\b" ++ n ++ tail)) (n ++ tail) with
          | Some (r, t') => Some (Seq WordB r, t')
          | None => None
          end).
  replace (length (lit "\b" ++ n ++ tail)) with (length n + 12)
    by (rewrite !length_app; simpl; lia).
  rewrite (parseTerms_literal n Hn 12 tail
             (Seq WordB (Seq (NotAhead quoteAhead) Eps)) [] eq_refl eq_refl).
  reflexivity.
Qed.

Lemma compileFragment_table (n : str) :
  identifier n = true -> compileFragment (tablePatternSource n) = Normal (tableRe n).
Proof.
  intros Hid. unfold identifier in Hid. apply andb_true_iff in Hid. destruct Hid as [_ Hn].
  unfold compileFragment, tablePatternSource.
  set (tail := lit "\b").
  pose proof (parseTerms_literal n Hn 6 tail (Seq WordB Eps) [] eq_refl eq_refl) as Hname.
  assert (Hsp : parseTerms (S (length n + 6)) (lit "\s+" ++ n ++ tail)
                = Some (Seq (Plus Sp) (literal n (Seq WordB Eps)), [])).
  { change (parseTerms (S (length n + 6)) (lit "\s+" ++ n ++ tail))
      with (match parseTerms (length n + 6) (n ++ tail) with
            | Some (r, t') => Some (Seq (Plus Sp) r, t')
            | None => None
            end).
    rewrite Hname. reflexivity. }
  pose proof (parseTerms_literal (lit "from") eq_refl (S (length n + 6))
                (lit "\s+" ++ n ++ tail) _ [] eq_refl Hsp) as Hfrom.
  change (parseTerms (S (length (lit "\bfrom\s+" ++ n ++ tail))) (lit "\bfrom\s+" ++ n ++ tail))
    with (match parseTerms (length (lit "\bfrom\s+" ++ n ++ tail))
                  (lit "from" ++ lit "\s+" ++ n ++ tail) with
          | Some (r, t') => Some (Seq WordB r, t')
          | None => None
          end).
  replace (length (lit "\bfrom\s+" ++ n ++ tail)) with (length (lit "from") + S (length n + 6))
    by (rewrite !length_app; simpl; lia).
  rewrite Hfrom. reflexivity.
Qed.

End CompileFacts.

Module C4Facts.
Import JS Vocabulary JSFacts Parser NumberFacts DecimalFacts InferFacts.

Lemma strings_weaken (P Q : str -> Prop) (values : list value) :
  (forall s, P s -> Q s) -> strings P values -> strings Q values.
Proof.
  intros H Hall. eapply Forall_impl; [|exact Hall].
  intros v (s & -> & Hs). exists s. auto.
Qed.

Lemma validValues_exists (P : str -> Prop) (values : list value) :
  Exists (fun v => exists s, v = Str s /\ s <> [] /\ P s) values ->
  Exists P (validValues values).
Proof.
  induction 1 as [v values (s & -> & Hne & Hs)|v values _ IH]; simpl.
  - destruct s as [|c t]; [congruence|]. simpl. left. exact Hs.
  - destruct (validValue v); [right|]; exact IH.
Qed.

End C4Facts.

Module TableFacts.
Import JS Vocabulary JSFacts MatchFacts ScanFacts ColumnFacts StableFacts QuoteFacts OpenAI.

(** *** lists *)

Lemma span_unique (p : ascii -> bool) :
  forall (a a' : str) (c c' : ascii) (b b' : str),
    forallb p a = true -> forallb p a' = true -> p c = false -> p c' = false ->
    a ++ c :: b = a' ++ c' :: b' -> a = a' /\ c = c' /\ b = b'.
Proof.
  induction a as [|x a IH]; intros [|x' a'] c c' b b' Ha Ha' Hc Hc' E;
    cbn [app forallb] in *.
  - injection E as -> ->. auto.
  - injection E as -> _. apply andb_true_iff in Ha'. destruct Ha' as [Hx _]. congruence.
  - injection E as -> _. apply andb_true_iff in Ha. destruct Ha as [Hx _]. congruence.
  - injection E as -> E. apply andb_true_iff in Ha, Ha'.
    destruct Ha as [_ Ha], Ha' as [_ Ha'].
    destruct (IH a' c c' b b' Ha Ha' Hc Hc' E) as (-> & -> & ->). auto.
Qed.

Lemma app_same_length (a a' b b' : str) :
  length a = length a' -> a ++ b = a' ++ b' -> a = a' /\ b = b'.
Proof.
  revert a'. induction a as [|x a IH]; intros [|x' a'] Hl E; simpl in *; try discriminate.
  - auto.
  - injection E as -> E. injection Hl as Hl. destruct (IH a' Hl E) as [-> ->]. auto.
Qed.

Lemma words_lowered (s : str) : forallb isWord (map lowerChar s) = forallb isWord s.
Proof.
  induction s as [|c s IH]; [reflexivity|]. cbn [map forallb].
  rewrite isWord_lowerChar, IH. reflexivity.
Qed.

Lemma identifier_lowered (n : str) : identifier n = true -> identifier (toLowerCase n) = true.
Proof.
  unfold identifier, toLowerCase. rewrite words_lowered. destruct n; auto.
Qed.

Lemma headIsWord_app (a b : str) : a <> [] -> headIsWord (a ++ b) = headIsWord a.
Proof. destruct a; [congruence|reflexivity]. Qed.

Lemma headIsWord_spaces (ws b : str) :
  ws <> [] -> forallb isSpace ws = true -> headIsWord (ws ++ b) = false.
Proof.
  destruct ws as [|c ws]; [congruence|]. intros _ H. cbn [forallb] in H.
  apply andb_true_iff in H. destruct H as [Hc _]. cbn [app headIsWord].
  pose proof (space_not_word c) as Hn. rewrite Hc in Hn. exact Hn.
Qed.

Lemma headIsWord_rev_spaces (ws b : str) :
  ws <> [] -> forallb isSpace ws = true -> headIsWord (rev ws ++ b) = false.
Proof.
  intros Hne H. apply headIsWord_spaces.
  - intros E. apply Hne. apply (f_equal (@rev ascii)) in E. rewrite rev_involutive in E. exact E.
  - rewrite forallb_forall in *. intros c Hc. apply H. apply in_rev. exact Hc.
Qed.

(** *** the matches of the table pattern *)

Lemma iter_spaces_state (st st' : mstate) :
  iter (shorter (matches Sp)) st st' ->
  exists ws, rest st = ws ++ rest st' /\ forallb isSpace ws = true
             /\ st' = at_ (rev ws ++ left st) (rest st') (caps st).
Proof.
  induction 1 as [x|x y z [(c & t & Hs & Hc & ->) _] _ (ws & Hw & Hall & Hz)].
  - exists []. cbn [app rev]. rewrite at_eta. auto.
  - exists (c :: ws). cbn [rest left caps] in *. rewrite Hs, Hw. cbn [forallb].
    rewrite Hc, Hall. split; [reflexivity|]. split; [reflexivity|].
    etransitivity; [exact Hz|]. cbn [rev]. rewrite <- app_assoc. reflexivity.
Qed.

Lemma matches_plus_sp (st st' : mstate) :
  matches (Plus Sp) st st' ->
  exists ws r, ws <> [] /\ forallb isSpace ws = true /\ rest st = ws ++ r
               /\ st' = at_ (rev ws ++ left st) r (caps st).
Proof.
  unfold Plus. cbn [matches]. intros (m0 & Hc & Hstar).
  unfold Sp in Hc. cbn [matches] in Hc. destruct Hc as (c & t & Hs & Hc & ->).
  apply iter_spaces_state in Hstar. destruct Hstar as (ws & Hw & Hall & Hz).
  cbn [rest left caps] in *. exists (c :: ws), (rest st').
  split; [discriminate|]. split; [cbn [forallb]; rewrite Hc, Hall; reflexivity|].
  split; [rewrite Hs, Hw; reflexivity|].
  etransitivity; [exact Hz|]. cbn [rev]. rewrite <- app_assoc. reflexivity.
Qed.

Lemma fromClause_chars (n : str) :
  fromClause n
  = chr "F" :: chr "R" :: chr "O" :: chr "M" :: chr " " :: dq :: n ++ [dq].
Proof. reflexivity. Qed.

Lemma fromClause_split (n : str) :
  fromClause n = (chr "F" :: chr "R" :: chr "O" :: [chr "M"]) ++ chr " " :: dq :: n ++ [dq].
Proof. reflexivity. Qed.

Lemma fromClause_app (n o : str) :
  fromClause n ++ o
  = (chr "F" :: chr "R" :: chr "O" :: [chr "M"]) ++ chr " " :: (dq :: n ++ dq :: o).
Proof.
  rewrite fromClause_split, <- app_assoc. cbn [app]. rewrite <- app_assoc. reflexivity.
Qed.

Section Table.

Variable n : str.
Hypothesis identifier_n : identifier n = true.

Local Abbreviation hits := (Vocabulary.fromHits n).
Local Abbreviation tc := (Vocabulary.tc n).

Lemma from_word (w : str) :
  map lowerChar w = lit "from" ->
  forallb isWord w = true /\ w <> [] /\ headIsWord w = true /\ headIsWord (rev w) = true.
Proof. exact (hit_word (lit "from") eq_refl w). Qed.

Lemma name_word (u : str) :
  map lowerChar u = toLowerCase n ->
  forallb isWord u = true /\ u <> [] /\ headIsWord u = true /\ headIsWord (rev u) = true.
Proof. exact (hit_word (toLowerCase n) (identifier_lowered n identifier_n) u). Qed.

Lemma n_words : forallb isWord n = true.
Proof.
  pose proof identifier_n as H. unfold identifier in H. apply andb_true_iff in H. tauto.
Qed.

Lemma matches_tableRe (l s : str) (st' : mstate) :
  matches (tableRe n) (at_ l s []) st' ->
  exists w ws u r, hits l s w ws u r /\ st' = at_ (rev (w ++ ws ++ u) ++ l) r [].
Proof.
  unfold tableRe. cbn [matches]. intros (m & [Hb ->] & H).
  apply matches_literal in H. destruct H as (w & r1 & Hs & Hw & H).
  cbn [rest left caps at_] in *.
  change (map lowerChar (lit "from")) with (lit "from") in Hw.
  destruct (from_word w Hw) as (Hall & Hne & Hhead & Hlast).
  cbn [matches] in H. destruct H as (m & Hplus & Hlit).
  apply matches_plus_sp in Hplus. destruct Hplus as (ws & r2 & Hwne & Hws & Hr1 & ->).
  cbn [rest left caps at_] in *.
  apply matches_literal in Hlit. destruct Hlit as (u & r & Hm & Hu & Hk).
  cbn [rest left caps at_] in *.
  destruct (name_word u Hu) as (Hual & Hune & Huhead & Hulast).
  cbn [matches] in Hk. destruct Hk as (m1 & [Hb1 ->] & ->).
  exists w, ws, u, r. split.
  - split; [rewrite Hs, Hr1, Hm; reflexivity|]. split; [exact Hw|].
    split; [exact Hwne|]. split; [exact Hws|]. split; [exact Hu|].
    unfold prevIsWord, nextIsWord in Hb, Hb1. cbn [left rest at_] in Hb, Hb1.
    fold (headIsWord l) in Hb. fold (headIsWord s) in Hb.
    fold (headIsWord (rev u ++ rev ws ++ rev w ++ l)) in Hb1. fold (headIsWord r) in Hb1.
    assert (Hs1 : headIsWord s = true).
    { rewrite Hs, headIsWord_app by exact Hne. exact Hhead. }
    assert (Hl1 : headIsWord (rev u ++ rev ws ++ rev w ++ l) = true).
    { destruct (rev u); [discriminate|]. exact Hulast. }
    rewrite Hs1 in Hb. rewrite Hl1 in Hb1.
    split; [destruct (headIsWord l); [discriminate|reflexivity]|].
    destruct (headIsWord r); [discriminate|reflexivity].
  - rewrite !rev_app_distr, <- !app_assoc. reflexivity.
Qed.

Lemma hits_matches (l s w ws u r : str) :
  hits l s w ws u r ->
  matches (tableRe n) (at_ l s []) (at_ (rev (w ++ ws ++ u) ++ l) r []).
Proof.
  intros (Hs & Hw & Hwne & Hws & Hu & Hl & Hr).
  destruct (from_word w Hw) as (Hall & Hne & Hhead & Hlast).
  destruct (name_word u Hu) as (Hual & Hune & Huhead & Hulast).
  unfold tableRe. cbn [matches]. exists (at_ l s []). split.
  - split; [|reflexivity]. unfold prevIsWord, nextIsWord. cbn [left rest at_].
    fold (headIsWord l). fold (headIsWord s). rewrite Hl, Hs, headIsWord_app by exact Hne.
    rewrite Hhead. reflexivity.
  - apply matches_literal. exists w, (ws ++ u ++ r). cbn [rest left caps at_].
    split; [exact Hs|]. split; [exact Hw|].
    cbn [matches]. exists (at_ (rev ws ++ rev w ++ l) (u ++ r) []). split.
    + destruct ws as [|c ws]; [congruence|]. cbn [forallb] in Hws.
      apply andb_true_iff in Hws. destruct Hws as [Hc Hws].
      apply (matches_plus_cls isSpace c ws Hc Hws (rev w ++ l) (u ++ r) []).
    + apply matches_literal. exists u, r. cbn [rest left caps at_].
      split; [reflexivity|]. split; [exact Hu|].
      cbn [matches]. eexists. split; [split; [|reflexivity]|].
      * unfold prevIsWord, nextIsWord. cbn [left rest at_].
        fold (headIsWord (rev u ++ rev ws ++ rev w ++ l)). fold (headIsWord r).
        rewrite Hr. destruct (rev u); [discriminate|]. cbn [app headIsWord].
        simpl in Hulast. rewrite Hulast. reflexivity.
      * rewrite !rev_app_distr, <- !app_assoc. reflexivity.
Qed.

Lemma fromHits_unique (l s w ws u r w' ws' u' r' : str) :
  hits l s w ws u r -> hits l s w' ws' u' r' -> w = w' /\ ws = ws' /\ u = u' /\ r = r'.
Proof.
  intros (Hs & Hw & Hwne & Hws & Hu & _) (Hs' & Hw' & Hwne' & Hws' & Hu' & _).
  destruct (name_word u Hu) as (Hual & Hune & Huhead & _).
  destruct (name_word u' Hu') as (Hual' & Hune' & Huhead' & _).
  rewrite Hs in Hs'.
  assert (Hlw : length w = length w').
  { rewrite <- (length_map lowerChar w), <- (length_map lowerChar w'), Hw, Hw'. reflexivity. }
  destruct (app_same_length _ _ _ _ Hlw Hs') as [<- E1]. split; [reflexivity|].
  destruct u as [|x u]; [congruence|]. destruct u' as [|x' u']; [congruence|].
  cbn [app] in E1. cbn [headIsWord] in Huhead, Huhead'.
  assert (Hx : isSpace x = false).
  { pose proof (space_not_word x) as H. rewrite Huhead, andb_true_r in H. exact H. }
  assert (Hx' : isSpace x' = false).
  { pose proof (space_not_word x') as H. rewrite Huhead', andb_true_r in H. exact H. }
  destruct (span_unique isSpace _ _ _ _ _ _ Hws Hws' Hx Hx' E1) as (<- & <- & E2).
  split; [reflexivity|].
  assert (Hlu : length u = length u').
  { assert (H : length (x :: u) = length (x :: u')).
    { rewrite <- (length_map lowerChar (x :: u)), <- (length_map lowerChar (x :: u')), Hu, Hu'.
      reflexivity. }
    simpl in H. lia. }
  destruct (app_same_length _ _ _ _ Hlu E2) as [<- <-]. auto.
Qed.

Lemma matchAt_from_hit (l s : str) (st' : mstate) :
  matchAt (tableRe n) l s = Some st' ->
  exists w ws u r, hits l s w ws u r /\ st' = at_ (rev (w ++ ws ++ u) ++ l) r [].
Proof. intros H. apply matchAt_matches in H. apply matches_tableRe, H. Qed.

Lemma from_hit_matchAt (l s w ws u r : str) :
  hits l s w ws u r ->
  matchAt (tableRe n) l s = Some (at_ (rev (w ++ ws ++ u) ++ l) r []).
Proof.
  intros H. pose proof (hits_matches l s w ws u r H) as Hm.
  destruct (run_complete (tableRe n) (at_ l s []) Some _ Hm) as [x Hx];
    [eexists; reflexivity|].
  change (matchAt (tableRe n) l s = Some x) in Hx. rewrite Hx.
  destruct (matchAt_from_hit l s x Hx) as (w' & ws' & u' & r' & H' & ->).
  destruct (fromHits_unique _ _ _ _ _ _ _ _ _ _ H H') as (<- & <- & <- & <-). reflexivity.
Qed.

Lemma from_miss (l s : str) :
  (forall w ws u r, ~ hits l s w ws u r) -> matchAt (tableRe n) l s = None.
Proof.
  intros H. destruct (matchAt (tableRe n) l s) as [st'|] eqn:E; [|reflexivity].
  destruct (matchAt_from_hit l s st' E) as (w & ws & u & r & Hh & _). elim (H w ws u r Hh).
Qed.

(** *** the replacement *)

Lemma tc_nil (l : str) : tc l [] = [].
Proof.
  apply scan_nil. apply from_miss. intros w ws u r (Hs & Hw & _).
  destruct (from_word w Hw) as (_ & Hne & _). destruct w; [congruence|discriminate].
Qed.

Lemma tc_skip (l : str) (c : ascii) (t : str) :
  isWord c = false -> tc l (c :: t) = c :: tc (c :: l) t.
Proof.
  intros Hc. apply scan_miss. apply from_miss. intros w ws u r (Hs & Hw & _).
  destruct (from_word w Hw) as (_ & Hne & Hhead & _).
  destruct w as [|x w]; [congruence|]. injection Hs as <- _. simpl in Hhead. congruence.
Qed.

Lemma tc_inside (l : str) (c : ascii) (t : str) :
  headIsWord l = true -> tc l (c :: t) = c :: tc (c :: l) t.
Proof.
  intros Hl. apply scan_miss. apply from_miss. intros w ws u r (_ & _ & _ & _ & _ & Hl' & _).
  congruence.
Qed.

Lemma tc_miss (l : str) (c : ascii) (t : str) :
  matchAt (tableRe n) l (c :: t) = None -> tc l (c :: t) = c :: tc (c :: l) t.
Proof. exact (scan_miss _ _ l c t). Qed.

Lemma tc_word (w : str) :
  forallb isWord w = true ->
  forall l u, headIsWord l = true -> tc l (w ++ u) = w ++ tc (rev w ++ l) u.
Proof.
  induction w as [|x w IH]; intros Hw l u Hl; [reflexivity|].
  cbn [forallb] in Hw. apply andb_true_iff in Hw. destruct Hw as [Hx Hw].
  cbn [app]. rewrite (tc_inside l x (w ++ u) Hl). f_equal.
  rewrite (IH Hw (x :: l) u Hx). cbn [rev]. rewrite <- app_assoc. reflexivity.
Qed.

Lemma tc_hit (l s w ws u r : str) :
  hits l s w ws u r -> tc l s = fromClause n ++ tc (rev (w ++ ws ++ u) ++ l) r.
Proof.
  intros H. pose proof (from_hit_matchAt l s w ws u r H) as Hm.
  destruct H as (Hs & Hw & _). destruct (from_word w Hw) as (_ & Hne & _).
  assert (Hne' : w ++ ws ++ u <> []) by (destruct w; [congruence|discriminate]).
  assert (Hs' : s = (w ++ ws ++ u) ++ r) by (rewrite Hs, <- !app_assoc; reflexivity).
  rewrite Hs' in Hm |- *. unfold Vocabulary.tc.
  rewrite (scan_hit _ _ l (w ++ ws ++ u) r [] Hne' Hm). reflexivity.
Qed.

Lemma headIsWord_tc (l t : str) : headIsWord l = true -> headIsWord (tc l t) = headIsWord t.
Proof.
  intros Hl. destruct t as [|c t]; [rewrite tc_nil; reflexivity|].
  rewrite (tc_inside l c t Hl). reflexivity.
Qed.

(** a run of word characters in the output, after a word character, is a
    run of the input *)
Lemma tc_word_prefix (w : str) :
  forallb isWord w = true ->
  forall l t o, headIsWord l = true -> tc l t = w ++ o ->
  exists t', t = w ++ t' /\ o = tc (rev w ++ l) t'.
Proof.
  induction w as [|x w IH]; intros Hw l t o Hl H.
  - exists t. auto.
  - cbn [forallb] in Hw. apply andb_true_iff in Hw. destruct Hw as [Hx Hw].
    destruct t as [|c t]; [rewrite tc_nil in H; discriminate|].
    rewrite (tc_inside l c t Hl) in H. cbn [app] in H. injection H as -> H.
    destruct (IH Hw (x :: l) t o Hx H) as (t' & -> & ->).
    exists t'. cbn [rev]. rewrite <- app_assoc. auto.
Qed.

(** spaces in the output are spaces of the input *)
Lemma tc_spaces_prefix (ws : str) :
  forallb isSpace ws = true ->
  forall l t o, tc l t = ws ++ o -> exists t', t = ws ++ t' /\ o = tc (rev ws ++ l) t'.
Proof.
  induction ws as [|x ws IH]; intros Hws l t o H.
  - exists t. auto.
  - cbn [forallb] in Hws. apply andb_true_iff in Hws. destruct Hws as [Hx Hws].
    destruct t as [|c t]; [rewrite tc_nil in H; discriminate|].
    destruct (matchAt (tableRe n) l (c :: t)) as [st'|] eqn:E.
    + destruct (matchAt_from_hit l (c :: t) st' E) as (w0 & ws0 & u0 & r0 & Hh & _).
      rewrite (tc_hit l (c :: t) w0 ws0 u0 r0 Hh) in H. cbn [app] in H.
      injection H as Hq _. subst x. discriminate.
    + rewrite (tc_miss l c t E) in H. cbn [app] in H. injection H as -> H.
      destruct (IH Hws (x :: l) t o H) as (t' & -> & ->).
      exists t'. cbn [rev]. rewrite <- app_assoc. auto.
Qed.

(** a quoted name is left alone *)
Lemma tc_word_quote (x : str) :
  forallb isWord x = true ->
  forall l o, tc (dq :: l) (x ++ dq :: o) = x ++ dq :: tc (dq :: rev x ++ dq :: l) o.
Proof.
  intros Hx l o. destruct x as [|c x].
  - cbn [app rev]. apply tc_skip. reflexivity.
  - cbn [forallb] in Hx. apply andb_true_iff in Hx. destruct Hx as [Hc Hx].
    cbn [app]. rewrite tc_miss.
    + f_equal. rewrite (tc_word x Hx (c :: dq :: l) (dq :: o) Hc). f_equal.
      rewrite tc_skip by reflexivity. f_equal. cbn [rev]. rewrite <- app_assoc. reflexivity.
    + apply from_miss. intros w ws u r (Hs & Hw & Hwne & Hws & _).
      destruct (from_word w Hw) as (Hall & _).
      destruct ws as [|sp ws]; [congruence|]. cbn [forallb] in Hws.
      apply andb_true_iff in Hws. destruct Hws as [Hsp _].
      assert (Hspw : isWord sp = false).
      { pose proof (space_not_word sp) as H. rewrite Hsp in H. exact H. }
      assert (Hcx : forallb isWord (c :: x) = true) by (cbn [forallb]; rewrite Hc, Hx; reflexivity).
      change (c :: x ++ dq :: o) with ((c :: x) ++ dq :: o) in Hs.
      cbn [app] in Hs. change (w ++ sp :: ws ++ u ++ r) with (w ++ sp :: (ws ++ u ++ r)) in Hs.
      destruct (span_unique isWord (c :: x) w dq sp o (ws ++ u ++ r) Hcx Hall eq_refl Hspw Hs)
        as (_ & <- & _).
      discriminate.
Qed.

(** the text inserted by a first pass is left alone by a second one *)
Lemma tc_inserted (l o : str) :
  tc l (fromClause n ++ o) = fromClause n ++ tc (rev (fromClause n) ++ l) o.
Proof.
  rewrite fromClause_chars.
  cbn [app]. rewrite <- !app_assoc. cbn [app].
  rewrite tc_miss.
  - f_equal. rewrite tc_inside by reflexivity. f_equal.
    rewrite tc_inside by reflexivity. f_equal.
    rewrite tc_inside by reflexivity. f_equal.
    rewrite tc_skip by reflexivity. f_equal.
    rewrite tc_skip by reflexivity. f_equal.
    rewrite (tc_word_quote n n_words). f_equal. f_equal.
    cbn [rev]. rewrite rev_app_distr. cbn [rev app]. rewrite <- !app_assoc. reflexivity.
  - apply from_miss. intros w ws u r (Hs & Hw & Hwne & Hws & Hu & _).
    destruct (name_word u Hu) as (_ & Hune & Huhead & _).
    destruct w as [|a [|b [|c [|d [|e w]]]]]; try discriminate Hw.
    cbn [app] in Hs. injection Hs as _ _ _ _ Hs.
    destruct ws as [|sp [|y ws]]; [congruence| |].
    + cbn [app] in Hs. injection Hs as _ Hs.
      destruct u as [|x u]; [congruence|]. cbn [app] in Hs. injection Hs as <- _.
      discriminate.
    + cbn [app] in Hs. injection Hs as _ <- _. cbn [forallb] in Hws.
      rewrite andb_false_r in Hws. discriminate.
Qed.

(** a second pass finds no match where the first found none *)
Lemma second_pass_from_miss (l l' : str) (c : ascii) (t : str) :
  headIsWord l = headIsWord l' ->
  matchAt (tableRe n) l (c :: t) = None ->
  matchAt (tableRe n) l' (c :: tc (c :: l) t) = None.
Proof.
  intros Hll Hnone. apply from_miss. intros w ws u r' (Hs & Hw & Hwne & Hws & Hu & Hl' & Hr').
  destruct (from_word w Hw) as (Hall & Hne & Hhead & Hlast).
  destruct (name_word u Hu) as (Hual & Hune & Huhead & Hulast).
  destruct w as [|x w']; [congruence|]. cbn [app] in Hs. injection Hs as <- Ho.
  cbn [forallb] in Hall. apply andb_true_iff in Hall. destruct Hall as [Hc Hw'].
  destruct (tc_word_prefix w' Hw' (c :: l) t _ Hc Ho) as (t1 & -> & Ho1).
  destruct (tc_spaces_prefix ws Hws _ t1 _ (eq_sym Ho1)) as (t2 & -> & Ho2).
  assert (Hl2 : headIsWord (rev ws ++ rev w' ++ c :: l) = false)
    by (apply headIsWord_rev_spaces; assumption).
  assert (Hfound : exists u0 r0, t2 = u0 ++ r0 /\ map lowerChar u0 = toLowerCase n
                                 /\ headIsWord r0 = false).
  { destruct (matchAt (tableRe n) (rev ws ++ rev w' ++ c :: l) t2) as [st'|] eqn:E.
    - destruct (matchAt_from_hit _ _ st' E) as (w2 & ws2 & u2 & r2 & Hh & _).
      rewrite (tc_hit _ _ w2 ws2 u2 r2 Hh) in Ho2.
      destruct Hh as (Ht2 & Hw2 & Hwne2 & Hws2 & _).
      exists w2, (ws2 ++ u2 ++ r2). split; [exact Ht2|].
      split; [|apply headIsWord_spaces; assumption].
      rewrite fromClause_app in Ho2.
      destruct r' as [|y r'].
      + rewrite app_nil_r in Ho2. rewrite Ho2, forallb_app in Hual.
        apply andb_true_iff in Hual. destruct Hual as [_ Hual]. discriminate.
      + cbn [headIsWord] in Hr'.
        destruct (span_unique isWord u [chr "F"; chr "R"; chr "O"; chr "M"] y (chr " ") r' _
                    Hual eq_refl Hr' eq_refl Ho2) as (Eu & _).
        rewrite Eu in Hu. rewrite <- Hu, Hw2. reflexivity.
    - destruct t2 as [|c2 t3]; [rewrite tc_nil in Ho2; destruct u; [congruence|discriminate]|].
      rewrite (tc_miss _ c2 t3 E) in Ho2.
      destruct u as [|x u']; [congruence|]. cbn [app] in Ho2. injection Ho2 as -> Ho3.
      cbn [forallb] in Hual. apply andb_true_iff in Hual. destruct Hual as [Hx Hu'].
      destruct (tc_word_prefix u' Hu' (c2 :: rev ws ++ rev w' ++ c :: l) t3 r' Hx (eq_sym Ho3))
        as (t4 & -> & Hr4).
      exists (c2 :: u'), t4. split; [reflexivity|]. split; [exact Hu|].
      rewrite Hr4 in Hr'. rewrite headIsWord_tc in Hr'; [exact Hr'|].
      change (rev u' ++ c2 :: rev ws ++ rev w' ++ c :: l)
        with (rev u' ++ [c2] ++ rev ws ++ rev w' ++ c :: l).
      rewrite app_assoc. change (rev u' ++ [c2]) with (rev (c2 :: u')).
      destruct (rev (c2 :: u')); [discriminate|]. exact Hulast. }
  destruct Hfound as (u0 & r0 & -> & Hu0 & Hr0).
  assert (Hit : hits l (c :: w' ++ ws ++ u0 ++ r0) (c :: w') ws u0 r0).
  { split; [reflexivity|]. split; [exact Hw|]. split; [exact Hwne|]. split; [exact Hws|].
    split; [exact Hu0|]. split; [congruence|exact Hr0]. }
  rewrite (from_hit_matchAt _ _ _ _ _ _ Hit) in Hnone. discriminate.
Qed.

Lemma tc_stable :
  forall k s, length s <= k ->
  forall l l', headIsWord l = headIsWord l' \/ headIsWord s = false ->
  tc l' (tc l s) = tc l s.
Proof.
  induction k as [|k IH]; intros s Hk l l' Hc.
  - destruct s; [|simpl in Hk; lia]. rewrite !tc_nil. reflexivity.
  - destruct s as [|c t]; [rewrite !tc_nil; reflexivity|].
    destruct (isWord c) eqn:Ec.
    + destruct Hc as [Hc|Hc]; [|simpl in Hc; congruence].
      destruct (matchAt (tableRe n) l (c :: t)) as [st'|] eqn:E.
      * destruct (matchAt_from_hit l (c :: t) st' E) as (w & ws & u & r & Hh & _).
        rewrite (tc_hit l (c :: t) w ws u r Hh). rewrite tc_inserted. f_equal.
        destruct Hh as (Hs & Hw & _ & _ & _ & _ & Hr).
        destruct (from_word w Hw) as (_ & Hne & _).
        apply IH; [|right; exact Hr].
        apply (f_equal (@length ascii)) in Hs. rewrite !length_app in Hs.
        destruct w; [congruence|]. simpl in *. lia.
      * pose proof (second_pass_from_miss l l' c t Hc E) as E'.
        rewrite (tc_miss l c t E). rewrite (tc_miss l' c _ E').
        f_equal. apply IH; [simpl in Hk; lia|]. left. reflexivity.
    + rewrite (tc_skip l c t Ec). rewrite (tc_skip l' c _ Ec). f_equal.
      apply IH; [simpl in Hk; lia|]. left. reflexivity.
Qed.

End Table.

(** *** quoteTable *)

Lemma ngroups_tableRe (n : str) : ngroups (tableRe n) = 0.
Proof.
  unfold tableRe. cbn [ngroups]. rewrite ngroups_literal. unfold Plus, Sp.
  cbn [ngroups]. rewrite ngroups_literal. reflexivity.
Qed.

Lemma fromClause_plain (n : str) :
  forallb isWord n = true ->
  forallb (fun c => negb (code c =? 36)) (fromClause n) = true.
Proof.
  intros H. unfold fromClause. rewrite forallb_app, (quoted_plain n H). reflexivity.
Qed.

Lemma quoteTable_scan RegExp (n sql : str) :
  identifier n = true ->
  RegExp (tablePatternSource n) = Normal (tableRe n) ->
  quoteTable RegExp sql n = Normal (tc n [] sql).
Proof.
  intros Hid Hre. unfold quoteTable. rewrite Hre. cbn [bind].
  rewrite ngroups_tableRe, replaceAll_scan. unfold tc. f_equal.
  apply scan_ext. intros m. apply subst_plain. apply fromClause_plain.
  apply (n_words n Hid).
Qed.

Lemma quoteTable_stable RegExp (n sql once : str) :
  identifier n = true ->
  RegExp (tablePatternSource n) = Normal (tableRe n) ->
  quoteTable RegExp sql n = Normal once ->
  quoteTable RegExp once n = Normal once.
Proof.
  intros Hid Hre Honce.
  rewrite (quoteTable_scan RegExp n sql Hid Hre) in Honce.
  apply Normal_inj' in Honce. subst once.
  rewrite (quoteTable_scan RegExp n _ Hid Hre). f_equal.
  apply (tc_stable n Hid (length sql) sql (le_n _) [] []).
  left. reflexivity.
Qed.

End TableFacts.

(** The column-quoting replacement on names made of word characters and
    white space. *)
Module PlainColumnFacts.
Import JS Vocabulary JSFacts MatchFacts ScanFacts ColumnFacts QuoteFacts OpenAI.

(** *** characters and prefixes *)

Lemma plainChar_lowerChar (c : ascii) : plainChar (lowerChar c) = plainChar c.
Proof. each_char c. Qed.

Lemma plainChar_not_dq (c : ascii) : implb (plainChar c) (negb (ceq c dq)) = true.
Proof. each_char c. Qed.

Lemma plainChar_not_dollar (c : ascii) : implb (plainChar c) (negb (code c =? 36)) = true.
Proof. each_char c. Qed.

Lemma plain_quoteFree (s : str) : forallb plainChar s = true -> quoteFree s = true.
Proof.
  unfold quoteFree. intros H. rewrite forallb_forall in *. intros c Hc.
  pose proof (plainChar_not_dq c) as Hp. rewrite (H c Hc) in Hp. exact Hp.
Qed.

Lemma plain_of_lower (w n : str) :
  map lowerChar w = n -> forallb plainChar n = true -> forallb plainChar w = true.
Proof.
  intros <- H. rewrite forallb_forall in *. intros c Hc.
  rewrite <- plainChar_lowerChar. apply H. apply in_map, Hc.
Qed.

(** a text without double quote that begins [x ++ dq :: o] is within [x] *)
Lemma quoteFree_prefix (w r x o : str) :
  quoteFree w = true -> w ++ r = x ++ dq :: o -> exists y, x = w ++ y /\ r = y ++ dq :: o.
Proof.
  revert x. induction w as [|c w IH]; intros x Hw H.
  - exists x. auto.
  - cbn [quoteFree forallb] in Hw. apply andb_true_iff in Hw. destruct Hw as [Hc Hw].
    destruct x as [|d x]; cbn [app] in H.
    + injection H as -> _. rewrite ceq_refl in Hc. discriminate.
    + injection H as -> H. destruct (IH x Hw H) as (y & -> & ->). exists y. auto.
Qed.

Lemma headIsWord_rev_cons (w : str) (l : str) :
  w <> [] -> headIsWord (rev w ++ l) = headIsWord (rev w).
Proof.
  intros Hne. destruct (rev w) as [|c u] eqn:E; [|reflexivity].
  apply (f_equal (@rev ascii)) in E. rewrite rev_involutive in E. simpl in E. congruence.
Qed.

Lemma headIsWord_prefix (w r : str) : w <> [] -> headIsWord (w ++ r) = headIsWord w.
Proof. destruct w; [congruence|reflexivity]. Qed.

Section Column.

Variables lower proper : str.
Hypothesis plain_lower : plainName lower = true.
Hypothesis lower_of_proper : toLowerCase proper = lower.

Local Abbreviation occ := (Vocabulary.occurs lower).
Local Abbreviation scp := (Vocabulary.sc lower proper).

Lemma lower_plain : forallb plainChar lower = true.
Proof.
  pose proof plain_lower as H. unfold plainName in H. apply andb_true_iff in H. tauto.
Qed.

Lemma lower_not_nil : lower <> [].
Proof.
  pose proof plain_lower as H. unfold plainName in H. apply andb_true_iff in H.
  destruct H as [H _]. intros E. rewrite E in H. discriminate.
Qed.

Lemma lower_lowered : map lowerChar lower = lower.
Proof.
  rewrite <- lower_of_proper. unfold toLowerCase. rewrite map_map.
  apply map_ext, lowerChar_idem.
Qed.

(** the text of an occurrence *)
Lemma occurrence_text (w : str) :
  map lowerChar w = lower ->
  w <> [] /\ quoteFree w = true /\ length w = length lower.
Proof.
  intros Hw. split; [|split].
  - intros ->. apply lower_not_nil. symmetry. exact Hw.
  - apply plain_quoteFree. apply (plain_of_lower w lower Hw lower_plain).
  - rewrite <- Hw. symmetry. apply length_map.
Qed.

Lemma matches_columnRe_plain (l s : str) (st' : mstate) :
  matches (columnRe lower) (at_ l s []) st' <->
  exists w r, occ l s w r /\ st' = at_ (rev w ++ l) r [].
Proof.
  unfold columnRe. cbn [matches]. split.
  - intros (m & [Hb ->] & H). apply matches_literal in H.
    destruct H as (w & r & Hs & Hw & H). cbn [rest left caps at_] in *.
    rewrite lower_lowered in Hw.
    destruct (occurrence_text w Hw) as (Hne & _ & _).
    destruct H as (m1 & [Hb1 ->] & m2 & [Hn ->] & ->).
    exists w, r. split; [|reflexivity].
    unfold prevIsWord, nextIsWord in *. cbn [left rest at_] in *.
    fold (headIsWord l) in Hb. fold (headIsWord s) in Hb.
    fold (headIsWord (rev w ++ l)) in Hb1. fold (headIsWord r) in Hb1.
    rewrite (headIsWord_rev_cons w l Hne) in Hb1.
    split; [exact Hs|]. split; [exact Hw|]. split; [exact Hb|]. split; [exact Hb1|].
    intros Hq. apply (quoteAhead_spec (at_ (rev w ++ l) r [])) in Hq.
    destruct Hq as (x & Hx). exact (Hn x Hx).
  - intros (w & r & (Hs & Hw & Hl & Hr & Hq) & ->).
    destruct (occurrence_text w Hw) as (Hne & _ & _).
    exists (at_ l s []). split.
    + split; [|reflexivity]. exact Hl.
    + apply matches_literal. exists w, r. cbn [rest left caps at_].
      split; [exact Hs|]. split; [rewrite lower_lowered; exact Hw|].
      exists (at_ (rev w ++ l) r []). split.
      * split; [|reflexivity]. unfold prevIsWord, nextIsWord. cbn [left rest at_].
        fold (headIsWord (rev w ++ l)). fold (headIsWord r).
        rewrite (headIsWord_rev_cons w l Hne). exact Hr.
      * exists (at_ (rev w ++ l) r []). split; [|reflexivity]. split; [|reflexivity].
        intros x Hx. apply Hq. apply (quoteAhead_spec (at_ (rev w ++ l) r [])).
        exists x. exact Hx.
Qed.

Lemma occurs_unique (l s w r w' r' : str) : occ l s w r -> occ l s w' r' -> w = w' /\ r = r'.
Proof.
  intros (Hs & Hw & _) (Hs' & Hw' & _).
  assert (Hlen : length w = length w').
  { rewrite <- (length_map lowerChar w), <- (length_map lowerChar w'), Hw, Hw'. reflexivity. }
  rewrite Hs in Hs'. apply app_eq_app in Hs'.
  destruct Hs' as (x & [[H1 H2]|[H1 H2]]).
  - assert (x = []). { apply (f_equal (@length ascii)) in H1. rewrite length_app in H1.
                       destruct x; [reflexivity|simpl in H1; lia]. }
    subst x. rewrite app_nil_r in H1. simpl in H2. auto.
  - assert (x = []). { apply (f_equal (@length ascii)) in H1. rewrite length_app in H1.
                       destruct x; [reflexivity|simpl in H1; lia]. }
    subst x. rewrite app_nil_r in H1. simpl in H2. auto.
Qed.

Lemma matchAt_occurs (l s : str) (st' : mstate) :
  matchAt (columnRe lower) l s = Some st' ->
  exists w r, occ l s w r /\ st' = at_ (rev w ++ l) r [].
Proof. intros H. apply matchAt_matches in H. apply matches_columnRe_plain, H. Qed.

Lemma occurs_matchAt (l s w r : str) :
  occ l s w r -> matchAt (columnRe lower) l s = Some (at_ (rev w ++ l) r []).
Proof.
  intros H.
  assert (Hm : matches (columnRe lower) (at_ l s []) (at_ (rev w ++ l) r [])).
  { apply matches_columnRe_plain. exists w, r. auto. }
  destruct (run_complete (columnRe lower) (at_ l s []) Some _ Hm) as [x Hx];
    [eexists; reflexivity|].
  change (matchAt (columnRe lower) l s = Some x) in Hx. rewrite Hx.
  destruct (matchAt_occurs l s x Hx) as (w' & r' & H' & ->).
  destruct (occurs_unique l s w r w' r' H H') as [<- <-]. reflexivity.
Qed.

Lemma no_occurrence (l s : str) :
  (forall w r, ~ occ l s w r) -> matchAt (columnRe lower) l s = None.
Proof.
  intros H. destruct (matchAt (columnRe lower) l s) as [st'|] eqn:E; [|reflexivity].
  destruct (matchAt_occurs l s st' E) as (w & r & Hh & _). elim (H w r Hh).
Qed.

(** *** the replacement, step by step *)

Lemma scp_nil (l : str) : scp l [] = [].
Proof.
  apply scan_nil. apply no_occurrence. intros w r (Hs & Hw & _).
  destruct (occurrence_text w Hw) as (Hne & _). destruct w; [congruence|discriminate].
Qed.

Lemma scp_hit (l s w r : str) :
  occ l s w r -> scp l s = quoted proper ++ scp (rev w ++ l) r.
Proof.
  intros H. pose proof (occurs_matchAt l s w r H) as Hm.
  destruct H as (Hs & Hw & _). destruct (occurrence_text w Hw) as (Hne & _).
  subst s. unfold Vocabulary.sc. rewrite (scan_hit _ _ l w r [] Hne Hm). reflexivity.
Qed.

Lemma scp_miss (l : str) (c : ascii) (t : str) :
  matchAt (columnRe lower) l (c :: t) = None -> scp l (c :: t) = c :: scp (c :: l) t.
Proof. intros H. unfold Vocabulary.sc. apply scan_miss, H. Qed.

(** the characters before the first double quote of the result were copied *)
Lemma scp_copy (x : str) :
  quoteFree x = true ->
  forall l t o, scp l t = x ++ o -> exists t', t = x ++ t' /\ o = scp (rev x ++ l) t'.
Proof.
  induction x as [|c x IH]; intros Hx l t o H.
  - exists t. auto.
  - cbn [quoteFree forallb] in Hx. apply andb_true_iff in Hx. destruct Hx as [Hc Hx].
    destruct t as [|d t]; [rewrite scp_nil in H; discriminate|].
    destruct (matchAt (columnRe lower) l (d :: t)) as [st'|] eqn:E.
    + destruct (matchAt_occurs l (d :: t) st' E) as (w0 & r0 & Hh & _).
      rewrite (scp_hit l (d :: t) w0 r0 Hh) in H. unfold quoted in H. cbn [app] in H.
      injection H as Hq _. subst c. rewrite ceq_refl in Hc. discriminate.
    + rewrite (scp_miss l d t E) in H. cbn [app] in H.
      injection H as -> H.
      destruct (IH Hx (c :: l) t o H) as (t' & -> & ->).
      exists t'. cbn [rev]. rewrite <- app_assoc. auto.
Qed.

(** a text without double quote, no longer than the name and followed by a
    double quote, is copied *)
Lemma scp_short (x : str) :
  quoteFree x = true -> length x <= length lower ->
  forall l o, scp l (x ++ dq :: o) = x ++ dq :: scp (dq :: rev x ++ l) o.
Proof.
  induction x as [|c x IH]; intros Hx Hlen l o.
  - cbn [app rev]. apply scp_miss. apply no_occurrence. intros w r (Hs & Hw & _).
    destruct (occurrence_text w Hw) as (Hne & Hq & _).
    destruct w as [|d w]; [congruence|]. cbn [app] in Hs. injection Hs as <- _.
    cbn [quoteFree forallb] in Hq. rewrite ceq_refl in Hq. discriminate.
  - assert (Hmiss : matchAt (columnRe lower) l ((c :: x) ++ dq :: o) = None).
    { apply no_occurrence. intros w r (Hs & Hw & _ & _ & Hq).
      destruct (occurrence_text w Hw) as (Hne & Hqf & Hl).
      symmetry in Hs. destruct (quoteFree_prefix w r (c :: x) o Hqf Hs) as (y & Hy & ->).
      assert (y = []).
      { apply (f_equal (@length ascii)) in Hy. rewrite length_app in Hy.
        destruct y; [reflexivity|]. simpl in Hy, Hlen. lia. }
      subst y. apply Hq. exists [], o. auto. }
    cbn [app] in *. rewrite (scp_miss l c (x ++ dq :: o) Hmiss). f_equal.
    cbn [quoteFree forallb] in Hx. apply andb_true_iff in Hx. destruct Hx as [_ Hx].
    rewrite (IH Hx ltac:(simpl in Hlen; lia) (c :: l) o).
    cbn [rev]. rewrite <- app_assoc. reflexivity.
Qed.

Lemma proper_plain : forallb plainChar proper = true.
Proof. apply (plain_of_lower proper lower lower_of_proper lower_plain). Qed.

(** the text inserted by a first pass is left alone by a second one *)
Lemma scp_quoted (l o : str) :
  scp l (quoted proper ++ o) = quoted proper ++ scp (dq :: rev proper ++ dq :: l) o.
Proof.
  unfold quoted. cbn [app]. rewrite <- !app_assoc. cbn [app].
  pose proof (scp_short [] eq_refl ltac:(simpl; lia) l (proper ++ dq :: o)) as H0.
  cbn [app rev] in H0. rewrite H0. f_equal.
  rewrite (scp_short proper (plain_quoteFree proper proper_plain)).
  - reflexivity.
  - rewrite <- lower_of_proper. unfold toLowerCase. rewrite length_map. lia.
Qed.

(** spaces and a double quote are copied *)
Lemma scp_spaces (ws : str) :
  forallb isSpace ws = true ->
  forall l t, scp l (ws ++ dq :: t) = ws ++ dq :: scp (dq :: rev ws ++ l) t.
Proof.
  induction ws as [|x ws IH]; intros Hws l t.
  - apply (scp_short [] eq_refl ltac:(simpl; lia)).
  - assert (Hmiss : matchAt (columnRe lower) l ((x :: ws) ++ dq :: t) = None).
    { apply no_occurrence. intros w r (Hs & Hw & _ & Hb & _).
      destruct (occurrence_text w Hw) as (Hne & Hqf & _).
      symmetry in Hs. destruct (quoteFree_prefix w r (x :: ws) t Hqf Hs) as (y & Hy & ->).
      assert (Hall : forallb isSpace (w ++ y) = true) by (rewrite <- Hy; exact Hws).
      rewrite forallb_app in Hall. apply andb_true_iff in Hall. destruct Hall as [Hsw Hsy].
      unfold boundary in Hb.
      assert (H1 : headIsWord (rev w) = false).
      { destruct (rev w) as [|c u] eqn:E; [reflexivity|]. cbn [headIsWord].
        assert (Hc : In c w) by (apply in_rev; rewrite E; left; reflexivity).
        rewrite forallb_forall in Hsw. pose proof (space_not_word c) as Hn.
        rewrite (Hsw c Hc) in Hn. exact Hn. }
      assert (H2 : headIsWord (y ++ dq :: t) = false).
      { destruct y as [|c y]; [reflexivity|]. cbn [app headIsWord].
        cbn [forallb] in Hsy. apply andb_true_iff in Hsy. destruct Hsy as [Hc _].
        pose proof (space_not_word c) as Hn. rewrite Hc in Hn. exact Hn. }
      rewrite H1, H2 in Hb. discriminate. }
    cbn [app] in *. rewrite (scp_miss l x (ws ++ dq :: t) Hmiss). f_equal.
    cbn [forallb] in Hws. apply andb_true_iff in Hws. destruct Hws as [_ Hws].
    rewrite (IH Hws (x :: l) t). cbn [rev]. rewrite <- app_assoc. reflexivity.
Qed.

(** what follows an occurrence of the second pass followed it in the input
    of the first *)
Lemma followed_alike (l t : str) :
  ~ spacesThenQuote (scp l t) ->
  headIsWord (scp l t) = headIsWord t /\ ~ spacesThenQuote t.
Proof.
  intros Hq. split.
  - destruct t as [|c t]; [rewrite scp_nil; reflexivity|].
    destruct (matchAt (columnRe lower) l (c :: t)) as [st'|] eqn:E.
    + destruct (matchAt_occurs l (c :: t) st' E) as (w & r & Hh & _).
      exfalso. apply Hq. rewrite (scp_hit l (c :: t) w r Hh).
      exists [], (proper ++ [dq] ++ scp (rev w ++ l) r). split; [|reflexivity].
      unfold quoted. cbn [app]. rewrite <- app_assoc. reflexivity.
    + rewrite (scp_miss l c t E). reflexivity.
  - intros (ws & t' & -> & Hws). apply Hq. rewrite (scp_spaces ws Hws).
    eexists ws, _. split; [reflexivity|exact Hws].
Qed.

(** a second pass finds no match where the first found none *)
Lemma second_pass_no_match (l l' : str) (c : ascii) (t : str) :
  headIsWord l = headIsWord l' ->
  matchAt (columnRe lower) l (c :: t) = None ->
  matchAt (columnRe lower) l' (c :: scp (c :: l) t) = None.
Proof.
  intros Hll Hnone. apply no_occurrence. intros w r' (Hs & Hw & Hl' & Hr' & Hq).
  destruct (occurrence_text w Hw) as (Hne & Hqf & _).
  destruct w as [|x w']; [congruence|]. cbn [app] in Hs. injection Hs as <- Ho.
  cbn [quoteFree forallb] in Hqf. apply andb_true_iff in Hqf. destruct Hqf as [_ Hqf].
  destruct (scp_copy w' Hqf (c :: l) t r' Ho) as (t' & -> & ->).
  destruct (followed_alike _ _ Hq) as [Hhead Hq'].
  assert (Hit : occ l (c :: w' ++ t') (c :: w') t').
  { split; [reflexivity|]. split; [exact Hw|].
    split; [unfold boundary in *; cbn [headIsWord] in *; rewrite Hll; exact Hl'|].
    split; [unfold boundary in *; rewrite <- Hhead; exact Hr'|exact Hq']. }
  rewrite (occurs_matchAt _ _ _ _ Hit) in Hnone. discriminate.
Qed.

Lemma scp_stable :
  forall n s, length s <= n ->
  forall l l',
    headIsWord l = headIsWord l' \/ (headIsWord l' = false /\ headIsWord s = false) ->
    scp l' (scp l s) = scp l s.
Proof.
  induction n as [|n IH]; intros s Hn l l' Hc.
  - destruct s; [|simpl in Hn; lia]. rewrite !scp_nil. reflexivity.
  - destruct s as [|c t]; [rewrite !scp_nil; reflexivity|].
    destruct (matchAt (columnRe lower) l (c :: t)) as [st'|] eqn:E.
    + destruct (matchAt_occurs l (c :: t) st' E) as (w & r & Hh & _).
      rewrite (scp_hit l (c :: t) w r Hh). rewrite scp_quoted. f_equal.
      destruct Hh as (Hs & Hw & _ & Hr & _).
      destruct (occurrence_text w Hw) as (Hne & _ & _).
      apply IH.
      * apply (f_equal (@length ascii)) in Hs. rewrite length_app in Hs.
        destruct w; [congruence|]. simpl in *. lia.
      * rewrite (headIsWord_rev_cons w l Hne). cbn [headIsWord]. change (isWord dq) with false.
        unfold boundary in Hr. destruct (headIsWord (rev w)).
        -- right. split; [reflexivity|]. destruct (headIsWord r); [discriminate|reflexivity].
        -- left. reflexivity.
    + rewrite (scp_miss l c t E).
      assert (E' : matchAt (columnRe lower) l' (c :: scp (c :: l) t) = None).
      { destruct Hc as [Hc|[Hl' Hs]].
        - apply (second_pass_no_match l l' c t Hc E).
        - apply no_occurrence. intros w r' (_ & _ & Hb & _). unfold boundary in Hb.
          cbn [headIsWord] in Hb, Hs. rewrite Hl', Hs in Hb. discriminate. }
      rewrite (scp_miss l' c _ E'). f_equal.
      apply IH; [simpl in Hn; lia|]. left. reflexivity.
Qed.

End Column.

Lemma quoted_plainName (proper : str) :
  forallb plainChar proper = true ->
  forallb (fun c => negb (code c =? 36)) (quoted proper) = true.
Proof.
  intros H. unfold quoted. cbn [forallb]. rewrite forallb_app. cbn [forallb].
  change (negb (code dq =? 36)) with true. rewrite andb_true_r. cbn [andb].
  rewrite forallb_forall in *. intros c Hc.
  pose proof (plainChar_not_dollar c) as Hp. rewrite (H c Hc) in Hp. exact Hp.
Qed.

Lemma quoteColumn_scan_plain RegExp (lower proper sql : str) :
  plainName lower = true -> toLowerCase proper = lower ->
  RegExp (columnPatternSource lower) = Normal (columnRe lower) ->
  quoteColumn RegExp sql (lower, proper) = Normal (sc lower proper [] sql).
Proof.
  intros Hid Hlow HR. unfold quoteColumn. rewrite HR. cbn [bind].
  rewrite ngroups_columnRe. rewrite replaceAll_scan. f_equal. unfold sc.
  apply scan_ext. intros m. apply subst_plain. apply quoted_plainName.
  apply (proper_plain lower proper Hid Hlow).
Qed.

Lemma quoteColumn_stable_plain RegExp (lower proper sql once : str) :
  plainName lower = true -> toLowerCase proper = lower ->
  RegExp (columnPatternSource lower) = Normal (columnRe lower) ->
  quoteColumn RegExp sql (lower, proper) = Normal once ->
  quoteColumn RegExp once (lower, proper) = Normal once.
Proof.
  intros Hid Hlow HR H.
  rewrite (quoteColumn_scan_plain RegExp lower proper sql Hid Hlow HR) in H.
  apply Normal_inj' in H. subst once.
  rewrite (quoteColumn_scan_plain RegExp lower proper _ Hid Hlow HR). f_equal.
  apply (scp_stable lower proper Hid Hlow (length sql) sql (Nat.le_refl _) [] []).
  left. reflexivity.
Qed.

End PlainColumnFacts.

(** The table-quoting replacement on names made of word characters and
    white space. *)
Module PlainTableFacts.
Import JS Vocabulary JSFacts MatchFacts ScanFacts ColumnFacts QuoteFacts OpenAI.
Import TableFacts PlainColumnFacts.

Lemma from_text (w : str) :
  map lowerChar w = lit "from" ->
  w <> [] /\ quoteFree w = true /\ length w = 4 /\ headIsWord w = true
  /\ headIsWord (rev w) = true.
Proof.
  intros Hw. destruct (hit_word (lit "from") eq_refl w Hw) as (Hall & Hne & Hh & Hl).
  split; [exact Hne|]. split.
  - apply plain_quoteFree. rewrite forallb_forall in *. intros c Hc.
    unfold plainChar. rewrite (Hall c Hc). reflexivity.
  - split; [|auto]. rewrite <- (length_map lowerChar w), Hw. reflexivity.
Qed.

Lemma spaces_quoteFree (ws : str) : forallb isSpace ws = true -> quoteFree ws = true.
Proof.
  intros H. apply plain_quoteFree. rewrite forallb_forall in *. intros c Hc.
  unfold plainChar. rewrite (H c Hc). apply orb_true_r.
Qed.

Lemma quoteFree_app (a b : str) : quoteFree (a ++ b) = quoteFree a && quoteFree b.
Proof. apply forallb_app. Qed.

Lemma fromClause_text (n o : str) :
  fromClause n ++ o = lit "FROM " ++ dq :: (n ++ dq :: o).
Proof. rewrite fromClause_app. reflexivity. Qed.

Section Table.

Variable n : str.
Hypothesis plain_n : plainName n = true.

Local Abbreviation occ := (Vocabulary.fromOccurs n).
Local Abbreviation tcp := (Vocabulary.tc n).

Lemma n_plain : forallb plainChar n = true.
Proof.
  pose proof plain_n as H. unfold plainName in H. apply andb_true_iff in H. tauto.
Qed.

Lemma n_not_nil : n <> [].
Proof.
  pose proof plain_n as H. unfold plainName in H. apply andb_true_iff in H.
  destruct H as [H _]. intros E. rewrite E in H. discriminate.
Qed.

Lemma name_text (u : str) :
  map lowerChar u = toLowerCase n ->
  u <> [] /\ quoteFree u = true /\ length u = length n.
Proof.
  intros Hu. split; [|split].
  - intros ->. apply n_not_nil. destruct n; [reflexivity|discriminate].
  - apply plain_quoteFree. apply (plain_of_lower u (toLowerCase n) Hu).
    unfold toLowerCase. rewrite forallb_forall. intros c Hc. apply in_map_iff in Hc.
    destruct Hc as (d & <- & Hd). rewrite plainChar_lowerChar.
    exact (proj1 (forallb_forall _ _) n_plain d Hd).
  - rewrite <- (length_map lowerChar u), Hu. unfold toLowerCase. apply length_map.
Qed.

(** the text of an occurrence *)
Lemma region_text (l s w ws u r : str) :
  occ l s w ws u r ->
  quoteFree (w ++ ws ++ u) = true /\ 5 + length n <= length (w ++ ws ++ u)
  /\ w ++ ws ++ u <> [].
Proof.
  intros (Hs & Hw & Hwne & Hws & Hu & _).
  destruct (from_text w Hw) as (Hne & Hqw & Hlw & _).
  destruct (name_text u Hu) as (_ & Hqu & Hlu).
  split; [|split].
  - rewrite !quoteFree_app, Hqw, Hqu, (spaces_quoteFree ws Hws). reflexivity.
  - rewrite !length_app, Hlw, Hlu. destruct ws; [congruence|]. simpl. lia.
  - destruct w; [congruence|discriminate].
Qed.

Lemma matches_tableRe_plain (l s : str) (st' : mstate) :
  matches (tableRe n) (at_ l s []) st' <->
  exists w ws u r, occ l s w ws u r /\ st' = at_ (rev (w ++ ws ++ u) ++ l) r [].
Proof.
  split.
  - unfold tableRe. cbn [matches]. intros (m & [Hb ->] & H).
    apply matches_literal in H. destruct H as (w & r1 & Hs & Hw & H).
    cbn [rest left caps at_] in *.
    change (map lowerChar (lit "from")) with (lit "from") in Hw.
    cbn [matches] in H. destruct H as (m & Hplus & Hlit).
    apply matches_plus_sp in Hplus. destruct Hplus as (ws & r2 & Hwne & Hws & Hr1 & ->).
    cbn [rest left caps at_] in *.
    apply matches_literal in Hlit. destruct Hlit as (u & r & Hm & Hu & Hk).
    cbn [rest left caps at_] in *.
    destruct (name_text u Hu) as (Hune & _ & _).
    cbn [matches] in Hk. destruct Hk as (m1 & [Hb1 ->] & ->).
    exists w, ws, u, r. split.
    + split; [rewrite Hs, Hr1, Hm; reflexivity|]. split; [exact Hw|].
      split; [exact Hwne|]. split; [exact Hws|]. split; [exact Hu|].
      unfold prevIsWord, nextIsWord in Hb, Hb1. cbn [left rest at_] in Hb, Hb1.
      fold (headIsWord l) in Hb. fold (headIsWord s) in Hb.
      fold (headIsWord (rev u ++ rev ws ++ rev w ++ l)) in Hb1. fold (headIsWord r) in Hb1.
      rewrite (headIsWord_rev_cons u _ Hune) in Hb1.
      split; [exact Hb|exact Hb1].
    + rewrite !rev_app_distr, <- !app_assoc. reflexivity.
  - intros (w & ws & u & r & (Hs & Hw & Hwne & Hws & Hu & Hl & Hr) & ->).
    destruct (name_text u Hu) as (Hune & _ & _).
    unfold tableRe. cbn [matches]. exists (at_ l s []). split.
    + split; [|reflexivity]. exact Hl.
    + apply matches_literal. exists w, (ws ++ u ++ r). cbn [rest left caps at_].
      split; [exact Hs|]. split; [exact Hw|].
      cbn [matches]. exists (at_ (rev ws ++ rev w ++ l) (u ++ r) []). split.
      * destruct ws as [|c ws]; [congruence|]. cbn [forallb] in Hws.
        apply andb_true_iff in Hws. destruct Hws as [Hc Hws].
        apply (matches_plus_cls isSpace c ws Hc Hws (rev w ++ l) (u ++ r) []).
      * apply matches_literal. exists u, r. cbn [rest left caps at_].
        split; [reflexivity|]. split; [exact Hu|].
        cbn [matches]. eexists. split; [split; [|reflexivity]|].
        -- unfold prevIsWord, nextIsWord. cbn [left rest at_].
           fold (headIsWord (rev u ++ rev ws ++ rev w ++ l)). fold (headIsWord r).
           rewrite (headIsWord_rev_cons u _ Hune). exact Hr.
        -- rewrite !rev_app_distr, <- !app_assoc. reflexivity.
Qed.

Lemma found (l s : str) (st' : mstate) :
  matchAt (tableRe n) l s = Some st' ->
  exists w ws u r, occ l s w ws u r /\ st' = at_ (rev (w ++ ws ++ u) ++ l) r [].
Proof. intros H. apply matchAt_matches in H. apply matches_tableRe_plain, H. Qed.

Lemma not_found (l s : str) :
  (forall w ws u r, ~ occ l s w ws u r) -> matchAt (tableRe n) l s = None.
Proof.
  intros H. destruct (matchAt (tableRe n) l s) as [st'|] eqn:E; [|reflexivity].
  destruct (found l s st' E) as (w & ws & u & r & Hh & _). elim (H w ws u r Hh).
Qed.

Lemma occurrence_found (l s w ws u r : str) :
  occ l s w ws u r -> matchAt (tableRe n) l s <> None.
Proof.
  intros H.
  assert (Hm : matches (tableRe n) (at_ l s []) (at_ (rev (w ++ ws ++ u) ++ l) r [])).
  { apply matches_tableRe_plain. exists w, ws, u, r. auto. }
  destruct (run_complete (tableRe n) (at_ l s []) Some _ Hm) as [x Hx];
    [eexists; reflexivity|].
  change (matchAt (tableRe n) l s = Some x) in Hx. rewrite Hx. discriminate.
Qed.

(** *** the replacement, step by step *)

Lemma tcp_nil (l : str) : tcp l [] = [].
Proof.
  apply scan_nil. apply not_found. intros w ws u r (Hs & Hw & _).
  destruct (from_text w Hw) as (Hne & _). destruct w; [congruence|discriminate Hs].
Qed.

Lemma tcp_miss (l : str) (c : ascii) (t : str) :
  matchAt (tableRe n) l (c :: t) = None -> tcp l (c :: t) = c :: tcp (c :: l) t.
Proof. intros H. unfold Vocabulary.tc. apply scan_miss, H. Qed.

Lemma tcp_hit (l s : str) (st' : mstate) :
  matchAt (tableRe n) l s = Some st' ->
  exists w ws u r,
    occ l s w ws u r /\ tcp l s = fromClause n ++ tcp (rev (w ++ ws ++ u) ++ l) r.
Proof.
  intros E. destruct (found l s st' E) as (w & ws & u & r & Hh & ->).
  exists w, ws, u, r. split; [exact Hh|].
  destruct (region_text _ _ _ _ _ _ Hh) as (_ & _ & Hne).
  destruct Hh as (Hs & _). subst s. unfold Vocabulary.tc.
  replace (w ++ ws ++ u ++ r) with ((w ++ ws ++ u) ++ r) in * by (rewrite <- !app_assoc; reflexivity).
  rewrite (scan_hit _ _ l (w ++ ws ++ u) r [] Hne E). reflexivity.
Qed.

(** a text without double quote, shorter than an occurrence and followed by
    a double quote, is copied *)
Lemma tcp_short (x : str) :
  quoteFree x = true -> length x < 5 + length n ->
  forall l o, tcp l (x ++ dq :: o) = x ++ dq :: tcp (dq :: rev x ++ l) o.
Proof.
  assert (Hnone : forall x0 l o, quoteFree x0 = true -> length x0 < 5 + length n ->
                                 matchAt (tableRe n) l (x0 ++ dq :: o) = None).
  { intros x0 l o Hx Hlen. apply not_found. intros w ws u r H.
    destruct (region_text _ _ _ _ _ _ H) as (Hq & Hl & _). destruct H as (Hs & _).
    replace (w ++ ws ++ u ++ r) with ((w ++ ws ++ u) ++ r) in Hs
      by (rewrite <- !app_assoc; reflexivity).
    symmetry in Hs. destruct (quoteFree_prefix _ _ x0 o Hq Hs) as (y & Hy & _).
    apply (f_equal (@length ascii)) in Hy. rewrite length_app in Hy. lia. }
  induction x as [|c x IH]; intros Hx Hlen l o.
  - cbn [app rev]. apply tcp_miss. apply (Hnone [] l o eq_refl Hlen).
  - cbn [app]. rewrite (tcp_miss l c (x ++ dq :: o) (Hnone (c :: x) l o Hx Hlen)). f_equal.
    cbn [quoteFree forallb] in Hx. apply andb_true_iff in Hx. destruct Hx as [_ Hx].
    rewrite (IH Hx ltac:(simpl in Hlen; lia) (c :: l) o).
    cbn [rev]. rewrite <- app_assoc. reflexivity.
Qed.

(** the text inserted by a first pass is left alone by a second one *)
Lemma tcp_inserted (l o : str) :
  exists l', tcp l (fromClause n ++ o) = fromClause n ++ tcp (dq :: l') o.
Proof.
  rewrite fromClause_text.
  assert (H5 : length (lit "FROM ") < 5 + length n).
  { pose proof n_not_nil as Hn. destruct n; [congruence|]. simpl. lia. }
  assert (Hn : length n < 5 + length n) by lia.
  rewrite (tcp_short (lit "FROM ") eq_refl H5).
  rewrite (tcp_short n (plain_quoteFree n n_plain) Hn).
  eexists. rewrite fromClause_text. reflexivity.
Qed.

Lemma headIsWord_tcp (l t : str) : headIsWord (tcp l t) = headIsWord t.
Proof.
  destruct t as [|c t]; [rewrite tcp_nil; reflexivity|].
  destruct (matchAt (tableRe n) l (c :: t)) as [st'|] eqn:E.
  - destruct (tcp_hit l (c :: t) st' E) as (w & ws & u & r & (Hs & Hw & _) & ->).
    destruct (from_text w Hw) as (Hne & _ & _ & Hh & _).
    rewrite Hs, (headIsWord_app w _ Hne), Hh. reflexivity.
  - rewrite (tcp_miss l c t E). reflexivity.
Qed.

(** the characters before the first double quote of the result were
    copied, or were copied up to a match and are followed by the first
    characters of the inserted text *)
Lemma tcp_copy (x : str) :
  quoteFree x = true ->
  forall l t o, tcp l t = x ++ o ->
    (exists t', t = x ++ t' /\ o = tcp (rev x ++ l) t')
    \/ (exists x1 x2 t1 st' y o',
          x = x1 ++ x2 /\ x2 <> [] /\ t = x1 ++ t1
          /\ matchAt (tableRe n) (rev x1 ++ l) t1 = Some st'
          /\ lit "FROM " = x2 ++ y /\ o = y ++ dq :: o').
Proof.
  induction x as [|c x IH]; intros Hx l t o H.
  - left. exists t. auto.
  - destruct t as [|d t]; [rewrite tcp_nil in H; discriminate|].
    destruct (matchAt (tableRe n) l (d :: t)) as [st'|] eqn:E.
    + right. destruct (tcp_hit l (d :: t) st' E) as (w & ws & u & r & _ & Ht).
      rewrite Ht in H.
      rewrite fromClause_text in H.
      symmetry in H. destruct (quoteFree_prefix _ _ _ _ Hx H) as (y & Hy & Ho).
      exists [], (c :: x), (d :: t), st', y, (n ++ dq :: tcp (rev (w ++ ws ++ u) ++ l) r).
      cbn [app rev].
      split; [reflexivity|]. split; [discriminate|]. split; [reflexivity|].
      split; [exact E|]. split; [exact Hy|exact Ho].
    + rewrite (tcp_miss l d t E) in H. cbn [app] in H. injection H as -> H.
      cbn [quoteFree forallb] in Hx. apply andb_true_iff in Hx. destruct Hx as [_ Hx].
      destruct (IH Hx (c :: l) t o H) as [(t' & -> & ->)|(x1 & x2 & t1 & st' & y & o' & H1)].
      * left. exists t'. cbn [rev]. rewrite <- app_assoc. auto.
      * right. destruct H1 as (-> & Hne & -> & Hm & Hy & Ho).
        exists (c :: x1), x2, t1, st', y, o'.
        split; [reflexivity|]. split; [exact Hne|]. split; [reflexivity|].
        split; [cbn [rev]; rewrite <- app_assoc; exact Hm|]. split; [exact Hy|exact Ho].
Qed.

(** the nonempty beginnings of the inserted word *)
Lemma inserted_beginning (x2 y : str) :
  lit "FROM " = x2 ++ y -> x2 <> [] ->
  (y = [] /\ headIsWord (rev x2) = false)
  \/ (headIsWord (rev x2) = true /\ headIsWord y = true)
  \/ (x2 = lit "FROM" /\ y = lit " ").
Proof.
  intros H Hne.
  destruct x2 as [|a [|b [|c [|d [|e [|f x2]]]]]]; [congruence| | | | | |];
    vm_compute in H; try discriminate H; injection H; intros; subst;
    first [ left; split; reflexivity
          | right; right; split; reflexivity
          | right; left; split; reflexivity ].
Qed.

(** a second pass finds no match where the first found none *)
Lemma second_pass_no_from (l l' : str) (c : ascii) (t : str) :
  headIsWord l = headIsWord l' ->
  matchAt (tableRe n) l (c :: t) = None ->
  matchAt (tableRe n) l' (c :: tcp (c :: l) t) = None.
Proof.
  intros Hll Hnone. apply not_found. intros w ws u r' H.
  destruct (region_text _ _ _ _ _ _ H) as (Hq & _ & Hne).
  destruct H as (Hs & Hw & Hwne & Hws & Hu & Hl' & Hr').
  destruct (from_text w Hw) as (Hwn & _ & _ & _ & Hwlast).
  destruct (name_text u Hu) as (Hune & _ & _).
  destruct w as [|x w']; [congruence|]. cbn [app] in Hs, Hq. injection Hs as <- Ho.
  cbn [quoteFree forallb] in Hq. apply andb_true_iff in Hq. destruct Hq as [_ Hq].
  replace (w' ++ ws ++ u ++ r') with ((w' ++ ws ++ u) ++ r') in Ho
    by (rewrite <- !app_assoc; reflexivity).
  assert (Hbl : boundary l (c :: t) = true).
  { unfold boundary in *. cbn [headIsWord] in *. rewrite Hll. exact Hl'. }
  destruct (tcp_copy _ Hq (c :: l) t r' Ho)
    as [(t' & -> & ->)|(x1 & x2 & t1 & st' & y & o' & Hx & Hx2 & -> & Hm & Hy & ->)].
  - apply (occurrence_found l (c :: (w' ++ ws ++ u) ++ t') (c :: w') ws u t'); [|exact Hnone].
    split; [cbn [app]; rewrite <- !app_assoc; reflexivity|].
    split; [exact Hw|]. split; [exact Hwne|]. split; [exact Hws|]. split; [exact Hu|].
    split; [exact Hbl|]. unfold boundary in *. rewrite headIsWord_tcp in Hr'. exact Hr'.
  - (* the occurrence ends inside the inserted text *)
    assert (Hlast : headIsWord (rev u) = headIsWord (rev x2)).
    { assert (E : rev ((c :: w') ++ ws ++ u) = rev (c :: x1 ++ x2)).
      { f_equal. cbn [app]. f_equal. exact Hx. }
      rewrite !rev_app_distr in E. cbn [rev] in E.
      rewrite !rev_app_distr in E. rewrite <- !app_assoc in E.
      destruct (rev u) as [|a ru] eqn:Eu.
      { apply (f_equal (@rev ascii)) in Eu. rewrite rev_involutive in Eu. simpl in Eu. congruence. }
      destruct (rev x2) as [|b rx] eqn:Ex.
      { apply (f_equal (@rev ascii)) in Ex. rewrite rev_involutive in Ex. simpl in Ex. congruence. }
      cbn [app] in E. injection E as -> _. reflexivity. }
    unfold boundary in Hr'. rewrite Hlast in Hr'.
    destruct (inserted_beginning x2 y Hy Hx2) as [[-> Hf]|[[H1 H2]|[-> ->]]].
    + rewrite Hf in Hr'. cbn in Hr'. discriminate.
    + rewrite H1 in Hr'. rewrite (headIsWord_app y _) in Hr'.
      * rewrite H2 in Hr'. discriminate.
      * intros ->. discriminate.
    + (* the occurrence ends with the inserted word: the name ends with it,
         and the input had the same occurrence *)
      destruct (found _ _ _ Hm) as (wh & wsh & uh & rh & (Hsh & Hwh & Hwshne & Hwsh & _) & _).
      destruct (from_text wh Hwh) as (Hwhn & _ & _ & _ & Hwhlast).
      assert (Hsplit : (w' ++ ws) ++ u = x1 ++ lit "FROM")
        by (rewrite <- Hx, <- !app_assoc; reflexivity).
      apply app_eq_app in Hsplit.
      destruct Hsplit as (z & [[H1 H2]|[H1 H2]]).
      * (* w' ++ ws = x1 ++ z with FROM = z ++ u *)
        destruct z as [|a z].
        -- cbn [app] in H2. rewrite app_nil_r in H1.
           apply (occurrence_found l (c :: x1 ++ t1) (c :: w') ws wh (wsh ++ uh ++ rh));
             [|exact Hnone].
           split; [cbn [app]; rewrite <- H1, Hsh, <- !app_assoc; reflexivity|].
           split; [exact Hw|]. split; [exact Hwne|]. split; [exact Hws|].
           split; [rewrite <- Hu, <- H2, Hwh; reflexivity|].
           split; [exact Hbl|].
           unfold boundary. rewrite Hwhlast.
           rewrite (headIsWord_spaces wsh _ Hwshne Hwsh). reflexivity.
        -- (* the last space before the name would be a letter of the word *)
           exfalso.
           assert (Hin : forall b, In b (a :: z) -> isSpace b = false).
           { intros b Hb.
             assert (Hb' : In b (lit "FROM")) by (rewrite H2; apply in_or_app; left; exact Hb).
             cbn in Hb'. destruct Hb' as [<-|[<-|[<-|[<-|[]]]]]; reflexivity. }
           assert (Hlastws : exists b, In b (a :: z) /\ In b ws).
           { assert (E : rev (w' ++ ws) = rev (x1 ++ a :: z)) by (rewrite H1; reflexivity).
             rewrite !rev_app_distr in E.
             destruct (rev ws) as [|b rws] eqn:Ews.
             { apply (f_equal (@rev ascii)) in Ews. rewrite rev_involutive in Ews.
               simpl in Ews. congruence. }
             destruct (rev (a :: z)) as [|b' rz] eqn:Ez.
             { apply (f_equal (@rev ascii)) in Ez. rewrite rev_involutive in Ez.
               simpl in Ez. discriminate. }
             cbn [app] in E. injection E as -> _.
             exists b'. split; apply in_rev; [rewrite Ez|rewrite Ews]; left; reflexivity. }
           destruct Hlastws as (b & Hb1 & Hb2).
           pose proof (Hin b Hb1) as Hn.
           rewrite (proj1 (forallb_forall _ _) Hws b Hb2) in Hn. discriminate.
      * (* x1 = (w' ++ ws) ++ z and u = z ++ FROM *)
        apply (occurrence_found l (c :: x1 ++ t1) (c :: w') ws (z ++ wh) (wsh ++ uh ++ rh));
          [|exact Hnone].
        split; [cbn [app]; rewrite H1, Hsh, <- !app_assoc; reflexivity|].
        split; [exact Hw|]. split; [exact Hwne|]. split; [exact Hws|].
        split; [rewrite <- Hu, H2, !map_app, Hwh; reflexivity|].
        split; [exact Hbl|].
        unfold boundary. rewrite rev_app_distr, (headIsWord_rev_cons wh _ Hwhn), Hwhlast.
        rewrite (headIsWord_spaces wsh _ Hwshne Hwsh). reflexivity.
Qed.

Lemma tcp_stable :
  forall k s, length s <= k ->
  forall l l',
    headIsWord l = headIsWord l' \/ (headIsWord l' = false /\ headIsWord s = false) ->
    tcp l' (tcp l s) = tcp l s.
Proof.
  induction k as [|k IH]; intros s Hk l l' Hc.
  - destruct s; [|simpl in Hk; lia]. rewrite !tcp_nil. reflexivity.
  - destruct s as [|c t]; [rewrite !tcp_nil; reflexivity|].
    destruct (matchAt (tableRe n) l (c :: t)) as [st'|] eqn:E.
    + destruct (tcp_hit l (c :: t) st' E) as (w & ws & u & r & Hh & ->).
      destruct (tcp_inserted l' (tcp (rev (w ++ ws ++ u) ++ l) r)) as (l2 & ->). f_equal.
      destruct (region_text _ _ _ _ _ _ Hh) as (_ & Hlen & _).
      destruct Hh as (Hs & Hw & _ & _ & Hu & _ & Hr).
      destruct (name_text u Hu) as (Hune & _ & _).
      apply IH.
      * apply (f_equal (@length ascii)) in Hs.
        replace (w ++ ws ++ u ++ r) with ((w ++ ws ++ u) ++ r) in Hs
          by (rewrite <- !app_assoc; reflexivity).
        rewrite length_app in Hs. cbn [length] in Hs, Hk. lia.
      * rewrite !rev_app_distr, <- !app_assoc.
        rewrite (headIsWord_rev_cons u _ Hune). cbn [headIsWord]. change (isWord dq) with false.
        unfold boundary in Hr. destruct (headIsWord (rev u)).
        -- right. split; [reflexivity|]. destruct (headIsWord r); [discriminate|reflexivity].
        -- left. reflexivity.
    + rewrite (tcp_miss l c t E).
      assert (E' : matchAt (tableRe n) l' (c :: tcp (c :: l) t) = None).
      { destruct Hc as [Hc|[Hl' Hs]].
        - apply (second_pass_no_from l l' c t Hc E).
        - apply not_found. intros w ws u r' (Hs' & Hw & _ & _ & _ & Hb & _).
          destruct (from_text w Hw) as (Hwn & _ & _ & Hh & _).
          destruct w as [|x w0]; [congruence|]. cbn [app] in Hs'. injection Hs' as -> _.
          cbn [headIsWord] in Hh, Hs. congruence. }
      rewrite (tcp_miss l' c _ E'). f_equal.
      apply IH; [simpl in Hk; lia|]. left. reflexivity.
Qed.

End Table.

Lemma fromClause_plainName (n : str) :
  forallb plainChar n = true ->
  forallb (fun c => negb (code c =? 36)) (fromClause n) = true.
Proof.
  intros H. unfold fromClause. rewrite forallb_app, (quoted_plainName n H). reflexivity.
Qed.

Lemma quoteTable_scan_plain RegExp (n sql : str) :
  plainName n = true ->
  RegExp (tablePatternSource n) = Normal (tableRe n) ->
  quoteTable RegExp sql n = Normal (tc n [] sql).
Proof.
  intros Hid Hre. unfold quoteTable. rewrite Hre. cbn [bind].
  rewrite ngroups_tableRe, replaceAll_scan. unfold tc. f_equal.
  apply scan_ext. intros m. apply subst_plain. apply fromClause_plainName.
  apply (n_plain n Hid).
Qed.

Lemma quoteTable_stable_plain RegExp (n sql once : str) :
  plainName n = true ->
  RegExp (tablePatternSource n) = Normal (tableRe n) ->
  quoteTable RegExp sql n = Normal once ->
  quoteTable RegExp once n = Normal once.
Proof.
  intros Hid Hre Honce.
  rewrite (quoteTable_scan_plain RegExp n sql Hid Hre) in Honce.
  apply Normal_inj' in Honce. subst once.
  rewrite (quoteTable_scan_plain RegExp n _ Hid Hre). f_equal.
  apply (tcp_stable n Hid (length sql) sql (le_n _) [] []).
  left. reflexivity.
Qed.

End PlainTableFacts.

Import JS Vocabulary Examples JSFacts.

(* ================================================================== *)
(** * The claims                                                       *)
(* ================================================================== *)

(** ** C1 *)

(** C1, counterexample.  The reply [SELECT category FROM sales; DROP TABLE
    sales] contains the disallowed keyword drop, and it is not rejected: the
    text after the first semicolon is stripped and the first statement,
    repaired, is handed to the executor. *)
Lemma C1_stripped_keyword_is_not_rejected :
  In (lit "drop") QueryController.dangerousKeywords
  /\ includes (toLowerCase twoStatements) "drop" = true
  /\ QueryController.executed
       (QueryController.processWithTable compileFragment emptyPool
          "List the categories" "sales" salesSchema twoStatements)
     = ["SELECT " +++ quoted "category" +++ " FROM " +++ quoted "sales"].
Proof.
  split; [right; right; right; left; reflexivity|].
  split; vm_compute; reflexivity.
Qed.

(** C1, amended.  The keyword test guards the executor: safeExecuteQuery
    rejects, without executing anything, every statement whose lower-cased
    text contains a disallowed keyword, and every statement it hands to the
    executor contains none. *)
Theorem C1_keyword_gate_before_execution
  (poolQuery : str -> completion (list row)) (sqlQuery keyword : str)
  (Hk : In keyword QueryController.dangerousKeywords) :
  (includes (toLowerCase sqlQuery) keyword = true ->
   QueryController.executed (QueryController.safeExecuteQuery poolQuery sqlQuery) = []
   /\ exists message,
        QueryController.outcome (QueryController.safeExecuteQuery poolQuery sqlQuery)
        = Throw message)
  /\ (forall q,
        In q (QueryController.executed (QueryController.safeExecuteQuery poolQuery sqlQuery)) ->
        includes (toLowerCase q) keyword = false).
Proof.
  split.
  - intros H. exact (PrepareFacts.safeExecuteQuery_rejects_keyword poolQuery sqlQuery keyword Hk H).
  - intros q Hq. apply ControllerFacts.safeExecuteQuery_executed in Hq. destruct Hq as [_ Hv].
    exact (ControllerFacts.validateSqlQuery_valid q keyword Hv Hk).
Qed.

Lemma C1_keyword_gate_witness :
  In (lit "drop") QueryController.dangerousKeywords
  /\ QueryController.executed
       (QueryController.safeExecuteQuery emptyPool "SELECT a FROM t WHERE b = 'drop';") = [].
Proof.
  assert (Hk : In (lit "drop") QueryController.dangerousKeywords)
    by (right; right; right; left; reflexivity).
  split; [exact Hk|].
  apply (proj1 (C1_keyword_gate_before_execution emptyPool
                  "SELECT a FROM t WHERE b = 'drop';" "drop" Hk)).
  vm_compute. reflexivity.
Defined.

(** ** C2 *)

(** C2, counterexample.  For the question [hello] and a schema with one date
    column the result is temporal, although the pattern of temporal does not
    match the question (and none of its keywords occurs in it). *)
Lemma C2_temporal_without_pattern_match :
  OpenAI.detectQueryType "hello" datedSchema = Normal [OpenAI.temporal]
  /\ test (OpenAI.patterns OpenAI.temporalConfig) (toLowerCase "hello") = false
  /\ existsb (includes (toLowerCase "hello")) (OpenAI.keywords OpenAI.temporalConfig) = false.
Proof. repeat split; vm_compute; reflexivity. Qed.

(** C2, amended.  An intent other than general is in the result exactly when
    the column groups of the schema contain all the column types the intent
    requires and one of these holds: its pattern matches the lower-cased
    question; one of its keywords occurs in it; the intent is temporal (and a
    date column exists); the intent is aggregation or ranking, a numeric
    column exists and the question contains total or most.  The required
    types are necessary, a pattern match is not. *)
Theorem C2_intent_added_iff
  (query : str) (schema : option (list OpenAI.column))
  (types : list OpenAI.queryType) (t : OpenAI.queryType)
  (Hrun : OpenAI.detectQueryType query schema = Normal types)
  (Ht : t <> OpenAI.general) :
  In t types <->
  exists v c,
    OpenAI.validateAndAdaptSchema schema = Normal v
    /\ OpenAI.patternOf t OpenAI.QUERY_PATTERNS = Some c
    /\ match OpenAI.requiredColumnTypes c with
       | None => True
       | Some required =>
           forallb (OpenAI.hasColumnType v) required = true
           /\ (test (OpenAI.patterns c) (toLowerCase query) = true
               \/ existsb (includes (toLowerCase query)) (OpenAI.keywords c) = true
               \/ (t = OpenAI.temporal /\ OpenAI.hasColumnType v "date" = true)
               \/ ((t = OpenAI.aggregation \/ t = OpenAI.ranking)
                   /\ OpenAI.hasColumnType v "numeric" = true
                   /\ (includes (toLowerCase query) "total" = true
                       \/ includes (toLowerCase query) "most" = true)))
       end.
Proof. exact (IntentFacts.detectQueryType_adds query schema types t Hrun Ht). Qed.

Lemma C2_intent_added_iff_witness :
  In OpenAI.temporal [OpenAI.temporal] <->
  exists v c,
    OpenAI.validateAndAdaptSchema datedSchema = Normal v
    /\ OpenAI.patternOf OpenAI.temporal OpenAI.QUERY_PATTERNS = Some c
    /\ match OpenAI.requiredColumnTypes c with
       | None => True
       | Some required =>
           forallb (OpenAI.hasColumnType v) required = true
           /\ (test (OpenAI.patterns c) (toLowerCase "hello") = true
               \/ existsb (includes (toLowerCase "hello")) (OpenAI.keywords c) = true
               \/ (OpenAI.temporal = OpenAI.temporal /\ OpenAI.hasColumnType v "date" = true)
               \/ ((OpenAI.temporal = OpenAI.aggregation \/ OpenAI.temporal = OpenAI.ranking)
                   /\ OpenAI.hasColumnType v "numeric" = true
                   /\ (includes (toLowerCase "hello") "total" = true
                       \/ includes (toLowerCase "hello") "most" = true)))
       end.
Proof.
  apply (C2_intent_added_iff "hello" datedSchema [OpenAI.temporal] OpenAI.temporal).
  - vm_compute. reflexivity.
  - discriminate.
Defined.

(** ** C3 *)

(** C3.  When the reply, without its fence markers and reasoning block, is a
    first statement followed by a semicolon and more text, the stripping
    stage keeps exactly the first statement: no semicolon is left, the first
    validation is that of the first statement, and the outcome of generateSQL
    is the same whatever follows the semicolon. *)
Theorem C3_only_first_statement_kept
  (content first more : str)
  (Hsplit : OpenAI.denoise content = first ++ chr ";" :: more)
  (Hfirst : ~ In (chr ";") first) :
  OpenAI.stripNoise content = first
  /\ ~ In (chr ";") (OpenAI.stripNoise content)
  /\ OpenAI.validationWarnings content = OpenAI.validateSqlQuery first
  /\ (forall RegExp query tableSchema tableName content' more',
        OpenAI.denoise content' = first ++ chr ";" :: more' ->
        OpenAI.generateSQL RegExp query tableSchema tableName content
        = OpenAI.generateSQL RegExp query tableSchema tableName content').
Proof.
  assert (Hs : OpenAI.stripNoise content = first).
  { unfold OpenAI.stripNoise, pipe. rewrite Hsplit. apply MoreFacts.splitHead_first, Hfirst. }
  split; [exact Hs|]. split; [rewrite Hs; exact Hfirst|].
  split; [unfold OpenAI.validationWarnings; rewrite Hs; reflexivity|].
  intros RegExp query tableSchema tableName content' more' Hsplit'.
  apply MoreFacts.generateSQL_first_statement. rewrite Hs.
  unfold OpenAI.stripNoise, pipe. rewrite Hsplit'. symmetry.
  apply MoreFacts.splitHead_first, Hfirst.
Qed.

Lemma C3_only_first_statement_kept_witness :
  OpenAI.stripNoise twoStatements = "SELECT category FROM sales"
  /\ OpenAI.validationWarnings twoStatements = [].
Proof.
  assert (Hsplit : OpenAI.denoise twoStatements
                   = lit "SELECT category FROM sales" ++ chr ";" :: lit " DROP TABLE sales")
    by (vm_compute; reflexivity).
  assert (Hfirst : ~ In (chr ";") (lit "SELECT category FROM sales")).
  { intros H. vm_compute in H. repeat (destruct H as [H|H]; [discriminate H|]). exact H. }
  destruct (C3_only_first_statement_kept twoStatements _ _ Hsplit Hfirst) as (H1 & _ & H3 & _).
  split; [exact H1|]. rewrite H3. vm_compute. reflexivity.
Defined.

(** ** C4 *)

(** C4, counterexample.  Integer strings in a column named quantity give
    NUMERIC, not INTEGER; the values 1.0 and 2.0 have a decimal point and
    give INTEGER, not NUMERIC; and an integer of 309 digits that is beyond
    the largest double gives NUMERIC. *)
Lemma C4_name_hint_and_integral_decimals :
  Parser.inferDataType noDates [Parser.Str "1"; Parser.Str "2"; Parser.Str "3"] "quantity"
  = Parser.NUMERIC
  /\ Parser.inferDataType noDates [Parser.Str "1.0"; Parser.Str "2.0"] "score"
     = Parser.INTEGER
  /\ Parser.inferDataType noDates [Parser.Str ("2" +++ repeat (chr "0") 308)] "score"
     = Parser.NUMERIC.
Proof. repeat split; vm_compute; reflexivity. Qed.

(** C4, amended.  For a non-empty column of plain decimal strings (an
    optional minus sign, digits, optionally a point and digits): when the
    name carries a money or quantity hint the type is NUMERIC; otherwise it
    is INTEGER when every value converts to an integral number, and NUMERIC
    when some value does not.  Every integer string of at most 308
    characters converts to an integral number, and so does 1.0. *)
Theorem C4_integer_and_decimal_columns
  (dateParses : str -> bool) (values : list Parser.value) (columnName : str)
  (Hne : values <> [])
  (Hdec : strings (fun s => decimalString s = true) values) :
  (Parser.likelyNumericColumn (toLowerCase columnName) = true ->
   Parser.inferDataType dateParses values columnName = Parser.NUMERIC)
  /\ (Parser.likelyNumericColumn (toLowerCase columnName) = false ->
      strings (fun s => numberIsInteger (Number s) = true) values ->
      Parser.inferDataType dateParses values columnName = Parser.INTEGER)
  /\ (Exists (fun v => exists s, v = Parser.Str s /\ numberIsInteger (Number s) = false) values ->
      Parser.inferDataType dateParses values columnName = Parser.NUMERIC)
  /\ (forall s, integerString s = true -> length s <= 308 ->
                decimalString s = true /\ numberIsInteger (Number s) = true)
  /\ numberIsInteger (Number "1.0") = true.
Proof.
  pose proof (InferFacts.inferDataType_decimals dateParses values columnName Hne Hdec) as Hcases.
  destruct (InferFacts.validValues_strings _ values InferFacts.decimalString_nonempty Hdec)
    as [Hvalid Hlen].
  split; [|split; [|split; [|split]]].
  - intros Hhint. rewrite Hcases, Hhint. reflexivity.
  - intros Hhint Hall. rewrite Hcases, Hhint.
    rewrite InferFacts.count_all; [rewrite Nat.eqb_refl; reflexivity|].
    clear Hcases Hlen. unfold strings in Hdec, Hall.
    induction values as [|v values IH]; [constructor|].
    inversion Hdec as [|? ? (s & -> & Hs) Hdec']; subst.
    inversion Hall as [|? ? (s' & Heq & Hs') Hall']; subst. injection Heq as <-.
    destruct s as [|c t]; [discriminate Hs|]. cbn [Parser.validValues Parser.validValue] in *.
    inversion Hvalid as [|? ? _ Hvalid']; subst.
    constructor; [exact Hs'|].
    destruct values as [|v' values']; [constructor|].
    apply IH; [discriminate|exact Hdec'|exact Hvalid'|exact Hall'].
  - intros Hex. rewrite Hcases.
    destruct (Parser.likelyNumericColumn (toLowerCase columnName)); [reflexivity|].
    assert (Hlt : Parser.count (fun v => numberIsInteger (Number v)) (Parser.validValues values)
                  < length (Parser.validValues values)).
    { apply InferFacts.count_some_not. apply C4Facts.validValues_exists.
      unfold strings in Hdec. rewrite Forall_forall in Hdec. apply Exists_exists in Hex.
      destruct Hex as (v & Hin & s & -> & Hs). apply Exists_exists.
      exists (Parser.Str s). split; [exact Hin|]. exists s. split; [reflexivity|].
      split; [|exact Hs].
      destruct (Hdec _ Hin) as (s' & Heq & Hd). injection Heq as <-.
      apply InferFacts.decimalString_nonempty, Hd. }
    apply Nat.lt_neq in Hlt. apply Nat.eqb_neq in Hlt. rewrite Hlt. reflexivity.
  - intros s Hs Hlen'. split.
    + apply NumberFacts.integerString_decimal, Hs.
    + apply DecimalFacts.Number_integerString; assumption.
  - vm_compute. reflexivity.
Qed.

Lemma C4_integer_and_decimal_columns_witness :
  Parser.inferDataType everyDate [Parser.Str "1.0"; Parser.Str "-2"] "score"
  = Parser.INTEGER
  /\ Parser.inferDataType everyDate [Parser.Str "12"; Parser.Str "7.5"] "visits"
     = Parser.NUMERIC.
Proof.
  split.
  - apply (proj1 (proj2 (C4_integer_and_decimal_columns everyDate
                           [Parser.Str "1.0"; Parser.Str "-2"] "score" ltac:(discriminate)
                           ltac:(repeat constructor; eexists; (split; [reflexivity|]);
                                 vm_compute; reflexivity)))).
    + vm_compute. reflexivity.
    + repeat constructor; eexists; (split; [reflexivity|]); vm_compute; reflexivity.
  - apply (proj1 (proj2 (proj2 (C4_integer_and_decimal_columns everyDate
                           [Parser.Str "12"; Parser.Str "7.5"] "visits" ltac:(discriminate)
                           ltac:(repeat constructor; eexists; (split; [reflexivity|]);
                                 vm_compute; reflexivity))))).
    right. left. eexists. split; [reflexivity|]. vm_compute. reflexivity.
Defined.

(** ** C5 *)

(** C5.  For a column whose name contains price (in any case) and that has
    at least one non-blank value, if at least 70% of the non-blank values
    are currency-like or numeric then the inferred type is NUMERIC, whatever
    the date parser says of the values. *)
Theorem C5_price_column_is_numeric
  (dateParses : str -> bool) (values : list Parser.value) (columnName : str)
  (Hname : includes (toLowerCase columnName) "price" = true)
  (Hsome : Parser.validValues values <> [])
  (Hshare : 7 * length (Parser.validValues values)
            <= 10 * Parser.count (Parser.looksNumeric) (Parser.validValues values)) :
  Parser.inferDataType dateParses values columnName = Parser.NUMERIC.
Proof.
  apply ParserFacts.inferDataType_hinted; [|assumption|assumption].
  apply ParserFacts.likelyNumeric_price, Hname.
Qed.

Lemma C5_price_column_is_numeric_witness :
  Parser.inferDataType everyDate
    [Parser.Str "12,000"; Parser.Str "15,500"; Parser.Str "18,250"; Parser.Str "2023-03-01";
     Parser.Null]
    "Unit Price" = Parser.NUMERIC.
Proof.
  apply C5_price_column_is_numeric.
  - vm_compute. reflexivity.
  - vm_compute. discriminate.
  - vm_compute. lia.
Defined.

(** ** C6 *)

(** C6, counterexample.  In [mixedRows] the column code is numeric in the
    first row only and amount is numeric in every row; the value series is
    code, not the first column whose values are all numeric. *)
Lemma C6_value_series_from_first_row_only :
  option_map OpenAI.valueColumn (OpenAI.chartData "show amounts" mixedRows) = Some (lit "code")
  /\ existsb (fun r => isNaN (toNumber (field r "code"))) mixedRows = true
  /\ forallb (fun r => negb (isNaN (toNumber (field r "amount")))) mixedRows = true.
Proof. repeat split; vm_compute; reflexivity. Qed.

(** C6, amended.  A chart is produced only when the number of rows is in
    (0, 50] and the first row has at least two columns; the value series is
    then the first column, in the order of the first row, whose value in the
    first row converts to a number, and the label series is the first column
    other than it. *)
Theorem C6_chart_inference
  (query : str) (rows : list row) (ch : OpenAI.chart)
  (Hchart : OpenAI.chartData query rows = Some ch) :
  0 < length rows /\ length rows <= 50 /\
  exists first others,
    rows = first :: others /\ 2 <= length first /\
    exists before after,
      map fst first = before ++ OpenAI.valueColumn ch :: after
      /\ Forall (fun key => isNaN (toNumber (field first key)) = true) before
      /\ isNaN (toNumber (field first (OpenAI.valueColumn ch))) = false
      /\ OpenAI.labelColumn ch =
           OpenAI.interpolate
             (orElseStr (find (fun key => negb (streq key (OpenAI.valueColumn ch))) (map fst first))
                (hd_error (map fst first))).
Proof.
  destruct (OpenAIFacts.chartData_attempted query rows ch Hchart)
    as (H0 & H50 & first & others & Hr & H2 & before & after & Hk & Hb & Hv & Hl).
  split; [exact H0|]. split; [exact H50|].
  exists first, others. split; [exact Hr|]. split; [exact H2|].
  exists before, after. split; [exact Hk|]. split; [|split; [|exact Hl]].
  - eapply Forall_impl; [|exact Hb]. intros key Hkey. unfold numericIn in Hkey.
    apply negb_false_iff in Hkey. exact Hkey.
  - unfold numericIn in Hv. apply negb_true_iff in Hv. exact Hv.
Qed.

Lemma C6_chart_inference_witness :
  exists ch, OpenAI.chartData "show amounts" mixedRows = Some ch
             /\ 0 < length mixedRows /\ length mixedRows <= 50.
Proof.
  eexists. split; [vm_compute; reflexivity|].
  match goal with
  | |- 0 < length mixedRows /\ length mixedRows <= 50 =>
      pose proof (C6_chart_inference "show amounts" mixedRows _
                    ltac:(vm_compute; reflexivity)) as (H0 & H50 & _)
  end.
  split; [exact H0|exact H50].
Defined.

(** ** C7 *)

(** C7.  For a request that carries a question and no table name, when the
    catalog lists exactly one data table, processQuery goes on with that
    table, and the only read of the store is the catalog query: no sample
    row and no column list is read, so no relevance score is computed. *)
Theorem C7_single_table_selected_without_scoring
  (db : QueryController.store) (req : QueryController.request)
  (userQueryText table : str) (log : list QueryController.dbCall)
  (Hquery : orElseStr (QueryController.query req) (QueryController.userQuery req)
            = Some userQueryText)
  (Hnonempty : userQueryText <> [])
  (Hnotable : truthy (QueryController.tableName req) = false)
  (Hone : QueryController.tables db = Normal [table]) :
  QueryController.processQuery db req log
  = (Normal (QueryController.ProcessWithTable userQueryText table),
     log ++ [QueryController.ListTables]).
Proof.
  exact (ControllerFacts.processQuery_single_table db req userQueryText table log
           Hquery Hnonempty Hnotable Hone).
Qed.

Lemma C7_single_table_selected_without_scoring_witness :
  QueryController.processQuery oneTableStore totalRevenue []
  = (Normal (QueryController.ProcessWithTable "What is the total revenue?" "sales"),
     [QueryController.ListTables]).
Proof.
  apply (C7_single_table_selected_without_scoring oneTableStore totalRevenue
           "What is the total revenue?" "sales" []).
  - reflexivity.
  - discriminate.
  - reflexivity.
  - reflexivity.
Defined.

(** ** C8 *)

(** C8, counterexample.  A second pass changes the output of the first: the
    step that joins two adjacent quoted texts joins disjoint pairs only; the
    step that drops a duplicate FROM clause drops one clause per pass; and
    the joining can make a new word that is a column name, which the second
    pass then quotes inside the quoted text. *)
Lemma C8_second_pass_changes_the_string :
  let sql1 := "select " +++ quoted "a" +++ " " +++ quoted "b" +++ " " +++ quoted "c" in
  let once1 := OpenAI.fixSqlQuery compileFragment sql1 None None in
  let sql2 : str := "select x from t from t from t" in
  let once2 := OpenAI.fixSqlQuery compileFragment sql2 None (Some (lit "t")) in
  let sql3 := "select " +++ quoted "a" +++ " " +++ quoted "b y" +++ " from t" in
  let once3 := OpenAI.fixSqlQuery compileFragment sql3 joinedNameSchema None in
  once1 = "select " +++ quoted "a_b" +++ " " +++ quoted "c"
  /\ OpenAI.fixSqlQuery compileFragment once1 None None = "select " +++ quoted "a_b_c"
  /\ once2 = "select x FROM " +++ quoted "t" +++ " FROM " +++ quoted "t"
  /\ OpenAI.fixSqlQuery compileFragment once2 None (Some (lit "t"))
     = "select x FROM " +++ quoted "t"
  /\ once3 = "select " +++ quoted "a_b y" +++ " from t"
  /\ OpenAI.fixSqlQuery compileFragment once3 joinedNameSchema None
     = "select " +++ quoted (quoted "a_b" +++ " y") +++ " from t".
Proof. repeat split; vm_compute; reflexivity. Qed.

(** C8, amended.  What a quoting step never does is quote again what it has
    quoted.  For a column and a table whose names are made of word
    characters and white space (the names that createTable keeps), with the
    patterns the constructor builds for such names, the column-quoting step
    and the table-quoting step, applied to their own output, return that
    output unchanged. *)
Theorem C8_quoting_is_stable
  (RegExp : str -> completion re) (lower proper tableName sql once : str)
  (Hname : plainName lower = true)
  (Hlower : toLowerCase proper = lower)
  (Htable : plainName tableName = true)
  (Hcolumns : RegExp (OpenAI.columnPatternSource lower) = Normal (columnRe lower))
  (Htables : RegExp (OpenAI.tablePatternSource tableName) = Normal (tableRe tableName)) :
  (OpenAI.quoteColumn RegExp sql (lower, proper) = Normal once ->
   OpenAI.quoteColumn RegExp once (lower, proper) = Normal once)
  /\ (OpenAI.quoteTable RegExp sql tableName = Normal once ->
      OpenAI.quoteTable RegExp once tableName = Normal once).
Proof.
  split.
  - exact (PlainColumnFacts.quoteColumn_stable_plain RegExp lower proper sql once
             Hname Hlower Hcolumns).
  - exact (PlainTableFacts.quoteTable_stable_plain RegExp tableName sql once Htable Htables).
Qed.

Lemma C8_quoting_is_stable_witness :
  OpenAI.quoteColumn compileFragment
    ("select " +++ quoted "Unit Price" +++ ", " +++ quoted "Unit Price" +++ " from items")
    (lit "unit price", lit "Unit Price")
  = Normal ("select " +++ quoted "Unit Price" +++ ", " +++ quoted "Unit Price" +++ " from items")
  /\ OpenAI.quoteTable compileFragment
       ("select price FROM " +++ quoted "order items" +++ " where x in (select y FROM "
        +++ quoted "order items" +++ ")") "order items"
     = Normal ("select price FROM " +++ quoted "order items" +++ " where x in (select y FROM "
               +++ quoted "order items" +++ ")").
Proof.
  split.
  - apply (proj1 (C8_quoting_is_stable compileFragment "unit price" "Unit Price" "order items"
                    "select unit price, Unit price from items" _
                    ltac:(vm_compute; reflexivity) ltac:(vm_compute; reflexivity)
                    ltac:(vm_compute; reflexivity) ltac:(vm_compute; reflexivity)
                    ltac:(vm_compute; reflexivity))).
    vm_compute. reflexivity.
  - apply (proj2 (C8_quoting_is_stable compileFragment "unit price" "Unit Price" "order items"
                    "select price from  order items where x in (select y From order items)" _
                    ltac:(vm_compute; reflexivity) ltac:(vm_compute; reflexivity)
                    ltac:(vm_compute; reflexivity) ltac:(vm_compute; reflexivity)
                    ltac:(vm_compute; reflexivity))).
    vm_compute. reflexivity.
Defined.

(** ** C9 *)

(** C9.  The safety check is a substring test on the lower-cased statement:
    a statement whose lower-cased text contains a disallowed keyword anywhere
    is rejected by validateSqlQuery, and safeExecuteQuery throws without
    executing it; so a SELECT that names a column created_at or updated_at
    is rejected. *)
Theorem C9_keyword_anywhere_is_rejected
  (sqlQuery keyword : str)
  (Hk : In keyword QueryController.dangerousKeywords)
  (Hin : includes (toLowerCase sqlQuery) keyword = true) :
  (exists message, QueryController.validateSqlQuery sqlQuery = QueryController.Invalid message)
  /\ (forall poolQuery,
        QueryController.executed (QueryController.safeExecuteQuery poolQuery sqlQuery) = []
        /\ exists message,
             QueryController.outcome (QueryController.safeExecuteQuery poolQuery sqlQuery)
             = Throw message).
Proof.
  split.
  - exact (ControllerFacts.validateSqlQuery_rejects sqlQuery keyword Hk Hin).
  - intros poolQuery.
    exact (PrepareFacts.safeExecuteQuery_rejects_keyword poolQuery sqlQuery keyword Hk Hin).
Qed.

Lemma C9_keyword_anywhere_is_rejected_witness :
  exists message,
    QueryController.validateSqlQuery
      ("SELECT " +++ quoted "created_at" +++ " FROM " +++ quoted "orders")
    = QueryController.Invalid message.
Proof.
  apply (C9_keyword_anywhere_is_rejected _ "create").
  - right; right; right; right; right; left. reflexivity.
  - vm_compute. reflexivity.
Defined.

(** ** C10 *)

(** C10.  fixSqlQuery is a function into strings: it has no exceptional
    result.  When a step of its try block throws, it returns the string it
    was given, without any of the repairs made before the exception.  Two
    steps that do throw: reading the name of a column that has neither name
    nor column_name, and the constructor refusing the pattern built from the
    table name. *)
Theorem C10_fixSqlQuery_returns_input_on_exception
  (RegExp : str -> completion re) (sql : str)
  (tableSchema : option (list OpenAI.column)) (tableName : option str) :
  (forall message,
      OpenAI.fixSqlQueryBody RegExp sql tableSchema tableName = Throw message ->
      OpenAI.fixSqlQuery RegExp sql tableSchema tableName = sql)
  /\ (forall cols col,
        tableSchema = Some cols -> In col cols -> OpenAI.colNameOf col = None ->
        OpenAI.fixSqlQuery RegExp sql tableSchema tableName = sql)
  /\ (forall table message,
        tableSchema = None -> tableName = Some table -> table <> [] ->
        RegExp (OpenAI.tablePatternSource table) = Throw message ->
        OpenAI.fixSqlQuery RegExp sql tableSchema tableName = sql).
Proof.
  split; [|split].
  - intros message Hthrow. unfold OpenAI.fixSqlQuery. rewrite Hthrow. reflexivity.
  - intros cols col -> Hin Hnone.
    exact (MoreFacts.fixSqlQuery_nameless RegExp sql cols tableName col Hin Hnone).
  - intros table message -> -> Hne Hthrow.
    destruct table as [|c t]; [congruence|].
    unfold OpenAI.fixSqlQuery, OpenAI.fixSqlQueryBody, OpenAI.quoteTable.
    cbn [bind]. rewrite Hthrow. reflexivity.
Qed.

Lemma C10_fixSqlQuery_returns_input_on_exception_witness :
  OpenAI.fixSqlQuery compileFragment "select  category ,revenue from sales"
    (Some (salesSchema ++ [namelessColumn])) (Some (lit "sales"))
  = "select  category ,revenue from sales"
  /\ OpenAI.fixSqlQuery compileFragment "select  category ,revenue from sales("
       None (Some (lit "sales("))
     = "select  category ,revenue from sales(".
Proof.
  split.
  - apply (proj1 (proj2 (C10_fixSqlQuery_returns_input_on_exception compileFragment
                           "select  category ,revenue from sales"
                           (Some (salesSchema ++ [namelessColumn])) (Some (lit "sales"))))
             (salesSchema ++ [namelessColumn]) namelessColumn eq_refl).
    + right. right. left. reflexivity.
    + reflexivity.
  - apply (proj2 (proj2 (C10_fixSqlQuery_returns_input_on_exception compileFragment
                           "select  category ,revenue from sales("
                           None (Some (lit "sales("))))
             (lit "sales(") "Invalid regular expression" eq_refl eq_refl).
    + discriminate.
    + vm_compute. reflexivity.
Defined.

Module TypeFacts.
Import JS Vocabulary Notions JSFacts InferFacts Parser.

Lemma count_all_inv (p : str -> bool) (l : list str) :
  count p l = length l -> Forall (fun s => p s = true) l.
Proof.
  unfold count. induction l as [|s l IH]; intros H; [constructor|].
  cbn [filter] in H. destruct (p s) eqn:E.
  - cbn [length] in H. constructor; [exact E|]. apply IH. lia.
  - pose proof (filter_length_le p l). cbn [length] in H. lia.
Qed.

Lemma count_eqb (p : str -> bool) (l : list str) :
  (count p l =? length l) = forallb p l.
Proof.
  destruct (forallb p l) eqn:E.
  - apply Nat.eqb_eq, count_all. apply Forall_forall. rewrite forallb_forall in E. exact E.
  - apply Nat.eqb_neq. intros H. apply count_all_inv in H.
    rewrite Forall_forall in H. rewrite <- forallb_forall in H. congruence.
Qed.

Lemma validValues_blank (values : list value) :
  Forall blank values -> validValues values = [].
Proof.
  induction 1 as [|v values [->|[->| ->]] _ IH]; simpl; auto.
Qed.

Lemma validValues_none (values : list value) :
  validValues values = [] -> Forall blank values.
Proof.
  induction values as [|v values IH]; intros H; [constructor|].
  cbn [validValues] in H. destruct v as [| |[|c s]]; cbn [validValue] in H;
    try discriminate; (constructor; [unfold blank; auto|apply IH, H]).
Qed.

Section WithDate.
Variable dateParses : str -> bool.

(** the decision of inferDataType, branch by branch *)
Lemma inferDataType_cases (values : list value) (columnName : str) :
  let valid := validValues values in
  inferDataType dateParses values columnName =
    match valid with
    | [] => TEXT
    | _ :: _ =>
        if likelyNumericColumn (toLowerCase columnName)
           && (7 * length valid <=? 10 * count looksNumeric valid)
        then NUMERIC
        else if forallb (isValidDate dateParses) valid then DATE
        else if forallb (fun v => negb (isNaN (Number v))) valid then
               if forallb (fun v => numberIsInteger (Number v)) valid then INTEGER else NUMERIC
        else TEXT
    end.
Proof.
  intros valid. unfold inferDataType. fold valid.
  destruct valid as [|v l] eqn:Ev; [reflexivity|]. rewrite <- Ev.
  assert (Hlen : 0 < length valid) by (rewrite Ev; simpl; lia).
  assert (E0 : (length valid =? 0) = false) by (apply Nat.eqb_neq; lia).
  rewrite E0.
  assert (Hrule : ((0 <? count looksNumeric valid)
                   && (7 * length valid <=? 10 * count looksNumeric valid))
                  = (7 * length valid <=? 10 * count looksNumeric valid)).
  { destruct (7 * length valid <=? 10 * count looksNumeric valid) eqn:E;
      [|apply andb_false_r].
    apply Nat.leb_le in E. rewrite andb_true_r. apply Nat.ltb_lt. lia. }
  rewrite Hrule.
  destruct (likelyNumericColumn (toLowerCase columnName)
            && (7 * length valid <=? 10 * count looksNumeric valid)); [reflexivity|].
  rewrite !count_eqb.
  destruct (forallb (isValidDate dateParses) valid) eqn:Ed.
  - assert (Hc : count (isValidDate dateParses) valid = length valid).
    { apply Nat.eqb_eq. rewrite count_eqb. exact Ed. }
    rewrite Hc. apply Nat.ltb_lt in Hlen as E1. rewrite E1. cbn [andb].
    assert (E9 : (9 * length valid <? 10 * length valid) = true) by (apply Nat.ltb_lt; lia).
    rewrite E9. destruct (dateHint (toLowerCase columnName)); reflexivity.
  - cbn [andb]. reflexivity.
Qed.

End WithDate.

End TypeFacts.

Module SchemaFacts.
Import JS Vocabulary Notions JSFacts OpenAI OpenAIFacts.

(** *** validateAndAdaptSchema *)

Lemma truthy_orElseStr (a b : option str) : truthy (orElseStr a b) = truthy a || truthy b.
Proof. unfold orElseStr. destruct (truthy a) eqn:E; [exact E|reflexivity]. Qed.

Lemma normalize_name (col : column) : truthy (name (normalize col)) = named col.
Proof.
  unfold normalize, named. cbn [name]. rewrite !truthy_orElseStr. cbn [truthy].
  apply orb_false_r.
Qed.

Lemma normalize_type (col : column) : truthy (type (normalize col)) = true.
Proof.
  unfold normalize. cbn [type]. rewrite !truthy_orElseStr. apply orb_true_r.
Qed.

Lemma named_normalize (col : column) : named (normalize col) = named col.
Proof.
  unfold named at 1. rewrite normalize_name. reflexivity.
Qed.

Lemma validate_loop (A B : str) (cols : list column) :
  forEachM (fun (_ : unit) col =>
              if negb (truthy (name col)) then Throw A
              else if negb (truthy (type col)) then Throw B
              else Normal tt) (map normalize cols) tt
  = if forallb named cols then Normal tt else Throw A.
Proof.
  induction cols as [|col cols IH]; [reflexivity|].
  cbn [map forEachM forallb]. rewrite normalize_name, normalize_type.
  destruct (named col); cbn [negb bind andb]; [exact IH|reflexivity].
Qed.

Lemma validateAndAdaptSchema_throws (cols : list column) :
  forallb named cols = false ->
  validateAndAdaptSchema (Some cols) = Throw "Column name is required".
Proof.
  intros H. unfold validateAndAdaptSchema. rewrite validate_loop, H. reflexivity.
Qed.

Lemma validateAndAdaptSchema_normal (cols : list column) :
  forallb named cols = true ->
  exists v, validateAndAdaptSchema (Some cols) = Normal v /\ schema v = map normalize cols.
Proof.
  intros H. unfold validateAndAdaptSchema. rewrite validate_loop, H. cbn [bind].
  eexists. split; reflexivity.
Qed.

Lemma validateAndAdaptSchema_inv (s : option (list column)) (v : validatedSchema) :
  validateAndAdaptSchema s = Normal v ->
  exists cols, s = Some cols /\ forallb named cols = true /\ schema v = map normalize cols.
Proof.
  destruct s as [cols|]; [|discriminate]. intros H. exists cols. split; [reflexivity|].
  destruct (forallb named cols) eqn:E.
  - destruct (validateAndAdaptSchema_normal cols E) as (v' & Hv & Hs).
    rewrite Hv in H. apply Normal_inj' in H. subst v'. auto.
  - rewrite (validateAndAdaptSchema_throws cols E) in H. discriminate.
Qed.

Lemma normalized_named (cols : list column) :
  forallb named cols = true ->
  Forall (fun c => truthy (name c) = true /\ truthy (type c) = true) (map normalize cols).
Proof.
  intros H. apply Forall_forall. intros c Hc. apply in_map_iff in Hc.
  destruct Hc as (col & <- & Hin). rewrite normalize_name, normalize_type.
  rewrite forallb_forall in H. auto.
Qed.

Lemma revalidate (cols : list column) :
  forallb named cols = true ->
  exists v, validateAndAdaptSchema (Some (map normalize cols)) = Normal v.
Proof.
  intros H. destruct (validateAndAdaptSchema_normal (map normalize cols)) as (v & Hv & _).
  - rewrite forallb_forall in *. intros c Hc. apply in_map_iff in Hc.
    destruct Hc as (col & <- & Hin). rewrite named_normalize. auto.
  - exists v. exact Hv.
Qed.

(** *** detectQueryType *)

Lemma NoDup_addType (t : queryType) (types : list queryType) :
  NoDup types -> NoDup (addType t types).
Proof.
  intros H. unfold addType. destruct (existsb (queryTypeEqb t) types) eqn:E; [exact H|].
  apply NoDup_app; [exact H|repeat constructor; intros []|].
  intros x Hx [Hx'|[]]. subst x.
  assert (Ht : existsb (queryTypeEqb t) types = true).
  { apply existsb_exists. exists t. split; [exact Hx|]. apply queryTypeEqb_eq. reflexivity. }
  congruence.
Qed.

Lemma NoDup_detectStep q v types e : NoDup types -> NoDup (detectStep q v types e).
Proof.
  intros H. destruct e as [type c]. unfold detectStep.
  destruct (requiredColumnTypes c) as [required|]; [|apply NoDup_addType, H].
  cbv beta iota delta [negb andb orb].
  repeat match goal with
         | |- context [if ?b then _ else _] =>
             lazymatch b with
             | (if _ then _ else _) => fail
             | _ => destruct b
             end
         end; repeat apply NoDup_addType; exact H.
Qed.

Lemma NoDup_detect_fold q v (l : list (queryType * config)) (types : list queryType) :
  NoDup types -> NoDup (fold_left (detectStep q v) l types).
Proof.
  revert types. induction l as [|e l IH]; intros types H; cbn [fold_left]; [exact H|].
  apply IH, NoDup_detectStep, H.
Qed.

Lemma detectQueryType_inv query s types :
  detectQueryType query s = Normal types ->
  exists v, validateAndAdaptSchema s = Normal v
            /\ let found := fold_left (detectStep (toLowerCase query) v) QUERY_PATTERNS [] in
               (found <> [] /\ types = found) \/ (found = [] /\ types = [general]).
Proof.
  unfold detectQueryType. destruct (validateAndAdaptSchema s) as [v|m]; cbn [bind]; [|discriminate].
  intros H. apply Normal_inj' in H. exists v. split; [reflexivity|].
  cbv zeta. destruct (fold_left _ QUERY_PATTERNS []) as [|x l] eqn:E.
  - right. auto.
  - left. cbn [length Nat.ltb Nat.leb] in H. split; [discriminate|]. symmetry. exact H.
Qed.

Lemma general_not_found q v : ~ In general (fold_left (detectStep q v) QUERY_PATTERNS []).
Proof.
  intros H. apply In_detect_fold in H. destruct H as [[]|(c & Hin & _)].
  apply In_QUERY_PATTERNS in Hin. discriminate.
Qed.

Lemma detectQueryType_total query s v :
  validateAndAdaptSchema s = Normal v -> exists types, detectQueryType query s = Normal types.
Proof. intros H. unfold detectQueryType. rewrite H. cbn [bind]. eexists. reflexivity. Qed.

(** *** getSqlTemplate *)

Lemma templates_fold (types : list queryType) (acc : list str) :
  fold_left (fun templates type =>
               match patternOf type QUERY_PATTERNS with
               | Some config => templates ++ sqlHints config
               | None => templates
               end) types acc
  = acc ++ flat_map (fun type => match patternOf type QUERY_PATTERNS with
                                 | Some config => sqlHints config
                                 | None => []
                                 end) types.
Proof.
  revert acc. induction types as [|t types IH]; intros acc; cbn [fold_left flat_map].
  - symmetry. apply app_nil_r.
  - rewrite IH. destruct (patternOf t QUERY_PATTERNS); [rewrite app_assoc|]; reflexivity.
Qed.

Lemma hints_nil (t : queryType) :
  match patternOf t QUERY_PATTERNS with
  | Some config => sqlHints config
  | None => []
  end = [] <-> t = general.
Proof. destruct t; cbn; split; intros H; try discriminate; reflexivity. Qed.

Lemma getSqlTemplate_none (types : list queryType) :
  getSqlTemplate types = None <-> Forall (fun t => t = general) types.
Proof.
  unfold getSqlTemplate. rewrite templates_fold. cbn [app].
  set (hints := fun type => match patternOf type QUERY_PATTERNS with
                            | Some config => sqlHints config
                            | None => []
                            end).
  induction types as [|t types IH]; cbn [flat_map].
  - split; [constructor|reflexivity].
  - destruct (hints t) as [|h hs] eqn:E.
    + cbn [app]. rewrite IH. apply hints_nil in E. subst t. split.
      * intros H. constructor; [reflexivity|exact H].
      * intros H. inversion H. assumption.
    + cbn [app length Nat.ltb Nat.leb]. split; [discriminate|].
      intros H. inversion H as [|? ? Ht _]. subst.
      unfold hints in E. cbn in E. discriminate.
Qed.

End SchemaFacts.

Module GenerateFacts.
Import JS Vocabulary Notions JSFacts OpenAI OpenAIFacts SchemaFacts.

(** *** fixQueryLogic on columns that carry a name *)

Lemma findM_total {A} (p : A -> completion bool) (l : list A) :
  Forall (fun a => exists b, p a = Normal b) l -> exists r, findM p l = Normal r.
Proof.
  induction 1 as [|a l [b Hb] _ [r IH]]; cbn [findM]; [eexists; reflexivity|].
  rewrite Hb. cbn [bind]. destruct b; [eexists; reflexivity|exists r; exact IH].
Qed.

Lemma lowerOf_some (v : option str) : v <> None -> exists n, lowerOf v = Normal n.
Proof. destruct v as [s|]; [eexists; reflexivity|congruence]. Qed.

Lemma classifyColumn_named (k : columnKinds) (col : column) :
  truthy (name col) = true ->
  Forall (fun v => v <> None) (numericColumns k) ->
  exists k', classifyColumn k col = Normal k'
             /\ Forall (fun v => v <> None) (numericColumns k').
Proof.
  intros Hn Hk. unfold classifyColumn.
  assert (Hc : orElseStr (name col) (column_name col) = name col)
    by (unfold orElseStr; rewrite Hn; reflexivity).
  rewrite Hc.
  destruct (name col) as [n|] eqn:En; [|discriminate].
  cbn [lowerOf bind]. unfold orM, andM.
  assert (Hadd : Forall (fun v : option str => v <> None) (numericColumns k ++ [Some n])).
  { apply Forall_app. split; [exact Hk|]. constructor; [discriminate|constructor]. }
  repeat match goal with
         | |- context [if ?b then _ else _] =>
             lazymatch b with
             | context [if _ then _ else _] => fail
             | _ => destruct b
             end
         end; cbn [bind numericColumns]; eexists; (split; [reflexivity|]);
    repeat match goal with |- context [if ?b then _ else _] => destruct b end;
    cbn [numericColumns]; assumption.
Qed.

Lemma classify_named (cols : list column) :
  Forall (fun c => truthy (name c) = true) cols ->
  forall k, Forall (fun v => v <> None) (numericColumns k) ->
  exists k', forEachM classifyColumn cols k = Normal k'
             /\ Forall (fun v => v <> None) (numericColumns k').
Proof.
  induction 1 as [|col cols Hcol _ IH]; intros k Hk; cbn [forEachM].
  - exists k. auto.
  - destruct (classifyColumn_named k col Hcol Hk) as (k1 & -> & Hk1). cbn [bind].
    apply IH, Hk1.
Qed.

Lemma fixQueryLogic_named (sqlQuery : str) (cols : list column) (tableName : option str) :
  Forall (fun c => truthy (name c) = true) cols ->
  exists fixedQuery, fixQueryLogic sqlQuery (Some cols) tableName = Normal fixedQuery.
Proof.
  intros Hcols. unfold fixQueryLogic.
  destruct (classify_named cols Hcols
              {| dateColumns := []; numericColumns := []; categoryColumns := [] |})
    as (k & -> & Hk); [constructor|].
  cbn beta iota delta [bind]. cbv zeta.
  assert (Hfind1 : exists r,
             findM (fun col => n <- lowerOf col ;;
                               Normal (includes n "price" || includes n "total"
                                       || includes n "amount")) (numericColumns k) = Normal r).
  { apply findM_total. eapply Forall_impl; [|exact Hk]. intros v Hv.
    destruct (lowerOf_some v Hv) as [n ->]. cbn [bind]. eexists. reflexivity. }
  destruct Hfind1 as [r1 Hr1].
  match goal with
  | |- exists q, bind (if ?c then _ else _) _ = _ => destruct c
  end.
  - rewrite Hr1. cbn beta iota delta [bind].
    match goal with
    | |- exists q, (if ?c then _ else _) = _ => destruct c; [|eexists; reflexivity]
    end.
    match goal with
    | |- exists q, (if ?c then _ else _) = _ => destruct c
    end.
    + match goal with
      | |- context [findM ?p ?l] =>
          assert (Hfind2 : exists r, findM p l = Normal r)
      end.
      { apply findM_total. eapply Forall_impl; [|exact Hk]. intros v Hv.
        unfold orM. destruct (lowerOf_some v Hv) as [n ->]. cbn [bind].
        match goal with |- context [if ?b then _ else _] => destruct b end;
          eexists; reflexivity. }
      destruct Hfind2 as [r2 ->]. cbn beta iota delta [bind].
      match goal with
      | |- exists q, (if ?c then _ else _) = _ => destruct c; eexists; reflexivity
      end.
    + match goal with
      | |- exists q, (if ?c then _ else _) = _ => destruct c; eexists; reflexivity
      end.
  - cbn beta iota delta [bind].
    match goal with
    | |- exists q, (if ?c then _ else _) = _ => destruct c; [|eexists; reflexivity]
    end.
    match goal with
    | |- exists q, (if ?c then _ else _) = _ => destruct c
    end.
    + match goal with
      | |- context [findM ?p ?l] =>
          assert (Hfind2 : exists r, findM p l = Normal r)
      end.
      { apply findM_total. eapply Forall_impl; [|exact Hk]. intros v Hv.
        unfold orM. destruct (lowerOf_some v Hv) as [n ->]. cbn [bind].
        match goal with |- context [if ?b then _ else _] => destruct b end;
          eexists; reflexivity. }
      destruct Hfind2 as [r2 ->]. cbn beta iota delta [bind].
      match goal with
      | |- exists q, (if ?c then _ else _) = _ => destruct c; eexists; reflexivity
      end.
    + match goal with
      | |- exists q, (if ?c then _ else _) = _ => destruct c; eexists; reflexivity
      end.
Qed.

(** *** the validation of a generated statement *)

Lemma validateSqlQuery_nil (query : str) :
  validateSqlQuery query = [] ->
  includes (toLowerCase query) "select" = true
  /\ includes (toLowerCase query) "from" = true
  /\ test dropTableRe query = false
  /\ test deleteFromRe query = false
  /\ test truncateTableRe query = false
  /\ countChar dq query mod 2 = 0
  /\ countChar (chr "(") query = countChar (chr ")") query.
Proof.
  unfold validateSqlQuery. cbv zeta.
  destruct (includes (toLowerCase query) "select");
    destruct (includes (toLowerCase query) "from");
    destruct (test dropTableRe query);
    destruct (test deleteFromRe query);
    destruct (test truncateTableRe query);
    destruct (countChar dq query mod 2 =? 0) eqn:Eq;
    destruct (countChar (chr "(") query =? countChar (chr ")") query) eqn:Ep;
    cbn [negb app]; intros H; try discriminate H.
  apply Nat.eqb_eq in Eq, Ep. auto 10.
Qed.

(** *** generateSQL *)

Lemma generateSQL_outcome RegExp query tableSchema tableName content :
  match generateSQL RegExp query tableSchema tableName content with
  | Normal sql => validateSqlQuery sql = []
  | Throw message =>
      validateAndAdaptSchema tableSchema = Throw message
      \/ exists sql, validateSqlQuery sql <> []
                     /\ message = "Invalid SQL generated: " +++ join ", " (validateSqlQuery sql)
  end.
Proof.
  unfold generateSQL.
  destruct (validateAndAdaptSchema tableSchema) as [v|m] eqn:Ev; cbn [bind]; [|left; reflexivity].
  destruct (validateAndAdaptSchema_inv _ _ Ev) as (cols & -> & Hnamed & Hs).
  rewrite Hs.
  destruct (revalidate cols Hnamed) as (v' & Hv').
  destruct (detectQueryType_total query _ v' Hv') as (types & ->). cbn [bind].
  pose proof (normalized_named cols Hnamed) as Hall.
  assert (Hnames : Forall (fun c => truthy (name c) = true) (map normalize cols)).
  { eapply Forall_impl; [|exact Hall]. intros c [H _]. exact H. }
  match goal with
  | |- context [fixQueryLogic ?q ?s ?t] =>
      destruct (fixQueryLogic_named q (map normalize cols) t Hnames) as (fixed & ->)
  end.
  cbn [bind]. cbv zeta.
  match goal with
  | |- context [validateSqlQuery ?q] => destruct (validateSqlQuery q) as [|e errors] eqn:E
  end.
  - cbn [length Nat.ltb Nat.leb]. exact E.
  - cbn [length Nat.ltb Nat.leb]. right. eexists. rewrite E. split; [discriminate|reflexivity].
Qed.

(** *** the GROUP BY completion *)

Lemma groupBy_included (q x : str) :
  includes (toLowerCase (q ++ lit " GROUP BY " ++ x)) "group by" = true.
Proof.
  rewrite !toLowerCase_app.
  change (toLowerCase (lit " GROUP BY ")) with (lit " " ++ lit "group by" ++ lit " ").
  rewrite <- !app_assoc. rewrite (app_assoc (toLowerCase q) (lit " ")).
  apply includes_app.
Qed.

Lemma completeGroupBy_cases (schema : list column) (q : str) (t : queryType) :
  completeGroupBy schema q t = q
  \/ (includes (toLowerCase q) "group by" = false
      /\ completeGroupBy schema q t = q ++ groupByClause schema q).
Proof.
  unfold completeGroupBy, groupByClause.
  destruct (patternOf t QUERY_PATTERNS) as [pattern|]; [|left; reflexivity].
  destruct (requiresGroupBy pattern); [|left; reflexivity]. cbn [andb].
  destruct (includes (toLowerCase q) "group by"); [left; reflexivity|]. cbn [negb].
  destruct (0 <? length (extractNonAggregatedColumns q schema)); [|left; reflexivity].
  right. split; reflexivity.
Qed.

Lemma completeGroupBy_present (schema : list column) (q : str) (t : queryType) :
  includes (toLowerCase q) "group by" = true -> completeGroupBy schema q t = q.
Proof.
  intros H. destruct (completeGroupBy_cases schema q t) as [E|[E _]]; [exact E|congruence].
Qed.

Lemma completeGroupBy_fold_present (schema : list column) (types : list queryType) (q : str) :
  includes (toLowerCase q) "group by" = true ->
  fold_left (completeGroupBy schema) types q = q.
Proof.
  intros H. induction types as [|t types IH]; cbn [fold_left]; [reflexivity|].
  rewrite (completeGroupBy_present schema q t H). exact IH.
Qed.

Lemma completeGroupBy_fold (schema : list column) (types : list queryType) (q : str) :
  fold_left (completeGroupBy schema) types q = q
  \/ (includes (toLowerCase q) "group by" = false
      /\ fold_left (completeGroupBy schema) types q = q ++ groupByClause schema q).
Proof.
  induction types as [|t types IH]; cbn [fold_left]; [left; reflexivity|].
  destruct (completeGroupBy_cases schema q t) as [->|[Hno ->]]; [exact IH|].
  right. split; [exact Hno|]. apply completeGroupBy_fold_present.
  unfold groupByClause. apply groupBy_included.
Qed.

(** *** the chart *)

Lemma streq_eq (a b : str) : streq a b = true <-> a = b.
Proof.
  revert b. induction a as [|x a IH]; intros [|y b]; cbn [streq]; split; intros H;
    try reflexivity; try discriminate.
  - apply andb_true_iff in H. destruct H as [Hx Ha]. apply ceq_eq in Hx. apply IH in Ha.
    congruence.
  - injection H as -> ->. rewrite ceq_refl. apply IH. reflexivity.
Qed.

Lemma find_other (keys : list str) (v : str) :
  NoDup keys -> 2 <= length keys -> In v keys ->
  exists k, find (fun key => negb (streq key v)) keys = Some k /\ k <> v /\ In k keys.
Proof.
  intros Hnd Hlen Hin.
  destruct (find (fun key => negb (streq key v)) keys) as [k|] eqn:E.
  - apply find_some in E. destruct E as [Hk Hne]. exists k. split; [reflexivity|].
    split; [|exact Hk]. intros ->. apply negb_true_iff in Hne.
    assert (streq v v = true) by (apply streq_eq; reflexivity). congruence.
  - exfalso.
    assert (Hall : forall x, In x keys -> x = v).
    { intros x Hx. pose proof (find_none _ _ E x Hx) as H. cbv beta in H.
      apply negb_false_iff in H. apply streq_eq, H. }
    destruct keys as [|a [|b keys]]; cbn [length] in Hlen; try lia.
    inversion Hnd as [|? ? Hna _]. subst. apply Hna.
    rewrite (Hall a), <- (Hall b); [left; reflexivity|right; left; reflexivity|left; reflexivity].
Qed.

Lemma chartData_series (query : str) (rows : list row) (ch : chart) :
  chartData query rows = Some ch ->
  length (labels ch) = length rows /\ length (data ch) = length rows.
Proof.
  unfold chartData. destruct rows as [|first others]; [discriminate|].
  destruct ((0 <? length (first :: others)) && (length (first :: others) <=? 50)); [|discriminate].
  destruct (2 <=? length (map fst first)); [|discriminate].
  destruct (filter _ (map fst first)) as [|v tl]; [discriminate|].
  intros H. injection H as <-. cbn [labels data length map]. rewrite !length_map. auto.
Qed.

End GenerateFacts.

Module ExecuteFacts.
Import JS Vocabulary Notions JSFacts MatchFacts ScanFacts EraseFacts PrepareFacts QueryController.

(** *** the leftmost match *)

Lemma searchFrom_leftmost (r : re) :
  forall s l m, searchFrom r l s = Some m ->
  exists a b st', s = a ++ b /\ matchAt r (rev a ++ l) b = Some st'
                  /\ m = info (rev a ++ l) b st'
                  /\ forall a1 c a2, a = a1 ++ c :: a2 ->
                                     matchAt r (rev a1 ++ l) (c :: a2 ++ b) = None.
Proof.
  induction s as [|c s IH]; intros l m H; cbn [searchFrom] in H.
  - destruct (matchAt r l []) as [st'|] eqn:E; [|discriminate].
    injection H as <-. exists [], [], st'. cbn [rev app]. repeat split; auto.
    intros a1 c a2 Ha. destruct a1; discriminate.
  - destruct (matchAt r l (c :: s)) as [st'|] eqn:E.
    + injection H as <-. exists [], (c :: s), st'. cbn [rev app]. repeat split; auto.
      intros a1 x a2 Ha. destruct a1; discriminate.
    + destruct (IH (c :: l) m H) as (a & b & st' & -> & Hm & -> & Hbefore).
      exists (c :: a), b, st'. cbn [rev]. rewrite <- !app_assoc. cbn [app].
      repeat split; auto.
      intros a1 x a2 Ha. destruct a1 as [|y a1]; cbn [app] in Ha; injection Ha as -> ->.
      * cbn [rev app]. exact E.
      * cbn [rev]. rewrite <- app_assoc. cbn [app]. apply Hbefore. reflexivity.
Qed.

Lemma searchFrom_none (r : re) :
  forall s l, searchFrom r l s = None ->
  forall a b, s = a ++ b -> matchAt r (rev a ++ l) b = None.
Proof.
  induction s as [|c s IH]; intros l H a b Hs; cbn [searchFrom] in H.
  - destruct (matchAt r l []) eqn:E; [discriminate|].
    destruct a; [|discriminate]. cbn [app] in Hs. subst b. exact E.
  - destruct (matchAt r l (c :: s)) eqn:E; [discriminate|].
    destruct a as [|x a]; cbn [app] in Hs.
    + subst b. exact E.
    + injection Hs as <- ->. cbn [rev]. rewrite <- app_assoc. cbn [app].
      apply (IH (c :: l) H a b). reflexivity.
Qed.

(** *** the trailing semicolons *)

Lemma semicolons_match (l s : str) :
  s <> [] -> forallb (ceq (chr ";")) s = true ->
  exists st', matchAt trailingSemicolonsRe l s = Some st'.
Proof.
  intros Hne Hall. destruct s as [|c ds]; [congruence|].
  cbn [forallb] in Hall. apply andb_true_iff in Hall. destruct Hall as [Hc Hds].
  assert (Hm : matches trailingSemicolonsRe (at_ l (c :: ds) []) (at_ (rev (c :: ds) ++ l) [] [])).
  { unfold trailingSemicolonsRe. cbn [matches]. exists (at_ (rev (c :: ds) ++ l) [] []). split.
    - pose proof (matches_plus_cls (ceq (chr ";")) c ds Hc Hds l [] []) as H.
      rewrite app_nil_r in H. exact H.
    - split; reflexivity. }
  destruct (run_complete trailingSemicolonsRe (at_ l (c :: ds) []) Some _ Hm) as [x Hx];
    [eexists; reflexivity|].
  exists x. exact Hx.
Qed.

Lemma semicolons_matched (l s : str) (st' : mstate) :
  matchAt trailingSemicolonsRe l s = Some st' ->
  rest st' = [] /\ forallb (ceq (chr ";")) s = true.
Proof.
  intros H. apply matchAt_matches in H. unfold trailingSemicolonsRe, Plus in H.
  cbn [matches] in H. destruct H as (m & (m0 & (c & t & Hs & Hc & ->) & Hstar) & He & ->).
  cbn [rest at_] in Hs. apply iter_cls in Hstar. destruct Hstar as (ws & Hw & Hall).
  cbn [rest] in Hw. split; [exact He|].
  rewrite Hs, Hw, He, app_nil_r. cbn [forallb]. rewrite Hc, Hall. reflexivity.
Qed.

Lemma endsWithSemicolon_app (u : str) : endsWithSemicolon (u ++ [chr ";"]) = true.
Proof. unfold endsWithSemicolon. rewrite rev_app_distr. reflexivity. Qed.

Lemma endsWithSemicolon_inv (s : str) :
  endsWithSemicolon s = true -> exists u, s = u ++ [chr ";"].
Proof.
  unfold endsWithSemicolon. destruct (rev s) as [|c t] eqn:E; [discriminate|].
  intros H. apply ceq_eq in H. subst c. exists (rev t).
  rewrite <- (rev_involutive s), E. reflexivity.
Qed.

Lemma no_trailing_semicolon (s : str) :
  endsWithSemicolon (replaceFirst trailingSemicolonsRe (subst 0 []) s) = false.
Proof.
  destruct (endsWithSemicolon _) eqn:E; [|reflexivity]. exfalso.
  apply endsWithSemicolon_inv in E. destruct E as (u & Hu).
  unfold replaceFirst, search in Hu.
  destruct (searchFrom trailingSemicolonsRe [] s) as [m|] eqn:Es.
  - destruct (searchFrom_leftmost _ _ _ _ Es) as (a & b & st' & -> & Hm & -> & Hbefore).
    destruct (semicolons_matched _ _ _ Hm) as [Hrest Hall].
    rewrite subst_empty in Hu. cbn [pre post info app] in Hu.
    rewrite Hrest, !app_nil_r, rev_involutive in Hu. subst a.
    specialize (Hbefore u (chr ";") [] eq_refl). cbn [app] in Hbefore.
    destruct (semicolons_match (rev u ++ []) (chr ";" :: b)) as [x Hx];
      [discriminate|cbn [forallb]; rewrite Hall; reflexivity|].
    congruence.
  - pose proof (searchFrom_none _ _ _ Es u [chr ";"] Hu) as Hnone.
    destruct (semicolons_match (rev u ++ []) [chr ";"]) as [x Hx];
      [discriminate|reflexivity|].
    congruence.
Qed.

Lemma prepare_no_semicolon (sqlQuery : str) : endsWithSemicolon (prepare sqlQuery) = false.
Proof. unfold prepare. apply no_trailing_semicolon. Qed.

(** *** what a valid statement is *)

Lemma validateSqlQuery_valid_inv (sqlQuery : str) :
  validateSqlQuery sqlQuery = Valid ->
  startsWith (toLowerCase (trim sqlQuery)) "select" = true
  /\ existsb (fun keyword => includes (toLowerCase sqlQuery) keyword) dangerousKeywords = false
  /\ includes (toLowerCase sqlQuery) "from" = true.
Proof.
  unfold validateSqlQuery.
  destruct (startsWith (toLowerCase (trim sqlQuery)) "select"); cbn [negb]; [|discriminate].
  destruct (existsb _ dangerousKeywords); [discriminate|].
  destruct (includes sqlQuery _ || includes sqlQuery _); [discriminate|].
  destruct (includes (toLowerCase sqlQuery) "from"); cbn [negb]; [|discriminate].
  auto.
Qed.

Lemma safeExecuteQuery_cases poolQuery (sqlQuery : str) :
  (executed (safeExecuteQuery poolQuery sqlQuery) = []
   /\ exists message,
        outcome (safeExecuteQuery poolQuery sqlQuery) = Throw ("Invalid SQL query: " +++ message))
  \/ (executed (safeExecuteQuery poolQuery sqlQuery) = [prepare sqlQuery]
      /\ outcome (safeExecuteQuery poolQuery sqlQuery) = poolQuery (prepare sqlQuery)
      /\ validateSqlQuery (prepare sqlQuery) = Valid).
Proof.
  unfold safeExecuteQuery. destruct (validateSqlQuery (prepare sqlQuery)) eqn:E; cbn [executed outcome].
  - right. auto.
  - left. split; [reflexivity|]. eexists. reflexivity.
Qed.

(** *** the two validations *)

Lemma trimStart_suffix (s : str) : exists ws, s = ws ++ trimStart s.
Proof.
  induction s as [|c s [ws IH]]; [exists []; reflexivity|]. cbn [trimStart].
  destruct (isSpace c); [|exists []; reflexivity].
  exists (c :: ws). cbn [app]. f_equal. exact IH.
Qed.

Lemma trim_infix (s : str) : exists a b, s = a ++ trim s ++ b.
Proof.
  destruct (trimStart_suffix s) as [ws1 H1].
  destruct (trimStart_suffix (rev (trimStart s))) as [ws2 H2].
  exists ws1, (rev ws2). unfold trim, trimEnd.
  rewrite H1 at 1. f_equal.
  rewrite <- (rev_involutive (trimStart s)) at 1. rewrite H2 at 1.
  apply rev_app_distr.
Qed.

Lemma select_included (sqlQuery : str) :
  startsWith (toLowerCase (trim sqlQuery)) "select" = true ->
  includes (toLowerCase sqlQuery) "select" = true.
Proof.
  intros H. apply startsWith_prefix in H. destruct H as [t Ht].
  destruct (trim_infix sqlQuery) as (a & b & Hs).
  rewrite Hs at 1. rewrite !toLowerCase_app, Ht, <- app_assoc. apply includes_app.
Qed.

Lemma matches_Liti (w : str) :
  w <> [] ->
  forall st st', matches (Liti w) st st' ->
  exists u, rest st = u ++ rest st' /\ map lowerChar u = map lowerChar w.
Proof.
  induction w as [|c w IH]; intros Hne st st' H; [congruence|].
  destruct w as [|d w].
  - unfold Liti in H. cbn [map seqs matches Chi] in H.
    destruct H as (x & t & Hs & Hx & ->). apply ceq_eq in Hx.
    exists [x]. cbn [rest app map]. rewrite Hx. auto.
  - unfold Liti in H. cbn [map seqs] in H. fold (Liti (d :: w)) in H.
    change (seqs (Chi d :: map Chi w)) with (Liti (d :: w)) in H.
    cbn [matches] in H. destruct H as (m & (x & t & Hs & Hx & ->) & H).
    apply ceq_eq in Hx. apply IH in H; [|discriminate].
    destruct H as (u & Hu & Hw). cbn [rest] in Hu.
    exists (x :: u). cbn [app map]. rewrite Hs, Hu, Hx, Hw. auto.
Qed.

Lemma injection_keyword (kw : str) (tail : re) (query : str) :
  kw <> [] ->
  test (Seq (Ch ";") (Seq (Star Sp) (Seq (Liti kw) tail))) query = true ->
  includes (toLowerCase query) (toLowerCase kw) = true.
Proof.
  intros Hne H. unfold test, search in H.
  destruct (searchFrom _ [] query) as [m|] eqn:Es; [|discriminate]. clear H.
  destruct (searchFrom_found _ _ _ _ Es) as (l0 & s0 & st' & _ & Hm & Hq).
  cbn [rev app] in Hq. apply matchAt_matches in Hm. cbn [matches] in Hm.
  destruct Hm as (m1 & H1 & m2 & H2 & m3 & H3 & H4).
  assert (A1 : advances (at_ l0 s0 []) m1) by (apply (matches_advances (Ch ";")); exact H1).
  assert (A2 : advances m1 m2) by (apply (matches_advances (Star Sp)); exact H2).
  destruct A1 as (p1 & Hp1 & _). destruct A2 as (p2 & Hp2 & _). cbn [rest at_] in Hp1.
  destruct (matches_Liti kw Hne _ _ H3) as (u & Hu & Hw).
  rewrite Hq, Hp1, Hp2, Hu. rewrite !toLowerCase_app.
  unfold toLowerCase at 4. rewrite Hw. fold (toLowerCase kw).
  rewrite !app_assoc. rewrite <- (app_assoc _ (toLowerCase kw)). apply includes_app.
Qed.

Lemma not_keyword (sqlQuery keyword : str) :
  existsb (fun keyword => includes (toLowerCase sqlQuery) keyword) dangerousKeywords = false ->
  In keyword dangerousKeywords ->
  includes (toLowerCase sqlQuery) keyword = false.
Proof.
  intros H Hin. destruct (includes (toLowerCase sqlQuery) keyword) eqn:E; [|reflexivity].
  assert (Hex : existsb (fun keyword => includes (toLowerCase sqlQuery) keyword) dangerousKeywords
                = true) by (apply existsb_exists; exists keyword; auto).
  congruence.
Qed.

Lemma valid_then_balance_only (sqlQuery : str) :
  validateSqlQuery sqlQuery = Valid ->
  Forall balanceError (OpenAI.validateSqlQuery sqlQuery).
Proof.
  intros H. apply validateSqlQuery_valid_inv in H. destruct H as (Hsel & Hkw & Hfrom).
  apply select_included in Hsel.
  assert (Hdrop : test OpenAI.dropTableRe sqlQuery = false).
  { destruct (test OpenAI.dropTableRe sqlQuery) eqn:E; [|reflexivity].
    apply (injection_keyword "drop") in E; [|discriminate].
    change (toLowerCase (lit "drop")) with (lit "drop") in E.
    rewrite (not_keyword sqlQuery "drop" Hkw) in E; [discriminate|].
    right; right; right; left; reflexivity. }
  assert (Hdelete : test OpenAI.deleteFromRe sqlQuery = false).
  { destruct (test OpenAI.deleteFromRe sqlQuery) eqn:E; [|reflexivity].
    apply (injection_keyword "delete") in E; [|discriminate].
    change (toLowerCase (lit "delete")) with (lit "delete") in E.
    rewrite (not_keyword sqlQuery "delete" Hkw) in E; [discriminate|].
    right; right; left; reflexivity. }
  assert (Htruncate : test OpenAI.truncateTableRe sqlQuery = false).
  { destruct (test OpenAI.truncateTableRe sqlQuery) eqn:E; [|reflexivity].
    apply (injection_keyword "truncate") in E; [|discriminate].
    change (toLowerCase (lit "truncate")) with (lit "truncate") in E.
    rewrite (not_keyword sqlQuery "truncate" Hkw) in E; [discriminate|].
    do 6 right; left; reflexivity. }
  unfold OpenAI.validateSqlQuery. rewrite Hsel, Hfrom, Hdrop, Hdelete, Htruncate.
  cbv zeta. cbn [negb].
  destruct (OpenAI.countChar dq sqlQuery mod 2 =? 0);
    destruct (OpenAI.countChar (chr "(") sqlQuery =? OpenAI.countChar (chr ")") sqlQuery);
    cbn [negb app]; repeat (apply Forall_cons; [unfold balanceError; auto|]); apply Forall_nil.
Qed.

End ExecuteFacts.

Module SeveralFacts.
Import JS Vocabulary Notions JSFacts ExecuteFacts QueryController.

(** *** a text in two parts *)

Lemma startsWith_separated (sep : ascii) (p a b : str) :
  ~ In sep p -> startsWith (a ++ sep :: b) p = startsWith a p.
Proof.
  revert a. induction p as [|x p IH]; intros a Hsep; [destruct a; reflexivity|].
  destruct a as [|c a]; cbn [app startsWith].
  - destruct (ceq x sep) eqn:E; [|reflexivity].
    apply Ascii.eqb_eq in E. exfalso. apply Hsep. left. exact E.
  - rewrite IH; [reflexivity|]. intros H. apply Hsep. right. exact H.
Qed.

Lemma includes_nil (p : str) : p <> [] -> includes [] p = false.
Proof. destruct p; [congruence|reflexivity]. Qed.

Lemma includes_separated (sep : ascii) (p a b : str) :
  p <> [] -> ~ In sep p ->
  includes (a ++ sep :: b) p = includes a p || includes b p.
Proof.
  intros Hne Hsep. induction a as [|c a IH].
  - rewrite includes_nil by exact Hne. cbn [app orb].
    change (includes (sep :: b) p) with (startsWith (sep :: b) p || includes b p).
    pose proof (startsWith_separated sep p [] b Hsep) as H. cbn [app] in H. rewrite H.
    destruct p; [congruence|reflexivity].
  - change (includes ((c :: a) ++ sep :: b) p)
      with (startsWith ((c :: a) ++ sep :: b) p || includes (a ++ sep :: b) p).
    change (includes (c :: a) p) with (startsWith (c :: a) p || includes a p).
    rewrite (startsWith_separated sep p (c :: a) b Hsep), IH.
    rewrite orb_assoc. reflexivity.
Qed.

Lemma trimStart_app (a b : str) : trimStart a <> [] -> trimStart (a ++ b) = trimStart a ++ b.
Proof.
  induction a as [|c a IH]; [intros H; exfalso; apply H; reflexivity|]. cbn [app trimStart].
  destruct (isSpace c); [exact IH|reflexivity].
Qed.

Lemma trimStart_keeps (c : ascii) (a b : str) :
  isSpace c = false -> exists a', trimStart (a ++ c :: b) = a' ++ c :: b.
Proof.
  intros Hc. induction a as [|x a [a' IH]].
  - exists []. cbn [app trimStart]. rewrite Hc. reflexivity.
  - cbn [app trimStart]. destruct (isSpace x); [exists a'; exact IH|].
    exists (x :: a). reflexivity.
Qed.

Lemma trimEnd_keeps (c : ascii) (a b : str) :
  isSpace c = false -> exists b', trimEnd (a ++ c :: b) = a ++ c :: b'.
Proof.
  intros Hc. unfold trimEnd. rewrite rev_app_distr. cbn [rev]. rewrite <- app_assoc. cbn [app].
  destruct (trimStart_keeps c (rev b) (rev a) Hc) as [b' Hb]. rewrite Hb.
  exists (rev b'). rewrite rev_app_distr. cbn [rev]. rewrite rev_involutive, <- app_assoc.
  reflexivity.
Qed.

Lemma trimEnd_prefix (s : str) : exists ws, s = trimEnd s ++ ws.
Proof.
  destruct (trimStart_suffix (rev s)) as [ws H]. exists (rev ws). unfold trimEnd.
  rewrite <- rev_app_distr, <- H, rev_involutive. reflexivity.
Qed.

(** the trimmed text of a statement stays at the beginning when a
    semicolon and more text follow *)
Lemma trim_separated (c : ascii) (a b : str) :
  isSpace c = false -> trim a <> [] -> exists t, trim (a ++ c :: b) = trim a ++ t.
Proof.
  intros Hc Hne. unfold trim in *.
  assert (Hs : trimStart a <> []).
  { intros E. apply Hne. rewrite E. reflexivity. }
  rewrite trimStart_app by exact Hs.
  destruct (trimEnd_keeps c (trimStart a) b Hc) as [b' Hb]. rewrite Hb.
  destruct (trimEnd_prefix (trimStart a)) as [ws Hws].
  exists (ws ++ c :: b'). rewrite app_assoc, <- Hws. reflexivity.
Qed.

Lemma keywords_without_semicolon :
  forall keyword, In keyword dangerousKeywords -> keyword <> [] /\ ~ In (chr ";") keyword.
Proof.
  assert (H : forallb (fun keyword => negb (isEmpty keyword)
                                      && negb (existsb (ceq (chr ";")) keyword))
                      dangerousKeywords = true) by reflexivity.
  rewrite forallb_forall in H. intros keyword Hin. specialize (H keyword Hin).
  apply andb_true_iff in H. destruct H as [H1 H2]. split.
  - intros E. subst keyword. discriminate.
  - intros Hc. apply negb_true_iff in H2.
    assert (Hex : existsb (ceq (chr ";")) keyword = true).
    { apply existsb_exists. exists (chr ";"). split; [exact Hc|reflexivity]. }
    congruence.
Qed.

Lemma keywords_separated (a b : str) :
  existsb (fun keyword => includes (toLowerCase a) keyword) dangerousKeywords = false ->
  existsb (fun keyword => includes (toLowerCase b) keyword) dangerousKeywords = false ->
  existsb (fun keyword => includes (toLowerCase (a ++ chr ";" :: b)) keyword)
          dangerousKeywords = false.
Proof.
  intros Ha Hb.
  destruct (existsb (fun keyword => includes (toLowerCase (a ++ chr ";" :: b)) keyword)
                    dangerousKeywords) eqn:E; [|reflexivity].
  apply existsb_exists in E. destruct E as (keyword & Hin & Hinc).
  destruct (keywords_without_semicolon keyword Hin) as [Hne Hsep].
  rewrite toLowerCase_app in Hinc.
  change (toLowerCase (chr ";" :: b)) with (chr ";" :: toLowerCase b) in Hinc.
  rewrite (includes_separated _ _ _ _ Hne Hsep) in Hinc.
  rewrite (not_keyword a keyword Ha Hin), (not_keyword b keyword Hb Hin) in Hinc.
  discriminate.
Qed.

(** validateSqlQuery of the controller accepts a statement it accepts
    again when a semicolon and a harmless text follow *)
Lemma validateSqlQuery_separated (first second : str) :
  validateSqlQuery first = Valid -> harmless second ->
  validateSqlQuery (first ++ chr ";" :: second) = Valid.
Proof.
  intros H (Hkw2 & Hu2 & Hq2).
  pose proof H as Hv. apply validateSqlQuery_valid_inv in H. destruct H as (Hsel & Hkw & Hfrom).
  unfold validateSqlQuery in Hv. rewrite Hsel, Hkw in Hv. cbn [negb] in Hv.
  destruct (includes first ("_FROM" +++ [dq]) || includes first ([dq] +++ "FROM")) eqn:Hbroken;
    [discriminate|].
  apply orb_false_iff in Hbroken. destruct Hbroken as [Hu Hq].
  assert (Hcore : trim first <> []).
  { intros E. rewrite E in Hsel. discriminate. }
  destruct (trim_separated (chr ";") first second eq_refl Hcore) as [t Ht].
  unfold validateSqlQuery. rewrite Ht, toLowerCase_app.
  apply startsWith_prefix in Hsel. destruct Hsel as [u Hsel]. rewrite Hsel, <- app_assoc.
  rewrite startsWith_app. cbn [negb].
  rewrite (keywords_separated first second Hkw Hkw2).
  rewrite (includes_separated (chr ";") ("_FROM" +++ [dq]) first second),
          (includes_separated (chr ";") ([dq] +++ "FROM") first second);
    try discriminate;
    try (intros Hin; vm_compute in Hin; repeat destruct Hin as [Hin|Hin]; try discriminate; exact Hin).
  rewrite Hu, Hu2, Hq, Hq2. cbn [orb].
  rewrite toLowerCase_app.
  change (toLowerCase (chr ";" :: second)) with (chr ";" :: toLowerCase second).
  rewrite (includes_separated (chr ";") "from" (toLowerCase first) (toLowerCase second));
    try discriminate;
    try (intros Hin; vm_compute in Hin; repeat destruct Hin as [Hin|Hin]; try discriminate; exact Hin).
  rewrite Hfrom. reflexivity.
Qed.

End SeveralFacts.

Module SelectFacts.
Import JS Vocabulary Notions JSFacts GenerateFacts QueryController.

(** *** objects *)

Lemma In_setOwnKey {V} (k : str) (v : V) (o : object V) (e : str * V) :
  In e (setOwnKey k v o) -> e = (k, v) \/ In e o.
Proof.
  induction o as [|[k' v'] o IH]; cbn [setOwnKey].
  - intros [H|[]]. left. symmetry. exact H.
  - destruct (streq k k').
    + intros [H|H]; [left; symmetry; exact H|right; right; exact H].
    + intros [H|H]; [right; left; exact H|].
      destruct (IH H) as [H'|H']; [left; exact H'|right; right; exact H'].
Qed.

Lemma setOwnKey_set {V} (k : str) (v : V) (o : object V) : In (k, v) (setOwnKey k v o).
Proof.
  induction o as [|[k' v'] o IH]; cbn [setOwnKey]; [left; reflexivity|].
  destruct (streq k k'); [left; reflexivity|right; exact IH].
Qed.

Lemma setOwnKey_keeps {V} (k : str) (v : V) (o : object V) (k0 : str) (v0 : V) :
  In (k0, v0) o -> exists v1, In (k0, v1) (setOwnKey k v o).
Proof.
  induction o as [|[k' v'] o IH]; cbn [setOwnKey]; [intros []|].
  destruct (streq k k') eqn:E.
  - apply streq_eq in E. subst k'. intros [H|H].
    + injection H as <- _. exists v. left. reflexivity.
    + exists v0. right. exact H.
  - intros [H|H].
    + exists v0. left. exact H.
    + destruct (IH H) as [v1 H1]. exists v1. right. exact H1.
Qed.

(** an assignment makes the key an own key, unless the key is __proto__ *)
Lemma In_setKey {V} (k : str) (v : V) (o : object V) (e : str * V) :
  In e (setKey k v o) -> (e = (k, v) /\ k <> protoKey) \/ In e o.
Proof.
  unfold setKey. destruct (streq k protoKey) eqn:E; [auto|].
  intros H. apply In_setOwnKey in H. destruct H as [H|H]; [left|right; exact H].
  split; [exact H|]. intros Hk. apply (proj2 (streq_eq _ _)) in Hk. congruence.
Qed.

Lemma setKey_set {V} (k : str) (v : V) (o : object V) :
  k <> protoKey -> In (k, v) (setKey k v o).
Proof.
  intros Hk. unfold setKey. destruct (streq k protoKey) eqn:E.
  - apply streq_eq in E. contradiction.
  - apply setOwnKey_set.
Qed.

Lemma setKey_proto {V} (v : V) (o : object V) : setKey protoKey v o = o.
Proof. reflexivity. Qed.

Lemma setKey_keeps {V} (k : str) (v : V) (o : object V) (k0 : str) (v0 : V) :
  In (k0, v0) o -> exists v1, In (k0, v1) (setKey k v o).
Proof.
  unfold setKey. destruct (streq k protoKey); [eauto|apply setOwnKey_keeps].
Qed.

Lemma In_insertIndexed {V} (i : Z) (e : str * V) (l : list (Z * (str * V))) x :
  In x (insertIndexed i e l) <-> x = (i, e) \/ In x l.
Proof.
  induction l as [|[j e'] l IH]; cbn [insertIndexed].
  - cbn [In]. intuition congruence.
  - destruct (i <? j)%Z; cbn [In]; [intuition congruence|]. rewrite IH. intuition congruence.
Qed.

Lemma In_indexedEntries {V} (o : object V) (i : Z) (e : str * V) :
  In (i, e) (indexedEntries o) <-> In e o /\ arrayIndex (fst e) = Some i.
Proof.
  induction o as [|[k v] o IH]; cbn [indexedEntries].
  - cbn [In]. tauto.
  - destruct (arrayIndex k) as [j|] eqn:E.
    + rewrite In_insertIndexed, IH. cbn [In]. split.
      * intros [H|[H1 H2]]; [injection H as -> ->; auto|auto].
      * intros [[H|H] Hi]; [subst e; cbn [fst] in Hi; left; congruence|auto].
    + rewrite IH. cbn [In]. split; [tauto|].
      intros [[H|H] Hi]; [subst e; cbn [fst] in Hi; congruence|auto].
Qed.

Lemma In_entries {V} (o : object V) (e : str * V) : In e (entries o) <-> In e o.
Proof.
  unfold entries. rewrite in_app_iff, in_map_iff, filter_In. split.
  - intros [([i e'] & <- & H)|[H _]]; [|exact H]. apply In_indexedEntries in H. tauto.
  - intros H. destruct (arrayIndex (fst e)) as [i|] eqn:E.
    + left. exists (i, e). split; [reflexivity|]. apply In_indexedEntries. auto.
    + right. auto.
Qed.

(** *** the sort *)

Lemma In_insertByScore (e x : str * nat) (l : list (str * nat)) :
  In x (insertByScore e l) <-> x = e \/ In x l.
Proof.
  induction l as [|e' l IH]; cbn [insertByScore].
  - cbn [In]. intuition congruence.
  - destruct (snd e' <=? snd e); cbn [In]; [intuition congruence|].
    rewrite IH. intuition congruence.
Qed.

Lemma In_sortByScore (x : str * nat) (l : list (str * nat)) :
  In x (sortByScore l) <-> In x l.
Proof.
  unfold sortByScore. induction l as [|e l IH]; cbn [fold_right]; [tauto|].
  rewrite In_insertByScore, IH. cbn [In]. intuition congruence.
Qed.

Lemma insertByScore_sorted (e : str * nat) (l : list (str * nat)) :
  StronglySorted (fun a b => snd b <= snd a) l ->
  StronglySorted (fun a b => snd b <= snd a) (insertByScore e l).
Proof.
  induction 1 as [|e' l Hs IH Hall]; cbn [insertByScore].
  - constructor; constructor.
  - destruct (snd e' <=? snd e) eqn:E.
    + apply Nat.leb_le in E. constructor; [constructor; assumption|].
      constructor; [exact E|]. eapply Forall_impl; [|exact Hall]. intros b Hb. cbv beta in *. lia.
    + apply Nat.leb_gt in E. constructor; [exact IH|].
      apply Forall_forall. intros b Hb. apply In_insertByScore in Hb.
      destruct Hb as [->|Hb]; [lia|]. rewrite Forall_forall in Hall. apply Hall, Hb.
Qed.

Lemma sortByScore_sorted (l : list (str * nat)) :
  StronglySorted (fun a b => snd b <= snd a) (sortByScore l).
Proof.
  unfold sortByScore. induction l as [|e l IH]; cbn [fold_right]; [constructor|].
  apply insertByScore_sorted, IH.
Qed.

Lemma sortByScore_head (l : list (str * nat)) (b : str) (sb : nat) rest :
  sortByScore l = (b, sb) :: rest ->
  In (b, sb) l /\ forall t s, In (t, s) l -> s <= sb.
Proof.
  intros H. split.
  - apply In_sortByScore. rewrite H. left. reflexivity.
  - intros t s Hin. apply In_sortByScore in Hin. rewrite H in Hin.
    pose proof (sortByScore_sorted l) as Hs. rewrite H in Hs.
    inversion Hs as [|? ? _ Hall]. subst.
    destruct Hin as [Heq|Hin]; [injection Heq as _ ->; lia|].
    rewrite Forall_forall in Hall. apply (Hall _ Hin).
Qed.

(** *** the scoring of the tables *)

Section WithStore.
Variable db : store.

Lemma scoreTable_run (q : str) (scores : object nat) (table : str) (log : list dbCall) :
  snd (scoreTable db q scores table log) = log ++ [SampleData table 1; ListColumns table]
  /\ forall scores', fst (scoreTable db q scores table log) = Normal scores' ->
                     exists s, scores' = setKey table s scores.
Proof.
  unfold scoreTable, bindIO, attempt, call, ret.
  destruct (sampleData db table 1) as [[|first others]|m];
    destruct (columnNames db table) as [cols|m']; cbn [fst snd];
    rewrite <- app_assoc; (split; [reflexivity|]); intros scores' H;
    try discriminate H; apply Normal_inj' in H; subst scores'; eexists; reflexivity.
Qed.

Lemma scoring_run (q : str) (names : list str) :
  forall (scores : object nat) (log : list dbCall),
  (exists new, snd (forEachIO (scoreTable db q) names scores log) = log ++ new)
  /\ forall scores', fst (forEachIO (scoreTable db q) names scores log) = Normal scores' ->
       (forall k v, In (k, v) scores' -> (In k names /\ k <> protoKey) \/ In (k, v) scores)
       /\ (forall k, In k names -> k <> protoKey -> exists v, In (k, v) scores')
       /\ (forall k v, In (k, v) scores -> exists v', In (k, v') scores').
Proof.
  induction names as [|table names IH]; intros scores log; cbn [forEachIO].
  - unfold ret. cbn [fst snd]. split; [exists []; symmetry; apply app_nil_r|].
    intros scores' H. apply Normal_inj' in H. subst scores'.
    split; [auto|]. split; [intros k []|eauto].
  - unfold bindIO. destruct (scoreTable_run q scores table log) as [Hlog Hres].
    destruct (scoreTable db q scores table log) as [[scores1|m] log1]; cbn [fst snd] in *.
    + destruct (Hres scores1 eq_refl) as [s ->]. subst log1.
      destruct (IH (setKey table s scores) (log ++ [SampleData table 1; ListColumns table]))
        as [[new Hnew] Hkeys].
      split; [exists ([SampleData table 1; ListColumns table] ++ new);
              rewrite Hnew, <- app_assoc; reflexivity|].
      intros scores' H. destruct (Hkeys scores' H) as (H1 & H2 & H3).
      split; [|split].
      * intros k v Hin. destruct (H1 k v Hin) as [[Hk Hp]|Hk]; [left; split; [right; exact Hk|exact Hp]|].
        apply In_setKey in Hk. destruct Hk as [[Hk Hp]|Hk];
          [injection Hk as -> _; left; split; [left; reflexivity|exact Hp]|].
        right. exact Hk.
      * intros k [<-|Hk] Hp; [|apply H2; assumption]. apply (H3 table s). apply setKey_set, Hp.
      * intros k v Hin. destruct (setKey_keeps table s scores k v Hin) as [v1 Hv1].
        apply (H3 k v1 Hv1).
    + subst log1. split; [eexists; reflexivity|]. intros scores' H. discriminate H.
Qed.

(** the branches of processQuery when the store is consulted *)
Lemma processQuery_consults (req : request) (text : str) (log : list dbCall) :
  orElseStr (query req) (userQuery req) = Some text -> text <> [] ->
  truthy (tableName req) = false ->
  forall d, d = processQuery db req log ->
  match tables db with
  | Throw m => d = (Throw m, log ++ [ListTables])
  | Normal [] => exists message, d = (Normal (NotFound message), log ++ [ListTables])
  | Normal [table] => d = (Normal (ProcessWithTable text table), log ++ [ListTables])
  | Normal (first :: second :: others) =>
      match forEachIO (scoreTable db text) (first :: second :: others) []
              (log ++ [ListTables]) with
      | (Throw m, log1) => d = (Throw m, log1)
      | (Normal scores, log1) =>
          (forall t, In t (first :: second :: others) -> t <> protoKey ->
                     exists s, In (t, s) scores)
          /\ (forall t s, In (t, s) scores -> In t (first :: second :: others) /\ t <> protoKey)
          /\ exists best,
               d = (Normal (ProcessWithTable text best), log1)
               /\ In best (first :: second :: others)
               /\ ((exists sb, In (best, sb) scores /\ 0 < sb
                               /\ forall t s, In (t, s) scores -> s <= sb)
                   \/ (forall t s, In (t, s) scores -> s = 0))
      end
  end.
Proof.
  intros Hq Hne Ht d Hd. unfold processQuery in Hd. rewrite Hq in Hd.
  destruct text as [|c t]; [congruence|].
  match type of Hd with
  | context [bindIO (call ListTables (tables db)) ?k] =>
      set (body := bindIO (call ListTables (tables db)) k) in Hd
  end.
  assert (Hd' : d = body log).
  { destruct (tableName req) as [[|c' t']|]; [exact Hd|discriminate Ht|exact Hd]. }
  clear Hd. subst body. subst d. cbv beta iota delta [bindIO call ret].
  destruct (tables db) as [[|first [|second others]]|m]; cbv beta iota.
  - eexists. reflexivity.
  - reflexivity.
  - set (names := first :: second :: others).
    destruct (scoring_run (c :: t) names [] (log ++ [ListTables])) as [_ Hkeys].
    destruct (forEachIO (scoreTable db (c :: t)) names [] (log ++ [ListTables]))
      as [[scores|m] log1] eqn:E; cbn [fst] in Hkeys; [|reflexivity].
    destruct (Hkeys scores eq_refl) as (H1 & H2 & _).
    split; [exact H2|]. split.
    { intros t0 s Hin. destruct (H1 _ _ Hin) as [H|[]]. exact H. }
    destruct (sortByScore (entries scores)) as [|[best [|n]] rest] eqn:Es.
    + assert (Hzero : forall t0 s, In (t0, s) scores -> s = 0).
      { intros t0 s Hin. apply (proj2 (In_entries _ _)) in Hin.
        apply (proj2 (In_sortByScore _ _)) in Hin. rewrite Es in Hin. destruct Hin. }
      destruct (find (fun tableName => businessLike (toLowerCase tableName)) names)
        as [found|] eqn:Ef.
      * apply find_some in Ef. destruct Ef as [Hin _].
        exists found. split; [reflexivity|]. split; [exact Hin|right; exact Hzero].
      * exists first. split; [reflexivity|].
        split; [left; reflexivity|right; exact Hzero].
    + apply sortByScore_head in Es. destruct Es as [_ Hmax].
      assert (Hzero : forall t0 s, In (t0, s) scores -> s = 0).
      { intros t0 s Hin. apply (proj2 (In_entries _ _)) in Hin. apply Hmax in Hin. lia. }
      destruct (find (fun tableName => businessLike (toLowerCase tableName)) names)
        as [found|] eqn:Ef.
      * apply find_some in Ef. destruct Ef as [Hin _].
        exists found. split; [reflexivity|]. split; [exact Hin|right; exact Hzero].
      * exists first. split; [reflexivity|].
        split; [left; reflexivity|right; exact Hzero].
    + apply sortByScore_head in Es. destruct Es as [Hbest Hmax].
      apply (proj1 (In_entries _ _)) in Hbest.
      exists best. split; [reflexivity|]. split.
      * destruct (H1 _ _ Hbest) as [[H _]|[]]. exact H.
      * left. exists (S n). split; [exact Hbest|]. split; [lia|].
        intros t0 s Hin. apply (Hmax t0 s). apply (proj2 (In_entries _ _)). exact Hin.
  - reflexivity.
Qed.

Lemma processQuery_untouched (req : request) (log : list dbCall) :
  truthy (orElseStr (query req) (userQuery req)) = false \/ truthy (tableName req) = true ->
  snd (processQuery db req log) = log.
Proof.
  unfold processQuery.
  destruct (orElseStr (query req) (userQuery req)) as [[|c t]|];
    destruct (tableName req) as [[|c' t']|]; cbn [truthy];
    intros [H|H]; try discriminate H; reflexivity.
Qed.

Lemma processQuery_reads (req : request) (log : list dbCall) :
  truthy (orElseStr (query req) (userQuery req)) = true ->
  truthy (tableName req) = false ->
  exists new, snd (processQuery db req log) = log ++ ListTables :: new.
Proof.
  intros Hq Ht.
  destruct (orElseStr (query req) (userQuery req)) as [[|c t]|] eqn:E; try discriminate Hq.
  pose proof (processQuery_consults req (c :: t) log E ltac:(discriminate) Ht _ eq_refl) as H.
  destruct (tables db) as [[|first [|second others]]|m].
  - destruct H as [message ->]. exists []. reflexivity.
  - rewrite H. exists []. reflexivity.
  - destruct (scoring_run (c :: t) (first :: second :: others) [] (log ++ [ListTables]))
      as [[new Hnew] _].
    destruct (forEachIO (scoreTable db (c :: t)) (first :: second :: others) []
                (log ++ [ListTables])) as [[scores|m] log1]; cbn [snd] in Hnew.
    + destruct H as (_ & _ & best & -> & _). cbn [snd]. exists new. rewrite Hnew, <- app_assoc. reflexivity.
    + rewrite H. cbn [snd]. exists new. rewrite Hnew, <- app_assoc. reflexivity.
  - rewrite H. exists []. reflexivity.
Qed.

End WithStore.

End SelectFacts.

Module NameFacts.
Import JS Vocabulary Notions JSFacts NumberFacts DecimalFacts MatchFacts ScanFacts ColumnFacts.
Import Host.

(** *** the global replacement of the characters of a class *)

Lemma matchAt_cls (p : ascii -> bool) (l : str) (c : ascii) (t : str) :
  matchAt (Cls p) l (c :: t) = if p c then Some (at_ (c :: l) t []) else None.
Proof. unfold matchAt. cbn [run rest]. destruct (p c); reflexivity. Qed.

Lemma matchAt_cls_nil (p : ascii -> bool) (l : str) : matchAt (Cls p) l [] = None.
Proof. reflexivity. Qed.

Lemma scan_cls (p : ascii -> bool) (x : str) :
  forall s l, scan (Cls p) (fun _ => x) l s = flat_map (fun c => if p c then x else [c]) s.
Proof.
  induction s as [|c s IH]; intros l.
  - apply scan_nil, matchAt_cls_nil.
  - cbn [flat_map]. destruct (p c) eqn:E.
    + assert (Hm : matchAt (Cls p) l ([c] ++ s) = Some (at_ (rev [c] ++ l) s [])).
      { cbn [app rev]. rewrite matchAt_cls, E. reflexivity. }
      change (c :: s) with ([c] ++ s).
      rewrite (scan_hit (Cls p) (fun _ => x) l [c] s [] ltac:(discriminate) Hm).
      f_equal. apply IH.
    + rewrite scan_miss by (rewrite matchAt_cls, E; reflexivity).
      cbn [app]. f_equal. apply IH.
Qed.

Lemma replaceAll_cls (p : ascii -> bool) (x : str) (s : str) :
  forallb (fun c => negb (code c =? 36)) x = true ->
  replaceAll (Cls p) (subst 0 x) s = flat_map (fun c => if p c then x else [c]) s.
Proof.
  intros Hx. rewrite replaceAll_scan, <- (scan_cls p x s []). apply scan_ext.
  intros m. apply subst_plain, Hx.
Qed.

Lemma replaceAll_cls_char (p : ascii -> bool) (x : ascii) (s : str) :
  negb (code x =? 36) = true ->
  replaceAll (Cls p) (subst 0 [x]) s = map (fun c => if p c then x else c) s.
Proof.
  intros Hx. rewrite replaceAll_cls by (cbn [forallb]; rewrite Hx; reflexivity).
  induction s as [|c s IH]; [reflexivity|]. cbn [flat_map map]. rewrite IH.
  destruct (p c); reflexivity.
Qed.

Lemma replaceAll_cls_drop (p : ascii -> bool) (s : str) :
  replaceAll (Cls p) (subst 0 []) s = filter (fun c => negb (p c)) s.
Proof.
  rewrite replaceAll_cls by reflexivity.
  induction s as [|c s IH]; [reflexivity|]. cbn [flat_map filter]. rewrite IH.
  destruct (p c); reflexivity.
Qed.

(** *** the derived table name *)

Lemma defaultTableName_map (originalname : str) :
  UploadController.defaultTableName originalname
  = map (fun c => if nameChar c then c else chr "_")
      (toLowerCase (splitHead (chr ".") originalname)).
Proof.
  unfold UploadController.defaultTableName, pipe, UploadController.notNameCharRe.
  rewrite (replaceAll_cls_char _ (chr "_")) by reflexivity.
  apply map_ext. intros c. unfold nameChar.
  destruct (isLowerAlpha c || isDigit c || (code c =? 95)); reflexivity.
Qed.

Lemma nameChar_lower (c : ascii) : implb (nameChar c) (ceq (lowerChar c) c) = true.
Proof. each_char c. Qed.

Lemma nameChar_not_dot (c : ascii) : implb (nameChar c) (negb (ceq c (chr "."))) = true.
Proof. each_char c. Qed.

Lemma splitHead_clean (s : str) : forallb nameChar s = true -> splitHead (chr ".") s = s.
Proof.
  induction s as [|c s IH]; [reflexivity|]. cbn [forallb splitHead]. intros H.
  apply andb_true_iff in H. destruct H as [Hc Hs].
  pose proof (nameChar_not_dot c) as Hd. rewrite Hc in Hd. cbn [implb] in Hd.
  apply negb_true_iff in Hd. rewrite Hd. f_equal. apply IH, Hs.
Qed.

Lemma defaultTableName_clean (s : str) :
  forallb nameChar s = true -> UploadController.defaultTableName s = s.
Proof.
  intros H. rewrite defaultTableName_map, (splitHead_clean s H).
  unfold toLowerCase. rewrite map_map.
  rewrite <- (map_id s) at 2. apply map_ext_in. intros c Hc.
  rewrite forallb_forall in H. specialize (H c Hc).
  pose proof (nameChar_lower c) as Hl. rewrite H in Hl. cbn [implb] in Hl.
  apply ceq_eq in Hl. rewrite Hl, H. reflexivity.
Qed.

Lemma defaultTableName_chars (originalname : str) :
  forallb nameChar (UploadController.defaultTableName originalname) = true.
Proof.
  rewrite defaultTableName_map. apply forallb_forall. intros c Hc.
  apply in_map_iff in Hc. destruct Hc as (x & <- & _).
  destruct (nameChar x) eqn:E; [exact E|reflexivity].
Qed.

(** *** the sanitized column names *)

Lemma sanitize_map (col : parsedColumn) :
  name (Db.sanitize col) = map (fun c => if safeChar c then c else chr "_") (name col).
Proof.
  unfold Db.sanitize, Db.unsafeCharRe. cbn [name].
  rewrite (replaceAll_cls_char _ (chr "_")) by reflexivity.
  apply map_ext. intros c. unfold safeChar. destruct (isWord c || isSpace c); reflexivity.
Qed.

Lemma sanitize_safe (col : parsedColumn) : forallb safeChar (name (Db.sanitize col)) = true.
Proof.
  rewrite sanitize_map. apply forallb_forall. intros c Hc.
  apply in_map_iff in Hc. destruct Hc as (x & <- & _).
  destruct (safeChar x) eqn:E; [exact E|reflexivity].
Qed.

Lemma sanitize_same (col : parsedColumn) :
  name (Db.sanitize col) = name col <-> forallb safeChar (name col) = true.
Proof.
  split.
  - intros H. rewrite <- H. apply sanitize_safe.
  - intros H. rewrite sanitize_map. rewrite <- (map_id (name col)) at 2.
    apply map_ext_in. intros c Hc. rewrite forallb_forall in H. rewrite (H c Hc). reflexivity.
Qed.

Lemma safeChar_not_dq : safeChar dq = false.
Proof. reflexivity. Qed.

(** *** the stored values *)

Lemma clean_numeric (col : parsedColumn) (c : ascii) (s : str) :
  streq (type col) "NUMERIC" = true ->
  UploadController.convertValue col (JString (c :: s))
  = JString (filter (fun x => negb (currencyChar x)) (c :: s)).
Proof.
  intros H. unfold UploadController.convertValue. rewrite H.
  unfold UploadController.currencyCharRe. rewrite replaceAll_cls_drop. reflexivity.
Qed.

Lemma trimStart_same (s : str) (c : ascii) (t : str) :
  s = c :: t -> isSpace c = false -> trimStart s = s.
Proof. intros -> H. cbn [trimStart]. rewrite H. reflexivity. Qed.

Lemma takeWhile_app_digits (ip rest : str) :
  forallb isDigit ip = true ->
  match rest with c :: _ => isDigit c = false | [] => True end ->
  takeWhile isDigit (ip ++ rest) = ip.
Proof.
  intros Hip Hrest. induction ip as [|d ip IH]; cbn [app takeWhile].
  - destruct rest as [|c r]; [reflexivity|]. cbn [takeWhile]. rewrite Hrest. reflexivity.
  - cbn [forallb] in Hip. apply andb_true_iff in Hip. destruct Hip as [Hd Hip].
    rewrite Hd. f_equal. apply IH, Hip.
Qed.

Lemma digit_plain (c : ascii) :
  implb (isDigit c) (negb (code c =? 45) && negb (code c =? 43) && negb (isSpace c)) = true.
Proof. each_char c. Qed.

Lemma parseInt10_decimal (neg : bool) (ip : str) (fp : option str) :
  digitString ip = true ->
  parseInt10 (signText neg ++ ip ++ fractionText fp)
  = match nearestDouble (decimalValue ip) with
    | Some v => Decimal neg v 0
    | None => Infinite neg
    end.
Proof.
  intros Hip. pose proof (digitString_inv ip Hip) as (d & t & Eip & Hd & Ht).
  pose proof (digitString_forallb ip Hip) as Hall.
  assert (Htake : takeWhile isDigit (ip ++ fractionText fp) = ip).
  { apply takeWhile_app_digits; [exact Hall|]. destruct fp; cbn; [reflexivity|exact I]. }
  pose proof (digit_plain d) as Hp. rewrite Hd in Hp. cbn [implb] in Hp.
  apply andb_true_iff in Hp. destruct Hp as [Hp Hsp].
  apply andb_true_iff in Hp. destruct Hp as [H45 H43].
  apply negb_true_iff in H45, H43, Hsp.
  unfold parseInt10. destruct neg; cbn [signText app].
  - cbn [trimStart]. change (isSpace (chr "-")) with false. cbv iota.
    change (code (chr "-") =? 45) with true. cbv iota beta.
    rewrite Htake. rewrite Eip at 1. reflexivity.
  - rewrite (trimStart_same (ip ++ fractionText fp) d (t ++ fractionText fp));
      [|rewrite Eip; reflexivity|exact Hsp].
    rewrite Eip at 1. cbn [app]. rewrite H45, H43.
    rewrite Htake. rewrite Eip at 1. reflexivity.
Qed.

(** the integers up to 2^53 are doubles *)
Lemma nearestDouble_exact (z : Z) : (0 <= z <= 2 ^ 53)%Z -> nearestDouble z = Some z.
Proof.
  intros [H0 H53]. unfold nearestDouble.
  destruct (Z.eq_dec z (2 ^ 53)) as [->|Hne]; [reflexivity|].
  assert (Hlog : (Z.log2 z < 53)%Z).
  { destruct (Z.eq_dec z 0) as [->|Hz]; [cbn; lia|].
    apply Z.log2_lt_pow2; lia. }
  destruct (Z.log2 z - 52 <=? 0)%Z eqn:E; [reflexivity|].
  apply Z.leb_gt in E. lia.
Qed.

(** above 2^53 the result is a multiple of the unit in the last place within
    half a unit of the integer *)
Lemma nearestDouble_near (z v : Z) :
  (2 ^ 53 < z)%Z -> nearestDouble z = Some v ->
  let ulp := (2 ^ (Z.log2 z - 52))%Z in
  (v mod ulp = 0 /\ 2 * Z.abs (v - z) <= ulp)%Z.
Proof.
  intros Hz. unfold nearestDouble.
  assert (Hlog : (53 <= Z.log2 z)%Z) by (apply Z.log2_le_pow2; lia).
  destruct (Z.log2 z - 52 <=? 0)%Z eqn:E; [apply Z.leb_le in E; lia|].
  set (e := (Z.log2 z - 52)%Z).
  assert (Hpos : (0 < 2 ^ e)%Z) by (apply Z.pow_pos_nonneg; lia).
  destruct (roundHalfEven z (2 ^ e) * 2 ^ e <? 2 ^ 1024)%Z; [|discriminate].
  intros H. injection H as <-. cbv zeta. split.
  - apply Z.mod_mul. lia.
  - unfold roundHalfEven.
    pose proof (Z.div_mod z (2 ^ e) ltac:(lia)) as Hdm.
    pose proof (Z.mod_pos_bound z (2 ^ e) Hpos) as Hr.
    set (q := (z / 2 ^ e)%Z) in *. set (r := (z mod 2 ^ e)%Z) in *.
    destruct (2 * r <? 2 ^ e)%Z eqn:E1; [apply Z.ltb_lt in E1; nia|].
    apply Z.ltb_ge in E1.
    destruct (2 ^ e <? 2 * r)%Z eqn:E2; [apply Z.ltb_lt in E2; nia|].
    apply Z.ltb_ge in E2. destruct (Z.even q); nia.
Qed.

End NameFacts.

Module UploadFacts.
Import JS Vocabulary Notions JSFacts.
Import Host.

(** *** computations and their calls *)

Lemma emits_ret {A} (P : event -> Prop) (a : A) : emits P (ret a).
Proof. intros log. exists []. cbn. rewrite app_nil_r. auto. Qed.

Lemma emits_throw {A} (P : event -> Prop) (m : str) : emits P (@throw A m).
Proof. intros log. exists []. cbn. rewrite app_nil_r. auto. Qed.

Lemma emits_perform {A} (P : event -> Prop) (e : event) (answer : list event -> completion A) :
  P e -> emits P (perform e answer).
Proof. intros He log. exists [e]. cbn. auto. Qed.

Lemma emits_bind {A B} (P : event -> Prop) (c : io A) (k : A -> io B) :
  emits P c -> (forall a, emits P (k a)) -> emits P (bindIO c k).
Proof.
  intros Hc Hk log. destruct (Hc log) as (new & Hs & Hall). unfold bindIO.
  destruct (c log) as [[a|m] log1]; cbn [snd] in Hs; subst log1.
  - destruct (Hk a (log ++ new)) as (new' & Hs' & Hall').
    exists (new ++ new'). rewrite Hs', app_assoc. split; [reflexivity|].
    apply Forall_app. auto.
  - exists new. auto.
Qed.

Lemma emits_tryCatch {A} (P : event -> Prop) (c : io A) (h : str -> io A) :
  emits P c -> (forall m, emits P (h m)) -> emits P (tryCatch c h).
Proof.
  intros Hc Hh log. destruct (Hc log) as (new & Hs & Hall). unfold tryCatch.
  destruct (c log) as [[a|m] log1]; cbn [snd] in Hs; subst log1.
  - exists new. auto.
  - destruct (Hh m (log ++ new)) as (new' & Hs' & Hall').
    exists (new ++ new'). rewrite Hs', app_assoc. split; [reflexivity|].
    apply Forall_app. auto.
Qed.

Lemma emits_weaken {A} (P Q : event -> Prop) (c : io A) :
  (forall e, P e -> Q e) -> emits P c -> emits Q c.
Proof.
  intros HPQ Hc log. destruct (Hc log) as (new & Hs & Hall). exists new.
  split; [exact Hs|]. eapply Forall_impl; [|exact Hall]. exact HPQ.
Qed.

Lemma perform_run {A} (e : event) (answer : list event -> completion A) (log : list event) :
  perform e answer log = (answer log, log ++ [e]).
Proof. reflexivity. Qed.

Section WithWorld.

Variable w : world.

(** *** utils/db.js *)

Lemma tableExists_run (tableName : str) (log : list event) :
  Db.tableExists w tableName log
  = (match poolQuery w log Db.tableExistsQuery [JString tableName] with
     | Normal (first :: _) => Normal (field first "exists")
     | Normal [] => Throw "Cannot read properties of undefined (reading 'exists')"
     | Throw m => Throw m
     end,
     log ++ [Query Db.tableExistsQuery [JString tableName]]).
Proof.
  unfold Db.tableExists, bindIO, Db.query, perform, ret, throw.
  destruct (poolQuery w log Db.tableExistsQuery [JString tableName]) as [[|first rows]|m];
    reflexivity.
Qed.

Lemma createTable_run (tableName : str) (columns : list parsedColumn) (log : list event) :
  Db.createTable w tableName columns log
  = match poolQuery w log Db.tableExistsQuery [JString tableName] with
    | Normal (_ :: _) =>
        (Normal match poolQuery w (log ++ [Query Db.tableExistsQuery [JString tableName]])
                        (createStatement tableName columns) [] with
                | Normal _ => true
                | Throw _ => false
                end,
         log ++ [Query Db.tableExistsQuery [JString tableName];
                 Query (createStatement tableName columns) []])
    | _ => (Normal false, log ++ [Query Db.tableExistsQuery [JString tableName]])
    end.
Proof.
  unfold Db.createTable, tryCatch, bindIO. rewrite tableExists_run.
  destruct (poolQuery w log Db.tableExistsQuery [JString tableName]) as [[|first rows]|m];
    try reflexivity.
  unfold Db.query, perform, ret. fold (createStatement tableName columns).
  destruct (poolQuery w _ (createStatement tableName columns) []);
    rewrite <- app_assoc; reflexivity.
Qed.

(** *** insertData *)

Lemma tally_total (tableName : str) (columns : list parsedColumn) (data : list row) :
  forall log, fst (tally w tableName columns data log) + snd (tally w tableName columns data log)
              = length data.
Proof.
  induction data as [|record data IH]; intros log; cbn [tally length]; [reflexivity|].
  specialize (IH (log ++ [insertEvent tableName columns record])).
  destruct (tally w tableName columns data (log ++ [insertEvent tableName columns record]))
    as [i k].
  cbn [fst snd] in IH. destruct (clientAnswer w log _); cbn [fst snd]; lia.
Qed.

Lemma insertRecord_run (tableName : str) (columns : list parsedColumn) (c : UploadController.counts)
  (record : row) (log : list event) :
  UploadController.insertRecord w tableName columns
    (join ", " (map (fun col => quoted (name col)) columns)) c record log
  = (match clientAnswer w log (insertEvent tableName columns record) with
     | Normal _ => (fst c + 1, snd c)
     | Throw _ => (fst c, snd c + 1)
     end, log ++ [insertEvent tableName columns record]).
Proof.
  unfold UploadController.insertRecord, perform, insertEvent, clientAnswer. destruct c as [i e].
  destruct (clientQuery w log _ _); reflexivity.
Qed.

Lemma insertRecords_run (tableName : str) (columns : list parsedColumn) (batch : list row) :
  forall (c : UploadController.counts) (log : list event),
    UploadController.insertRecords w tableName columns
      (join ", " (map (fun col => quoted (name col)) columns)) batch c log
    = ((fst c + fst (tally w tableName columns batch log),
        snd c + snd (tally w tableName columns batch log)),
       log ++ map (insertEvent tableName columns) batch).
Proof.
  induction batch as [|record batch IH]; intros c log;
    cbn [UploadController.insertRecords map tally].
  - rewrite app_nil_r, !Nat.add_0_r. destruct c; reflexivity.
  - rewrite insertRecord_run. rewrite IH. rewrite <- app_assoc. cbn [app].
    destruct (tally w tableName columns batch (log ++ [insertEvent tableName columns record]))
      as [i k].
    destruct (clientAnswer w log (insertEvent tableName columns record));
      cbn [fst snd]; f_equal; f_equal; lia.
Qed.

Lemma insertRecords_app (tableName : str) (columns : list parsedColumn) (cn : str)
  (a b : list row) :
  forall (c : UploadController.counts) (log : list event),
  UploadController.insertRecords w tableName columns cn (a ++ b) c log
  = let '(c1, log1) := UploadController.insertRecords w tableName columns cn a c log in
    UploadController.insertRecords w tableName columns cn b c1 log1.
Proof.
  induction a as [|record a IH]; intros c log; cbn [app UploadController.insertRecords].
  - reflexivity.
  - destruct (UploadController.insertRecord w tableName columns cn c record log) as [c1 log1].
    apply IH.
Qed.

(** the batches are not seen: the records are taken one after the other *)
Lemma insertBatches_flat (tableName : str) (columns : list parsedColumn) (data : list row) :
  forall (fuel i : nat) (c : UploadController.counts) (log : list event),
  length data - i <= fuel ->
  UploadController.insertBatches w fuel tableName columns data i c log
  = UploadController.insertRecords w tableName columns
      (join ", " (map (fun col => quoted (name col)) columns)) (skipn i data) c log.
Proof.
  induction fuel as [|fuel IH]; intros i c log Hfuel; cbn [UploadController.insertBatches].
  - rewrite skipn_all2 by lia. reflexivity.
  - destruct (i <? length data) eqn:E.
    + apply Nat.ltb_lt in E.
      rewrite <- (firstn_skipn 100 (skipn i data)) at 2.
      rewrite insertRecords_app.
      destruct (UploadController.insertRecords w tableName columns _
                  (firstn 100 (skipn i data)) c log) as [c1 log1].
      rewrite IH by lia. rewrite skipn_skipn. rewrite (Nat.add_comm 100 i). reflexivity.
    + apply Nat.ltb_ge in E. rewrite skipn_all2 by lia. reflexivity.
Qed.

Lemma insertData_run (tableName : str) (columns : list parsedColumn) (data : list row)
  (log : list event) :
  UploadController.insertData w tableName columns data log
  = match poolConnect w log with
    | Throw m => (Throw m, log ++ [Connect])
    | Normal _ =>
        match clientQuery w (log ++ [Connect]) "BEGIN" [] with
        | Throw _ =>
            (match clientQuery w (begun log) "ROLLBACK" [] with
             | Normal _ => Normal (0, 0)
             | Throw m => Throw m
             end,
             begun log ++ [ClientQuery "ROLLBACK" []; Release])
        | Normal _ =>
            match clientQuery w (inserted tableName columns data log) "COMMIT" [] with
            | Normal _ =>
                (Normal (tally w tableName columns data (begun log)),
                 inserted tableName columns data log ++ [ClientQuery "COMMIT" []; Release])
            | Throw _ =>
                (match clientQuery w (inserted tableName columns data log
                                        ++ [ClientQuery "COMMIT" []]) "ROLLBACK" [] with
                 | Normal _ => Normal (tally w tableName columns data (begun log))
                 | Throw m => Throw m
                 end,
                 inserted tableName columns data log
                 ++ [ClientQuery "COMMIT" []; ClientQuery "ROLLBACK" []; Release])
            end
        end
    end.
Proof.
  unfold UploadController.insertData. rewrite perform_run.
  destruct (poolConnect w log) as [u|m]; [|reflexivity].
  cbv beta iota zeta. rewrite perform_run. cbv beta.
  assert (Hb : (log ++ [Connect]) ++ [ClientQuery "BEGIN" []] = begun log)
    by (unfold begun; rewrite <- app_assoc; reflexivity).
  rewrite Hb.
  destruct (clientQuery w (log ++ [Connect]) "BEGIN" []) as [u1|m1]; cbv beta iota.
  - rewrite insertBatches_flat by lia. cbn [skipn].
    rewrite insertRecords_run. cbn [fst snd Nat.add]. fold (inserted tableName columns data log).
    cbv beta iota. rewrite perform_run. cbv beta.
    replace (fst (tally w tableName columns data (begun log)),
             snd (tally w tableName columns data (begun log)))
      with (tally w tableName columns data (begun log))
      by (destruct (tally w tableName columns data (begun log)); reflexivity).
    destruct (clientQuery w (inserted tableName columns data log) "COMMIT" []); cbv beta iota.
    + cbn [fst snd]. rewrite <- app_assoc. reflexivity.
    + rewrite perform_run. cbv beta.
      destruct (clientQuery w (inserted tableName columns data log ++ [ClientQuery "COMMIT" []])
                  "ROLLBACK" []); cbv beta iota; cbn [fst snd];
        rewrite <- !app_assoc; reflexivity.
  - rewrite perform_run. cbv beta.
    destruct (clientQuery w (begun log) "ROLLBACK" []); cbv beta iota; cbn [fst snd];
      rewrite <- !app_assoc; reflexivity.
Qed.

Lemma insertEvent_quiet (tableName : str) (columns : list parsedColumn) (record : row) :
  onClient (insertEvent tableName columns record) = true
  /\ isDrop (insertEvent tableName columns record) = false.
Proof. split; reflexivity. Qed.

Lemma emits_insertData (tableName : str) (columns : list parsedColumn) (data : list row) :
  emits (fun e => onClient e = true /\ isDrop e = false)
    (UploadController.insertData w tableName columns data).
Proof.
  intros log. rewrite insertData_run.
  assert (Hins : Forall (fun e => onClient e = true /\ isDrop e = false)
                   (map (insertEvent tableName columns) data)).
  { apply Forall_forall. intros e He. apply in_map_iff in He.
    destruct He as (record & <- & _). apply insertEvent_quiet. }
  unfold inserted, begun.
  destruct (poolConnect w log) as [u|m].
  - destruct (clientQuery w (log ++ [Connect]) "BEGIN" []).
    + destruct (clientQuery w _ "COMMIT" []); cbn [snd]; rewrite <- !app_assoc;
        (eexists; split; [reflexivity|]);
        (apply Forall_app; split; [repeat constructor|]);
        (apply Forall_app; split; [exact Hins|repeat constructor]).
    + cbn [snd]. rewrite <- !app_assoc. eexists. split; [reflexivity|]. repeat constructor.
  - cbn [snd]. eexists. split; [reflexivity|]. repeat constructor.
Qed.

Lemma emits_tableExists (P : event -> Prop) (tableName : str) :
  P (Query Db.tableExistsQuery [JString tableName]) -> emits P (Db.tableExists w tableName).
Proof.
  intros HP log. rewrite tableExists_run. eexists. split; [reflexivity|]. auto.
Qed.

Lemma emits_createTable (tableName : str) (columns : list parsedColumn) :
  emits (fun e => isDrop e = false /\ isUnlink e = false) (Db.createTable w tableName columns).
Proof.
  intros log. rewrite createTable_run.
  destruct (poolQuery w log Db.tableExistsQuery [JString tableName]) as [[|first rows]|m];
    eexists; (split; [reflexivity|]); repeat constructor.
Qed.

(** *** uploadFile *)

Lemma tidy_bind {A B} (path : str) (c : io A) (k : A -> io B) :
  emits (fun e => isUnlink e = false) c -> (forall a, tidy path (k a)) ->
  tidy path (bindIO c k).
Proof.
  intros Hc Hk log. destruct (Hc log) as (new & Hs & Hall). unfold bindIO.
  destruct (c log) as [[a|m] log1]; cbn [snd] in Hs; subst log1.
  - destruct (Hk a (log ++ new)) as [(r & pre & -> & Hpre)|(m & pre & -> & Hpre)].
    + left. exists r, (new ++ pre). rewrite <- !app_assoc. split; [reflexivity|].
      apply Forall_app. auto.
    + right. exists m, (new ++ pre). rewrite <- !app_assoc. split; [reflexivity|].
      apply Forall_app. auto.
  - right. exists m, new. auto.
Qed.

Hypothesis unlink_succeeds : forall log path, unlinkSync w log path = Normal tt.

Lemma tidy_finish {A} (path : str) (r : A) :
  tidy path (bindIO (UploadController.unlink w path) (fun _ => ret r)).
Proof.
  intros log. left. exists r, []. unfold bindIO, UploadController.unlink, perform, ret.
  rewrite unlink_succeeds. cbn [app]. auto.
Qed.

Lemma tidy_caught {A} (path : str) (body : io A) (h : str -> A) :
  tidy path body ->
  forall log,
  exists r pre,
    tryCatch body (fun error => bindIO (UploadController.unlink w path) (fun _ => ret (h error))) log
    = (Normal r, log ++ pre ++ [Unlink path])
    /\ Forall (fun e => isUnlink e = false) pre.
Proof.
  intros Hb log. unfold tryCatch.
  destruct (Hb log) as [(r & pre & -> & Hpre)|(m & pre & -> & Hpre)].
  - exists r, pre. auto.
  - exists (h m), pre. unfold bindIO, UploadController.unlink, perform, ret.
    rewrite unlink_succeeds. rewrite <- app_assoc. auto.
Qed.

Lemma client_not_unlink (e : event) : onClient e = true /\ isDrop e = false -> isUnlink e = false.
Proof. intros [H _]. destruct e; try reflexivity; discriminate H. Qed.

(** the steps after the existence check and the optional DROP *)
Lemma emits_dropTable (P : event -> Prop) (tableName : str) :
  P (Query ("DROP TABLE IF EXISTS " +++ tableName) []) ->
  emits P (UploadController.dropTable w tableName).
Proof.
  intros HP. unfold UploadController.dropTable. apply emits_bind.
  - unfold Db.query. apply emits_perform. exact HP.
  - intros a. apply emits_ret.
Qed.

Lemma uploadFile_tidy (req : UploadController.uploadRequest) (f : UploadController.uploadedFile)
  (log : list event) :
  UploadController.file req = Some f ->
  isEmpty (UploadController.path f) = false ->
  exists r pre,
    UploadController.uploadFile w req log
    = (Normal r, log ++ pre ++ [Unlink (UploadController.path f)])
    /\ Forall (fun e => isUnlink e = false) pre.
Proof.
  intros Hfile Hpath. unfold UploadController.uploadFile. rewrite Hfile, Hpath.
  cbn [negb]. cbv zeta.
  apply (tidy_caught (UploadController.path f) _ (fun error => UploadController.Failure 500 error)).
  apply tidy_bind; [apply emits_tableExists; reflexivity|]. intros exists_.
  match goal with |- tidy _ (if ?b then _ else _) => destruct b end; [apply tidy_finish|].
  apply tidy_bind.
  { match goal with |- emits _ (if ?b then _ else _) => destruct b end;
      [apply emits_dropTable; reflexivity|apply emits_ret]. }
  intros _. apply tidy_bind; [apply emits_perform; reflexivity|]. intros p.
  match goal with |- tidy _ (if ?b then _ else _) => destruct b end; [apply tidy_finish|].
  apply tidy_bind.
  { eapply emits_weaken; [|apply emits_createTable]. intros e [_ H]. exact H. }
  intros tableCreated. destruct tableCreated; cbn [negb]; [|apply tidy_finish].
  apply tidy_bind.
  { eapply emits_weaken; [|apply emits_insertData]. exact client_not_unlink. }
  intros [insertCount errorCount]. apply tidy_finish.
Qed.

End WithWorld.

(** without the overwrite option no statement of the upload is a DROP *)
Lemma uploadFile_keeps (w : world) (req : UploadController.uploadRequest) :
  UploadController.overwriteRequested (UploadController.overwrite req) = false ->
  emits (fun e => isDrop e = false) (UploadController.uploadFile w req).
Proof.
  intros Hover. unfold UploadController.uploadFile. rewrite Hover.
  assert (Hunlink : forall path (r : UploadController.response),
             emits (fun e => isDrop e = false)
               (bindIO (UploadController.unlink w path) (fun _ => ret r))).
  { intros path r. apply emits_bind; [apply emits_perform; reflexivity|].
    intros _. apply emits_ret. }
  apply emits_tryCatch.
  - destruct (UploadController.file req) as [f|]; [|apply emits_ret]. cbv zeta.
    apply emits_bind; [apply emits_tableExists; reflexivity|]. intros exists_.
    rewrite andb_false_r. cbn [negb]. rewrite andb_true_r.
    destruct (truthyVal exists_); [apply Hunlink|].
    apply emits_bind; [apply emits_ret|]. intros _.
    apply emits_bind; [apply emits_perform; reflexivity|]. intros p.
    match goal with |- emits _ (if ?b then _ else _) => destruct b end; [apply Hunlink|].
    apply emits_bind.
    { eapply emits_weaken; [|apply emits_createTable]. intros e [H _]. exact H. }
    intros tableCreated. destruct tableCreated; cbn [negb]; [|apply Hunlink].
    apply emits_bind.
    { eapply emits_weaken; [|apply emits_insertData]. intros e [_ H]. exact H. }
    intros [insertCount errorCount]. apply Hunlink.
  - intros m. apply emits_bind; [|intros _; apply emits_ret].
    destruct (UploadController.file req) as [f|]; [|apply emits_ret].
    destruct (negb (isEmpty (UploadController.path f))); [|apply emits_ret].
    apply emits_perform. reflexivity.
Qed.

End UploadFacts.

(* ================================================================== *)
(** * Further properties of the code                                   *)
(* ================================================================== *)

Import JS Vocabulary Notions Examples Samples.

(** ** The parser: inferDataType *)

(** X1.  A column whose cells are all null, undefined or the empty string is
    typed TEXT, whatever its name: the name hints are only looked at when a
    value is left after the blank cells are filtered out. *)
Theorem inferDataType_blank_column
  (dateParses : str -> bool) (values : list Parser.value) (columnName : str)
  (Hblank : Forall blank values) :
  Parser.inferDataType dateParses values columnName = Parser.TEXT.
Proof.
  rewrite TypeFacts.inferDataType_cases. cbv zeta.
  rewrite (TypeFacts.validValues_blank values Hblank). reflexivity.
Qed.

Lemma inferDataType_blank_column_witness :
  Parser.inferDataType everyDate blankColumn "total_price_date" = Parser.TEXT.
Proof.
  apply (inferDataType_blank_column everyDate blankColumn "total_price_date").
  unfold blankColumn. repeat (apply Forall_cons; [unfold blank; auto|]). apply Forall_nil.
Defined.

(** X2.  inferDataType answers DATE exactly when the column has a non-blank
    value, the name-hint rule for numbers does not fire, and every non-blank
    value passes isValidDate.  The name hints date, time, day, month and year
    make no difference: both branches of that test return DATE. *)
Theorem inferDataType_date_iff
  (dateParses : str -> bool) (values : list Parser.value) (columnName : str) :
  Parser.inferDataType dateParses values columnName = Parser.DATE
  <-> Parser.validValues values <> []
      /\ ~ numericByName values columnName
      /\ Forall (fun v => Parser.isValidDate dateParses v = true) (Parser.validValues values).
Proof.
  rewrite TypeFacts.inferDataType_cases. cbv zeta. unfold numericByName.
  destruct (Parser.validValues values) as [|v valid] eqn:Ev.
  - split; [discriminate|]. intros (H & _). congruence.
  - set (l := v :: valid) in *.
    destruct (Parser.likelyNumericColumn (toLowerCase columnName)
              && (7 * length l <=? 10 * Parser.count Parser.looksNumeric l)) eqn:Ename.
    + split; [discriminate|]. intros (_ & Hn & _). exfalso. apply Hn.
      apply andb_true_iff in Ename. destruct Ename as [H1 H2]. apply Nat.leb_le in H2. auto.
    + assert (Hn : ~ (Parser.likelyNumericColumn (toLowerCase columnName) = true
                      /\ 7 * length l <= 10 * Parser.count Parser.looksNumeric l)).
      { intros [H1 H2]. apply Nat.leb_le in H2. rewrite H1, H2 in Ename. discriminate. }
      destruct (forallb (Parser.isValidDate dateParses) l) eqn:Ed.
      * split; [|reflexivity]. intros _. split; [discriminate|]. split; [exact Hn|].
        apply Forall_forall. intros x Hx. exact (proj1 (forallb_forall _ _) Ed x Hx).
      * split.
        -- repeat match goal with
                  | |- context [if ?b then _ else _] => destruct b
                  end; discriminate.
        -- intros (_ & _ & Hall). exfalso.
           assert (forallb (Parser.isValidDate dateParses) l = true)
             by (apply forallb_forall; intros x Hx;
                 exact (proj1 (Forall_forall _ _) Hall x Hx)).
           congruence.
Qed.

(** X3.  inferDataType answers INTEGER exactly when the column has a
    non-blank value, the name-hint rule for numbers does not fire, some
    non-blank value fails isValidDate, and every non-blank value converts to
    an integral number. *)
Theorem inferDataType_integer_iff
  (dateParses : str -> bool) (values : list Parser.value) (columnName : str) :
  Parser.inferDataType dateParses values columnName = Parser.INTEGER
  <-> Parser.validValues values <> []
      /\ ~ numericByName values columnName
      /\ ~ Forall (fun v => Parser.isValidDate dateParses v = true) (Parser.validValues values)
      /\ Forall (fun v => numberIsInteger (Number v) = true) (Parser.validValues values).
Proof.
  rewrite TypeFacts.inferDataType_cases. cbv zeta. unfold numericByName.
  destruct (Parser.validValues values) as [|v valid] eqn:Ev.
  - split; [discriminate|]. intros (H & _). congruence.
  - set (l := v :: valid) in *.
    destruct (Parser.likelyNumericColumn (toLowerCase columnName)
              && (7 * length l <=? 10 * Parser.count Parser.looksNumeric l)) eqn:Ename.
    + split; [discriminate|]. intros (_ & Hn & _). exfalso. apply Hn.
      apply andb_true_iff in Ename. destruct Ename as [H1 H2]. apply Nat.leb_le in H2. auto.
    + assert (Hn : ~ (Parser.likelyNumericColumn (toLowerCase columnName) = true
                      /\ 7 * length l <= 10 * Parser.count Parser.looksNumeric l)).
      { intros [H1 H2]. apply Nat.leb_le in H2. rewrite H1, H2 in Ename. discriminate. }
      destruct (forallb (Parser.isValidDate dateParses) l) eqn:Ed.
      * split; [discriminate|]. intros (_ & _ & Hd & _). exfalso. apply Hd.
        apply Forall_forall. intros x Hx. exact (proj1 (forallb_forall _ _) Ed x Hx).
      * assert (Hd : ~ Forall (fun v => Parser.isValidDate dateParses v = true) l).
        { intros Hall.
          assert (forallb (Parser.isValidDate dateParses) l = true)
            by (apply forallb_forall; intros x Hx;
                exact (proj1 (Forall_forall _ _) Hall x Hx)).
          congruence. }
        destruct (forallb (fun v => numberIsInteger (Number v)) l) eqn:Ei.
        -- assert (Hnum : forallb (fun v => negb (isNaN (Number v))) l = true).
           { apply forallb_forall. intros x Hx.
             pose proof (proj1 (forallb_forall _ _) Ei x Hx) as Hx'. cbv beta in Hx'.
             destruct (Number x); [discriminate Hx'|reflexivity|reflexivity]. }
           rewrite Hnum. split; [|reflexivity]. intros _.
           split; [discriminate|]. split; [exact Hn|]. split; [exact Hd|].
           apply Forall_forall. intros x Hx. exact (proj1 (forallb_forall _ _) Ei x Hx).
        -- split.
           ++ destruct (forallb (fun v => negb (isNaN (Number v))) l); discriminate.
           ++ intros (_ & _ & _ & Hall). exfalso.
              assert (forallb (fun v => numberIsInteger (Number v)) l = true)
                by (apply forallb_forall; intros x Hx;
                    exact (proj1 (Forall_forall _ _) Hall x Hx)).
              congruence.
Qed.

(** ** utils/openai.js *)

(** X4.  validateAndAdaptSchema fails in two ways only: on a schema that is
    not an array, and with the message Column name is required on an array
    with a column that has neither a column_name nor a name.  The message
    Column type is required is never produced, because a missing type has
    been replaced by text before the test.  On success the schema is the
    normalized one, each column with a name and a type. *)
Theorem validateAndAdaptSchema_outcomes (tableSchema : option (list OpenAI.column)) :
  match OpenAI.validateAndAdaptSchema tableSchema with
  | Normal v =>
      exists cols,
        tableSchema = Some cols /\ forallb named cols = true
        /\ OpenAI.schema v = map OpenAI.normalize cols
        /\ Forall (fun c => truthy (OpenAI.name c) = true /\ truthy (OpenAI.type c) = true)
             (OpenAI.schema v)
  | Throw message =>
      (tableSchema = None /\ message = lit "Schema must be an array of column definitions")
      \/ (exists cols, tableSchema = Some cols /\ forallb named cols = false
                       /\ message = lit "Column name is required")
  end.
Proof.
  destruct (OpenAI.validateAndAdaptSchema tableSchema) as [v|message] eqn:E.
  - destruct (SchemaFacts.validateAndAdaptSchema_inv tableSchema v E) as (cols & -> & Hn & Hs).
    exists cols. split; [reflexivity|]. split; [exact Hn|]. split; [exact Hs|].
    rewrite Hs. apply SchemaFacts.normalized_named, Hn.
  - destruct tableSchema as [cols|].
    + right. exists cols. split; [reflexivity|].
      destruct (forallb named cols) eqn:Hn.
      * destruct (SchemaFacts.validateAndAdaptSchema_normal cols Hn) as (v & Hv & _).
        rewrite Hv in E. discriminate E.
      * rewrite (SchemaFacts.validateAndAdaptSchema_throws cols Hn) in E.
        split; [reflexivity|]. injection E as <-. reflexivity.
    + left. cbn in E. split; [reflexivity|]. injection E as <-. reflexivity.
Qed.

(** X5.  detectQueryType fails only with the error of the schema validation.
    Otherwise its answer is never empty, lists no intent twice, and contains
    general only as the single element of the list. *)
Theorem detectQueryType_answer (query : str) (tableSchema : option (list OpenAI.column)) :
  match OpenAI.detectQueryType query tableSchema with
  | Normal types =>
      types <> [] /\ NoDup types /\ (In OpenAI.general types -> types = [OpenAI.general])
  | Throw message => OpenAI.validateAndAdaptSchema tableSchema = Throw message
  end.
Proof.
  destruct (OpenAI.detectQueryType query tableSchema) as [types|message] eqn:E.
  - destruct (SchemaFacts.detectQueryType_inv query tableSchema types E) as (v & Hv & H).
    cbv zeta in H. destruct H as [[Hne ->]|[_ ->]].
    + split; [exact Hne|]. split.
      * apply SchemaFacts.NoDup_detect_fold. constructor.
      * intros Hin. exfalso. exact (SchemaFacts.general_not_found _ _ Hin).
    + split; [discriminate|]. split; [|reflexivity].
      constructor; [intros []|constructor].
  - destruct (OpenAI.validateAndAdaptSchema tableSchema) as [v|m] eqn:Ev.
    + destruct (SchemaFacts.detectQueryType_total query tableSchema v Ev) as (types & Ht).
      rewrite Ht in E. discriminate E.
    + unfold OpenAI.detectQueryType in E. rewrite Ev in E. cbn in E. congruence.
Qed.

(** X6.  getSqlTemplate returns null exactly when no requested intent has
    hints, that is when every requested intent is general; so for the answer
    of detectQueryType it is null exactly when the answer is [general]. *)
Theorem getSqlTemplate_null_iff (queryTypes : list OpenAI.queryType) :
  (OpenAI.getSqlTemplate queryTypes = None <-> Forall (fun t => t = OpenAI.general) queryTypes)
  /\ forall query tableSchema,
       OpenAI.detectQueryType query tableSchema = Normal queryTypes ->
       (OpenAI.getSqlTemplate queryTypes = None <-> queryTypes = [OpenAI.general]).
Proof.
  split; [apply SchemaFacts.getSqlTemplate_none|].
  intros query tableSchema E.
  destruct (SchemaFacts.detectQueryType_inv query tableSchema queryTypes E) as (v & Hv & H).
  cbv zeta in H. rewrite SchemaFacts.getSqlTemplate_none. split.
  - intros Hall. destruct H as [[Hne ->]|[_ ->]]; [|reflexivity]. exfalso.
    destruct (fold_left _ OpenAI.QUERY_PATTERNS []) as [|t found] eqn:Ef; [congruence|].
    apply (SchemaFacts.general_not_found (toLowerCase query) v). rewrite Ef.
    left. exact (Forall_inv Hall).
  - intros ->. constructor; [reflexivity|constructor].
Qed.

(** X7.  A statement returned by generateSQL has passed the final
    validation: its lower-cased text contains select and from, none of the
    three injection patterns matches it, its double quotes are even in number
    and it has as many opening as closing parentheses.  generateSQL throws
    only the error of the schema validation or the message Invalid SQL
    generated with the errors of the final validation; the repair steps never
    throw on a validated schema. *)
Theorem generateSQL_result
  (RegExp : str -> completion re) (query : str) (tableSchema : option (list OpenAI.column))
  (tableName content : str) :
  match OpenAI.generateSQL RegExp query tableSchema tableName content with
  | Normal sql =>
      includes (toLowerCase sql) "select" = true
      /\ includes (toLowerCase sql) "from" = true
      /\ test OpenAI.dropTableRe sql = false
      /\ test OpenAI.deleteFromRe sql = false
      /\ test OpenAI.truncateTableRe sql = false
      /\ OpenAI.countChar dq sql mod 2 = 0
      /\ OpenAI.countChar (chr "(") sql = OpenAI.countChar (chr ")") sql
  | Throw message =>
      OpenAI.validateAndAdaptSchema tableSchema = Throw message
      \/ exists sql,
           OpenAI.validateSqlQuery sql <> []
           /\ message = "Invalid SQL generated: " +++ join ", " (OpenAI.validateSqlQuery sql)
  end.
Proof.
  pose proof (GenerateFacts.generateSQL_outcome RegExp query tableSchema tableName content) as H.
  destruct (OpenAI.generateSQL RegExp query tableSchema tableName content) as [sql|message].
  - apply GenerateFacts.validateSqlQuery_nil, H.
  - exact H.
Qed.

(** X8.  The loop of generateSQL over the detected intents appends a GROUP
    BY clause at most once, however many intents require one: the statement
    is left as it is, or it had no group by and ends with one clause, built
    from the statement as it was before the loop. *)
Theorem group_by_appended_once
  (schema : list OpenAI.column) (queryTypes : list OpenAI.queryType) (fixedQuery : str) :
  fold_left (OpenAI.completeGroupBy schema) queryTypes fixedQuery = fixedQuery
  \/ (includes (toLowerCase fixedQuery) "group by" = false
      /\ OpenAI.extractNonAggregatedColumns fixedQuery schema <> []
      /\ fold_left (OpenAI.completeGroupBy schema) queryTypes fixedQuery
         = fixedQuery +++ " GROUP BY "
           +++ join ", " (OpenAI.extractNonAggregatedColumns fixedQuery schema)).
Proof.
  destruct (GenerateFacts.completeGroupBy_fold schema queryTypes fixedQuery) as [H|[Hg H]].
  - left. exact H.
  - destruct (OpenAI.extractNonAggregatedColumns fixedQuery schema) as [|c cs] eqn:Ec.
    + left. clear H.
      induction queryTypes as [|t types IH]; [reflexivity|].
      cbn [fold_left].
      replace (OpenAI.completeGroupBy schema fixedQuery t) with fixedQuery; [exact IH|].
      unfold OpenAI.completeGroupBy.
      destruct (OpenAI.patternOf t OpenAI.QUERY_PATTERNS) as [p|]; [|reflexivity].
      destruct (OpenAI.requiresGroupBy p && negb (includes (toLowerCase fixedQuery) "group by"));
        [|reflexivity].
      cbv zeta. rewrite Ec. reflexivity.
    + right. split; [exact Hg|]. split; [discriminate|].
      rewrite H. unfold groupByClause. rewrite Ec. reflexivity.
Qed.

(** X9.  When formatQueryResults builds a chart, the label series and the
    value series have one entry for each row; and, the keys of the first row
    being distinct and none of them the empty string, the label column is
    another column than the value column. *)
Theorem chart_series_per_row
  (query : str) (rows : list row) (ch : OpenAI.chart)
  (Hchart : OpenAI.chartData query rows = Some ch)
  (Hkeys : forall first, hd_error rows = Some first ->
                         NoDup (map fst first) /\ ~ In [] (map fst first)) :
  length (OpenAI.labels ch) = length rows
  /\ length (OpenAI.data ch) = length rows
  /\ OpenAI.labelColumn ch <> OpenAI.valueColumn ch.
Proof.
  destruct (GenerateFacts.chartData_series query rows ch Hchart) as [Hl Hd].
  split; [exact Hl|]. split; [exact Hd|].
  destruct (OpenAIFacts.chartData_attempted query rows ch Hchart)
    as (_ & _ & first & others & Hr & H2 & before & after & Hk & _ & _ & Hlabel).
  subst rows. destruct (Hkeys first eq_refl) as [Hnodup Hnonempty].
  destruct (GenerateFacts.find_other (map fst first) (OpenAI.valueColumn ch) Hnodup)
    as (k & Hfind & Hne & Hin).
  - rewrite length_map. exact H2.
  - rewrite Hk. apply in_or_app. right. left. reflexivity.
  - rewrite Hlabel, Hfind. destruct k as [|c k]; [contradiction|]. exact Hne.
Qed.

Lemma chart_series_per_row_witness :
  exists ch,
    OpenAI.chartData "show amounts" mixedRows = Some ch
    /\ length (OpenAI.labels ch) = 2 /\ length (OpenAI.data ch) = 2
    /\ OpenAI.labelColumn ch <> OpenAI.valueColumn ch.
Proof.
  destruct (OpenAI.chartData "show amounts" mixedRows) as [ch|] eqn:E;
    [|vm_compute in E; discriminate E].
  exists ch. split; [reflexivity|].
  apply (chart_series_per_row "show amounts" mixedRows ch E).
  intros first Hfirst. injection Hfirst as <-. split;
    [|cbn; intros H; repeat (destruct H as [H|H]; [discriminate H|]); exact H].
  repeat (apply NoDup_cons; [cbn; intros H; repeat (destruct H as [H|H]; [discriminate H|]); exact H|]).
  apply NoDup_nil.
Defined.

(** ** The query controller *)

(** X11.  No statement handed to the store by safeExecuteQuery ends with a
    semicolon: the trailing semicolons of the trimmed statement are removed
    before the validation. *)
Theorem executed_statement_has_no_trailing_semicolon
  (poolQuery : str -> completion (list row)) (sqlQuery : str) :
  Forall (fun statement => endsWithSemicolon statement = false)
    (QueryController.executed (QueryController.safeExecuteQuery poolQuery sqlQuery)).
Proof.
  destruct (ExecuteFacts.safeExecuteQuery_cases poolQuery sqlQuery) as [[-> _]|[-> _]].
  - constructor.
  - constructor; [apply ExecuteFacts.prepare_no_semicolon|constructor].
Qed.

(** X12.  The two validators compared: a statement that the validateSqlQuery
    of the query controller accepts can fail the validateSqlQuery of
    utils/openai.js only on the balance of its quotes or of its parentheses.
    It contains select and from, and the three injection patterns cannot
    match since their keywords are all disallowed by the controller. *)
Theorem controller_valid_then_balance_errors_only (sqlQuery : str)
  (Hvalid : QueryController.validateSqlQuery sqlQuery = QueryController.Valid) :
  Forall balanceError (OpenAI.validateSqlQuery sqlQuery).
Proof. exact (ExecuteFacts.valid_then_balance_only sqlQuery Hvalid). Qed.

Lemma controller_valid_then_balance_errors_only_witness :
  QueryController.validateSqlQuery openParenthesis = QueryController.Valid
  /\ Forall balanceError (OpenAI.validateSqlQuery openParenthesis).
Proof.
  assert (H : QueryController.validateSqlQuery openParenthesis = QueryController.Valid)
    by (vm_compute; reflexivity).
  split; [exact H|]. exact (controller_valid_then_balance_errors_only openParenthesis H).
Defined.

(** X23.  The validation of the query controller does not look at
    semicolons.  When it accepts a statement, it accepts as well that
    statement followed by a semicolon and by any text that holds none of
    the disallowed keywords and neither of the two broken forms of FROM.
    When the preparation leaves such a text as it is (it removes semicolons
    at the end only), safeExecuteQuery hands the whole of it, the semicolon
    and what follows included, to pool.query in one call. *)
Theorem safeExecuteQuery_keeps_inner_semicolons
  (poolQuery : str -> completion (list row)) (first second : str)
  (Hfirst : QueryController.validateSqlQuery first = QueryController.Valid)
  (Hsecond : harmless second) :
  QueryController.validateSqlQuery (first ++ chr ";" :: second) = QueryController.Valid
  /\ (QueryController.prepare (first ++ chr ";" :: second) = first ++ chr ";" :: second ->
      QueryController.safeExecuteQuery poolQuery (first ++ chr ";" :: second)
      = {| QueryController.executed := [first ++ chr ";" :: second];
           QueryController.outcome := poolQuery (first ++ chr ";" :: second) |}).
Proof.
  pose proof (SeveralFacts.validateSqlQuery_separated first second Hfirst Hsecond) as Hvalid.
  split; [exact Hvalid|]. intros Hprepare.
  unfold QueryController.safeExecuteQuery. rewrite Hprepare, Hvalid. reflexivity.
Qed.

Lemma safeExecuteQuery_keeps_inner_semicolons_witness :
  QueryController.validateSqlQuery "SELECT name FROM people" = QueryController.Valid
  /\ harmless " SELECT total FROM orders"
  /\ QueryController.prepare "SELECT name FROM people; SELECT total FROM orders"
     = lit "SELECT name FROM people; SELECT total FROM orders"
  /\ QueryController.executed
       (QueryController.safeExecuteQuery (fun _ => Normal [])
          "SELECT name FROM people; SELECT total FROM orders")
     = [lit "SELECT name FROM people; SELECT total FROM orders"].
Proof.
  assert (H1 : QueryController.validateSqlQuery "SELECT name FROM people"
               = QueryController.Valid) by (vm_compute; reflexivity).
  assert (H2 : harmless " SELECT total FROM orders")
    by (repeat split; vm_compute; reflexivity).
  assert (H3 : QueryController.prepare "SELECT name FROM people; SELECT total FROM orders"
               = lit "SELECT name FROM people; SELECT total FROM orders")
    by (vm_compute; reflexivity).
  split; [exact H1|]. split; [exact H2|]. split; [exact H3|].
  destruct (safeExecuteQuery_keeps_inner_semicolons (fun _ => Normal [])
              "SELECT name FROM people" " SELECT total FROM orders" H1 H2) as [_ H].
  change (lit "SELECT name FROM people" ++ chr ";" :: lit " SELECT total FROM orders")
    with (lit "SELECT name FROM people; SELECT total FROM orders") in H.
  rewrite (H H3). reflexivity.
Defined.

(** X13.  processQuery reads the store exactly when the request carries a
    question and no table name, and its first read is then the catalog of
    tables; with no question, or with a table name, the store is not read. *)
Theorem processQuery_reads_store_iff
  (db : QueryController.store) (req : QueryController.request)
  (log : list QueryController.dbCall) :
  if truthy (orElseStr (QueryController.query req) (QueryController.userQuery req))
     && negb (truthy (QueryController.tableName req))
  then exists new,
         snd (QueryController.processQuery db req log)
         = log ++ QueryController.ListTables :: new
  else snd (QueryController.processQuery db req log) = log.
Proof.
  destruct (truthy (orElseStr (QueryController.query req) (QueryController.userQuery req)))
    eqn:Eq; cbn [andb].
  - destruct (truthy (QueryController.tableName req)) eqn:Et; cbn [negb].
    + apply SelectFacts.processQuery_untouched. right. exact Et.
    + apply SelectFacts.processQuery_reads; assumption.
  - apply SelectFacts.processQuery_untouched. left. exact Eq.
Qed.

(** X14.  With several tables in the catalog, every table gets a relevance
    score, except a table named __proto__: relevanceScores is a plain object
    and the assignment of a number to that key is ignored, so such a table
    is not among the scored ones.  The table processQuery goes on with is
    one of the catalog.  When some score is positive it is a scored table
    with the highest score; otherwise every score is 0 and the fall-back
    choice is made.  An error of a column read ends the request with that
    error. *)
Theorem processQuery_picks_a_best_table
  (db : QueryController.store) (req : QueryController.request) (text : str)
  (log : list QueryController.dbCall) (first second : str) (others : list str)
  (Hquery : orElseStr (QueryController.query req) (QueryController.userQuery req) = Some text)
  (Hnonempty : text <> [])
  (Hnotable : truthy (QueryController.tableName req) = false)
  (Htables : QueryController.tables db = Normal (first :: second :: others)) :
  match QueryController.forEachIO (QueryController.scoreTable db text)
          (first :: second :: others) [] (log ++ [QueryController.ListTables]) with
  | (Throw message, log1) => QueryController.processQuery db req log = (Throw message, log1)
  | (Normal scores, log1) =>
      (forall table, In table (first :: second :: others) -> table <> protoKey ->
                     exists score, In (table, score) scores)
      /\ (forall table score, In (table, score) scores ->
                              In table (first :: second :: others) /\ table <> protoKey)
      /\ exists best,
           QueryController.processQuery db req log
           = (Normal (QueryController.ProcessWithTable text best), log1)
           /\ In best (first :: second :: others)
           /\ ((exists bestScore,
                  In (best, bestScore) scores /\ 0 < bestScore
                  /\ forall table score, In (table, score) scores -> score <= bestScore)
               \/ (forall table score, In (table, score) scores -> score = 0))
  end.
Proof.
  pose proof (SelectFacts.processQuery_consults db req text log Hquery Hnonempty Hnotable
                _ eq_refl) as H.
  rewrite Htables in H. exact H.
Qed.

Lemma processQuery_picks_a_best_table_witness :
  exists best,
    fst (QueryController.processQuery twoTableStore totalRevenue [])
    = Normal (QueryController.ProcessWithTable "What is the total revenue?" best)
    /\ In best [lit "customers"; lit "sales"].
Proof.
  pose proof (processQuery_picks_a_best_table twoTableStore totalRevenue
                "What is the total revenue?" [] "customers" "sales" []
                eq_refl ltac:(discriminate) eq_refl eq_refl) as H.
  destruct (QueryController.forEachIO
              (QueryController.scoreTable twoTableStore "What is the total revenue?")
              [lit "customers"; lit "sales"] [] ([] ++ [QueryController.ListTables]))
    as [[scores|message] log1] eqn:E.
  - destruct H as (_ & _ & best & Heq & Hin & _). exists best. rewrite Heq.
    split; [reflexivity|exact Hin].
  - vm_compute in E. discriminate E.
Defined.

(** ** The upload controller and utils/db.js *)

(** X15.  The table name derived from a file name is made of lower-case
    letters, digits and underscores only, and has as many characters as the
    file name has before its first dot: each other character becomes one
    underscore.  A file name made of such characters only is kept as it is,
    and a file name that begins with a dot gives the empty table name. *)
Theorem defaultTableName_shape (originalname : str) :
  forallb nameChar (UploadController.defaultTableName originalname) = true
  /\ length (UploadController.defaultTableName originalname)
     = length (splitHead (chr ".") originalname)
  /\ (forallb nameChar originalname = true ->
      UploadController.defaultTableName originalname = originalname)
  /\ forall rest, UploadController.defaultTableName (chr "." :: rest) = [].
Proof.
  split; [apply NameFacts.defaultTableName_chars|]. split.
  - rewrite NameFacts.defaultTableName_map. rewrite length_map.
    unfold toLowerCase. apply length_map.
  - split; [apply NameFacts.defaultTableName_clean|].
    intros rest. rewrite NameFacts.defaultTableName_map. reflexivity.
Qed.

(** X16.  createTable replaces each character of a column name that is
    neither a word character nor white space by an underscore and keeps the
    type, so that a sanitized name holds no double quote.  insertData quotes
    the names as parsed: the quoted names of the CREATE statement are those
    of the INSERT statements exactly when every parsed name is already made
    of word characters and white space. *)
Theorem created_and_inserted_column_names (columns : list Host.parsedColumn) :
  Forall (fun col => forallb safeChar (Host.name (Db.sanitize col)) = true
                     /\ ~ In dq (Host.name (Db.sanitize col))
                     /\ Host.type (Db.sanitize col) = Host.type col) columns
  /\ (map (fun col => quoted (Host.name col)) (map Db.sanitize columns)
      = map (fun col => quoted (Host.name col)) columns
      <-> Forall (fun col => forallb safeChar (Host.name col) = true) columns).
Proof.
  split.
  - apply Forall_forall. intros col _.
    pose proof (NameFacts.sanitize_safe col) as Hs.
    split; [exact Hs|]. split; [|reflexivity].
    intros Hin. pose proof (proj1 (forallb_forall _ _) Hs dq Hin) as Hq.
    rewrite NameFacts.safeChar_not_dq in Hq. discriminate Hq.
  - induction columns as [|col columns IH]; cbn [map].
    + split; [constructor|reflexivity].
    + split.
      * intros H. injection H as Hhead Htail.
        apply app_inv_tail in Hhead.
        constructor; [apply NameFacts.sanitize_same; exact Hhead|apply IH; exact Htail].
      * intros H. inversion H as [|c cs Hc Hcs]; subst.
        rewrite (proj2 (NameFacts.sanitize_same col) Hc).
        rewrite (proj2 IH Hcs). reflexivity.
Qed.

(** X17.  createTable never throws and sends one or two statements.  The
    first is the existence query.  When that query fails or answers without
    a row, nothing else is sent and the answer is false.  When it answers a
    row, the CREATE TABLE statement is sent, and the answer is true exactly
    when that statement succeeds. *)
Theorem createTable_outcome
  (w : Host.world) (tableName : str) (columns : list Host.parsedColumn)
  (log : list Host.event) :
  match Host.poolQuery w log Db.tableExistsQuery [JString tableName] with
  | Normal (_ :: _) =>
      Db.createTable w tableName columns log
      = (Normal
           match Host.poolQuery w (log ++ [Host.Query Db.tableExistsQuery [JString tableName]])
                   (createStatement tableName columns) [] with
           | Normal _ => true
           | Throw _ => false
           end,
         log ++ [Host.Query Db.tableExistsQuery [JString tableName];
                 Host.Query (createStatement tableName columns) []])
  | Normal [] | Throw _ =>
      Db.createTable w tableName columns log
      = (Normal false, log ++ [Host.Query Db.tableExistsQuery [JString tableName]])
  end.
Proof.
  rewrite UploadFacts.createTable_run.
  destruct (Host.poolQuery w log Db.tableExistsQuery [JString tableName])
    as [[|first rows]|message]; reflexivity.
Qed.

(** X18.  insertData as a transaction.  If taking the client fails, the
    error is thrown and nothing else is called.  Otherwise the client is
    released as the last call.  When BEGIN succeeds there is one INSERT for
    each record, in the order of the data, the batches of 100 making no
    difference; then COMMIT; ROLLBACK follows exactly when COMMIT fails.  The
    counters returned are the number of INSERT statements that succeeded and
    the number that failed, so they add up to the number of records; they
    are returned unless a ROLLBACK that was called throws, in which case its
    error is thrown.  When BEGIN fails, ROLLBACK is called, no record is
    inserted, and both counters are 0. *)
Theorem insertData_transaction
  (w : Host.world) (tableName : str) (columns : list Host.parsedColumn) (data : list row)
  (log : list Host.event) :
  UploadController.insertData w tableName columns data log
  = match Host.poolConnect w log with
    | Throw message => (Throw message, log ++ [Host.Connect])
    | Normal _ =>
        match Host.clientQuery w (log ++ [Host.Connect]) "BEGIN" [] with
        | Throw _ =>
            (match Host.clientQuery w (begun log) "ROLLBACK" [] with
             | Normal _ => Normal (0, 0)
             | Throw message => Throw message
             end,
             begun log ++ [Host.ClientQuery "ROLLBACK" []; Host.Release])
        | Normal _ =>
            match Host.clientQuery w (inserted tableName columns data log) "COMMIT" [] with
            | Normal _ =>
                (Normal (tally w tableName columns data (begun log)),
                 inserted tableName columns data log
                 ++ [Host.ClientQuery "COMMIT" []; Host.Release])
            | Throw _ =>
                (match Host.clientQuery w
                         (inserted tableName columns data log ++ [Host.ClientQuery "COMMIT" []])
                         "ROLLBACK" [] with
                 | Normal _ => Normal (tally w tableName columns data (begun log))
                 | Throw message => Throw message
                 end,
                 inserted tableName columns data log
                 ++ [Host.ClientQuery "COMMIT" []; Host.ClientQuery "ROLLBACK" [];
                     Host.Release])
            end
        end
    end
  /\ fst (tally w tableName columns data (begun log))
     + snd (tally w tableName columns data (begun log)) = length data.
Proof.
  split.
  - exact (UploadFacts.insertData_run w tableName columns data log).
  - apply UploadFacts.tally_total.
Qed.

(** X19.  A non-empty string value of a NUMERIC column is sent to the store
    without its dollar signs and commas, every other character kept in its
    order. *)
Theorem convertValue_numeric_strips_currency
  (col : Host.parsedColumn) (c : ascii) (s : str)
  (Htype : Host.type col = lit "NUMERIC") :
  UploadController.convertValue col (JString (c :: s))
  = JString (filter (fun x => negb (currencyChar x)) (c :: s)).
Proof.
  apply NameFacts.clean_numeric. rewrite Htype. reflexivity.
Qed.

Lemma convertValue_numeric_strips_currency_witness :
  UploadController.convertValue priceColumn (JString "$1,200.50") = JString "1200.50".
Proof.
  exact (convertValue_numeric_strips_currency priceColumn "$" "1,200.50" eq_refl).
Defined.

(** X20.  A string value of an INTEGER column that is a plain decimal text
    (an optional minus sign, digits, optionally a point and digits) is sent
    to the store as the double nearest to its integer part: parseInt drops
    the fraction without rounding it, and an integer part of at most 2^53 is
    sent exactly.  A larger one is rounded to a multiple of the unit in the
    last place within half a unit, or is infinite. *)
Theorem convertValue_integer_truncates
  (col : Host.parsedColumn) (neg : bool) (ip : str) (fp : option str)
  (Htype : Host.type col = lit "INTEGER")
  (Hdigits : digitString ip = true) :
  UploadController.convertValue col (JString (signText neg ++ ip ++ fractionText fp))
  = JNumber match nearestDouble (decimalValue ip) with
            | Some v => Decimal neg v 0
            | None => Infinite neg
            end
  /\ ((decimalValue ip <= 2 ^ 53)%Z ->
      UploadController.convertValue col (JString (signText neg ++ ip ++ fractionText fp))
      = JNumber (Decimal neg (decimalValue ip) 0))
  /\ (forall v,
        (2 ^ 53 < decimalValue ip)%Z -> nearestDouble (decimalValue ip) = Some v ->
        (v mod 2 ^ (Z.log2 (decimalValue ip) - 52) = 0
         /\ 2 * Z.abs (v - decimalValue ip) <= 2 ^ (Z.log2 (decimalValue ip) - 52))%Z).
Proof.
  assert (Hsent : UploadController.convertValue col
                    (JString (signText neg ++ ip ++ fractionText fp))
                  = JNumber match nearestDouble (decimalValue ip) with
                            | Some v => Decimal neg v 0
                            | None => Infinite neg
                            end).
  { rewrite <- (NameFacts.parseInt10_decimal neg ip fp Hdigits).
    unfold UploadController.convertValue. rewrite Htype.
    destruct (signText neg ++ ip ++ fractionText fp) as [|c s] eqn:E.
    - exfalso. destruct neg; [discriminate E|]. cbn [signText app] in E.
      destruct ip as [|d ip]; [discriminate Hdigits|discriminate E].
    - reflexivity. }
  split; [exact Hsent|]. split.
  - intros Hle. rewrite Hsent. rewrite NameFacts.nearestDouble_exact; [reflexivity|].
    split; [|exact Hle].
    apply (NumberFacts.decimalValue_bound ip (DecimalFacts.digitString_forallb ip Hdigits)).
  - intros v Hlarge Hv. exact (NameFacts.nearestDouble_near _ v Hlarge Hv).
Qed.

Lemma convertValue_integer_truncates_witness :
  UploadController.convertValue countColumn (JString "-12.75")
  = JNumber (Decimal true 12 0)
  /\ UploadController.convertValue countColumn (JString "9007199254740993")
     = JNumber (Decimal false 9007199254740992 0).
Proof.
  split.
  - apply (proj1 (proj2 (convertValue_integer_truncates countColumn true "12"
                           (Some (lit "75")) eq_refl eq_refl))).
    vm_compute. discriminate.
  - exact (proj1 (convertValue_integer_truncates countColumn false "9007199254740993"
                    None eq_refl eq_refl)).
Defined.

(** X21.  Without the overwrite option (the string true or the boolean
    true), no statement that uploadFile sends to the store begins with DROP
    TABLE, whatever the store, the parser and the file system answer. *)
Theorem uploadFile_drops_only_on_overwrite
  (w : Host.world) (req : UploadController.uploadRequest) (log : list Host.event)
  (Hoverwrite : UploadController.overwriteRequested (UploadController.overwrite req) = false) :
  exists new,
    snd (UploadController.uploadFile w req log) = log ++ new
    /\ Forall (fun e => isDrop e = false) new.
Proof. exact (UploadFacts.uploadFile_keeps w req Hoverwrite log). Qed.

Lemma uploadFile_drops_only_on_overwrite_witness :
  exists new,
    snd (UploadController.uploadFile calmWorld salesUpload []) = [] ++ new
    /\ Forall (fun e => isDrop e = false) new.
Proof.
  exact (uploadFile_drops_only_on_overwrite calmWorld salesUpload [] eq_refl).
Defined.

(** X22.  When removing a file does not fail, uploadFile on a request with a
    file never throws, and it removes the uploaded file exactly once, as its
    last call, on every path: the 409 answer, the empty file, the failed
    CREATE, the success, and every error caught on the way. *)
Theorem uploadFile_removes_the_file_once
  (w : Host.world) (req : UploadController.uploadRequest) (f : UploadController.uploadedFile)
  (log : list Host.event)
  (Hunlink : forall log path, Host.unlinkSync w log path = Normal tt)
  (Hfile : UploadController.file req = Some f)
  (Hpath : UploadController.path f <> []) :
  exists response before,
    UploadController.uploadFile w req log
    = (Normal response, log ++ before ++ [Host.Unlink (UploadController.path f)])
    /\ Forall (fun e => isUnlink e = false) before.
Proof.
  apply UploadFacts.uploadFile_tidy; [exact Hunlink|exact Hfile|].
  destruct (UploadController.path f); [contradiction|reflexivity].
Qed.

Lemma uploadFile_removes_the_file_once_witness :
  exists response before,
    UploadController.uploadFile calmWorld salesUpload []
    = (Normal response, [] ++ before ++ [Host.Unlink "uploads/file-1.csv"])
    /\ Forall (fun e => isUnlink e = false) before.
Proof.
  apply (uploadFile_removes_the_file_once calmWorld salesUpload
           {| UploadController.originalname := "Sales 2024.csv";
              UploadController.path := "uploads/file-1.csv" |} []).
  - intros log path. reflexivity.
  - reflexivity.
  - discriminate.
Defined.
